(** * Uber-Mini: shortest routes and greedy ride matching

    A shallow embedding of the C++ core under [backend/cpp]
    ([min_heap], [graph], [dijkstra], [driver_manager], [ride_matcher],
    and [ensureConnectivity] of [city_graph_generator]) together with the
    properties stated about it.

    Modelling conventions.
    - [int] values (vertex ids, counters) are [Z]; positions inside a
      [std::vector] are [nat].  The code does arithmetic on [int] only
      for heap positions and counters, which stay far below the range
      of [int], so its wrap-around is not modelled.
    - [double] values are the type [dist]: a finite double is the
      rational number it denotes, and [Inf] is [+infinity].  Sums,
      products and quotients are rounded to the nearest double (binary64,
      ties to even) and overflow to [+infinity], as the machine computes
      them.  NaN and [-infinity] are not values of [dist]: the code is
      closed under the others, since it refuses weights below 0 and so
      only adds, multiplies and divides numbers that are not negative.
    - [std::unordered_map] is stdpp's [gmap]; [std::vector], [std::deque]
      and [std::queue] are lists.
    - An exception thrown by the C++ code is a value [Err _] of [result].
    - Reading a vector out of range is undefined behaviour in C++; the
      model returns a default there and every theorem is stated for
      states in which the access is in range.
    - The diagnostic logs of [MinHeap] and [Dijkstra] never take part in
      control flow and are left out; the logs of [DriverManager] and
      [RideMatcher] are kept, as structured entries. *)

From Stdlib Require Import QArith Lqa.
From stdpp Require Import gmap strings list fin_maps sorting pretty.

Local Open Scope Z_scope.

(** ** Distances: [double] with [+infinity] *)

Inductive dist : Type :=
| Fin (q : Q)
| Inf.

Definition Qltb (x y : Q) : bool :=
  match (x ?= y)%Q with Lt => true | _ => false end.

(** [a < b] on doubles. *)
Definition dlt (a b : dist) : bool :=
  match a, b with
  | Fin x, Fin y => Qltb x y
  | Fin _, Inf => true
  | Inf, _ => false
  end.

(** [a > b] on doubles. *)
Definition dgt (a b : dist) : bool := dlt b a.

(** [a == infinity]. *)
Definition is_inf (a : dist) : bool :=
  match a with Inf => true | Fin _ => false end.

(** [a <= b], as the negation of [b < a]. *)
Definition dle (a b : dist) : Prop := dlt b a = false.

(** *** Rounding

    Every finite double is a multiple of [2^-1074] with at most 53
    significant bits, below [2^1024] in absolute value.  The result of
    an arithmetic operation is the exact result rounded to the nearest
    such number, to the one with an even last bit when two are equally
    near, and [+infinity] when that is [2^1024] or more. *)

(** The integer nearest to [a / b], the even one in case of a tie
    ([0 <= a], [0 < b]). *)
Definition rne (a b : Z) : Z :=
  let f := a / b in
  let r := a mod b in
  if 2 * r <? b then f
  else if b <? 2 * r then f + 1
  else if Z.even f then f else f + 1.

(** The binary place of the last of the 53 significant bits of a number
    whose integer part is [f], both in units of [2^-1074]; the place is
    0 for the subnormal numbers. *)
Definition last_place (f : Z) : Z := Z.max 0 (Z.log2 f - 52).

(** [n / d], a number of units of [2^-1074], rounded to 53 significant
    bits. *)
Definition round_units (n d : Z) : Z :=
  let s := last_place (n / d) in
  rne n (d * 2 ^ s) * 2 ^ s.

(** The double of [m] units of [2^-1074], as a fraction in lowest
    terms. *)
Definition units_to_Q (m : Z) : Q := Qred (Qmake m (2 ^ 1074)%positive).

(** The double nearest to [q], for [0 <= q]. *)
Definition round_mag (q : Q) : dist :=
  let m := round_units (Qnum q * 2 ^ 1074) (Z.pos (Qden q)) in
  if 2 ^ 2098 <=? m then Inf else Fin (units_to_Q m).

(** [-a].  The opposite of [+infinity] is below every double; the code
    only ever compares a negative result with 0, and the model gives
    [-2^1024] for it. *)
Definition dneg (a : dist) : dist :=
  match a with
  | Fin x => Fin (- x)
  | Inf => Fin (- inject_Z (2 ^ 1024))
  end.

(** The double nearest to [q]. *)
Definition round_double (q : Q) : dist :=
  if Qltb q 0 then dneg (round_mag (- q)) else round_mag q.

(** [a + b] on doubles. *)
Definition dplus (a b : dist) : dist :=
  match a, b with
  | Fin x, Fin y => round_double (x + y)
  | _, _ => Inf
  end.

(** [a * c] on doubles, for a constant [c] above 0 (the code multiplies
    by 60 and by 100). *)
Definition dmul (a : dist) (c : Q) : dist :=
  match a with
  | Fin x => round_double (x * c)
  | Inf => Inf
  end.

(** [a / c] on doubles, for a constant [c] above 0 (the code divides by
    40). *)
Definition ddiv (a : dist) (c : Q) : dist :=
  match a with
  | Fin x => round_double (x / c)
  | Inf => Inf
  end.

(** ** min_heap.h / min_heap.cpp *)

Record HeapNode : Type := mkHeapNode {
  vertex : Z;
  distance : dist
}.

(** [HeapNode(int v = -1, double d = infinity)] *)
Definition HeapNode_default : HeapNode := mkHeapNode (-1) Inf.

Record MinHeap : Type := mkMinHeap {
  heap : list HeapNode;
  positions : gmap Z nat
}.

(** [MinHeap::MinHeap()] *)
Definition MinHeap_new : MinHeap := mkMinHeap [] ∅.

Definition parent (i : nat) : nat := ((i - 1) / 2)%nat.
Definition leftChild (i : nat) : nat := (2 * i + 1)%nat.
Definition rightChild (i : nat) : nat := (2 * i + 2)%nat.

(** [heap[i]] *)
Definition heap_at (l : list HeapNode) (i : nat) : HeapNode :=
  default HeapNode_default (l !! i).

(** [MinHeap::swap] *)
Definition swap (i j : nat) (h : MinHeap) : MinHeap :=
  let hi := heap_at (heap h) i in
  let hj := heap_at (heap h) j in
  let positions1 := <[vertex hi := j]> (positions h) in
  let positions2 := <[vertex hj := i]> positions1 in
  let temp := hi in
  let heap1 := <[i := hj]> (heap h) in
  let heap2 := <[j := temp]> heap1 in
  mkMinHeap heap2 positions2.

(** [MinHeap::heapifyUp]: the [while] loop, one iteration per unit of
    fuel.  The index strictly decreases, so [i] units are enough. *)
Fixpoint heapifyUp_loop (fuel : nat) (i : nat) (h : MinHeap) : MinHeap :=
  match fuel with
  | O => h
  | S fuel' =>
      if (0 <? i)%nat &&
         dgt (distance (heap_at (heap h) (parent i)))
             (distance (heap_at (heap h) i))
      then heapifyUp_loop fuel' (parent i) (swap i (parent i) h)
      else h
  end.

Definition heapifyUp (i : nat) (h : MinHeap) : MinHeap :=
  heapifyUp_loop i i h.

(** [MinHeap::heapifyDown]: the recursion descends one level per call,
    so [heap.size()] units of fuel are enough. *)
Fixpoint heapifyDown_rec (fuel : nat) (i : nat) (h : MinHeap) : MinHeap :=
  match fuel with
  | O => h
  | S fuel' =>
      let minIndex := i in
      let left := leftChild i in
      let right := rightChild i in
      let minIndex :=
        if (left <? length (heap h))%nat &&
           dlt (distance (heap_at (heap h) left))
               (distance (heap_at (heap h) minIndex))
        then left else minIndex in
      let minIndex :=
        if (right <? length (heap h))%nat &&
           dlt (distance (heap_at (heap h) right))
               (distance (heap_at (heap h) minIndex))
        then right else minIndex in
      if negb (minIndex =? i)%nat
      then heapifyDown_rec fuel' minIndex (swap i minIndex h)
      else h
  end.

Definition heapifyDown (i : nat) (h : MinHeap) : MinHeap :=
  heapifyDown_rec (length (heap h)) i h.

(** [MinHeap::insert] *)
Definition insert (v : Z) (d : dist) (h : MinHeap) : MinHeap :=
  let node := mkHeapNode v d in
  let heap1 := heap h ++ [node] in
  let index := (length heap1 - 1)%nat in
  let positions1 := <[v := index]> (positions h) in
  heapifyUp index (mkMinHeap heap1 positions1).

(** [MinHeap::isEmpty] *)
Definition isEmpty (h : MinHeap) : bool :=
  match heap h with [] => true | _ => false end.

(** [MinHeap::size] *)
Definition size_heap (h : MinHeap) : Z := Z.of_nat (length (heap h)).

(** [MinHeap::extractMin]: the extracted node and the heap left. *)
Definition extractMin (h : MinHeap) : HeapNode * MinHeap :=
  match heap h with
  | [] => (HeapNode_default, h)
  | minNode :: _ =>
      let back := heap_at (heap h) (length (heap h) - 1) in
      let heap1 := <[0%nat := back]> (heap h) in
      let positions1 := <[vertex back := 0%nat]> (positions h) in
      let heap2 := take (length heap1 - 1) heap1 in
      let positions2 := delete (vertex minNode) positions1 in
      let h2 := mkMinHeap heap2 positions2 in
      (minNode, if isEmpty h2 then h2 else heapifyDown 0 h2)
  end.

(** [MinHeap::decreaseKey] *)
Definition decreaseKey (v : Z) (newDistance : dist) (h : MinHeap) : MinHeap :=
  match positions h !! v with
  | None => insert v newDistance h
  | Some index =>
      let node := heap_at (heap h) index in
      let heap1 := <[index := mkHeapNode (vertex node) newDistance]> (heap h) in
      heapifyUp index (mkMinHeap heap1 (positions h))
  end.

(** [MinHeap::contains] *)
Definition contains (v : Z) (h : MinHeap) : bool :=
  bool_decide (is_Some (positions h !! v)).

(** ** Exceptions *)

Inductive exn : Type :=
| out_of_range (what : string)
| invalid_argument (what : string)
| length_error (what : string).

Inductive result (A : Type) : Type :=
| Ok (a : A)
| Err (e : exn).
Arguments Ok {A} a.
Arguments Err {A} e.

(** [e.what()] *)
Definition what_of (e : exn) : string :=
  match e with
  | out_of_range w | invalid_argument w | length_error w => w
  end.

(** ** graph.h / graph.cpp *)

Record Edge : Type := mkEdge {
  destination : Z;
  weight : dist;
  roadName : string
}.

Record Node : Type := mkNode {
  node_id : Z;
  node_name : string;
  latitude : Q;
  longitude : Q
}.

Record Graph : Type := mkGraph {
  numVertices : Z;
  adjacencyList : list (list Edge);
  nodes : gmap Z Node
}.

(** [Graph::Graph(int vertices)]; [resize] with a negative count throws. *)
Definition Graph_new (vertices : Z) : result Graph :=
  if vertices <? 0 then Err (length_error "vector::resize")
  else Ok (mkGraph vertices (replicate (Z.to_nat vertices) []) ∅).

(** [adjacencyList[v].emplace_back(dest, w, name)] *)
Definition emplace_edge (v : Z) (e : Edge) (adj : list (list Edge)) :
    list (list Edge) :=
  alter (fun l => l ++ [e]) (Z.to_nat v) adj.

Definition invalid_vertex (g : Graph) (v : Z) : bool :=
  (v <? 0) || (v >=? numVertices g).

(** [Graph::addEdge] *)
Definition addEdge (src dest : Z) (w : dist) (name : string) (g : Graph) :
    result Graph :=
  if invalid_vertex g src || invalid_vertex g dest
  then Err (out_of_range "Invalid vertex index")
  else if dlt w (Fin 0)
  then Err (invalid_argument "Edge weight cannot be negative")
  else
    let adj1 := emplace_edge src (mkEdge dest w name) (adjacencyList g) in
    let adj2 := emplace_edge dest (mkEdge src w name) adj1 in
    Ok (mkGraph (numVertices g) adj2 (nodes g)).

(** [Graph::addDirectedEdge] *)
Definition addDirectedEdge (src dest : Z) (w : dist) (name : string)
    (g : Graph) : result Graph :=
  if invalid_vertex g src || invalid_vertex g dest
  then Err (out_of_range "Invalid vertex index")
  else if dlt w (Fin 0)
  then Err (invalid_argument "Edge weight cannot be negative")
  else
    let adj1 := emplace_edge src (mkEdge dest w name) (adjacencyList g) in
    Ok (mkGraph (numVertices g) adj1 (nodes g)).

(** [Graph::addNode] *)
Definition addNode (id : Z) (name : string) (lat lon : Q) (g : Graph) :
    result Graph :=
  if invalid_vertex g id
  then Err (out_of_range "Invalid node ID")
  else Ok (mkGraph (numVertices g) (adjacencyList g)
                   (<[id := mkNode id name lat lon]> (nodes g))).

(** [adjacencyList[vertex]] *)
Definition adj_at (g : Graph) (v : Z) : list Edge :=
  default [] (adjacencyList g !! Z.to_nat v).

(** [Graph::getAdjacentNodes] *)
Definition getAdjacentNodes (g : Graph) (v : Z) : result (list Edge) :=
  if invalid_vertex g v
  then Err (out_of_range "Invalid vertex index")
  else Ok (adj_at g v).

(** [Graph::getNode] *)
Definition getNode (g : Graph) (id : Z) : result Node :=
  match nodes g !! id with
  | None => Err (out_of_range "Node not found")
  | Some n => Ok n
  end.

(** [Graph::nodeExists] *)
Definition nodeExists (g : Graph) (id : Z) : bool :=
  bool_decide (is_Some (nodes g !! id)).

(** [Graph::getNumVertices] *)
Definition getNumVertices (g : Graph) : Z := numVertices g.

(** The body of the inner loop of [Graph::validate]. *)
Definition edge_valid (g : Graph) (e : Edge) : bool :=
  negb (invalid_vertex g (destination e)) &&
  negb (dlt (weight e) (Fin 0)).

(** [Graph::validate] *)
Definition validate (g : Graph) : bool :=
  forallb (fun i => forallb (edge_valid g) (adj_at g (Z.of_nat i)))
          (seq 0 (Z.to_nat (numVertices g))).

(** ** dijkstra.h / dijkstra.cpp *)

Record DijkstraResult : Type := mkDijkstraResult {
  distances : list dist;
  predecessors : list Z;
  dr_success : bool;
  dr_errorMessage : string
}.

Record PathResult : Type := mkPathResult {
  path : list Z;
  totalDistance : dist;
  estimatedTime : dist;
  roadNames : list string;
  found : bool
}.

(** [PathResult()] *)
Definition PathResult_default : PathResult :=
  mkPathResult [] (Fin 0) (Fin 0) [] false.

(** [v[i]] and [v[i] = x] for a vector indexed by an [int]. *)
Definition vget {A : Type} (d : A) (l : list A) (i : Z) : A :=
  if i <? 0 then d else default d (l !! Z.to_nat i).

Definition vset {A : Type} (l : list A) (i : Z) (x : A) : list A :=
  if i <? 0 then l else <[Z.to_nat i := x]> l.

(** The variables of the main loop of [findShortestPaths]. *)
Record DState : Type := mkDState {
  st_distances : list dist;
  st_predecessors : list Z;
  st_pq : MinHeap
}.

(** The body of [for (const Edge& edge : neighbors)]. *)
Definition relax_edge (u : Z) (st : DState) (edge : Edge) : DState :=
  let v := destination edge in
  let w := weight edge in
  let newDist := dplus (vget Inf (st_distances st) u) w in
  if dlt newDist (vget Inf (st_distances st) v)
  then mkDState (vset (st_distances st) v newDist)
                (vset (st_predecessors st) v u)
                (decreaseKey v newDist (st_pq st))
  else st.

(** How the [while (!pq.isEmpty())] loop was left. *)
Inductive LoopExit : Type :=
| LoopDone                (* the heap became empty *)
| LoopThrew (e : exn)     (* [getAdjacentNodes] threw *)
| LoopFuel.               (* the model ran out of fuel *)

(** The [while] loop of [findShortestPaths], one iteration per unit of
    fuel. *)
Fixpoint dijkstra_loop (g : Graph) (fuel : nat) (st : DState) :
    DState * LoopExit :=
  if isEmpty (st_pq st) then (st, LoopDone)
  else
    match fuel with
    | O => (st, LoopFuel)
    | S fuel' =>
        let '(current, pq1) := extractMin (st_pq st) in
        let u := vertex current in
        let d := distance current in
        let st1 := mkDState (st_distances st) (st_predecessors st) pq1 in
        if dgt d (vget Inf (st_distances st) u)
        then dijkstra_loop g fuel' st1
        else
          match getAdjacentNodes g u with
          | Err e => (st1, LoopThrew e)
          | Ok neighbors =>
              dijkstra_loop g fuel' (fold_left (relax_edge u) neighbors st1)
          end
    end.

(** The state before the loop. *)
Definition dijkstra_init (g : Graph) (source : Z) : DState :=
  let n := Z.to_nat (getNumVertices g) in
  let distances0 := replicate n Inf in
  let predecessors0 := replicate n (-1) in
  mkDState (vset distances0 source (Fin 0)) predecessors0
           (insert source (Fin 0) MinHeap_new).

(** [Dijkstra::findShortestPaths], with the fuel of the main loop. *)
Definition findShortestPaths_fuel (fuel : nat) (g : Graph) (source : Z) :
    DijkstraResult :=
  if negb (nodeExists g source)
  then mkDijkstraResult [] [] false "Source node does not exist"
  else
    match dijkstra_loop g fuel (dijkstra_init g source) with
    | (st, LoopThrew e) =>
        mkDijkstraResult (st_distances st) (st_predecessors st) false
          ("Error processing node: " +:+ what_of e)
    | (st, _) =>
        mkDijkstraResult (st_distances st) (st_predecessors st) true
          EmptyString
    end.

(** Every iteration extracts one vertex and no vertex is extracted twice
    on a well-formed graph, so [numVertices] iterations are enough. *)
Definition dijkstra_fuel (g : Graph) : nat := Z.to_nat (numVertices g).

Definition findShortestPaths (g : Graph) (source : Z) : DijkstraResult :=
  findShortestPaths_fuel (dijkstra_fuel g) g source.

(** The [while (current != -1)] loop of [reconstructPath]; [acc] is the
    vector [path] before it is reversed. *)
Fixpoint reconstruct_loop (fuel : nat) (source : Z) (preds : list Z)
    (current : Z) (acc : list Z) : list Z :=
  match fuel with
  | O => acc
  | S fuel' =>
      if current =? -1 then acc
      else
        let acc1 := acc ++ [current] in
        if current =? source then acc1
        else reconstruct_loop fuel' source preds (vget (-1) preds current) acc1
  end.

(** [Dijkstra::reconstructPath]; a chain of predecessors without a cycle
    has at most [predecessors.size()] vertices. *)
Definition reconstructPath (source destination : Z) (preds : list Z) : list Z :=
  rev (reconstruct_loop (length preds) source preds destination []).

(** [Dijkstra::calculateETA]: [(distance / avgSpeedKmh) * 60.0], each
    of the two operations rounded. *)
Definition calculateETA_speed (distance : dist) (avgSpeedKmh : Q) : dist :=
  dmul (ddiv distance avgSpeedKmh) 60.

Definition calculateETA (distance : dist) : dist :=
  calculateETA_speed distance 40.

(** The name of the first edge [from -> to]. *)
Fixpoint first_road (to : Z) (edges : list Edge) : list string :=
  match edges with
  | [] => []
  | edge :: rest =>
      if destination edge =? to then [roadName edge] else first_road to rest
  end.

(** The loop that collects the road names along the path.  On a
    well-formed graph every vertex of the path is in range, so
    [getAdjacentNodes] cannot throw there; the model reads no edge when it
    would. *)
Fixpoint road_names (g : Graph) (p : list Z) : list string :=
  match p with
  | from :: (to :: _) as rest =>
      match getAdjacentNodes g from with
      | Ok edges => first_road to edges
      | Err _ => []
      end ++ road_names g rest
  | _ => []
  end.

(** [Dijkstra::findShortestPath] *)
Definition findShortestPath (g : Graph) (source destination : Z) : PathResult :=
  if negb (nodeExists g source) then PathResult_default
  else if negb (nodeExists g destination) then PathResult_default
  else
    let dijkstraResult := findShortestPaths g source in
    if negb (dr_success dijkstraResult) then PathResult_default
    else if is_inf (vget Inf (distances dijkstraResult) destination)
    then PathResult_default
    else
      let p := reconstructPath source destination
                 (predecessors dijkstraResult) in
      let total := vget Inf (distances dijkstraResult) destination in
      mkPathResult p total (calculateETA total) (road_names g p) true.

(** ** driver_manager.h / driver_manager.cpp *)

Record Driver : Type := mkDriver {
  driver_id : string;
  driver_name : string;
  currentLocation : Z;
  isAvailable : bool;
  vehicleType : string;
  rating : Q;
  completedRides : Z
}.

(** The constructor of [Driver]: empty id and name, location 0, vehicle
    "Sedan" and rating 5.0 by default; a new driver is available. *)
Definition Driver_new (id name : string) (location : Z) (vehicle : string)
    (rate : Q) : Driver :=
  mkDriver id name location true vehicle rate 0.

Definition Driver_default : Driver :=
  Driver_new EmptyString EmptyString 0 "Sedan" 5.

Record NearestDriverResult : Type := mkNearestDriverResult {
  nd_driver : Driver;
  nd_distance : dist;
  pathToPassenger : list Z;
  nd_found : bool
}.

(** [NearestDriverResult()] *)
Definition NearestDriverResult_default : NearestDriverResult :=
  mkNearestDriverResult Driver_default (Fin 0) [] false.

(** The entries of [DriverManager::operationLogs], one constructor per
    message. *)
Inductive DriverLog : Type :=
| LogAddFailed (id : string)
| LogAdded (id name : string) (location : Z)
| LogRemoveFailed (id : string)
| LogRemoved (id : string)
| LogLocationFailed (id : string)
| LogLocationUpdated (id : string) (oldLocation newLocation : Z)
| LogAvailabilityFailed (id : string)
| LogAvailabilityUpdated (id : string) (available : bool).

Record DriverManager : Type := mkDriverManager {
  drivers : gmap string Driver;
  operationLogs : list DriverLog
}.

(** [DriverManager::DriverManager()] *)
Definition DriverManager_new : DriverManager := mkDriverManager ∅ [].

(** [DriverManager::logOperation] *)
Definition dm_log (entry : DriverLog) (dm : DriverManager) : DriverManager :=
  mkDriverManager (drivers dm) (operationLogs dm ++ [entry]).

(** [DriverManager::addDriver] *)
Definition dm_addDriver (driver : Driver) (dm : DriverManager) :
    bool * DriverManager :=
  match drivers dm !! driver_id driver with
  | Some _ => (false, dm_log (LogAddFailed (driver_id driver)) dm)
  | None =>
      let dm1 := mkDriverManager (<[driver_id driver := driver]> (drivers dm))
                                 (operationLogs dm) in
      (true, dm_log (LogAdded (driver_id driver) (driver_name driver)
                              (currentLocation driver)) dm1)
  end.

(** [DriverManager::removeDriver] *)
Definition removeDriver (driverId : string) (dm : DriverManager) :
    bool * DriverManager :=
  match drivers dm !! driverId with
  | None => (false, dm_log (LogRemoveFailed driverId) dm)
  | Some _ =>
      let dm1 := mkDriverManager (delete driverId (drivers dm))
                                 (operationLogs dm) in
      (true, dm_log (LogRemoved driverId) dm1)
  end.

(** [DriverManager::getDriver]; [None] is the null pointer. *)
Definition dm_getDriver (driverId : string) (dm : DriverManager) :
    option Driver :=
  drivers dm !! driverId.

(** [DriverManager::updateDriverLocation] *)
Definition dm_updateDriverLocation (driverId : string) (newLocation : Z)
    (dm : DriverManager) : bool * DriverManager :=
  match drivers dm !! driverId with
  | None => (false, dm_log (LogLocationFailed driverId) dm)
  | Some d =>
      let oldLocation := currentLocation d in
      let d1 := mkDriver (driver_id d) (driver_name d) newLocation
                         (isAvailable d) (vehicleType d) (rating d)
                         (completedRides d) in
      let dm1 := mkDriverManager (<[driverId := d1]> (drivers dm))
                                 (operationLogs dm) in
      (true, dm_log (LogLocationUpdated driverId oldLocation newLocation) dm1)
  end.

(** [DriverManager::updateDriverAvailability] *)
Definition updateDriverAvailability (driverId : string) (available : bool)
    (dm : DriverManager) : bool * DriverManager :=
  match drivers dm !! driverId with
  | None => (false, dm_log (LogAvailabilityFailed driverId) dm)
  | Some d =>
      let d1 := mkDriver (driver_id d) (driver_name d) (currentLocation d)
                         available (vehicleType d) (rating d)
                         (completedRides d) in
      let dm1 := mkDriverManager (<[driverId := d1]> (drivers dm))
                                 (operationLogs dm) in
      (true, dm_log (LogAvailabilityUpdated driverId available) dm1)
  end.

(** [for (const auto& pair : m)] over an [unordered_map]: the order is
    not specified by the language; the model enumerates the map with
    [map_to_list], and the theorems use only that this is an enumeration
    of the entries without repetition. *)
Definition unordered_iter {K : Type} `{Countable K} {V : Type}
    (m : gmap K V) : list (K * V) :=
  map_to_list m.

(** [DriverManager::getAvailableDrivers] *)
Definition getAvailableDrivers (dm : DriverManager) : list Driver :=
  fold_left (fun available pair =>
               if isAvailable (snd pair) then available ++ [snd pair]
               else available)
            (unordered_iter (drivers dm)) [].

(** [DriverManager::getAllDrivers] *)
Definition dm_getAllDrivers (dm : DriverManager) : list Driver :=
  fold_left (fun allDrivers pair => allDrivers ++ [snd pair])
            (unordered_iter (drivers dm)) [].

(** [DriverManager::getDriverCount] *)
Definition getDriverCount (dm : DriverManager) : Z :=
  Z.of_nat (size (drivers dm)).

(** [DriverManager::getAvailableDriverCount] *)
Definition getAvailableDriverCount (dm : DriverManager) : Z :=
  fold_left (fun count pair =>
               if isAvailable (snd pair) then count + 1 else count)
            (unordered_iter (drivers dm)) 0.

(** ** ride_matcher.h / ride_matcher.cpp *)

Record RideRequest : Type := mkRideRequest {
  requestId : string;
  pickupLocation : Z;
  destinationLocation : Z;
  passengerId : string;
  timestamp : Z          (* [system_clock::now()] at construction, in ticks *)
}.

(** The entries of [RideMatcher::systemLogs], one constructor per
    message. *)
Inductive SystemLog : Type :=
| LogRequestAdded (id : string) (pickup destination : Z)
| LogNoAvailableDrivers            (* "No available drivers found" *)
| LogSearching (count : nat)       (* "Searching for nearest driver among ..." *)
| LogDriverDistance (id : string) (location : Z) (d : dist)
| LogSelected (id : string) (d : dist)
| LogNoReachableDriver             (* "Could not find reachable driver" *)
| LogProcessing (id : string)
| LogErrInvalidPickup              (* "Error: Invalid pickup location" *)
| LogErrInvalidDestination         (* "Error: Invalid destination location" *)
| LogErrSameLocation               (* "Error: Pickup and destination are the same" *)
| LogErrNoDrivers                  (* "Error: No available drivers" *)
| LogErrNoRoute                    (* "Error: No route from pickup to destination" *)
| LogMatched (total eta : dist).

Record RideMatchResult : Type := mkRideMatchResult {
  success : bool;
  errorMessage : string;
  assignedDriver : Driver;
  driverToPickupDistance : dist;
  driverToPickupPath : list Z;
  driverToPickupETA : dist;
  pickupToDestinationPath : list Z;
  pickupToDestinationDistance : dist;
  pickupToDestinationETA : dist;
  rmr_totalDistance : dist;
  totalETA : dist;
  matchingLogs : list SystemLog
}.

(** [RideMatchResult()]; the fields [dijkstraLogs] and [heapLogs] go with
    the logs of [Dijkstra] and [MinHeap], which are left out. *)
Definition RideMatchResult_default : RideMatchResult :=
  mkRideMatchResult false EmptyString Driver_default (Fin 0) [] (Fin 0) []
                    (Fin 0) (Fin 0) (Fin 0) (Fin 0) [].

(** A default result with [success = false] and the given message. *)
Definition RideMatchResult_error (msg : string) : RideMatchResult :=
  mkRideMatchResult false msg Driver_default (Fin 0) [] (Fin 0) [] (Fin 0)
                    (Fin 0) (Fin 0) (Fin 0) [].

Record DemandStats : Type := mkDemandStats {
  totalRequests : Z;
  successfulMatches : Z;
  failedMatches : Z;
  avgWaitTime : dist;
  hotspots : list Z
}.

(** [DemandStats()] *)
Definition DemandStats_default : DemandStats :=
  mkDemandStats 0 0 0 (Fin 0) [].

Record RideMatch : Type := mkRideMatch {
  rm_success : bool;
  message : string;
  rm_driver : Driver;
  distanceToPickup : dist;
  distanceToDestination : dist;
  rm_totalDistance : dist;
  rm_estimatedTime : option Z;   (* [None]: no defined value, see [cast_int] *)
  pathToPickup : list Z;
  pathToDestination : list Z
}.

(** A default [RideMatch()] with [success = false] and the given message. *)
Definition RideMatch_error (msg : string) : RideMatch :=
  mkRideMatch false msg Driver_default (Fin 0) (Fin 0) (Fin 0) (Some 0) [] [].

Record RideMatcher : Type := mkRideMatcher {
  graph : Graph;
  driverManager : DriverManager;
  rideRequestQueue : list RideRequest;
  recentRequests : list RideRequest;
  systemLogs : list SystemLog
}.

Definition SLIDING_WINDOW_SIZE : nat := 20.

(** [RideMatcher::RideMatcher(Graph* g)] *)
Definition RideMatcher_new (g : Graph) : RideMatcher :=
  mkRideMatcher g DriverManager_new [] [] [].

(** [RideMatcher::logOperation] *)
Definition logOperation (entry : SystemLog) (m : RideMatcher) : RideMatcher :=
  mkRideMatcher (graph m) (driverManager m) (rideRequestQueue m)
                (recentRequests m) (systemLogs m ++ [entry]).

(** [systemLogs.clear()] *)
Definition clearLogs (m : RideMatcher) : RideMatcher :=
  mkRideMatcher (graph m) (driverManager m) (rideRequestQueue m)
                (recentRequests m) [].

Definition set_driverManager (dm : DriverManager) (m : RideMatcher) :
    RideMatcher :=
  mkRideMatcher (graph m) dm (rideRequestQueue m) (recentRequests m)
                (systemLogs m).

(** The [while (recentRequests.size() > SLIDING_WINDOW_SIZE) pop_front()]
    loop. *)
Fixpoint evict_oldest (window : list RideRequest) : list RideRequest :=
  match window with
  | [] => []
  | _ :: rest =>
      if (SLIDING_WINDOW_SIZE <? length window)%nat
      then evict_oldest rest
      else window
  end.

(** [RideMatcher::updateSlidingWindow] *)
Definition updateSlidingWindow (request : RideRequest) (m : RideMatcher) :
    RideMatcher :=
  mkRideMatcher (graph m) (driverManager m) (rideRequestQueue m)
                (evict_oldest (recentRequests m ++ [request]))
                (systemLogs m).

(** [RideMatcher::addRideRequest] *)
Definition addRideRequest (request : RideRequest) (m : RideMatcher) :
    RideMatcher :=
  let m1 := mkRideMatcher (graph m) (driverManager m)
                          (rideRequestQueue m ++ [request])
                          (recentRequests m) (systemLogs m) in
  let m2 := updateSlidingWindow request m1 in
  logOperation (LogRequestAdded (requestId request) (pickupLocation request)
                                (destinationLocation request)) m2.

(** The local variables of the search loop of [findNearestDriver]. *)
Record NearestAcc : Type := mkNearestAcc {
  minDistance : dist;
  nearestDriver : option Driver;     (* [None] is [nullptr] *)
  bestPath : list Z;
  acc_logs : list SystemLog
}.

(** The body of [for (Driver& driver : availableDrivers)]. *)
Definition nearest_step (g : Graph) (pickup : Z) (acc : NearestAcc)
    (driver : Driver) : NearestAcc :=
  let p := findShortestPath g (currentLocation driver) pickup in
  if found p && dlt (totalDistance p) (minDistance acc)
  then mkNearestAcc (totalDistance p) (Some driver) (path p)
         (acc_logs acc ++
          [LogDriverDistance (driver_id driver) (currentLocation driver)
                             (totalDistance p)])
  else acc.

(** [RideMatcher::findNearestDriver] *)
Definition findNearestDriver (pickup : Z) (m : RideMatcher) :
    NearestDriverResult * RideMatcher :=
  let availableDrivers := getAvailableDrivers (driverManager m) in
  match availableDrivers with
  | [] => (NearestDriverResult_default, logOperation LogNoAvailableDrivers m)
  | _ =>
      let m1 := logOperation (LogSearching (length availableDrivers)) m in
      let acc := fold_left (nearest_step (graph m) pickup) availableDrivers
                   (mkNearestAcc Inf None [] (systemLogs m1)) in
      let m2 := mkRideMatcher (graph m) (driverManager m) (rideRequestQueue m)
                              (recentRequests m) (acc_logs acc) in
      match nearestDriver acc with
      | Some d =>
          (mkNearestDriverResult d (minDistance acc) (bestPath acc) true,
           logOperation (LogSelected (driver_id d) (minDistance acc)) m2)
      | None =>
          (NearestDriverResult_default, logOperation LogNoReachableDriver m2)
      end
  end.

(** [RideMatcher::processRequest] *)
Definition processRequest (request : RideRequest) (m : RideMatcher) :
    RideMatchResult * RideMatcher :=
  let m0 := logOperation (LogProcessing (requestId request)) (clearLogs m) in
  if negb (nodeExists (graph m0) (pickupLocation request))
  then (RideMatchResult_error "Invalid pickup location",
        logOperation LogErrInvalidPickup m0)
  else if negb (nodeExists (graph m0) (destinationLocation request))
  then (RideMatchResult_error "Invalid destination location",
        logOperation LogErrInvalidDestination m0)
  else if pickupLocation request =? destinationLocation request
  then (RideMatchResult_error "Pickup and destination cannot be the same",
        logOperation LogErrSameLocation m0)
  else
    let '(nearest, m1) := findNearestDriver (pickupLocation request) m0 in
    if negb (nd_found nearest)
    then (RideMatchResult_error "No available drivers found",
          logOperation LogErrNoDrivers m1)
    else
      let pickupToDestPath :=
        findShortestPath (graph m1) (pickupLocation request)
                         (destinationLocation request) in
      if negb (found pickupToDestPath)
      then (RideMatchResult_error "No route found from pickup to destination",
            logOperation LogErrNoRoute m1)
      else
        let d2p := nd_distance nearest in
        let d2pETA := calculateETA (nd_distance nearest) in
        let p2d := totalDistance pickupToDestPath in
        let p2dETA := estimatedTime pickupToDestPath in
        let total := dplus d2p p2d in
        let eta := dplus d2pETA p2dETA in
        let res := mkRideMatchResult true EmptyString (nd_driver nearest)
                     d2p (pathToPassenger nearest) d2pETA
                     (path pickupToDestPath) p2d p2dETA total eta
                     (systemLogs m1) in
        let '(_, dm1) := updateDriverAvailability
                           (driver_id (assignedDriver res)) false
                           (driverManager m1) in
        (res, logOperation (LogMatched total eta) (set_driverManager dm1 m1)).

(** [RideMatcher::processNextRequest] *)
Definition processNextRequest (m : RideMatcher) :
    RideMatchResult * RideMatcher :=
  match rideRequestQueue m with
  | [] => (RideMatchResult_error "No pending ride requests", m)
  | request :: rest =>
      processRequest request
        (mkRideMatcher (graph m) (driverManager m) rest (recentRequests m)
                       (systemLogs m))
  end.

(** [locationFrequency[request.pickupLocation]++] *)
Definition count_pickup (freq : gmap Z Z) (request : RideRequest) : gmap Z Z :=
  <[pickupLocation request :=
      default 0 (freq !! pickupLocation request) + 1]> freq.

(** [std::sort(first, last, comp)].  The standard leaves the order of
    elements that compare equal unspecified; the model is an insertion
    sort driven by the same comparator, and the theorems use only that the
    result is a permutation of the input in which no element is ordered
    by [comp] before an earlier one. *)
Fixpoint sort_insert {A : Type} (comp : A -> A -> bool) (x : A)
    (l : list A) : list A :=
  match l with
  | [] => [x]
  | y :: rest =>
      if comp x y then x :: y :: rest else y :: sort_insert comp x rest
  end.

Definition std_sort {A : Type} (comp : A -> A -> bool) (l : list A) : list A :=
  fold_left (fun sorted x => sort_insert comp x sorted) l [].

(** The comparator [a.second > b.second] of [analyzeDemand]. *)
Definition by_frequency_desc (a b : Z * Z) : bool := snd b <? snd a.

(** [RideMatcher::analyzeDemand] *)
Definition analyzeDemand (m : RideMatcher) : DemandStats :=
  let total := Z.of_nat (length (recentRequests m)) in
  match recentRequests m with
  | [] => mkDemandStats total 0 0 (Fin 0) []
  | _ =>
      let locationFrequency := fold_left count_pickup (recentRequests m) ∅ in
      let sortedLocations :=
        std_sort by_frequency_desc (unordered_iter locationFrequency) in
      mkDemandStats total 0 0 (Fin 0) (fst <$> take 3 sortedLocations)
  end.

(** [RideMatcher::addDriver] *)
Definition addDriver (driver : Driver) (m : RideMatcher) : RideMatcher :=
  set_driverManager (snd (dm_addDriver driver (driverManager m))) m.

(** [RideMatcher::getDriver] *)
Definition getDriver (driverId : string) (m : RideMatcher) : Driver :=
  match dm_getDriver driverId (driverManager m) with
  | Some d => d
  | None => Driver_default
  end.

(** [RideMatcher::getAllDrivers] *)
Definition getAllDrivers (m : RideMatcher) : list Driver :=
  dm_getAllDrivers (driverManager m).

(** [RideMatcher::updateDriverLocation] *)
Definition updateDriverLocation (driverId : string) (newLocation : Z)
    (m : RideMatcher) : RideMatcher :=
  set_driverManager
    (snd (dm_updateDriverLocation driverId newLocation (driverManager m))) m.

(** [RideMatcher::setDriverAvailability] *)
Definition setDriverAvailability (driverId : string) (available : bool)
    (m : RideMatcher) : RideMatcher :=
  set_driverManager
    (snd (updateDriverAvailability driverId available (driverManager m))) m.

(** [RideMatcher::getQueueSize] *)
Definition getQueueSize (m : RideMatcher) : Z :=
  Z.of_nat (length (rideRequestQueue m)).

(** [static_cast<int>(x)]: the double without its fractional part when
    that is a value of [int] (32 bits); the conversion has no defined
    result otherwise, which is [None]. *)
Definition cast_int (x : dist) : option Z :=
  match x with
  | Fin q =>
      let z := Z.quot (Qnum q) (Z.pos (Qden q)) in
      if (- 2 ^ 31 <=? z) && (z <? 2 ^ 31) then Some z else None
  | Inf => None
  end.

(** [RideMatcher::findRide] *)
Definition findRide (request : RideRequest) (m : RideMatcher) :
    RideMatch * RideMatcher :=
  let '(nearest, m1) := findNearestDriver (pickupLocation request) m in
  if negb (nd_found nearest)
  then (RideMatch_error "No available drivers found", m1)
  else
    let driverToPickup :=
      findShortestPath (graph m1) (currentLocation (nd_driver nearest))
                       (pickupLocation request) in
    let pickupToDestination :=
      findShortestPath (graph m1) (pickupLocation request)
                       (destinationLocation request) in
    if negb (found driverToPickup) || negb (found pickupToDestination)
    then (RideMatch_error "No valid path found", m1)
    else
      let total := dplus (totalDistance driverToPickup)
                         (totalDistance pickupToDestination) in
      let res := mkRideMatch true "Ride matched successfully"
                   (nd_driver nearest)
                   (totalDistance driverToPickup)
                   (totalDistance pickupToDestination)
                   total
                   (cast_int (dmul (ddiv total 40) 60))
                   (path driverToPickup) (path pickupToDestination) in
      let '(_, dm1) := updateDriverAvailability
                         (driver_id (nd_driver nearest)) false
                         (driverManager m1) in
      (res, set_driverManager dm1 m1).

(** ** city_graph_generator.cpp: [ensureConnectivity]

    [generateCityGraph] draws the coordinates of the nodes and part of the
    roads at random and measures roads with the haversine formula
    ([calculateDistance]: [sin], [cos], [atan2] and [sqrt] on doubles);
    neither is modelled.  Its last step, [ensureConnectivity], depends on
    the graph only, up to the weights of the roads it adds: it is modelled
    here with [calculateDistance] as a parameter, a function that
    returns a double.  The vertices it visits
    are all below [numVertices], so that [getAdjacentNodes] cannot throw
    in its first loop, and [numVertices] is not negative (the constructor
    of [Graph] throws otherwise). *)

(** How a call that works on an object in place ended: it returned, it
    threw an exception and left the object as it was at that moment, or it
    read a vector out of range. *)
Inductive outcome (A : Type) : Type :=
| Returned (a : A)
| Threw (e : exn) (a : A)
| OutOfRange.
Arguments Returned {A} a.
Arguments Threw {A} e a.
Arguments OutOfRange {A}.

(** The lambda [find] with its path compression: the root of [x] and the
    vector [parent] after the call.  The recursion follows the parents, so
    [parent.size()] levels are enough when they form a forest. *)
Fixpoint uf_find (fuel : nat) (x : Z) (parent : list Z) : Z * list Z :=
  match fuel with
  | O => (vget x parent x, parent)
  | S fuel' =>
      if negb (vget x parent x =? x)
      then
        let '(r, parent1) := uf_find fuel' (vget x parent x) parent in
        let parent2 := vset parent1 x r in
        (vget x parent2 x, parent2)
      else (vget x parent x, parent)
  end.

Definition find (x : Z) (parent : list Z) : Z * list Z :=
  uf_find (length parent) x parent.

(** The lambda [unionSets]. *)
Definition unionSets (x y : Z) (parent : list Z) : list Z :=
  let '(px, parent1) := find x parent in
  let '(py, parent2) := find y parent1 in
  if negb (px =? py) then vset parent2 px py else parent2.

(** [parent[i] = i] for every [i]. *)
Definition parent_init (n : Z) : list Z :=
  Z.of_nat <$> seq 0 (Z.to_nat n).

(** The loop "find connected components": every edge joins the sets of
    its two ends. *)
Definition union_edges (g : Graph) (parent : list Z) : list Z :=
  fold_left
    (fun parent i =>
       fold_left (fun parent edge => unionSets i (destination edge) parent)
                 (adj_at g i) parent)
    (Z.of_nat <$> seq 0 (Z.to_nat (getNumVertices g))) parent.

(** [components[find(i)].push_back(i)] *)
Definition push_component (st : list Z * gmap Z (list Z)) (i : Z) :
    list Z * gmap Z (list Z) :=
  let '(root, parent1) := find i (fst st) in
  (parent1, <[root := default [] (snd st !! root) ++ [i]]> (snd st)).

(** The map [components] after its loop. *)
Definition collect_components (n : Z) (parent : list Z) : gmap Z (list Z) :=
  snd (fold_left push_component (Z.of_nat <$> seq 0 (Z.to_nat n))
                 (parent, ∅)).

(** The vector [componentList]. *)
Definition component_list (components : gmap Z (list Z)) : list (list Z) :=
  snd <$> unordered_iter components.

(** The loop "connect each component to the next"; [i] is its counter and
    [cl] the part of [componentList] from position [i] on.  The bound
    [componentList.size() - 1] is computed in [size_t]: for an empty vector
    it is the largest value of the type and the first iteration reads
    [componentList[0]], which does not exist. *)
Fixpoint connect_components (calculateDistance : Q -> Q -> Q -> Q -> dist)
    (i : Z) (cl : list (list Z)) (g : Graph) : outcome Graph :=
  match cl with
  | [] => OutOfRange
  | [_] => Returned g
  | c1 :: (c2 :: _) as rest =>
      match c1, c2 with
      | node1 :: _, node2 :: _ =>
          match getNode g node1 with
          | Err e => Threw e g
          | Ok n1 =>
              match getNode g node2 with
              | Err e => Threw e g
              | Ok n2 =>
                  let distance :=
                    calculateDistance (latitude n1) (longitude n1)
                                      (latitude n2) (longitude n2) in
                  let weight := dmul distance 100 in
                  match addEdge node1 node2 weight
                          ("Connector Highway " +:+ pretty (i + 1)) g with
                  | Err e => Threw e g
                  | Ok g' =>
                      connect_components calculateDistance (i + 1) rest g'
                  end
              end
          end
      | _, _ => OutOfRange
      end
  end.

(** [CityGraphGenerator::ensureConnectivity] *)
Definition ensureConnectivity (calculateDistance : Q -> Q -> Q -> Q -> dist)
    (g : Graph) : outcome Graph :=
  let n := getNumVertices g in
  let parent := union_edges g (parent_init n) in
  let components := collect_components n parent in
  connect_components calculateDistance 0 (component_list components) g.

(** ** dijkstra.cpp: the counter and the log of the main loop

    The main loop of [findShortestPaths] once more, with what the first
    model leaves out: the counter [nodesProcessed] and the heap nodes of
    the log lines "Processing node ... with distance ...".  [skipped] is
    not a variable of the program: it counts how often the [continue] of
    the loop is reached. *)
Record LoopStats : Type := mkLoopStats {
  nodesProcessed : Z;
  processing : list HeapNode;
  skipped : Z
}.

Fixpoint dijkstra_loop_stats (g : Graph) (fuel : nat) (st : DState)
    (stats : LoopStats) : DState * LoopExit * LoopStats :=
  if isEmpty (st_pq st) then (st, LoopDone, stats)
  else
    match fuel with
    | O => (st, LoopFuel, stats)
    | S fuel' =>
        let '(current, pq1) := extractMin (st_pq st) in
        let u := vertex current in
        let d := distance current in
        let st1 := mkDState (st_distances st) (st_predecessors st) pq1 in
        if dgt d (vget Inf (st_distances st) u)
        then dijkstra_loop_stats g fuel' st1
               (mkLoopStats (nodesProcessed stats) (processing stats)
                            (skipped stats + 1))
        else
          let stats1 :=
            mkLoopStats (nodesProcessed stats + 1)
                        (processing stats ++ [current]) (skipped stats) in
          match getAdjacentNodes g u with
          | Err e => (st1, LoopThrew e, stats1)
          | Ok neighbors =>
              dijkstra_loop_stats g fuel'
                (fold_left (relax_edge u) neighbors st1) stats1
          end
    end.

(** The counters when the loop of [findShortestPaths] is left. *)
Definition findShortestPaths_stats (g : Graph) (source : Z) : LoopStats :=
  snd (dijkstra_loop_stats g (dijkstra_fuel g) (dijkstra_init g source)
         (mkLoopStats 0 [] 0)).

(** * Specification predicates *)

(** ** Invariants of the indexed heap *)

(** The position index mirrors the array: [positions[v] = i] exactly when
    slot [i] holds vertex [v].  In particular a vertex occupies at most one
    slot. *)
Definition pos_ok (h : MinHeap) : Prop :=
  forall v i, positions h !! v = Some i <->
              exists d, heap h !! i = Some (mkHeapNode v d).

(** Min-heap order: no entry is smaller than its parent. *)
Definition heap_ordered (l : list HeapNode) : Prop :=
  forall i a b, (0 < i)%nat -> l !! i = Some a -> l !! parent i = Some b ->
                dle (distance b) (distance a).

(** Heap order everywhere except between slot [k] and its parent, with the
    children of [k] not below the parent of [k] (the invariant of
    [heapifyUp]). *)
Definition up_ok (l : list HeapNode) (k : nat) : Prop :=
  (forall i a b, (0 < i)%nat -> i <> k -> l !! i = Some a ->
                 l !! parent i = Some b -> dle (distance b) (distance a)) /\
  (forall i a b, (0 < k)%nat -> (0 < i)%nat -> parent i = k ->
                 l !! i = Some a -> l !! parent k = Some b ->
                 dle (distance b) (distance a)).

(** Heap order everywhere except between slot [k] and its children, with
    the children of [k] not below the parent of [k] (the invariant of
    [heapifyDown]). *)
Definition down_ok (l : list HeapNode) (k : nat) : Prop :=
  (forall i a b, (0 < i)%nat -> parent i <> k -> l !! i = Some a ->
                 l !! parent i = Some b -> dle (distance b) (distance a)) /\
  (forall i a b, (0 < k)%nat -> (0 < i)%nat -> parent i = k ->
                 l !! i = Some a -> l !! parent k = Some b ->
                 dle (distance b) (distance a)).

Definition heap_inv (h : MinHeap) : Prop :=
  pos_ok h /\ heap_ordered (heap h).

(** [n] is an entry of smallest distance among those stored in [l]. *)
Definition is_min_of (n : HeapNode) (l : list HeapNode) : Prop :=
  n ∈ l /\ forall x, x ∈ l -> dle (distance n) (distance x).

(** ** Sequences of heap operations *)

Inductive HeapOp : Type :=
| OpInsert (v : Z) (d : dist)
| OpExtractMin
| OpDecreaseKey (v : Z) (d : dist).

Definition apply_op (h : MinHeap) (op : HeapOp) : MinHeap :=
  match op with
  | OpInsert v d => insert v d h
  | OpExtractMin => snd (extractMin h)
  | OpDecreaseKey v d => decreaseKey v d h
  end.

Definition run_ops (ops : list HeapOp) (h : MinHeap) : MinHeap :=
  fold_left apply_op ops h.

(** An [insert] is only issued for a vertex that is not in the heap, so
    that every vertex is present at most once. *)
Definition op_fresh (h : MinHeap) (op : HeapOp) : bool :=
  match op with
  | OpInsert v _ => negb (contains v h)
  | _ => true
  end.

(** A [decreaseKey] on a vertex of the heap does not raise its distance. *)
Definition op_decreases (h : MinHeap) (op : HeapOp) : bool :=
  match op with
  | OpDecreaseKey v d =>
      match positions h !! v with
      | Some i => negb (dlt (distance (heap_at (heap h) i)) d)
      | None => true
      end
  | _ => true
  end.

(** [check] holds before every operation of the sequence. *)
Fixpoint ops_all (check : MinHeap -> HeapOp -> bool) (ops : list HeapOp)
    (h : MinHeap) : bool :=
  match ops with
  | [] => true
  | op :: rest => check h op && ops_all check rest (apply_op h op)
  end.

(** The sequence in which a key is raised through [decreaseKey]. *)
Definition raising_ops : list HeapOp :=
  [OpInsert 1 (Fin 1); OpInsert 2 (Fin 5); OpInsert 3 (Fin 6);
   OpDecreaseKey 1 (Fin 10)].

(** A sequence that obeys both conditions. *)
Definition sample_ops : list HeapOp :=
  [OpInsert 4 (Fin 7); OpInsert 2 (Fin 3); OpInsert 9 (Fin 5);
   OpDecreaseKey 9 (Fin 1); OpExtractMin; OpDecreaseKey 6 (Fin 2);
   OpInsert 9 (Fin 8)].

(** ** Graphs, walks and their lengths *)

Definition in_range (g : Graph) (v : Z) : Prop := 0 <= v < numVertices g.

(** The state of a [Graph] object: the constructor sizes the adjacency
    list, [addEdge] and [addDirectedEdge] only store edges that
    [validate] accepts, and [addNode] only registers ids in range. *)
Definition wf_graph (g : Graph) : Prop :=
  0 <= numVertices g /\
  length (adjacencyList g) = Z.to_nat (numVertices g) /\
  validate g = true /\
  forall id, is_Some (nodes g !! id) -> in_range g id.

(** [e] is one of the edges that [getAdjacentNodes(u)] returns. *)
Definition has_edge (g : Graph) (u : Z) (e : Edge) : Prop :=
  exists edges, getAdjacentNodes g u = Ok edges /\ e ∈ edges.

(** [es] is a sequence of edges leading from [u] to [v]. *)
Fixpoint is_walk (g : Graph) (u : Z) (es : list Edge) (v : Z) : Prop :=
  match es with
  | [] => u = v
  | e :: rest => has_edge g u e /\ is_walk g (destination e) rest v
  end.

(** The length of a walk as the code computes it: the weights added in
    double arithmetic from the source on, each sum rounded. *)
Definition walk_len (es : list Edge) : dist :=
  fold_left (fun acc e => dplus acc (weight e)) es (Fin 0).

(** [a + b] as numbers, without rounding. *)
Definition exact_plus (a b : dist) : dist :=
  match a, b with
  | Fin x, Fin y => Fin (x + y)
  | _, _ => Inf
  end.

(** The sum of the weights along a walk as numbers, without rounding. *)
Definition exact_len (es : list Edge) : dist :=
  fold_left (fun acc e => exact_plus acc (weight e)) es (Fin 0).

(** The vertices a walk from [u] visits. *)
Definition walk_nodes (u : Z) (es : list Edge) : list Z :=
  u :: (destination <$> es).

Definition reachable (g : Graph) (u v : Z) : Prop :=
  exists es, is_walk g u es v.

(** [d] is the least length of a walk from [u] to [v]: no walk is
    shorter and, when [d] is finite, some walk has that length. *)
Definition shortest_dist (g : Graph) (u v : Z) (d : dist) : Prop :=
  (forall es, is_walk g u es v -> dle d (walk_len es)) /\
  (d <> Inf -> exists es, is_walk g u es v /\ walk_len es = d).

(** [d] is the length of a shortest walk from [u] to [v] when the
    weights are added as numbers, without rounding. *)
Definition exact_shortest_dist (g : Graph) (u v : Z) (d : dist) : Prop :=
  (forall es, is_walk g u es v -> dle d (exact_len es)) /\
  (d <> Inf -> exists es, is_walk g u es v /\ exact_len es = d).

(** Numbers of units of [2^-1074] with at most 53 significant bits. *)
Definition representable (m : Z) : Prop :=
  0 <= m /\ m mod 2 ^ last_place m = 0.

(** [a] is [+infinity] or a finite double that is not negative. *)
Definition nonneg_double (a : dist) : Prop :=
  match a with
  | Fin q => exists m, representable m /\ m < 2 ^ 2098 /\ q = units_to_Q m
  | Inf => True
  end.

(** ** The invariant of the main loop of [findShortestPaths] *)

Definition dist_of (st : DState) (v : Z) : dist :=
  vget Inf (st_distances st) v.

Definition pred_of (st : DState) (v : Z) : Z :=
  vget (-1) (st_predecessors st) v.

(** [settled] lists the vertices processed so far, oldest first;
    [pending] are the edges of the vertex being processed that the inner
    loop has not reached yet. *)
Record dijkstra_inv (g : Graph) (source : Z) (settled : list Z)
    (pending : list Edge) (st : DState) : Prop := mk_dijkstra_inv {
  inv_len_d : length (st_distances st) = Z.to_nat (numVertices g);
  inv_len_p : length (st_predecessors st) = Z.to_nat (numVertices g);
  inv_heap : heap_inv (st_pq st);
  inv_queue : forall x, x ∈ heap (st_pq st) ->
    in_range g (vertex x) /\ dist_of st (vertex x) = distance x /\
    distance x <> Inf /\ vertex x ∉ settled;
  inv_nodup : NoDup settled;
  inv_settled : forall u, u ∈ settled ->
    in_range g u /\ dist_of st u <> Inf;
  inv_finite : forall v, in_range g v -> dist_of st v <> Inf ->
    v ∈ settled \/ exists x, x ∈ heap (st_pq st) /\ vertex x = v;
  inv_order : forall u x, u ∈ settled -> x ∈ heap (st_pq st) ->
    dle (dist_of st u) (distance x);
  inv_last : forall s u, s ∈ settled -> last settled = Some u ->
    dle (dist_of st s) (dist_of st u);
  inv_relaxed : forall u e, u ∈ settled -> e ∈ adj_at g u ->
    (last settled = Some u /\ e ∈ pending) \/
    dle (dist_of st (destination e))
        (dplus (dist_of st u) (weight e));
  inv_nonneg : forall v, dle (Fin 0) (dist_of st v);
  inv_source : dist_of st source = Fin 0;
  inv_walk : forall v d, in_range g v -> dist_of st v = Fin d ->
    exists es, is_walk g source es v /\ walk_len es = Fin d;
  inv_pred_source : pred_of st source = -1;
  inv_pred_some : forall v, in_range g v -> v <> source ->
    dist_of st v <> Inf -> pred_of st v <> -1;
  inv_pred : forall v, in_range g v -> pred_of st v <> -1 ->
    exists i e, settled !! i = Some (pred_of st v) /\
      (forall j, settled !! j = Some v -> (i < j)%nat) /\
      e ∈ adj_at g (pred_of st v) /\ destination e = v /\
      dist_of st v = dplus (dist_of st (pred_of st v)) (weight e) /\
      dist_of st v <> Inf
}.

(** A boolean test for [wf_graph] (lemma [check_graph_wf]). *)
Definition check_graph (g : Graph) : bool :=
  (0 <=? numVertices g) &&
  (length (adjacencyList g) =? Z.to_nat (numVertices g))%nat &&
  validate g &&
  forallb (fun kv => negb (invalid_vertex g (fst kv))) (map_to_list (nodes g)).

(** [p] has one vertex more than [es] has edges, and the [i]-th edge
    leads from the [i]-th vertex to the next one. *)
Definition joins (g : Graph) (p : list Z) (es : list Edge) : Prop :=
  length p = S (length es) /\
  forall i e, es !! i = Some e ->
    exists u, p !! i = Some u /\ has_edge g u e /\
              p !! S i = Some (destination e).

(** ** The four-location scenario *)

Definition and_then {A B : Type} (r : result A) (f : A -> result B) :
    result B :=
  match r with
  | Ok a => f a
  | Err e => Err e
  end.

Definition scenario_graph_built : result Graph :=
  and_then (Graph_new 4) (fun g =>
  and_then (addNode 0 "A" 0 0 g) (fun g =>
  and_then (addNode 1 "B" 0 0 g) (fun g =>
  and_then (addNode 2 "C" 0 0 g) (fun g =>
  and_then (addNode 3 "D" 0 0 g) (fun g =>
  and_then (addEdge 0 1 (Fin 2) EmptyString g) (fun g =>
  and_then (addEdge 1 2 (Fin 2) EmptyString g) (fun g =>
  and_then (addEdge 2 3 (Fin 1) EmptyString g) (fun g =>
  addEdge 0 2 (Fin 5) EmptyString g)))))))).

Definition scenario_graph : Graph :=
  match scenario_graph_built with
  | Ok g => g
  | Err _ => mkGraph 0 [] ∅
  end.

(** ** Graphs on which rounding and overflow show *)

(** The doubles written 0.1 and 0.2, and their double sum, which is
    written 0.30000000000000004. *)
Definition double_0_1 : Q := 3602879701896397 # 36028797018963968.
Definition double_0_2 : Q := 3602879701896397 # 18014398509481984.
Definition double_0_1_plus_0_2 : Q := 1351079888211149 # 4503599627370496.

(** Three locations: a road of 0.30000000000000004 between 0 and 2, and
    roads of 0.1 and 0.2 from 0 over 1 to 2. *)
Definition rounding_graph_built : result Graph :=
  and_then (Graph_new 3) (fun g =>
  and_then (addNode 0 "A" 0 0 g) (fun g =>
  and_then (addNode 1 "B" 0 0 g) (fun g =>
  and_then (addNode 2 "C" 0 0 g) (fun g =>
  and_then (addEdge 0 2 (Fin double_0_1_plus_0_2) "Direct" g) (fun g =>
  and_then (addEdge 0 1 (Fin double_0_1) "First" g) (fun g =>
  addEdge 1 2 (Fin double_0_2) "Second" g)))))).

Definition rounding_graph : Graph :=
  match rounding_graph_built with
  | Ok g => g
  | Err _ => mkGraph 0 [] ∅
  end.

(** The walk from 0 over 1 to 2 in that graph. *)
Definition rounding_detour : list Edge :=
  [mkEdge 1 (Fin double_0_1) "First"; mkEdge 2 (Fin double_0_2) "Second"].

(** The double [2^1023]; twice that is beyond the range of [double]. *)
Definition double_huge : Q := inject_Z (2 ^ 1023).

(** Three locations in a row, joined by two roads of [2^1023]. *)
Definition overflow_graph_built : result Graph :=
  and_then (Graph_new 3) (fun g =>
  and_then (addNode 0 "A" 0 0 g) (fun g =>
  and_then (addNode 1 "B" 0 0 g) (fun g =>
  and_then (addNode 2 "C" 0 0 g) (fun g =>
  and_then (addEdge 0 1 (Fin double_huge) "Long" g) (fun g =>
  addEdge 1 2 (Fin double_huge) "Longer" g))))).

Definition overflow_graph : Graph :=
  match overflow_graph_built with
  | Ok g => g
  | Err _ => mkGraph 0 [] ∅
  end.

Definition overflow_walk : list Edge :=
  [mkEdge 1 (Fin double_huge) "Long"; mkEdge 2 (Fin double_huge) "Longer"].

(** Three vertices of which only 0 and 1 are registered as locations
    ([addEdge] asks for no [addNode]): a road of 5 between 0 and 1 and a
    road of 1 between 0 and 2. *)
Definition outpost_graph_built : result Graph :=
  and_then (Graph_new 3) (fun g =>
  and_then (addNode 0 "A" 0 0 g) (fun g =>
  and_then (addNode 1 "B" 0 0 g) (fun g =>
  and_then (addEdge 0 1 (Fin 5) "Main Road" g) (fun g =>
  addEdge 0 2 (Fin 1) "Track" g)))).

Definition outpost_graph : Graph :=
  match outpost_graph_built with
  | Ok g => g
  | Err _ => mkGraph 0 [] ∅
  end.

(** ** Drivers and the nearest-driver search *)

(** Every driver is stored under its own id ([addDriver] is the only way
    into the map). *)
Definition wf_dm (dm : DriverManager) : Prop :=
  forall k d, drivers dm !! k = Some d -> driver_id d = k.

(** A boolean test for [wf_dm] (lemma [check_dm_wf]). *)
Definition check_dm (dm : DriverManager) : bool :=
  forallb (fun kv => bool_decide (driver_id (snd kv) = fst kv))
          (map_to_list (drivers dm)).

(** [d] is a driver of the registry whose availability flag is set. *)
Definition available (dm : DriverManager) (d : Driver) : Prop :=
  exists k, drivers dm !! k = Some d /\ isAvailable d = true.

(** The route the search computes for driver [d]. *)
Definition path_to (g : Graph) (pickup : Z) (d : Driver) : PathResult :=
  findShortestPath g (currentLocation d) pickup.

(** The invariant of the search loop after the drivers [seen]. *)
Definition nearest_ok (g : Graph) (pickup : Z) (seen : list Driver)
    (acc : NearestAcc) : Prop :=
  match nearestDriver acc with
  | None =>
      minDistance acc = Inf /\
      forall d, d ∈ seen -> found (path_to g pickup d) = false
  | Some best =>
      best ∈ seen /\
      found (path_to g pickup best) = true /\
      totalDistance (path_to g pickup best) = minDistance acc /\
      path (path_to g pickup best) = bestPath acc /\
      forall d, d ∈ seen -> found (path_to g pickup d) = true ->
                dle (minDistance acc) (totalDistance (path_to g pickup d))
  end.

(** The search variables without the log. *)
Definition acc_core (acc : NearestAcc) : dist * option Driver * list Z :=
  (minDistance acc, nearestDriver acc, bestPath acc).

(** The search variables after the loop, without the log. *)
Definition nearest_search (g : Graph) (dm : DriverManager) (pickup : Z) :
    NearestAcc :=
  fold_left (nearest_step g pickup) (getAvailableDrivers dm)
            (mkNearestAcc Inf None [] []).

(** A driver at location 1 and a driver at vertex 2 of the graph with
    the unregistered vertex. *)
Definition outpost_near : Driver := Driver_new "d2" "Bo" 2 "Sedan" 5.
Definition outpost_far : Driver := Driver_new "d1" "Al" 1 "Sedan" 5.

Definition outpost_matcher : RideMatcher :=
  addDriver outpost_near (addDriver outpost_far (RideMatcher_new outpost_graph)).

(** The scenario of two drivers: one at location 1, three units from the
    pickup at location 3, and one at location 2, one unit from it. *)
Definition scenario_matcher : RideMatcher :=
  addDriver (Driver_new "d2" "Bo" 2 "Sedan" 5)
    (addDriver (Driver_new "d1" "Al" 1 "Sedan" 5)
       (RideMatcher_new scenario_graph)).

(** A request from location 3 to location 0 of the scenario. *)
Definition scenario_request : RideRequest := mkRideRequest "r1" 3 0 "p1" 0.

(** A request whose pickup and destination are both location 3. *)
Definition same_place_request : RideRequest := mkRideRequest "r2" 3 3 "p2" 0.

(** Three locations, a road between 0 and 1, and location 2 cut off; one
    available driver, at location 2. *)
Definition island_graph_built : result Graph :=
  and_then (Graph_new 3) (fun g =>
  and_then (addNode 0 "A" 0 0 g) (fun g =>
  and_then (addNode 1 "B" 0 0 g) (fun g =>
  and_then (addNode 2 "C" 0 0 g) (fun g =>
  addEdge 0 1 (Fin 4) EmptyString g)))).

Definition island_graph : Graph :=
  match island_graph_built with
  | Ok g => g
  | Err _ => mkGraph 0 [] ∅
  end.



(** ** Sequences of dispatch operations *)

Inductive MatcherOp : Type :=
| MAddRideRequest (request : RideRequest)
| MProcessNextRequest
| MProcessRequest (request : RideRequest)
| MFindRide (request : RideRequest)
| MAddDriver (driver : Driver)
| MUpdateDriverLocation (driverId : string) (newLocation : Z)
| MSetDriverAvailability (driverId : string) (available : bool)
| MClearLogs.

Definition apply_matcher_op (m : RideMatcher) (op : MatcherOp) : RideMatcher :=
  match op with
  | MAddRideRequest request => addRideRequest request m
  | MProcessNextRequest => snd (processNextRequest m)
  | MProcessRequest request => snd (processRequest request m)
  | MFindRide request => snd (findRide request m)
  | MAddDriver driver => addDriver driver m
  | MUpdateDriverLocation driverId newLocation =>
      updateDriverLocation driverId newLocation m
  | MSetDriverAvailability driverId available =>
      setDriverAvailability driverId available m
  | MClearLogs => clearLogs m
  end.

Definition run_matcher (ops : list MatcherOp) (m : RideMatcher) : RideMatcher :=
  fold_left apply_matcher_op ops m.

(** The requests enqueued by a sequence of operations, oldest first. *)
Fixpoint enqueued (ops : list MatcherOp) : list RideRequest :=
  match ops with
  | [] => []
  | MAddRideRequest request :: rest => request :: enqueued rest
  | _ :: rest => enqueued rest
  end.

(** The last [n] elements of a list. *)
Definition last_n {A : Type} (n : nat) (l : list A) : list A :=
  drop (length l - n) l.

(** Enqueuing the requests of a list one after the other. *)
Definition enqueue_all (reqs : list RideRequest) (m : RideMatcher) :
    RideMatcher :=
  fold_left (fun m request => addRideRequest request m) reqs m.

(** ** Demand statistics *)

(** How often [loc] occurs among the pickup locations [l]. *)
Definition frequency (l : list Z) (loc : Z) : Z :=
  Z.of_nat (length (filter (fun x => x = loc) l)).

(** The pickup locations of the window, oldest first. *)
Definition window_pickups (m : RideMatcher) : list Z :=
  pickupLocation <$> recentRequests m.

(** The frequency of [loc] in the window of [m]. *)
Definition window_frequency (m : RideMatcher) (loc : Z) : Z :=
  frequency (window_pickups m) loc.

(** Frequencies do not increase along the list. *)
Definition by_count_desc (a b : Z * Z) : Prop := snd b <= snd a.

(** The map [locationFrequency] after the counting loop. *)
Definition location_frequency (m : RideMatcher) : gmap Z Z :=
  fold_left count_pickup (recentRequests m) ∅.

(** The vector [sortedLocations] after [std::sort]. *)
Definition sorted_locations (m : RideMatcher) : list (Z * Z) :=
  std_sort by_frequency_desc (unordered_iter (location_frequency m)).

(** Counting one more pickup at [p]. *)
Definition count_location (freq : gmap Z Z) (p : Z) : gmap Z Z :=
  <[p := default 0 (freq !! p) + 1]> freq.

(** A window with pickups at 1, 2, 1, 3, 2, 1 and 0. *)
Definition busy_matcher : RideMatcher :=
  enqueue_all
    [mkRideRequest "a" 1 0 "p" 0; mkRideRequest "b" 2 0 "p" 0;
     mkRideRequest "c" 1 0 "p" 0; mkRideRequest "d" 3 0 "p" 0;
     mkRideRequest "e" 2 0 "p" 0; mkRideRequest "f" 1 0 "p" 0;
     mkRideRequest "g" 0 1 "p" 0]
    (RideMatcher_new scenario_graph).

(** The same pickups requested by other passengers at other times, after
    a request was processed. *)
Definition busy_matcher_again : RideMatcher :=
  enqueue_all
    [mkRideRequest "h" 1 3 "q" 7; mkRideRequest "i" 2 3 "q" 8;
     mkRideRequest "j" 1 3 "q" 9; mkRideRequest "k" 3 0 "q" 10;
     mkRideRequest "l" 2 3 "q" 11; mkRideRequest "m" 1 3 "q" 12;
     mkRideRequest "n" 0 3 "q" 13]
    (snd (processRequest scenario_request scenario_matcher)).

(** A window of twenty requests, all with the pickup at location 2. *)
Definition crowded_matcher : RideMatcher :=
  enqueue_all (replicate 20 (mkRideRequest "a" 2 0 "p" 0))
              (RideMatcher_new scenario_graph).

(** ** States reachable through the interfaces *)

(** The graphs that the constructor and the mutators of [Graph] can
    produce. *)
Inductive graph_built : Graph -> Prop :=
| built_new n g :
    Graph_new n = Ok g -> graph_built g
| built_addEdge src dest w name g g' :
    graph_built g -> addEdge src dest w name g = Ok g' -> graph_built g'
| built_addDirectedEdge src dest w name g g' :
    graph_built g -> addDirectedEdge src dest w name g = Ok g' ->
    graph_built g'
| built_addNode id name lat lon g g' :
    graph_built g -> addNode id name lat lon g = Ok g' -> graph_built g'.

(** ** Emptying a heap *)

(** The loop [while (!h.isEmpty()) out.push_back(h.extractMin())], one
    iteration per unit of fuel. *)
Fixpoint drain (fuel : nat) (h : MinHeap) : list HeapNode :=
  match fuel with
  | O => []
  | S fuel' =>
      if isEmpty h then []
      else fst (extractMin h) :: drain fuel' (snd (extractMin h))
  end.

(** Every iteration removes one entry, so [size()] iterations empty the
    heap. *)
Definition extract_all (h : MinHeap) : list HeapNode :=
  drain (length (heap h)) h.

(** Distances do not decrease from one entry to the next. *)
Definition by_distance (a b : HeapNode) : Prop :=
  dle (distance a) (distance b).

(** ** Graphs with two-way roads only *)

(** The graphs produced by the constructor, [addEdge] and [addNode]
    alone (no [addDirectedEdge]). *)
Inductive two_way_built : Graph -> Prop :=
| two_way_new n g :
    Graph_new n = Ok g -> two_way_built g
| two_way_addEdge src dest w name g g' :
    two_way_built g -> addEdge src dest w name g = Ok g' -> two_way_built g'
| two_way_addNode id name lat lon g g' :
    two_way_built g -> addNode id name lat lon g = Ok g' -> two_way_built g'.

(** The edge stored at the other end of a two-way road. *)
Definition reverse_edge (u : Z) (e : Edge) : Edge :=
  mkEdge u (weight e) (roadName e).

(** The walk from [u] along [es], taken backwards. *)
Fixpoint reverse_walk (u : Z) (es : list Edge) : list Edge :=
  match es with
  | [] => []
  | e :: rest => reverse_walk (destination e) rest ++ [reverse_edge u e]
  end.

(** The double written 0.3. *)
Definition double_0_3 : Q := 5404319552844595 # 18014398509481984.

(** Four locations in a row, joined by roads of 0.1, 0.2 and 0.3. *)
Definition line_graph_nodes : result Graph :=
  and_then (Graph_new 4) (fun g =>
  and_then (addNode 0 "A" 0 0 g) (fun g =>
  and_then (addNode 1 "B" 0 0 g) (fun g =>
  and_then (addNode 2 "C" 0 0 g) (fun g => addNode 3 "D" 0 0 g)))).

Definition line_graph_built : result Graph :=
  and_then line_graph_nodes (fun g =>
  and_then (addEdge 0 1 (Fin double_0_1) "First" g) (fun g =>
  and_then (addEdge 1 2 (Fin double_0_2) "Second" g) (fun g =>
  addEdge 2 3 (Fin double_0_3) "Third" g))).

(** The length of a walk that continues from distance [a]. *)
Definition walk_len_from (a : dist) (es : list Edge) : dist :=
  fold_left (fun acc e => dplus acc (weight e)) es a.

(** Equality of distances as numbers. *)
Definition deq (a b : dist) : Prop :=
  match a, b with
  | Fin x, Fin y => (x == y)%Q
  | Inf, Inf => True
  | _, _ => False
  end.

(** The graph of a result, the empty graph when the call threw. *)
Definition graph_of (r : result Graph) : Graph :=
  match r with
  | Ok g => g
  | Err _ => mkGraph 0 [] ∅
  end.

(** Two locations joined by one two-way road of length 3. *)
Definition one_road_nodes : result Graph :=
  and_then (Graph_new 2) (fun g =>
  and_then (addNode 0 "A" 0 0 g) (fun g => addNode 1 "B" 0 0 g)).

Definition one_road_built : result Graph :=
  and_then one_road_nodes (fun g => addEdge 0 1 (Fin 3) "Main Street" g).

(** Two locations joined by a road of 82 km. *)
Definition long_road_built : result Graph :=
  and_then one_road_nodes (fun g => addEdge 0 1 (Fin 82) "Motorway" g).



(** Two locations joined by two roads, the longer one added first. *)
Definition parallel_roads_built : result Graph :=
  and_then one_road_nodes (fun g =>
  and_then (addEdge 0 1 (Fin 5) "Slow Road" g) (fun g =>
  addEdge 0 1 (Fin 2) "Fast Road" g)).

Definition parallel_roads : Graph := graph_of parallel_roads_built.

(** ** Requests processed in a row *)

(** [processRequest] called for each request of a list in turn: the
    results, oldest first, and the matcher left. *)
Fixpoint process_all (reqs : list RideRequest) (m : RideMatcher) :
    list RideMatchResult * RideMatcher :=
  match reqs with
  | [] => ([], m)
  | request :: rest =>
      let r := fst (processRequest request m) in
      let m1 := snd (processRequest request m) in
      (r :: fst (process_all rest m1), snd (process_all rest m1))
  end.

(** The ids of the drivers assigned by the successful results. *)
Definition assigned_ids (rs : list RideMatchResult) : list string :=
  (fun r => driver_id (assignedDriver r)) <$>
    filter (fun r => success r = true) rs.

(** The availability flag stored for the id [k], if any. *)
Definition flag_of (dm : DriverManager) (k : string) : option bool :=
  isAvailable <$> drivers dm !! k.

(** Three requests on the scenario of two drivers. *)
Definition three_requests : list RideRequest :=
  [mkRideRequest "r1" 3 0 "p1" 0; mkRideRequest "r2" 0 3 "p2" 1;
   mkRideRequest "r3" 1 2 "p3" 2].

(** ** What a sequence of operations does to one driver *)

(** [d'] is [d] up to the location and the availability flag. *)
Definition same_driver (d d' : Driver) : Prop :=
  driver_id d' = driver_id d /\ driver_name d' = driver_name d /\
  vehicleType d' = vehicleType d /\ rating d' = rating d /\
  completedRides d' = completedRides d.

(** The operation moves the driver [k]. *)
Definition moves (k : string) (op : MatcherOp) : bool :=
  match op with
  | MUpdateDriverLocation id _ => bool_decide (id = k)
  | _ => false
  end.

(** The operation sets the availability flag of the driver [k]. *)
Definition releases (k : string) (op : MatcherOp) : bool :=
  match op with
  | MSetDriverAvailability id true => bool_decide (id = k)
  | _ => false
  end.

(** A day of the scenario: a match, a request in the queue, a second
    registration under the id of a registered driver, a match from the
    queue and a direct match. *)
Definition busy_day : list MatcherOp :=
  [MProcessRequest scenario_request;
   MAddRideRequest (mkRideRequest "r2" 0 3 "p2" 1);
   MAddDriver (Driver_new "d2" "Cy" 0 "Van" 4);
   MProcessNextRequest;
   MFindRide (mkRideRequest "r3" 1 2 "p3" 2)].

(** ** Connected parts of a graph *)

(** Each of [x] and [y] can be reached from the other. *)
Definition conn (g : Graph) (x y : Z) : Prop :=
  reachable g x y /\ reachable g y x.

(** [parent] is a forest over the vertices below [n]: the parent of a
    vertex is a vertex, and [rank] grows along every link. *)
Definition uf_ok (n : Z) (rank : Z -> nat) (parent : list Z) : Prop :=
  length parent = Z.to_nat n /\
  forall x, 0 <= x < n ->
    0 <= vget x parent x < n /\
    (vget x parent x <> x -> (rank x < rank (vget x parent x))%nat).

(** Every vertex is connected with its parent. *)
Definition linked (g : Graph) (parent : list Z) : Prop :=
  forall x, in_range g x -> conn g x (vget x parent x).

Definition uf_inv (g : Graph) (parent : list Z) : Prop :=
  exists rank, uf_ok (numVertices g) rank parent /\ linked g parent.

(** The number of vertices below [n] of a rank above that of [x]. *)
Definition above (n : Z) (rank : Z -> nat) (x : Z) : nat :=
  length (filter (fun y => (rank x < rank y)%nat)
                 (Z.of_nat <$> seq 0 (Z.to_nat n))).

(** Every list of the map holds vertices connected with its key, and at
    least one. *)
Definition comps_ok (g : Graph) (components : gmap Z (list Z)) : Prop :=
  forall r c, components !! r = Some c ->
    c <> [] /\ forall x, x ∈ c -> in_range g x /\ conn g x r.

(** The first elements of the lists. *)
Definition heads (cl : list (list Z)) : list Z := omap head cl.

(** Every road is one unit long. *)
Definition unit_distance (lat1 lon1 lat2 lon2 : Q) : dist := Fin 1.

(** A graph without vertices. *)
Definition empty_graph : Graph := graph_of (Graph_new 0).

(** [r] is met when the parents are followed from [x]. *)
Inductive reaches (parent : list Z) : Z -> Z -> Prop :=
| reaches_refl x : reaches parent x x
| reaches_step x r :
    reaches parent (vget x parent x) r -> reaches parent x r.

(** [r] is the root of the tree of [x]. *)
Definition root_of (parent : list Z) (x r : Z) : Prop :=
  reaches parent x r /\ vget r parent r = r.

(** [x] and [y] are in the same tree. *)
Definition same_set (parent : list Z) (x y : Z) : Prop :=
  exists r, root_of parent x r /\ root_of parent y r.

(** The pairs of [S] are pairs of vertices of the same tree. *)
Definition joined (g : Graph) (S : Z -> Z -> Prop) (parent : list Z) : Prop :=
  uf_inv g parent /\
  forall a b, S a b -> in_range g a /\ in_range g b /\ same_set parent a b.

(** ** Drivers at the same distance *)

(** The driver kept by the search loop stands at some position of the
    drivers [seen], and every driver before that position with a route is
    strictly farther from the pickup. *)
Definition nearest_first (g : Graph) (pickup : Z) (seen : list Driver)
    (acc : NearestAcc) : Prop :=
  match nearestDriver acc with
  | None => True
  | Some best =>
      exists i, seen !! i = Some best /\
        forall j d, (j < i)%nat -> seen !! j = Some d ->
          found (path_to g pickup d) = true ->
          dlt (minDistance acc) (totalDistance (path_to g pickup d)) = true
  end.

(** Two drivers at location 2, one unit from location 3. *)
Definition twin_matcher : RideMatcher :=
  addDriver (Driver_new "t2" "Di" 2 "Sedan" 5)
    (addDriver (Driver_new "t1" "Cy" 2 "Sedan" 5)
       (RideMatcher_new scenario_graph)).

(** * Theorems *)

(** ** The order on distances *)

Lemma Qltb_true (x y : Q) : Qltb x y = true <-> (x < y)%Q.
Proof.
  unfold Qltb. rewrite Qlt_alt. destruct (x ?= y)%Q; split; congruence.
Qed.

Lemma Qltb_false (x y : Q) : Qltb x y = false <-> (y <= x)%Q.
Proof.
  split.
  - intros H. destruct (Qlt_le_dec x y) as [Hlt|Hle]; [|exact Hle].
    apply Qltb_true in Hlt. congruence.
  - intros H. destruct (Qltb x y) eqn:E; [|reflexivity].
    apply Qltb_true in E. lra.
Qed.

Lemma dle_Fin (x y : Q) : dle (Fin x) (Fin y) <-> (x <= y)%Q.
Proof. unfold dle. simpl. apply Qltb_false. Qed.

Lemma dlt_Fin (x y : Q) : dlt (Fin x) (Fin y) = true <-> (x < y)%Q.
Proof. simpl. apply Qltb_true. Qed.

Lemma dle_Inf (a : dist) : dle a Inf.
Proof. unfold dle. reflexivity. Qed.

Lemma dle_Inf_l (a : dist) : dle Inf a -> a = Inf.
Proof. unfold dle. destruct a; simpl; [discriminate | reflexivity]. Qed.

Lemma dle_refl (a : dist) : dle a a.
Proof. destruct a; [apply dle_Fin; lra | apply dle_Inf]. Qed.

Lemma dle_trans (a b c : dist) : dle a b -> dle b c -> dle a c.
Proof.
  destruct a as [x|], b as [y|], c as [z|]; intros H1 H2;
    try apply dle_Inf; try (apply dle_Inf_l in H1; discriminate);
    try (apply dle_Inf_l in H2; discriminate).
  apply dle_Fin in H1, H2. apply dle_Fin. lra.
Qed.

Lemma dlt_dle (a b : dist) : dlt a b = true -> dle a b.
Proof.
  destruct a as [x|], b as [y|]; simpl; intros H; try discriminate;
    try apply dle_Inf.
  apply Qltb_true in H. apply dle_Fin. lra.
Qed.

Lemma dlt_not_dle (a b : dist) : dlt a b = true -> dle b a -> False.
Proof. unfold dle. congruence. Qed.

Lemma not_dlt_dle (a b : dist) : dlt a b = false -> dle b a.
Proof. exact (fun H => H). Qed.

Lemma dle_total (a b : dist) : dle a b \/ dle b a.
Proof.
  destruct (dlt a b) eqn:E; [left; by apply dlt_dle | right; exact E].
Qed.

Lemma dlt_irrefl (a : dist) : dlt a a = false.
Proof. apply dle_refl. Qed.

Lemma dle_dlt_trans (a b c : dist) :
  dle a b -> dlt b c = true -> dlt a c = true.
Proof.
  intros H1 H2. destruct (dlt a c) eqn:E; [reflexivity | exfalso].
  apply (dlt_not_dle b c H2). eapply dle_trans; [exact E | exact H1].
Qed.

Lemma dlt_dle_trans (a b c : dist) :
  dlt a b = true -> dle b c -> dlt a c = true.
Proof.
  intros H1 H2. destruct (dlt a c) eqn:E; [reflexivity | exfalso].
  apply (dlt_not_dle a b H1). eapply dle_trans; [exact H2 | exact E].
Qed.

Lemma dlt_Inf_r (a : dist) : dlt a Inf = true -> exists x, a = Fin x.
Proof. destruct a; [eauto | discriminate]. Qed.

Lemma dlt_Fin_l (a b : dist) : dlt a b = true -> exists x, a = Fin x.
Proof. destruct a; [eauto | discriminate]. Qed.

(** ** Rounding to the nearest double *)
Lemma rne_floor (a b : Z) : 0 < b -> a / b <= rne a b <= a / b + 1.
Proof.
  intros Hb. unfold rne. cbv zeta.
  destruct (2 * (a mod b) <? b); [lia|].
  destruct (b <? 2 * (a mod b)); [lia|].
  destruct (Z.even (a / b)); lia.
Qed.

Lemma rne_exact (a b : Z) : 0 < b -> a mod b = 0 -> rne a b = a / b.
Proof.
  intros Hb Hr. unfold rne. cbv zeta. rewrite Hr.
  destruct (2 * 0 <? b) eqn:E; [done|]. apply Z.ltb_ge in E. lia.
Qed.

Lemma rne_ge (a b g : Z) : 0 < b -> g * b <= a -> g <= rne a b.
Proof.
  intros Hb Hg. pose proof (rne_floor a b Hb).
  assert (g <= a / b) by (apply Z.div_le_lower_bound; lia). lia.
Qed.

Lemma rne_le (a b g : Z) : 0 < b -> a <= g * b -> rne a b <= g.
Proof.
  intros Hb Hg. pose proof (rne_floor a b Hb).
  pose proof (Z.div_mod a b ltac:(lia)). pose proof (Z.mod_pos_bound a b Hb).
  destruct (decide (a mod b = 0)) as [E|E].
  - rewrite rne_exact by done. nia.
  - assert (a / b < g) by nia. lia.
Qed.

Lemma rne_mono (a b a' b' : Z) :
  0 < b -> 0 < b' -> a * b' <= a' * b -> rne a b <= rne a' b'.
Proof.
  intros Hb Hb' Hle.
  pose proof (rne_floor a b Hb) as H1. pose proof (rne_floor a' b' Hb') as H2.
  pose proof (Z.div_mod a b ltac:(lia)) as E1.
  pose proof (Z.mod_pos_bound a b Hb) as R1.
  pose proof (Z.div_mod a' b' ltac:(lia)) as E2.
  pose proof (Z.mod_pos_bound a' b' Hb') as R2.
  assert (Hf : a / b <= a' / b').
  { apply Z.div_le_lower_bound; [lia|].
    assert (b * (b' * (a / b)) <= b * a') by nia. nia. }
  destruct (decide (a / b = a' / b')) as [Ef|Ef]; [|lia].
  (* same floor: compare the remainders *)
  assert (Hr : (a mod b) * b' <= (a' mod b') * b) by nia.
  unfold rne. cbv zeta. rewrite <- Ef.
  destruct (2 * (a mod b) <? b) eqn:C1.
  { destruct (2 * (a' mod b') <? b'); [lia|].
    destruct (b' <? 2 * (a' mod b')); [lia|]. destruct (Z.even (a / b)); lia. }
  apply Z.ltb_ge in C1.
  destruct (b <? 2 * (a mod b)) eqn:C2.
  { apply Z.ltb_lt in C2.
    assert (b' < 2 * (a' mod b')) by nia.
    destruct (2 * (a' mod b') <? b') eqn:C3; [apply Z.ltb_lt in C3; lia|].
    destruct (b' <? 2 * (a' mod b')) eqn:C4; [lia|]. apply Z.ltb_ge in C4. lia. }
  apply Z.ltb_ge in C2.
  assert (b' <= 2 * (a' mod b')) by nia.
  destruct (2 * (a' mod b') <? b') eqn:C3; [apply Z.ltb_lt in C3; lia|].
  destruct (b' <? 2 * (a' mod b')) eqn:C4; [destruct (Z.even (a / b)); lia|].
  lia.
Qed.

Lemma last_place_nonneg (f : Z) : 0 <= last_place f.
Proof. unfold last_place. lia. Qed.

Lemma last_place_mono (f f' : Z) : f <= f' -> last_place f <= last_place f'.
Proof.
  intros H. unfold last_place. pose proof (Z.log2_le_mono f f' H). lia.
Qed.

Lemma floor_mono (n d n' d' : Z) :
  0 < d -> 0 < d' -> n * d' <= n' * d -> n / d <= n' / d'.
Proof.
  intros Hd Hd' Hle. apply Z.div_le_lower_bound; [lia|].
  pose proof (Z.div_mod n d ltac:(lia)). pose proof (Z.mod_pos_bound n d Hd).
  assert (d * (d' * (n / d)) <= d * n') by nia. nia.
Qed.

Lemma below_next_binade (n d : Z) :
  0 <= n -> 0 < d -> n < d * 2 ^ (Z.log2 (n / d) + 1).
Proof.
  intros Hn Hd.
  pose proof (Z.div_mod n d ltac:(lia)). pose proof (Z.mod_pos_bound n d Hd).
  assert (0 <= n / d) by (apply Z.div_pos; lia).
  assert (n / d < 2 ^ (Z.log2 (n / d) + 1)).
  { destruct (decide (n / d = 0)) as [->|]; [done|].
    replace (Z.log2 (n / d) + 1) with (Z.succ (Z.log2 (n / d))) by lia.
    apply Z.log2_spec. lia. }
  nia.
Qed.

Lemma above_binade (n d : Z) :
  0 < d -> 0 < n / d -> d * 2 ^ Z.log2 (n / d) <= n.
Proof.
  intros Hd Hf.
  pose proof (Z.div_mod n d ltac:(lia)). pose proof (Z.mod_pos_bound n d Hd).
  pose proof (Z.log2_spec (n / d) Hf). nia.
Qed.

Lemma pow2_pos (k : Z) : 0 <= k -> 0 < 2 ^ k.
Proof. intros. by apply Z.pow_pos_nonneg. Qed.

Lemma pow2_split (a b : Z) : 0 <= b <= a -> 2 ^ a = 2 ^ (a - b) * 2 ^ b.
Proof. intros. rewrite <- Z.pow_add_r by lia. f_equal. lia. Qed.

Lemma round_units_mono (n d n' d' : Z) :
  0 <= n -> 0 < d -> 0 < d' -> n * d' <= n' * d ->
  round_units n d <= round_units n' d'.
Proof.
  intros Hn Hd Hd' Hle. unfold round_units. cbv zeta.
  pose proof (floor_mono n d n' d' Hd Hd' Hle) as Hf.
  pose proof (last_place_mono _ _ Hf) as Hs.
  pose proof (last_place_nonneg (n / d)) as Hs0.
  set (s := last_place (n / d)) in *. set (s' := last_place (n' / d')) in *.
  pose proof (pow2_pos s Hs0) as Hp. pose proof (pow2_pos s' ltac:(lia)) as Hp'.
  destruct (decide (s = s')) as [<-|Hne].
  - apply Z.mul_le_mono_nonneg_r; [lia|]. apply rne_mono; nia.
  - assert (Hlt : s < s') by lia.
    assert (0 <= n / d) by (apply Z.div_pos; lia).
    assert (Hk : Z.log2 (n / d) < Z.log2 (n' / d') /\
                 s' = Z.log2 (n' / d') - 52).
    { unfold s, s', last_place in *. lia. }
    destruct Hk as [Hk Es'].
    set (k' := Z.log2 (n' / d')) in *.
    assert (Hf' : 0 < n' / d').
    { destruct (decide (0 < n' / d')); [done|].
      assert (k' = 0); [|pose proof (Z.log2_nonneg (n / d)); lia].
      unfold k'. apply Z.log2_nonpos. lia. }
    transitivity (2 ^ k').
    + rewrite (pow2_split k' s) by lia.
      apply Z.mul_le_mono_nonneg_r; [lia|]. apply rne_le; [nia|].
      pose proof (below_next_binade n d Hn Hd).
      assert (2 ^ (Z.log2 (n / d) + 1) <= 2 ^ k')
        by (apply Z.pow_le_mono_r; lia).
      rewrite Z.mul_assoc, (Z.mul_comm _ d), <- Z.mul_assoc.
      rewrite <- pow2_split by lia. nia.
    + rewrite (pow2_split k' s') at 1 by lia.
      apply Z.mul_le_mono_nonneg_r; [lia|]. apply rne_ge; [nia|].
      pose proof (above_binade n' d' Hd' Hf').
      rewrite Z.mul_assoc, (Z.mul_comm _ d'), <- Z.mul_assoc.
      rewrite <- pow2_split by lia. fold k' in H0. lia.
Qed.

Lemma round_units_fixed (m : Z) : representable m -> round_units m 1 = m.
Proof.
  intros [H0 Hm]. unfold round_units. cbv zeta. rewrite Z.div_1_r, Z.mul_1_l.
  pose proof (pow2_pos _ (last_place_nonneg m)).
  rewrite rne_exact by (done || lia).
  pose proof (Z.div_mod m (2 ^ last_place m) ltac:(lia)). lia.
Qed.

Lemma representable_mul_pow2 (m s : Z) :
  0 <= m <= 2 ^ 53 -> 0 <= s -> representable (m * 2 ^ s).
Proof.
  intros Hm Hs. pose proof (pow2_pos s Hs) as Hp. split; [nia|].
  destruct (decide (m = 0)) as [->|Hm0].
  { rewrite Z.mul_0_l. apply Z.mod_0_l. pose proof (pow2_pos _ (last_place_nonneg 0)). lia. }
  assert (Hlog : Z.log2 (m * 2 ^ s) = Z.log2 m + s).
  { rewrite Z.log2_mul_pow2 by lia. lia. }
  unfold last_place. rewrite Hlog.
  destruct (decide (m = 2 ^ 53)) as [->|Hne].
  - rewrite Z.log2_pow2 by lia.
    replace (Z.max 0 (53 + s - 52)) with (s + 1) by lia.
    rewrite <- Z.pow_add_r by lia. replace (53 + s) with (52 + (s + 1)) by lia.
    rewrite Z.pow_add_r by lia. apply Z.mod_mul. pose proof (pow2_pos (s + 1)). lia.
  - assert (Z.log2 m < 53) by (apply Z.log2_lt_pow2; lia).
    set (t := Z.max 0 (Z.log2 m + s - 52)).
    assert (0 <= t <= s) by lia.
    rewrite (pow2_split s t) by lia. rewrite Z.mul_assoc.
    apply Z.mod_mul. pose proof (pow2_pos t). lia.
Qed.

Lemma round_units_representable (n d : Z) :
  0 <= n -> 0 < d -> representable (round_units n d).
Proof.
  intros Hn Hd. unfold round_units. cbv zeta.
  pose proof (last_place_nonneg (n / d)) as Hs0.
  set (s := last_place (n / d)) in *.
  pose proof (pow2_pos s Hs0) as Hp.
  apply representable_mul_pow2; [|done]. split.
  - apply (rne_ge n (d * 2 ^ s) 0); nia.
  - assert (0 <= n / d) by (apply Z.div_pos; lia).
    pose proof (Z.log2_nonneg (n / d)).
    apply rne_le; [nia|].
    pose proof (below_next_binade n d Hn Hd).
    assert (2 ^ (Z.log2 (n / d) + 1) <= 2 ^ (53 + s)).
    { apply Z.pow_le_mono_r; [lia|]. unfold s, last_place. lia. }
    rewrite Z.mul_assoc, (Z.mul_comm _ d), <- Z.mul_assoc.
    rewrite <- Z.pow_add_r by lia. nia.
Qed.

Lemma pow2_1074 : Z.pos (2 ^ 1074)%positive = 2 ^ 1074.
Proof. by rewrite Pos2Z.inj_pow. Qed.

Lemma units_to_Q_eq (m : Z) : (units_to_Q m == Qmake m (2 ^ 1074)%positive)%Q.
Proof. unfold units_to_Q. apply Qred_correct. Qed.

Lemma units_to_Q_le (m m' : Z) :
  m <= m' -> (units_to_Q m <= units_to_Q m')%Q.
Proof.
  intros H. rewrite !units_to_Q_eq. unfold Qle. simpl.
  apply Z.mul_le_mono_nonneg_r; [lia | done].
Qed.

Lemma units_to_Q_nonneg (m : Z) : 0 <= m -> (0 <= units_to_Q m)%Q.
Proof.
  intros H. rewrite units_to_Q_eq. unfold Qle. simpl. lia.
Qed.

Lemma Qnum_nonneg (q : Q) : (0 <= q)%Q -> 0 <= Qnum q.
Proof. unfold Qle. simpl. lia. Qed.

Lemma round_double_nonneg (q : Q) :
  (0 <= q)%Q -> round_double q = round_mag q.
Proof.
  intros H. unfold round_double.
  by rewrite (proj2 (Qltb_false q 0) H).
Qed.

Lemma round_mag_mono (q q' : Q) :
  (0 <= q)%Q -> (q <= q')%Q -> dle (round_mag q) (round_mag q').
Proof.
  intros H0 Hle. unfold round_mag. cbv zeta.
  pose proof (Qnum_nonneg q H0) as Hn.
  assert (Hm : round_units (Qnum q * 2 ^ 1074) (Z.pos (Qden q)) <=
               round_units (Qnum q' * 2 ^ 1074) (Z.pos (Qden q'))).
  { apply round_units_mono; [lia | done | done |].
    unfold Qle in Hle. pose proof (pow2_pos 1074 ltac:(lia)). nia. }
  destruct (2 ^ 2098 <=? round_units (Qnum q' * 2 ^ 1074) (Z.pos (Qden q')))
    eqn:E'; [apply dle_Inf|].
  destruct (2 ^ 2098 <=? round_units (Qnum q * 2 ^ 1074) (Z.pos (Qden q)))
    eqn:E.
  { apply Z.leb_le in E. apply Z.leb_gt in E'. lia. }
  apply dle_Fin. by apply units_to_Q_le.
Qed.

(** A rounded sum is a double again. *)
Lemma round_mag_double (q : Q) : (0 <= q)%Q -> nonneg_double (round_mag q).
Proof.
  intros H0. unfold round_mag. cbv zeta.
  destruct (2 ^ 2098 <=? _) eqn:E; [done|]. apply Z.leb_gt in E.
  eexists. split_and!; [|exact E|reflexivity].
  apply round_units_representable; [|done].
  pose proof (Qnum_nonneg q H0). lia.
Qed.

(** Rounding never goes below a double that the exact value reaches. *)
Lemma round_mag_ge (m : Z) (q : Q) :
  representable m -> (units_to_Q m <= q)%Q ->
  dle (Fin (units_to_Q m)) (round_mag q).
Proof.
  intros Hm Hle. unfold round_mag. cbv zeta.
  destruct (2 ^ 2098 <=? _) eqn:E; [apply dle_Inf|].
  apply dle_Fin, units_to_Q_le.
  rewrite <- (round_units_fixed m Hm) at 1.
  destruct Hm as [Hm0 _].
  apply round_units_mono; [done | lia | done |].
  rewrite units_to_Q_eq in Hle. unfold Qle in Hle. simpl in Hle.
  rewrite pow2_1074 in Hle. lia.
Qed.

Lemma nonneg_double_zero : nonneg_double (Fin 0).
Proof.
  exists 0. split_and!; [|done|by vm_compute].
  split; [done|]. by vm_compute.
Qed.

Lemma nonneg_double_nonneg (a : dist) : nonneg_double a -> dle (Fin 0) a.
Proof.
  destruct a as [x|]; [|intros; apply dle_Inf].
  intros (m & [Hm _] & _ & ->). apply dle_Fin. by apply units_to_Q_nonneg.
Qed.

(** ** Sums of distances *)

(** Adding a weight is monotone, and a weight that is not negative never
    shortens a distance. *)
Lemma dplus_mono (a b w : dist) :
  dle (Fin 0) a -> dle (Fin 0) w -> dle a b ->
  dle (dplus a w) (dplus b w).
Proof.
  destruct a as [x|], b as [y|], w as [z|]; simpl; intros Ha Hw H;
    try apply dle_Inf.
  - apply dle_Fin in Ha, Hw, H.
    rewrite !round_double_nonneg by lra. apply round_mag_mono; lra.
  - apply dle_Inf_l in H. discriminate.
Qed.

Lemma dplus_nonneg (a w : dist) :
  nonneg_double a -> dle (Fin 0) w -> dle a (dplus a w).
Proof.
  destruct a as [x|], w as [z|]; simpl; intros Ha Hw; try apply dle_Inf.
  destruct Ha as (m & Hm & _ & ->). apply dle_Fin in Hw.
  pose proof (units_to_Q_nonneg m (proj1 Hm)).
  rewrite round_double_nonneg by lra. apply round_mag_ge; [done | lra].
Qed.

Lemma dplus_double (a w : dist) :
  nonneg_double a -> dle (Fin 0) w -> nonneg_double (dplus a w).
Proof.
  destruct a as [x|], w as [z|]; simpl; intros Ha Hw; try done.
  destruct Ha as (m & Hm & _ & ->). apply dle_Fin in Hw.
  pose proof (units_to_Q_nonneg m (proj1 Hm)).
  rewrite round_double_nonneg by lra. apply round_mag_double. lra.
Qed.

Lemma dplus_Inf_l (w : dist) : dplus Inf w = Inf.
Proof. done. Qed.

Lemma dplus_Inf_r (a : dist) : dplus a Inf = Inf.
Proof. by destruct a. Qed.

(** Rounding leaves a double as it is. *)
Lemma round_mag_fixed (m : Z) :
  representable m -> m < 2 ^ 2098 ->
  round_mag (units_to_Q m) = Fin (units_to_Q m).
Proof.
  intros Hm Hlt.
  pose proof (round_mag_ge m (units_to_Q m) Hm ltac:(lra)) as Hge.
  pose proof (round_mag_double (units_to_Q m)
                (units_to_Q_nonneg m (proj1 Hm))) as Hd.
  unfold round_mag in *. cbv zeta in *.
  set (n := Qnum (units_to_Q m) * 2 ^ 1074) in *.
  set (d := Z.pos (Qden (units_to_Q m))) in *.
  assert (Hle : round_units n d <= m).
  { transitivity (round_units m 1); [|by rewrite round_units_fixed].
    apply round_units_mono; [|done|lia|].
    - unfold n. pose proof (Qnum_nonneg _ (units_to_Q_nonneg m (proj1 Hm))).
      lia.
    - pose proof (units_to_Q_eq m) as E. unfold Qeq in E. simpl in E.
      rewrite pow2_1074 in E. unfold n, d. lia. }
  destruct (2 ^ 2098 <=? round_units n d) eqn:E.
  { apply Z.leb_le in E. lia. }
  apply dle_Fin in Hge. f_equal.
  assert (Hge' : m <= round_units n d).
  { rewrite !units_to_Q_eq in Hge. unfold Qle in Hge. simpl in Hge.
    rewrite pow2_1074 in Hge. pose proof (pow2_pos 1074 ltac:(lia)). nia. }
  f_equal. lia.
Qed.

(** A product with a constant that is not negative is not negative. *)
Lemma dmul_nonneg (a : dist) (c : Q) :
  dle (Fin 0) a -> (0 <= c)%Q -> dle (Fin 0) (dmul a c).
Proof.
  destruct a as [x|]; simpl; intros Ha Hc; [|apply dle_Inf].
  apply dle_Fin in Ha. rewrite round_double_nonneg by nra.
  apply nonneg_double_nonneg, round_mag_double. nra.
Qed.



(** ** Index arithmetic of the implicit binary tree *)

Lemma parent_lt (i : nat) : (0 < i)%nat -> (parent i < i)%nat.
Proof.
  intros H. unfold parent.
  pose proof (Nat.div_mod_eq (i - 1) 2).
  pose proof (Nat.mod_upper_bound (i - 1) 2). lia.
Qed.

Lemma parent_le (i : nat) : (parent i <= i)%nat.
Proof.
  destruct i; [reflexivity|]. pose proof (parent_lt (S i)). lia.
Qed.

Lemma parent_leftChild (i : nat) : parent (leftChild i) = i.
Proof.
  unfold parent, leftChild.
  replace (2 * i + 1 - 1)%nat with (i * 2)%nat by lia.
  apply Nat.div_mul. lia.
Qed.

Lemma parent_rightChild (i : nat) : parent (rightChild i) = i.
Proof.
  unfold parent, rightChild.
  replace (2 * i + 2 - 1)%nat with (1 + i * 2)%nat by lia.
  rewrite Nat.div_add by lia. reflexivity.
Qed.

Lemma parent_inv (i j : nat) :
  (0 < j)%nat -> parent j = i -> j = leftChild i \/ j = rightChild i.
Proof.
  unfold parent, leftChild, rightChild. intros Hj <-.
  pose proof (Nat.div_mod_eq (j - 1) 2).
  pose proof (Nat.mod_upper_bound (j - 1) 2). lia.
Qed.

(** ** [swap] *)

Lemma heap_at_lookup (l : list HeapNode) (i : nat) (a : HeapNode) :
  l !! i = Some a -> heap_at l i = a.
Proof. unfold heap_at. by intros ->. Qed.

Lemma lookup_swap_list {A} (l : list A) (i j k : nat) (a b : A) :
  l !! i = Some a -> l !! j = Some b ->
  <[j := a]> (<[i := b]> l) !! k =
    if decide (k = j) then Some a
    else if decide (k = i) then Some b else l !! k.
Proof.
  intros Hi Hj.
  apply lookup_lt_Some in Hi as Hil. apply lookup_lt_Some in Hj as Hjl.
  destruct (decide (k = j)) as [->|Hkj].
  - apply list_lookup_insert_eq. by rewrite length_insert.
  - rewrite list_lookup_insert_ne by done.
    destruct (decide (k = i)) as [->|Hki].
    + by apply list_lookup_insert_eq.
    + by rewrite list_lookup_insert_ne.
Qed.

Lemma insert_head_Permutation {A} (l : list A) (j : nat) (a b : A) :
  l !! j = Some b -> b :: <[j := a]> l ≡ₚ a :: l.
Proof.
  revert j. induction l as [|x l IH]; intros [|j] H; simplify_eq/=.
  - apply perm_swap.
  - rewrite perm_swap. rewrite (IH j H). apply perm_swap.
Qed.

Lemma swap_list_Permutation {A} (l : list A) (i j : nat) (a b : A) :
  l !! i = Some a -> l !! j = Some b ->
  <[j := a]> (<[i := b]> l) ≡ₚ l.
Proof.
  revert i j. induction l as [|x l IH]; intros i j Hi Hj; [done|].
  destruct i as [|i], j as [|j]; simplify_eq/=.
  - done.
  - by apply insert_head_Permutation.
  - rewrite (insert_head_Permutation l i b a Hi). done.
  - f_equiv. by apply IH.
Qed.

Lemma heap_swap (i j : nat) (h : MinHeap) (a b : HeapNode) :
  heap h !! i = Some a -> heap h !! j = Some b ->
  heap (swap i j h) = <[j := a]> (<[i := b]> (heap h)).
Proof.
  intros Hi Hj. unfold swap. simpl.
  by rewrite (heap_at_lookup _ _ _ Hi), (heap_at_lookup _ _ _ Hj).
Qed.

Lemma positions_swap (i j : nat) (h : MinHeap) (a b : HeapNode) :
  heap h !! i = Some a -> heap h !! j = Some b ->
  positions (swap i j h) = <[vertex b := i]> (<[vertex a := j]> (positions h)).
Proof.
  intros Hi Hj. unfold swap. simpl.
  by rewrite (heap_at_lookup _ _ _ Hi), (heap_at_lookup _ _ _ Hj).
Qed.

Lemma length_swap (i j : nat) (h : MinHeap) :
  length (heap (swap i j h)) = length (heap h).
Proof. unfold swap. simpl. by rewrite !length_insert. Qed.

Lemma swap_Permutation (i j : nat) (h : MinHeap) :
  (i < length (heap h))%nat -> (j < length (heap h))%nat ->
  heap (swap i j h) ≡ₚ heap h.
Proof.
  intros Hi Hj.
  destruct (lookup_lt_is_Some_2 _ _ Hi) as [a Ha].
  destruct (lookup_lt_is_Some_2 _ _ Hj) as [b Hb].
  rewrite (heap_swap _ _ _ _ _ Ha Hb). by apply swap_list_Permutation.
Qed.

(** Two slots holding the same vertex are the same slot. *)
Lemma pos_ok_inj (h : MinHeap) (i j : nat) (a b : HeapNode) :
  pos_ok h -> heap h !! i = Some a -> heap h !! j = Some b ->
  vertex a = vertex b -> i = j.
Proof.
  intros Hp Hi Hj Hv. destruct a as [va da], b as [vb db]. simpl in Hv. subst vb.
  assert (H1 : positions h !! va = Some i) by (apply Hp; eauto).
  assert (H2 : positions h !! va = Some j) by (apply Hp; eauto).
  congruence.
Qed.

Lemma pos_ok_lookup (h : MinHeap) (i : nat) (n : HeapNode) :
  pos_ok h -> heap h !! i = Some n -> positions h !! vertex n = Some i.
Proof. intros Hp Hi. apply Hp. exists (distance n). by destruct n. Qed.

Lemma pos_ok_intro (h : MinHeap) :
  (forall i n, heap h !! i = Some n -> positions h !! vertex n = Some i) ->
  (forall v i, positions h !! v = Some i ->
               exists n, heap h !! i = Some n /\ vertex n = v) ->
  pos_ok h.
Proof.
  intros HA HB v i. split.
  - intros H. destruct (HB v i H) as ([v' d] & Hn & Hv). simpl in Hv.
    subst v'. eauto.
  - intros [d Hd]. apply (HA i _ Hd).
Qed.

Lemma pos_ok_elim (h : MinHeap) (v : Z) (i : nat) :
  pos_ok h -> positions h !! v = Some i ->
  exists n, heap h !! i = Some n /\ vertex n = v.
Proof. intros Hp H. apply Hp in H as [d Hd]. eauto. Qed.

Lemma pos_ok_swap (i j : nat) (h : MinHeap) :
  pos_ok h -> i <> j ->
  (i < length (heap h))%nat -> (j < length (heap h))%nat ->
  pos_ok (swap i j h).
Proof.
  intros Hp Hij Hi Hj.
  destruct (lookup_lt_is_Some_2 _ _ Hi) as [a Ha].
  destruct (lookup_lt_is_Some_2 _ _ Hj) as [b Hb].
  assert (Hab : vertex a <> vertex b).
  { intros E. apply Hij. by eapply pos_ok_inj. }
  apply pos_ok_intro.
  - intros k n.
    rewrite (positions_swap _ _ _ _ _ Ha Hb), (heap_swap _ _ _ _ _ Ha Hb).
    rewrite (lookup_swap_list _ _ _ _ _ _ Ha Hb).
    repeat case_decide; intros Hk; simplify_eq.
    + rewrite lookup_insert_ne by done. by rewrite lookup_insert_eq.
    + by rewrite lookup_insert_eq.
    + rewrite !lookup_insert_ne; [by apply pos_ok_lookup| |].
      * intros E. by pose proof (pos_ok_inj h i k a n Hp Ha Hk E).
      * intros E. by pose proof (pos_ok_inj h j k b n Hp Hb Hk E).
  - intros v k.
    rewrite (positions_swap _ _ _ _ _ Ha Hb), (heap_swap _ _ _ _ _ Ha Hb).
    rewrite (lookup_swap_list _ _ _ _ _ _ Ha Hb).
    destruct (decide (vertex b = v)) as [<-|Hvb].
    { rewrite lookup_insert_eq. intros ?; simplify_eq.
      rewrite decide_False by done. rewrite decide_True by done. eauto. }
    rewrite lookup_insert_ne by done.
    destruct (decide (vertex a = v)) as [<-|Hva].
    { rewrite lookup_insert_eq. intros ?; simplify_eq.
      rewrite decide_True by done. eauto. }
    rewrite lookup_insert_ne by done. intros Hk.
    destruct (pos_ok_elim _ _ _ Hp Hk) as (n & Hn & Hv).
    rewrite !decide_False; [eauto| |]; intros ->; congruence.
Qed.

(** ** [heapifyUp] *)

Lemma up_ok_root (l : list HeapNode) : up_ok l 0 -> heap_ordered l.
Proof. intros [H1 _] i a b Hi. apply H1; [done | lia]. Qed.

Lemma up_ok_stop (l : list HeapNode) (i : nat) :
  up_ok l i ->
  dgt (distance (heap_at l (parent i))) (distance (heap_at l i)) = false ->
  heap_ordered l.
Proof.
  intros [H1 _] Hc k a b Hk Ha Hb.
  destruct (decide (k = i)) as [->|Hne]; [|by eapply H1].
  by rewrite (heap_at_lookup _ _ _ Ha), (heap_at_lookup _ _ _ Hb) in Hc.
Qed.

Lemma up_ok_step (l : list HeapNode) (i : nat) (a b : HeapNode) :
  (0 < i)%nat -> l !! i = Some a -> l !! parent i = Some b ->
  dlt (distance a) (distance b) = true ->
  up_ok l i ->
  up_ok (<[parent i := a]> (<[i := b]> l)) (parent i).
Proof.
  intros Hi Ha Hb Hlt [H1 H2].
  pose proof (parent_lt i Hi) as Hp.
  pose proof (dlt_dle _ _ Hlt) as Hab.
  split.
  - intros k x y Hk Hkp.
    rewrite !(lookup_swap_list _ _ _ _ _ _ Ha Hb).
    rewrite (decide_False (P := k = parent i)) by done.
    pose proof (parent_lt k Hk) as Hpk.
    destruct (decide (k = i)) as [->|Hki].
    + rewrite decide_True by done. intros; by simplify_eq.
    + destruct (decide (parent k = parent i)) as [Epk|Npk].
      * intros Hx ?; simplify_eq.
        eapply dle_trans; [exact Hab|]. eapply (H1 k); eauto. by rewrite Epk.
      * destruct (decide (parent k = i)) as [Epi|Npi].
        -- intros Hx ?; simplify_eq. eapply (H2 k); eauto.
        -- intros Hx Hy. eapply (H1 k); eauto.
  - intros k x y Hp0 Hk Hkp.
    rewrite !(lookup_swap_list _ _ _ _ _ _ Ha Hb).
    pose proof (parent_lt _ Hp0) as Hpp.
    rewrite (decide_False (P := parent (parent i) = parent i)) by lia.
    rewrite (decide_False (P := parent (parent i) = i)) by lia.
    rewrite (decide_False (P := k = parent i)).
    2:{ pose proof (parent_lt k Hk). lia. }
    assert (Hyb : forall y, l !! parent (parent i) = Some y ->
                            dle (distance y) (distance b)).
    { intros y' Hy'. eapply (H1 (parent i)); eauto. lia. }
    destruct (decide (k = i)) as [->|Hki].
    + intros ? Hy; simplify_eq. by apply Hyb.
    + intros Hx Hy. eapply dle_trans; [by apply Hyb|].
      eapply (H1 k); eauto. by rewrite Hkp.
Qed.

Lemma heapifyUp_loop_spec (fuel i : nat) (h : MinHeap) :
  (i <= fuel)%nat -> (i < length (heap h))%nat ->
  pos_ok h -> up_ok (heap h) i ->
  pos_ok (heapifyUp_loop fuel i h) /\
  heap_ordered (heap (heapifyUp_loop fuel i h)) /\
  heap (heapifyUp_loop fuel i h) ≡ₚ heap h.
Proof.
  revert i h. induction fuel as [|fuel IH]; intros i h Hf Hi Hp Hu.
  { simpl. assert (i = 0%nat) as -> by lia. split_and!; [done| |done].
    by apply up_ok_root. }
  simpl.
  destruct (0 <? i)%nat eqn:E0; simpl.
  2:{ apply Nat.ltb_ge in E0. assert (i = 0%nat) as -> by lia.
      split_and!; [done| |done]. by apply up_ok_root. }
  apply Nat.ltb_lt in E0.
  destruct (dgt _ _) eqn:Ec.
  2:{ split_and!; [done| |done]. by eapply up_ok_stop. }
  pose proof (parent_lt i E0) as Hlt.
  destruct (lookup_lt_is_Some_2 (heap h) i Hi) as [a Ha].
  destruct (lookup_lt_is_Some_2 (heap h) (parent i)) as [b Hb]; [lia|].
  rewrite (heap_at_lookup _ _ _ Ha), (heap_at_lookup _ _ _ Hb) in Ec.
  destruct (IH (parent i) (swap i (parent i) h)) as (H1 & H2 & H3).
  - lia.
  - rewrite length_swap. lia.
  - apply pos_ok_swap; [done | lia | done | lia].
  - rewrite (heap_swap _ _ _ _ _ Ha Hb). by apply up_ok_step.
  - split_and!; [done | done |].
    rewrite H3. apply swap_Permutation; lia.
Qed.

(** More fuel than the index does not change the result of [heapifyUp]. *)
Lemma heapifyUp_loop_fuel (fuel i : nat) (h : MinHeap) :
  (i <= fuel)%nat -> heapifyUp_loop fuel i h = heapifyUp i h.
Proof.
  unfold heapifyUp. remember i as f eqn:Ef in |- * at 3.
  assert (Hf : (i <= f)%nat) by lia. clear Ef.
  revert i h f Hf. induction fuel as [|fuel IH]; intros i h f Hf Hfuel.
  { assert (i = 0%nat) as -> by lia. destruct f; reflexivity. }
  destruct f as [|f].
  { assert (i = 0%nat) as -> by lia. reflexivity. }
  simpl. destruct (0 <? i)%nat eqn:E0; simpl; [|done].
  apply Nat.ltb_lt in E0. pose proof (parent_lt i E0).
  destruct (dgt _ _); [|done]. apply IH; lia.
Qed.

Lemma heapifyUp_spec (i : nat) (h : MinHeap) :
  (i < length (heap h))%nat -> pos_ok h -> up_ok (heap h) i ->
  heap_inv (heapifyUp i h) /\ heap (heapifyUp i h) ≡ₚ heap h.
Proof.
  intros Hi Hp Hu. unfold heap_inv, heapifyUp.
  destruct (heapifyUp_loop_spec i i h) as (?&?&?); auto.
Qed.

(** Without any assumption on the order, [heapifyUp] still keeps the
    position index exact. *)
Lemma heapifyUp_loop_pos_ok (fuel i : nat) (h : MinHeap) :
  (i < length (heap h))%nat -> pos_ok h ->
  pos_ok (heapifyUp_loop fuel i h) /\
  heap (heapifyUp_loop fuel i h) ≡ₚ heap h.
Proof.
  revert i h. induction fuel as [|fuel IH]; intros i h Hi Hp; [done|].
  simpl. destruct (0 <? i)%nat eqn:E0; simpl; [|done].
  apply Nat.ltb_lt in E0. pose proof (parent_lt i E0) as Hlt.
  destruct (dgt _ _); [|done].
  destruct (IH (parent i) (swap i (parent i) h)) as (H1 & H2).
  - rewrite length_swap. lia.
  - apply pos_ok_swap; [done | lia | done | lia].
  - split; [done|]. rewrite H2. apply swap_Permutation; lia.
Qed.

(** ** [heapifyDown] *)

(** The two comparisons that choose [minIndex]. *)
Lemma minIndex_cases (l : list HeapNode) (i : nat) :
  let m1 := if (leftChild i <? length l)%nat &&
               dlt (distance (heap_at l (leftChild i))) (distance (heap_at l i))
            then leftChild i else i in
  let m2 := if (rightChild i <? length l)%nat &&
               dlt (distance (heap_at l (rightChild i))) (distance (heap_at l m1))
            then rightChild i else m1 in
  (m2 = i /\
   forall k x a, (0 < k)%nat -> parent k = i -> l !! k = Some x ->
                 l !! i = Some a -> dle (distance a) (distance x)) \/
  (m2 <> i /\ (0 < m2)%nat /\ parent m2 = i /\ (m2 < length l)%nat /\
   dlt (distance (heap_at l m2)) (distance (heap_at l i)) = true /\
   forall k x, (0 < k)%nat -> parent k = i -> l !! k = Some x ->
               dle (distance (heap_at l m2)) (distance x)).
Proof.
  intros m1 m2.
  assert (Hl : leftChild i <> i) by (unfold leftChild; lia).
  assert (Hr : rightChild i <> i) by (unfold rightChild; lia).
  assert (Hlr : (leftChild i < rightChild i)%nat)
    by (unfold leftChild, rightChild; lia).
  assert (Hkids : forall k, (0 < k)%nat -> parent k = i ->
                            k = leftChild i \/ k = rightChild i)
    by (intros; by apply parent_inv).
  subst m1 m2.
  destruct (leftChild i <? length l)%nat eqn:EL; simpl.
  2:{ apply Nat.ltb_ge in EL.
      assert ((rightChild i <? length l)%nat = false) as ->
        by (apply Nat.ltb_ge; lia).
      simpl. left. split; [done|]. intros k x a Hk Hp Hx _.
      apply lookup_lt_Some in Hx. destruct (Hkids k Hk Hp); lia. }
  apply Nat.ltb_lt in EL.
  destruct (dlt (distance (heap_at l (leftChild i))) (distance (heap_at l i)))
    eqn:CL.
  - destruct (rightChild i <? length l)%nat eqn:ER; simpl.
    2:{ apply Nat.ltb_ge in ER. right.
        split_and!; auto; [unfold leftChild; lia | apply parent_leftChild |].
        intros k x Hk Hp Hx. pose proof (lookup_lt_Some _ _ _ Hx).
        destruct (Hkids k Hk Hp) as [->| ->]; [|lia].
        rewrite (heap_at_lookup _ _ _ Hx). apply dle_refl. }
    apply Nat.ltb_lt in ER.
    destruct (dlt (distance (heap_at l (rightChild i)))
                  (distance (heap_at l (leftChild i)))) eqn:CR.
    + right.
      split_and!; auto; [unfold rightChild; lia | apply parent_rightChild | |].
      * eapply dlt_dle_trans; [exact CR | by apply dlt_dle].
      * intros k x Hk Hp Hx.
        destruct (Hkids k Hk Hp) as [->| ->];
          rewrite <- (heap_at_lookup _ _ _ Hx);
          [by apply dlt_dle | apply dle_refl].
    + right.
      split_and!; auto; [unfold leftChild; lia | apply parent_leftChild |].
      intros k x Hk Hp Hx.
      destruct (Hkids k Hk Hp) as [->| ->];
        rewrite <- (heap_at_lookup _ _ _ Hx); [apply dle_refl | exact CR].
  - destruct (rightChild i <? length l)%nat eqn:ER; simpl.
    2:{ apply Nat.ltb_ge in ER. left. split; [done|].
        intros k x a Hk Hp Hx Ha. pose proof (lookup_lt_Some _ _ _ Hx).
        destruct (Hkids k Hk Hp) as [->| ->]; [|lia].
        by rewrite <- (heap_at_lookup _ _ _ Hx), <- (heap_at_lookup _ _ _ Ha). }
    apply Nat.ltb_lt in ER.
    destruct (dlt (distance (heap_at l (rightChild i)))
                  (distance (heap_at l i))) eqn:CR.
    + right.
      split_and!; auto; [unfold rightChild; lia | apply parent_rightChild |].
      intros k x Hk Hp Hx.
      destruct (Hkids k Hk Hp) as [->| ->];
        rewrite <- (heap_at_lookup _ _ _ Hx); [|apply dle_refl].
      eapply dle_trans; [by apply dlt_dle | exact CL].
    + left. split; [done|].
      intros k x a Hk Hp Hx Ha.
      rewrite <- (heap_at_lookup _ _ _ Hx), <- (heap_at_lookup _ _ _ Ha).
      by destruct (Hkids k Hk Hp) as [->| ->].
Qed.

Lemma down_ok_stop (l : list HeapNode) (i : nat) :
  down_ok l i ->
  (forall k x a, (0 < k)%nat -> parent k = i -> l !! k = Some x ->
                 l !! i = Some a -> dle (distance a) (distance x)) ->
  heap_ordered l.
Proof.
  intros [H1 _] Hc k a b Hk Ha Hb.
  destruct (decide (parent k = i)) as [E|Hne]; [|by eapply H1].
  subst i. by eapply Hc.
Qed.

Lemma down_ok_step (l : list HeapNode) (i m : nat) (a c : HeapNode) :
  (0 < m)%nat -> parent m = i ->
  l !! i = Some a -> l !! m = Some c ->
  dlt (distance c) (distance a) = true ->
  (forall k x, (0 < k)%nat -> parent k = i -> l !! k = Some x ->
               dle (distance c) (distance x)) ->
  down_ok l i ->
  down_ok (<[m := a]> (<[i := c]> l)) m.
Proof.
  intros Hm Hpm Ha Hc Hlt Hmin [H1 H2].
  pose proof (parent_lt m Hm) as Hp.
  pose proof (dlt_dle _ _ Hlt) as Hca.
  split.
  - intros k x y Hk Hkp.
    rewrite !(lookup_swap_list _ _ _ _ _ _ Ha Hc).
    rewrite (decide_False (P := parent k = m)) by done.
    destruct (decide (k = m)) as [->|Hkm].
    { rewrite decide_True by done. intros; by simplify_eq. }
    destruct (decide (k = i)) as [->|Hki].
    { pose proof (parent_lt i Hk).
      rewrite (decide_False (P := parent i = i)) by lia.
      intros ? Hy; simplify_eq. eapply (H2 m); eauto. }
    destruct (decide (parent k = i)) as [Epi|Npi].
    + intros Hx ?; simplify_eq. by eapply Hmin.
    + intros Hx Hy. by eapply (H1 k).
  - intros k x y _ Hk Hkp.
    rewrite !(lookup_swap_list _ _ _ _ _ _ Ha Hc).
    pose proof (parent_lt k Hk) as Hpk.
    rewrite (decide_False (P := k = m)) by lia.
    rewrite (decide_False (P := k = i)) by lia.
    rewrite (decide_False (P := parent m = m)) by lia.
    rewrite (decide_True (P := parent m = i)) by done.
    intros Hx ?; simplify_eq.
    eapply (H1 k); eauto; lia.
Qed.

Lemma heapifyDown_rec_spec (fuel i : nat) (h : MinHeap) :
  (length (heap h) - i <= fuel)%nat -> (i < length (heap h))%nat ->
  pos_ok h -> down_ok (heap h) i ->
  pos_ok (heapifyDown_rec fuel i h) /\
  heap_ordered (heap (heapifyDown_rec fuel i h)) /\
  heap (heapifyDown_rec fuel i h) ≡ₚ heap h.
Proof.
  revert i h. induction fuel as [|fuel IH]; intros i h Hf Hi Hp Hd; [lia|].
  cbn [heapifyDown_rec].
  destruct (minIndex_cases (heap h) i) as [[-> Hstop] | (Hne & Hm0 & Hpm & Hml & Hlt & Hmin)];
    cbv zeta.
  - rewrite Nat.eqb_refl. simpl. split_and!; [done| |done].
    by eapply down_ok_stop.
  - match goal with |- context [negb (?m =? i)%nat] =>
      set (mi := m) in * end.
    rewrite (proj2 (Nat.eqb_neq mi i) Hne). simpl.
    destruct (lookup_lt_is_Some_2 (heap h) i Hi) as [a Ha].
    destruct (lookup_lt_is_Some_2 (heap h) mi Hml) as [c Hc].
    rewrite (heap_at_lookup _ _ _ Ha), (heap_at_lookup _ _ _ Hc) in Hlt.
    rewrite (heap_at_lookup _ _ _ Hc) in Hmin.
    pose proof (parent_lt mi Hm0) as Hpl.
    destruct (IH mi (swap i mi h)) as (H1 & H2 & H3).
    + rewrite length_swap. lia.
    + by rewrite length_swap.
    + by apply pos_ok_swap.
    + rewrite (heap_swap _ _ _ _ _ Ha Hc). by eapply down_ok_step.
    + split_and!; [done | done |].
      rewrite H3. by apply swap_Permutation.
Qed.

Lemma heapifyDown_spec (h : MinHeap) :
  (0 < length (heap h))%nat -> pos_ok h -> down_ok (heap h) 0 ->
  heap_inv (heapifyDown 0 h) /\ heap (heapifyDown 0 h) ≡ₚ heap h.
Proof.
  intros Hl Hp Hd. unfold heap_inv, heapifyDown.
  destruct (heapifyDown_rec_spec (length (heap h)) 0 h) as (?&?&?); auto; lia.
Qed.

(** Fuel beyond the distance to the end of the array is never used. *)
Lemma heapifyDown_rec_fuel (f1 f2 i : nat) (h : MinHeap) :
  (length (heap h) - i <= f1)%nat -> (length (heap h) - i <= f2)%nat ->
  heapifyDown_rec f1 i h = heapifyDown_rec f2 i h.
Proof.
  revert f2 i h. induction f1 as [|f1 IH]; intros f2 i h H1 H2.
  - assert (Hi : (length (heap h) <= i)%nat) by lia.
    destruct f2; [done|]. cbn [heapifyDown_rec]. cbv zeta.
    destruct (minIndex_cases (heap h) i) as [[-> _] | (_ & Hm0 & Hpm & Hml & _)].
    + by rewrite Nat.eqb_refl.
    + pose proof (parent_lt _ Hm0). lia.
  - destruct f2 as [|f2].
    { assert (Hi : (length (heap h) <= i)%nat) by lia.
      cbn [heapifyDown_rec]. cbv zeta.
      destruct (minIndex_cases (heap h) i) as [[-> _] | (_ & Hm0 & Hpm & Hml & _)].
      + by rewrite Nat.eqb_refl.
      + pose proof (parent_lt _ Hm0). lia. }
    cbn [heapifyDown_rec]. cbv zeta.
    destruct (minIndex_cases (heap h) i) as [[-> _] | (Hne & Hm0 & Hpm & Hml & _)].
    + by rewrite Nat.eqb_refl.
    + match goal with |- context [negb (?m =? i)%nat] =>
        set (mi := m) in * end.
      rewrite (proj2 (Nat.eqb_neq mi i) Hne). simpl.
      pose proof (parent_lt mi Hm0).
      apply IH; rewrite length_swap; lia.
Qed.

(** Without any assumption on the order, [heapifyDown] still keeps the
    position index exact. *)
Lemma heapifyDown_rec_pos_ok (fuel i : nat) (h : MinHeap) :
  (i < length (heap h))%nat -> pos_ok h ->
  pos_ok (heapifyDown_rec fuel i h) /\
  heap (heapifyDown_rec fuel i h) ≡ₚ heap h.
Proof.
  revert i h. induction fuel as [|fuel IH]; intros i h Hi Hp; [done|].
  cbn [heapifyDown_rec]. cbv zeta.
  destruct (minIndex_cases (heap h) i) as [[-> _] | (Hne & Hm0 & Hpm & Hml & _)].
  - by rewrite Nat.eqb_refl.
  - match goal with |- context [negb (?m =? i)%nat] =>
      set (mi := m) in * end.
    rewrite (proj2 (Nat.eqb_neq mi i) Hne). simpl.
    destruct (IH mi (swap i mi h)) as (H1 & H2).
    + by rewrite length_swap.
    + by apply pos_ok_swap.
    + split; [done|]. rewrite H2. by apply swap_Permutation.
Qed.

(** ** The root is a minimum *)

Lemma heap_ordered_root (l : list HeapNode) (r : HeapNode) :
  heap_ordered l -> l !! 0%nat = Some r ->
  forall i x, l !! i = Some x -> dle (distance r) (distance x).
Proof.
  intros Ho Hr i. induction i as [i IH] using lt_wf_ind. intros x Hx.
  destruct (decide (i = 0)%nat) as [->|Hi].
  { simplify_eq. apply dle_refl. }
  assert (H0 : (0 < i)%nat) by lia.
  pose proof (parent_lt i H0) as Hp.
  destruct (lookup_lt_is_Some_2 l (parent i)) as [y Hy].
  { apply lookup_lt_Some in Hx. lia. }
  eapply dle_trans; [by apply (IH (parent i) Hp y) | by eapply Ho].
Qed.

Lemma heap_ordered_min (l : list HeapNode) (r : HeapNode) :
  heap_ordered l -> l !! 0%nat = Some r -> is_min_of r l.
Proof.
  intros Ho Hr. split.
  - apply list_elem_of_lookup. eauto.
  - intros x [i Hx]%list_elem_of_lookup. by eapply heap_ordered_root.
Qed.

(** ** [insert] *)

Lemma insert_pos_ok_pre (v : Z) (d : dist) (h : MinHeap) :
  pos_ok h -> positions h !! v = None ->
  pos_ok (mkMinHeap (heap h ++ [mkHeapNode v d])
                    (<[v := length (heap h)]> (positions h))).
Proof.
  intros Hp Hv. apply pos_ok_intro; simpl.
  - intros k n Hk. apply lookup_snoc_Some in Hk as [[Hlt Hk] | [-> <-]].
    + pose proof (pos_ok_lookup _ _ _ Hp Hk) as Hpos.
      rewrite lookup_insert_ne; [done | congruence].
    + simpl. by rewrite lookup_insert_eq.
  - intros v' k. destruct (decide (v = v')) as [<-|Hne].
    + rewrite lookup_insert_eq. intros ?; simplify_eq.
      exists (mkHeapNode v d). split; [|done]. by apply list_lookup_middle.
    + rewrite lookup_insert_ne by done. intros Hk.
      destruct (pos_ok_elim _ _ _ Hp Hk) as (n & Hn & Hvn).
      exists n. split; [|done]. by apply lookup_app_l_Some.
Qed.

Lemma insert_index (l : list HeapNode) (n : HeapNode) :
  (length (l ++ [n]) - 1)%nat = length l.
Proof. rewrite length_app. simpl. lia. Qed.

Lemma insert_pos_ok (v : Z) (d : dist) (h : MinHeap) :
  pos_ok h -> positions h !! v = None ->
  pos_ok (insert v d h) /\ heap (insert v d h) ≡ₚ mkHeapNode v d :: heap h.
Proof.
  intros Hp Hv. unfold insert. cbv zeta. rewrite insert_index.
  unfold heapifyUp.
  destruct (heapifyUp_loop_pos_ok (length (heap h)) (length (heap h))
              (mkMinHeap (heap h ++ [mkHeapNode v d])
                         (<[v := length (heap h)]> (positions h))))
    as [H1 H2].
  - simpl. rewrite length_app. simpl. lia.
  - by apply insert_pos_ok_pre.
  - split; [done|]. rewrite H2. simpl. by rewrite Permutation_app_comm.
Qed.

Lemma insert_spec (v : Z) (d : dist) (h : MinHeap) :
  heap_inv h -> positions h !! v = None ->
  heap_inv (insert v d h) /\ heap (insert v d h) ≡ₚ mkHeapNode v d :: heap h.
Proof.
  intros [Hp Ho] Hv. unfold insert. cbv zeta. rewrite insert_index.
  destruct (heapifyUp_spec (length (heap h))
              (mkMinHeap (heap h ++ [mkHeapNode v d])
                         (<[v := length (heap h)]> (positions h))))
    as [H1 H2].
  - simpl. rewrite length_app. simpl. lia.
  - by apply insert_pos_ok_pre.
  - simpl. split.
    + intros i a b Hi Hne Ha Hb.
      apply lookup_snoc_Some in Ha as [[Hlt Ha] | [-> _]]; [|done].
      pose proof (parent_le i).
      rewrite lookup_app_l in Hb by lia. by eapply Ho.
    + intros i a b _ Hi Hpi Ha _.
      apply lookup_lt_Some in Ha. rewrite length_app in Ha. simpl in Ha.
      pose proof (parent_lt i Hi). lia.
  - split; [done|]. rewrite H2. simpl. by rewrite Permutation_app_comm.
Qed.

(** ** [extractMin] *)

Lemma extractMin_empty (h : MinHeap) :
  heap h = [] -> extractMin h = (HeapNode_default, h).
Proof. unfold extractMin. by intros ->. Qed.

(** The heap after the last entry was moved to the root and the old root
    dropped, before [heapifyDown]. *)
Lemma extractMin_pre (h : MinHeap) (minNode : HeapNode) (rest : list HeapNode) :
  pos_ok h -> heap h = minNode :: rest ->
  let back := heap_at (heap h) (length (heap h) - 1) in
  let heap2 := take (length (<[0%nat := back]> (heap h)) - 1)
                    (<[0%nat := back]> (heap h)) in
  let positions2 := delete (vertex minNode)
                           (<[vertex back := 0%nat]> (positions h)) in
  pos_ok (mkMinHeap heap2 positions2) /\
  heap h ≡ₚ minNode :: heap2 /\
  (forall k, (0 < k)%nat -> heap2 !! k = Some (heap_at heap2 k) ->
             heap h !! k = heap2 !! k) /\
  (forall k x, (0 < k)%nat -> heap2 !! k = Some x -> heap h !! k = Some x).
Proof.
  intros Hp Hh. destruct rest as [|b mid _] using rev_ind.
  { rewrite Hh. simpl. split_and!; [|done|intros; done|intros; done].
    apply pos_ok_intro; simpl; [done|].
    intros v k. unfold heap_at. simpl.
    rewrite lookup_delete_Some, lookup_insert_Some.
    intros [Hne [[? ?]|[_ Hk]]]; [done|].
    destruct (pos_ok_elim _ _ _ Hp Hk) as (n & Hn & Hvn).
    rewrite Hh in Hn. destruct k; simplify_eq/=. }
  intros back heap2 positions2.
  assert (Hback : back = b).
  { subst back. rewrite Hh. simpl. rewrite length_app. simpl.
    unfold heap_at. replace (length mid + 1 - 0)%nat with (S (length mid)) by lia.
    simpl. by rewrite list_lookup_middle. }
  assert (Hheap2 : heap2 = b :: mid).
  { subst heap2. rewrite Hback, Hh. simpl. rewrite length_app. simpl.
    replace (length mid + 1 - 0)%nat with (S (length mid)) by lia.
    simpl. by rewrite take_app_length. }
  assert (Hlast : heap h !! S (length mid) = Some b).
  { rewrite Hh. simpl. by apply list_lookup_middle. }
  assert (Hfirst : heap h !! 0%nat = Some minNode) by (by rewrite Hh).
  assert (Hvne : vertex minNode <> vertex b).
  { intros E. by pose proof (pos_ok_inj h _ _ _ _ Hp Hfirst Hlast E). }
  assert (Hsame : forall k x, (0 < k)%nat -> heap2 !! k = Some x ->
                              heap h !! k = Some x).
  { intros k x Hk. rewrite Hheap2, Hh. destruct k; [lia|]. simpl.
    intros Hx. by apply lookup_app_l_Some. }
  split_and!.
  - apply pos_ok_intro; simpl.
    + intros k n Hk. subst positions2. rewrite Hback.
      destruct k as [|k].
      * rewrite Hheap2 in Hk. simplify_eq/=.
        rewrite lookup_delete_ne by done. by rewrite lookup_insert_eq.
      * pose proof (Hsame (S k) n ltac:(lia) Hk) as Hk'.
        rewrite lookup_delete_ne, lookup_insert_ne.
        -- by apply pos_ok_lookup.
        -- intros E. pose proof (pos_ok_inj h _ _ _ _ Hp Hlast Hk' E) as Ek.
           rewrite Hheap2 in Hk. simpl in Hk. apply lookup_lt_Some in Hk. lia.
        -- intros E. by pose proof (pos_ok_inj h _ _ _ _ Hp Hfirst Hk' E).
    + intros v k. subst positions2. rewrite Hback.
      rewrite lookup_delete_Some, lookup_insert_Some.
      intros [Hne [[<- <-]|[Hnb Hk]]].
      * exists b. by rewrite Hheap2.
      * destruct (pos_ok_elim _ _ _ Hp Hk) as (n & Hn & Hvn).
        exists n. split; [|done]. rewrite Hheap2. rewrite Hh in Hn.
        destruct k as [|k]; simplify_eq/=.
        apply lookup_snoc_Some in Hn as [[_ Hn] | [-> <-]]; done.
  - rewrite Hheap2, Hh. f_equiv. by rewrite Permutation_app_comm.
  - intros k Hk Hx. by rewrite (Hsame _ _ Hk Hx).
  - exact Hsame.
Qed.

Lemma extractMin_unfold (h : MinHeap) (minNode : HeapNode) (rest : list HeapNode) :
  heap h = minNode :: rest ->
  let back := heap_at (heap h) (length (heap h) - 1) in
  let h2 := mkMinHeap
              (take (length (<[0%nat := back]> (heap h)) - 1)
                    (<[0%nat := back]> (heap h)))
              (delete (vertex minNode)
                      (<[vertex back := 0%nat]> (positions h))) in
  extractMin h = (minNode, if isEmpty h2 then h2 else heapifyDown 0 h2).
Proof. intros Hh. unfold extractMin. rewrite Hh at 1. reflexivity. Qed.

Lemma isEmpty_false (h : MinHeap) :
  isEmpty h = false -> (0 < length (heap h))%nat.
Proof. unfold isEmpty. destruct (heap h); [done | simpl; lia]. Qed.

Lemma isEmpty_true (h : MinHeap) : isEmpty h = true -> heap h = [].
Proof. unfold isEmpty. by destruct (heap h). Qed.

Lemma extractMin_pos_ok (h : MinHeap) :
  pos_ok h -> isEmpty h = false ->
  heap h !! 0%nat = Some (fst (extractMin h)) /\
  pos_ok (snd (extractMin h)) /\
  heap h ≡ₚ fst (extractMin h) :: heap (snd (extractMin h)).
Proof.
  intros Hp He. destruct (heap h) as [|minNode rest] eqn:Hh.
  { unfold isEmpty in He. by rewrite Hh in He. }
  rewrite (extractMin_unfold h minNode rest Hh). cbv zeta.
  destruct (extractMin_pre h minNode rest Hp Hh) as (Hp2 & Hperm & _).
  rewrite <- Hh. simpl.
  split; [by rewrite Hh|].
  match goal with |- context [isEmpty ?x] => set (h2 := x) in * end.
  destruct (isEmpty h2) eqn:E2; [done|].
  destruct (heapifyDown_rec_pos_ok (length (heap h2)) 0 h2) as [H1 H2];
    [by apply isEmpty_false | done |].
  unfold heapifyDown. split; [done|]. by rewrite H2.
Qed.

Lemma extractMin_spec (h : MinHeap) :
  heap_inv h -> isEmpty h = false ->
  is_min_of (fst (extractMin h)) (heap h) /\
  heap_inv (snd (extractMin h)) /\
  heap h ≡ₚ fst (extractMin h) :: heap (snd (extractMin h)).
Proof.
  intros [Hp Ho] He. destruct (heap h) as [|minNode rest] eqn:Hh.
  { unfold isEmpty in He. by rewrite Hh in He. }
  rewrite (extractMin_unfold h minNode rest Hh). cbv zeta.
  destruct (extractMin_pre h minNode rest Hp Hh) as (Hp2 & Hperm & _ & Hsame).
  rewrite <- Hh in Ho |- *. simpl.
  split; [apply heap_ordered_min; [done | by rewrite Hh]|].
  match goal with |- context [isEmpty ?x] => set (h2 := x) in * end.
  assert (Ho2 : down_ok (heap h2) 0).
  { split; [|intros; lia].
    intros i a b Hi Hpi Ha Hb.
    assert (0 < parent i)%nat by lia.
    exact (Ho i a b Hi (Hsame _ _ Hi Ha) (Hsame _ _ H Hb)). }
  destruct (isEmpty h2) eqn:E2.
  { split; [|done]. split; [done|].
    apply isEmpty_true in E2. rewrite E2. by intros i a b _ ?. }
  destruct (heapifyDown_spec h2) as [H1 H2];
    [by apply isEmpty_false | done | done |].
  split; [done|]. by rewrite H2.
Qed.

(** ** [decreaseKey] *)

Lemma insert_Permutation_split {A} (l : list A) (i : nat) (a b : A) :
  l !! i = Some a ->
  exists rest, l ≡ₚ a :: rest /\ <[i := b]> l ≡ₚ b :: rest.
Proof.
  revert i. induction l as [|x l IH]; intros [|i] H; simplify_eq/=.
  - by exists l.
  - destruct (IH i H) as (rest & H1 & H2). exists (x :: rest).
    split; [rewrite H1 | rewrite H2]; apply perm_swap.
Qed.

Lemma decreaseKey_absent (v : Z) (d : dist) (h : MinHeap) :
  positions h !! v = None -> decreaseKey v d h = insert v d h.
Proof. unfold decreaseKey. by intros ->. Qed.

Lemma decreaseKey_pre_pos_ok (v : Z) (d old : dist) (index : nat) (h : MinHeap) :
  pos_ok h -> heap h !! index = Some (mkHeapNode v old) ->
  pos_ok (mkMinHeap (<[index := mkHeapNode v d]> (heap h)) (positions h)).
Proof.
  intros Hp Hi. pose proof (lookup_lt_Some _ _ _ Hi) as Hlt.
  apply pos_ok_intro; simpl.
  - intros k n. destruct (decide (k = index)) as [->|Hk].
    + rewrite list_lookup_insert_eq by done. intros ?; simplify_eq. simpl.
      by apply (pos_ok_lookup h index (mkHeapNode v old)).
    + rewrite list_lookup_insert_ne by done. by apply pos_ok_lookup.
  - intros v' k Hk. destruct (pos_ok_elim _ _ _ Hp Hk) as (n & Hn & Hvn).
    destruct (decide (k = index)) as [->|Hne].
    + rewrite list_lookup_insert_eq by done. simplify_eq. eauto.
    + rewrite list_lookup_insert_ne by done. eauto.
Qed.

Lemma decreaseKey_present (v : Z) (d old : dist) (index : nat) (h : MinHeap) :
  pos_ok h -> heap h !! index = Some (mkHeapNode v old) ->
  decreaseKey v d h =
    heapifyUp index
      (mkMinHeap (<[index := mkHeapNode v d]> (heap h)) (positions h)).
Proof.
  intros Hp Hi. unfold decreaseKey.
  pose proof (pos_ok_lookup h index _ Hp Hi) as Hpos. simpl in Hpos.
  rewrite Hpos. simpl. by rewrite (heap_at_lookup _ _ _ Hi).
Qed.

Lemma decreaseKey_pos_ok (v : Z) (d : dist) (h : MinHeap) :
  pos_ok h ->
  pos_ok (decreaseKey v d h) /\
  length (heap (decreaseKey v d h)) =
    (if contains v h then length (heap h) else S (length (heap h))).
Proof.
  intros Hp. unfold contains.
  destruct (positions h !! v) as [index|] eqn:Hv.
  - rewrite bool_decide_eq_true_2 by eauto.
    destruct (pos_ok_elim _ _ _ Hp Hv) as ([v' old] & Hn & Hvn).
    simpl in Hvn. subst v'.
    rewrite (decreaseKey_present v d old index h Hp Hn).
    pose proof (lookup_lt_Some _ _ _ Hn) as Hlt.
    destruct (heapifyUp_loop_pos_ok index index
                (mkMinHeap (<[index := mkHeapNode v d]> (heap h)) (positions h)))
      as [H1 H2].
    + simpl. by rewrite length_insert.
    + by eapply decreaseKey_pre_pos_ok.
    + unfold heapifyUp. split; [done|]. rewrite H2. simpl.
      by rewrite length_insert.
  - rewrite bool_decide_eq_false_2 by (by intros [? ?]).
    rewrite (decreaseKey_absent v d h Hv).
    destruct (insert_pos_ok v d h Hp Hv) as [H1 H2].
    split; [done|]. by rewrite H2.
Qed.

Lemma decreaseKey_spec_present (v : Z) (d old : dist) (index : nat)
    (h : MinHeap) :
  heap_inv h -> heap h !! index = Some (mkHeapNode v old) -> dle d old ->
  heap_inv (decreaseKey v d h) /\
  exists rest, heap h ≡ₚ mkHeapNode v old :: rest /\
               heap (decreaseKey v d h) ≡ₚ mkHeapNode v d :: rest.
Proof.
  intros [Hp Ho] Hi Hle.
  rewrite (decreaseKey_present v d old index h Hp Hi).
  pose proof (lookup_lt_Some _ _ _ Hi) as Hlt.
  destruct (heapifyUp_spec index
              (mkMinHeap (<[index := mkHeapNode v d]> (heap h)) (positions h)))
    as [H1 H2].
  - simpl. by rewrite length_insert.
  - by eapply decreaseKey_pre_pos_ok.
  - simpl. split.
    + intros k a b Hk Hne. rewrite list_lookup_insert_ne by done. intros Ha.
      destruct (decide (parent k = index)) as [E|Hpk].
      * rewrite E, list_lookup_insert_eq by done. intros ?; simplify_eq. simpl.
        eapply dle_trans; [exact Hle|].
        by apply (Ho k a (mkHeapNode v old) Hk Ha).
      * rewrite list_lookup_insert_ne by done. intros Hb. by eapply Ho.
    + intros k a b Hidx Hk Hpk. pose proof (parent_lt k Hk).
      pose proof (parent_lt index Hidx).
      rewrite !list_lookup_insert_ne by lia. intros Ha Hb.
      eapply dle_trans; [by apply (Ho index (mkHeapNode v old) b)|].
      apply (Ho k a (mkHeapNode v old) Hk Ha). by rewrite Hpk.
  - split; [done|].
    destruct (insert_Permutation_split (heap h) index _ (mkHeapNode v d) Hi)
      as (rest & Hr1 & Hr2).
    exists rest. split; [done|]. by rewrite H2.
Qed.

Lemma contains_true (v : Z) (h : MinHeap) :
  pos_ok h ->
  contains v h = true <-> exists d, mkHeapNode v d ∈ heap h.
Proof.
  intros Hp. unfold contains. rewrite bool_decide_eq_true. split.
  - intros [i Hi]. apply Hp in Hi as [d Hd]. exists d.
    apply list_elem_of_lookup. eauto.
  - intros [d [i Hi]%list_elem_of_lookup]. exists i. apply Hp. eauto.
Qed.

(** ** Membership after the heap operations *)

Lemma pos_ok_NoDup (h : MinHeap) : pos_ok h -> NoDup (vertex <$> heap h).
Proof.
  intros Hp. apply NoDup_alt. intros i j v Hi Hj.
  rewrite list_lookup_fmap in Hi, Hj.
  destruct (heap h !! i) as [a|] eqn:Ha; [|done].
  destruct (heap h !! j) as [b|] eqn:Hb; [|done].
  simpl in *. eapply pos_ok_inj; eauto. congruence.
Qed.

Lemma not_contains (v : Z) (h : MinHeap) :
  pos_ok h -> contains v h = false ->
  positions h !! v = None /\ forall x, x ∈ heap h -> vertex x <> v.
Proof.
  intros Hp Hc. unfold contains in Hc. apply bool_decide_eq_false in Hc.
  split.
  - destruct (positions h !! v) eqn:E; [|done]. exfalso. apply Hc. eauto.
  - intros x [i Hi]%list_elem_of_lookup <-. apply Hc.
    rewrite (pos_ok_lookup _ _ _ Hp Hi). eauto.
Qed.

Lemma extractMin_elem (h : MinHeap) :
  heap_inv h -> isEmpty h = false ->
  forall x, x ∈ heap (snd (extractMin h)) <->
            x ∈ heap h /\ vertex x <> vertex (fst (extractMin h)).
Proof.
  intros Hi He x. destruct (extractMin_spec h Hi He) as (_ & _ & Hperm).
  pose proof (pos_ok_NoDup h (proj1 Hi)) as Hnd.
  rewrite Hperm in Hnd. rewrite fmap_cons in Hnd.
  apply NoDup_cons in Hnd as [Hnotin _].
  rewrite Hperm. rewrite elem_of_cons. split.
  - intros Hx. split; [by right|]. intros E. apply Hnotin. rewrite <- E.
    apply list_elem_of_fmap. eauto.
  - intros [[->|Hx] Hne]; done.
Qed.

Lemma decreaseKey_elem (v : Z) (d : dist) (h : MinHeap) :
  heap_inv h ->
  (forall old, mkHeapNode v old ∈ heap h -> dle d old) ->
  heap_inv (decreaseKey v d h) /\
  forall x, x ∈ heap (decreaseKey v d h) <->
            x = mkHeapNode v d \/ (x ∈ heap h /\ vertex x <> v).
Proof.
  intros Hi Hle. destruct (positions h !! v) as [index|] eqn:Hv.
  - destruct (pos_ok_elim _ _ _ (proj1 Hi) Hv) as ([v' old] & Hn & Hvn).
    simpl in Hvn. subst v'.
    destruct (decreaseKey_spec_present v d old index h Hi Hn)
      as (Hi' & rest & Hr1 & Hr2).
    { apply Hle. apply list_elem_of_lookup. eauto. }
    split; [done|]. intros x. rewrite Hr2, Hr1, !elem_of_cons.
    pose proof (pos_ok_NoDup h (proj1 Hi)) as Hnd.
    rewrite Hr1, fmap_cons in Hnd. apply NoDup_cons in Hnd as [Hnotin _].
    simpl in Hnotin. split.
    + intros [->|Hx]; [by left|]. right. split; [by right|].
      intros E. apply Hnotin. rewrite <- E. apply list_elem_of_fmap. eauto.
    + intros [->|[[->|Hx] Hne]]; [by left | done | by right].
  - rewrite (decreaseKey_absent v d h Hv).
    destruct (insert_spec v d h Hi Hv) as [Hi' Hperm].
    split; [done|]. intros x. rewrite Hperm, elem_of_cons.
    assert (Hnone : forall y, y ∈ heap h -> vertex y <> v).
    { intros y [i Hy]%list_elem_of_lookup <-.
      by rewrite (pos_ok_lookup _ _ _ (proj1 Hi) Hy) in Hv. }
    split; [intros [->|Hx]; [by left | right; split; [done | by apply Hnone]]|].
    intros [->|[Hx _]]; [by left | by right].
Qed.

(** ** Every sequence of operations keeps the heap consistent *)

Lemma MinHeap_new_inv : heap_inv MinHeap_new.
Proof.
  split.
  - intros v i. simpl. rewrite lookup_empty. split; [done | by intros [? ?]].
  - by intros i a b _ ?.
Qed.

Lemma apply_op_pos_ok (h : MinHeap) (op : HeapOp) :
  pos_ok h -> op_fresh h op = true -> pos_ok (apply_op h op).
Proof.
  intros Hp Hf. destruct op as [v d| |v d]; simpl in *.
  - apply negb_true_iff in Hf.
    destruct (not_contains v h Hp Hf) as [Hnone _].
    by apply insert_pos_ok.
  - destruct (isEmpty h) eqn:He.
    + apply isEmpty_true in He. by rewrite (extractMin_empty h He).
    + by destruct (extractMin_pos_ok h Hp He) as (_ & ? & _).
  - by apply decreaseKey_pos_ok.
Qed.

Lemma apply_op_inv (h : MinHeap) (op : HeapOp) :
  heap_inv h -> op_fresh h op = true -> op_decreases h op = true ->
  heap_inv (apply_op h op).
Proof.
  intros Hi Hf Hd. destruct op as [v d| |v d]; simpl in *.
  - apply negb_true_iff in Hf.
    destruct (not_contains v h (proj1 Hi) Hf) as [Hnone _].
    by apply insert_spec.
  - destruct (isEmpty h) eqn:He.
    + apply isEmpty_true in He. by rewrite (extractMin_empty h He).
    + by destruct (extractMin_spec h Hi He) as (_ & ? & _).
  - apply decreaseKey_elem; [done|]. intros old [i Hold]%list_elem_of_lookup.
    pose proof (pos_ok_lookup _ _ _ (proj1 Hi) Hold) as Hpos. simpl in Hpos.
    rewrite Hpos, (heap_at_lookup _ _ _ Hold) in Hd. simpl in Hd.
    by apply negb_true_iff in Hd.
Qed.

Lemma run_ops_pos_ok (ops : list HeapOp) (h : MinHeap) :
  pos_ok h -> ops_all op_fresh ops h = true -> pos_ok (run_ops ops h).
Proof.
  revert h. induction ops as [|op ops IH]; intros h Hp Hf; [done|].
  simpl in *. apply andb_true_iff in Hf as [H1 H2].
  apply IH; [by apply apply_op_pos_ok | done].
Qed.

Lemma run_ops_inv (ops : list HeapOp) (h : MinHeap) :
  heap_inv h -> ops_all op_fresh ops h = true ->
  ops_all op_decreases ops h = true -> heap_inv (run_ops ops h).
Proof.
  revert h. induction ops as [|op ops IH]; intros h Hi Hf Hd; [done|].
  simpl in *. apply andb_true_iff in Hf as [H1 H2].
  apply andb_true_iff in Hd as [H3 H4].
  apply IH; [by apply apply_op_inv | done | done].
Qed.

(** C2, as stated, fails: after three insertions, a [decreaseKey] that
    raises the key of the root leaves the root in place, and [extractMin]
    returns it although a smaller entry is stored. *)
Lemma C2_raised_key_counterexample :
  ops_all op_fresh raising_ops MinHeap_new = true /\
  isEmpty (run_ops raising_ops MinHeap_new) = false /\
  fst (extractMin (run_ops raising_ops MinHeap_new)) = mkHeapNode 1 (Fin 10) /\
  mkHeapNode 2 (Fin 5) ∈ heap (run_ops raising_ops MinHeap_new) /\
  ~ is_min_of (fst (extractMin (run_ops raising_ops MinHeap_new)))
              (heap (run_ops raising_ops MinHeap_new)).
Proof.
  assert (Hheap : heap (run_ops raising_ops MinHeap_new) =
                  [mkHeapNode 1 (Fin 10); mkHeapNode 2 (Fin 5);
                   mkHeapNode 3 (Fin 6)]) by (vm_compute; reflexivity).
  assert (Hmin : fst (extractMin (run_ops raising_ops MinHeap_new)) =
                 mkHeapNode 1 (Fin 10)) by (vm_compute; reflexivity).
  split_and!.
  - vm_compute; reflexivity.
  - vm_compute; reflexivity.
  - exact Hmin.
  - rewrite Hheap. apply elem_of_cons. right. apply list_elem_of_here.
  - rewrite Hmin, Hheap. intros [_ H].
    specialize (H (mkHeapNode 2 (Fin 5))).
    assert (Hin : mkHeapNode 2 (Fin 5) ∈
                  [mkHeapNode 1 (Fin 10); mkHeapNode 2 (Fin 5);
                   mkHeapNode 3 (Fin 6)]).
    { apply elem_of_cons. right. apply list_elem_of_here. }
    specialize (H Hin). vm_compute in H. discriminate.
Qed.

(** C2 (amended): after every sequence of [insert], [extractMin] and
    [decreaseKey] calls on a new heap in which [insert] is only called for
    a vertex that is not in the heap, the position index maps every vertex
    of the heap to exactly the slot that holds it; if moreover no
    [decreaseKey] call raises the distance of a vertex of the heap, the
    array is a min-heap and [extractMin] on a non-empty heap returns an
    entry whose distance is the minimum over all stored entries. *)
Theorem C2_heap_index_and_minimum (ops : list HeapOp) :
  ops_all op_fresh ops MinHeap_new = true ->
  pos_ok (run_ops ops MinHeap_new) /\
  (ops_all op_decreases ops MinHeap_new = true ->
   heap_ordered (heap (run_ops ops MinHeap_new)) /\
   (isEmpty (run_ops ops MinHeap_new) = false ->
    is_min_of (fst (extractMin (run_ops ops MinHeap_new)))
              (heap (run_ops ops MinHeap_new)))).
Proof.
  intros Hf. split.
  - apply run_ops_pos_ok; [apply MinHeap_new_inv | done].
  - intros Hd.
    pose proof (run_ops_inv ops MinHeap_new MinHeap_new_inv Hf Hd) as Hi.
    split; [apply Hi|]. intros He.
    by destruct (extractMin_spec _ Hi He) as (? & _).
Qed.

(** An instance: seven operations from a new heap. *)
Lemma C2_heap_index_and_minimum_witness :
  ops_all op_fresh sample_ops MinHeap_new = true /\
  ops_all op_decreases sample_ops MinHeap_new = true /\
  isEmpty (run_ops sample_ops MinHeap_new) = false /\
  pos_ok (run_ops sample_ops MinHeap_new) /\
  heap_ordered (heap (run_ops sample_ops MinHeap_new)) /\
  is_min_of (fst (extractMin (run_ops sample_ops MinHeap_new)))
            (heap (run_ops sample_ops MinHeap_new)).
Proof.
  assert (Hf : ops_all op_fresh sample_ops MinHeap_new = true)
    by (vm_compute; reflexivity).
  assert (Hd : ops_all op_decreases sample_ops MinHeap_new = true)
    by (vm_compute; reflexivity).
  assert (He : isEmpty (run_ops sample_ops MinHeap_new) = false)
    by (vm_compute; reflexivity).
  destruct (C2_heap_index_and_minimum sample_ops Hf) as [Hp Hrest].
  destruct (Hrest Hd) as [Ho Hmin].
  exact (conj Hf (conj Hd (conj He (conj Hp (conj Ho (Hmin He)))))).
Defined.

(** ** Vectors indexed by [int] *)

Lemma vget_vset_eq {A} (d : A) (l : list A) (i : Z) (x : A) :
  0 <= i < Z.of_nat (length l) -> vget d (vset l i x) i = x.
Proof.
  intros Hi. unfold vget, vset.
  destruct (i <? 0) eqn:E; [apply Z.ltb_lt in E; lia|].
  rewrite list_lookup_insert_eq by lia. done.
Qed.

Lemma vget_vset_ne {A} (d : A) (l : list A) (i j : Z) (x : A) :
  i <> j -> vget d (vset l i x) j = vget d l j.
Proof.
  intros Hne. unfold vget, vset.
  destruct (j <? 0) eqn:Ej; [done|].
  destruct (i <? 0) eqn:Ei; [done|].
  apply Z.ltb_ge in Ei, Ej.
  rewrite list_lookup_insert_ne by lia. done.
Qed.

Lemma length_vset {A} (l : list A) (i : Z) (x : A) :
  length (vset l i x) = length l.
Proof. unfold vset. destruct (i <? 0); [done | apply length_insert]. Qed.

Lemma vget_replicate {A} (d : A) (n : nat) (i : Z) :
  vget d (replicate n d) i = d.
Proof.
  unfold vget. destruct (i <? 0); [done|].
  destruct (replicate n d !! Z.to_nat i) eqn:E; [|done].
  apply lookup_replicate in E as [-> _]. done.
Qed.

(** ** Well-formed graphs *)

Lemma invalid_vertex_false (g : Graph) (v : Z) :
  invalid_vertex g v = false <-> in_range g v.
Proof.
  unfold invalid_vertex, in_range.
  rewrite orb_false_iff, Z.ltb_ge, Z.geb_leb, Z.leb_gt. lia.
Qed.

Lemma invalid_vertex_true (g : Graph) (v : Z) :
  invalid_vertex g v = true <-> ~ in_range g v.
Proof.
  rewrite <- invalid_vertex_false. destruct (invalid_vertex g v); naive_solver.
Qed.

Lemma getAdjacentNodes_Ok (g : Graph) (v : Z) :
  in_range g v -> getAdjacentNodes g v = Ok (adj_at g v).
Proof.
  intros H. unfold getAdjacentNodes.
  by rewrite (proj2 (invalid_vertex_false g v) H).
Qed.

Lemma getAdjacentNodes_inv (g : Graph) (v : Z) (edges : list Edge) :
  getAdjacentNodes g v = Ok edges -> in_range g v /\ edges = adj_at g v.
Proof.
  unfold getAdjacentNodes. destruct (invalid_vertex g v) eqn:E; [done|].
  intros ?; simplify_eq. split; [by apply invalid_vertex_false | done].
Qed.

Lemma has_edge_iff (g : Graph) (u : Z) (e : Edge) :
  has_edge g u e <-> in_range g u /\ e ∈ adj_at g u.
Proof.
  split.
  - intros (edges & H & He). apply getAdjacentNodes_inv in H as [? ->]. done.
  - intros [Hu He]. exists (adj_at g u). by rewrite getAdjacentNodes_Ok.
Qed.

Lemma nodeExists_in_range (g : Graph) (v : Z) :
  wf_graph g -> nodeExists g v = true -> in_range g v.
Proof.
  intros (_ & _ & _ & Hn) H. apply Hn.
  unfold nodeExists in H. by apply bool_decide_eq_true in H.
Qed.

Lemma validate_edge (g : Graph) (u : Z) (e : Edge) :
  wf_graph g -> in_range g u -> e ∈ adj_at g u ->
  in_range g (destination e) /\ dle (Fin 0) (weight e).
Proof.
  intros (Hn & _ & Hv & _) Hu He. unfold validate in Hv.
  rewrite forallb_forall in Hv.
  specialize (Hv (Z.to_nat u)). rewrite Z2Nat.id in Hv by (unfold in_range in Hu; lia).
  assert (Hin : In (Z.to_nat u) (seq 0 (Z.to_nat (numVertices g)))).
  { apply in_seq. unfold in_range in Hu. lia. }
  specialize (Hv Hin). rewrite forallb_forall in Hv.
  specialize (Hv e). rewrite <- list_elem_of_In in Hv. specialize (Hv He).
  unfold edge_valid in Hv. apply andb_true_iff in Hv as [H1 H2].
  apply negb_true_iff in H1, H2. split.
  - by apply invalid_vertex_false.
  - exact H2.
Qed.

(** ** Walks *)

Lemma is_walk_app (g : Graph) (u v w : Z) (es1 es2 : list Edge) :
  is_walk g u es1 v -> is_walk g v es2 w -> is_walk g u (es1 ++ es2) w.
Proof.
  revert u. induction es1 as [|e es1 IH]; intros u; simpl.
  - by intros ->.
  - intros [He H1] H2. split; [done|]. by apply IH.
Qed.

Lemma is_walk_snoc (g : Graph) (u v : Z) (es : list Edge) (e : Edge) :
  is_walk g u es v -> has_edge g v e ->
  is_walk g u (es ++ [e]) (destination e).
Proof. intros H1 H2. eapply is_walk_app; [exact H1|]. by split. Qed.

Lemma is_walk_snoc_inv (g : Graph) (u w : Z) (es : list Edge) (e : Edge) :
  is_walk g u (es ++ [e]) w ->
  exists v, is_walk g u es v /\ has_edge g v e /\ destination e = w.
Proof.
  revert u. induction es as [|e' es IH]; intros u; simpl.
  - intros [He <-]. by exists u.
  - intros [He' H]. destruct (IH _ H) as (v & H1 & H2 & H3). by exists v.
Qed.

Lemma walk_len_snoc (es : list Edge) (e : Edge) :
  walk_len (es ++ [e]) = dplus (walk_len es) (weight e).
Proof. unfold walk_len. by rewrite fold_left_app. Qed.

Lemma walk_nodes_snoc (u : Z) (es : list Edge) (e : Edge) :
  walk_nodes u (es ++ [e]) = walk_nodes u es ++ [destination e].
Proof. unfold walk_nodes. by rewrite fmap_app. Qed.

Lemma is_walk_in_range (g : Graph) (u v : Z) (es : list Edge) :
  wf_graph g -> in_range g u -> is_walk g u es v -> in_range g v.
Proof.
  intros Hwf. revert u. induction es as [|e es IH]; intros u Hu; simpl.
  - by intros <-.
  - intros [He H]. apply has_edge_iff in He as [_ He].
    apply (IH (destination e)); [|done]. by eapply validate_edge.
Qed.

(** The length of a walk is a double that is not negative. *)
Lemma walk_len_double (g : Graph) (u v : Z) (es : list Edge) :
  wf_graph g -> is_walk g u es v -> nonneg_double (walk_len es).
Proof.
  intros Hwf. revert v. induction es as [|e es IH] using rev_ind; intros v Hw.
  - apply nonneg_double_zero.
  - apply is_walk_snoc_inv in Hw as (x & Hx & He & _).
    rewrite walk_len_snoc. apply dplus_double; [by eapply IH|].
    apply has_edge_iff in He as [Hxr He].
    by destruct (validate_edge g x e Hwf Hxr He).
Qed.


(** The constructor and the mutators of [Graph] keep it well formed. *)
Lemma adj_at_replicate (n : nat) (v : Z) :
  default [] (replicate n ([] : list Edge) !! Z.to_nat v) = [].
Proof.
  destruct (replicate n [] !! Z.to_nat v) eqn:E; [|done].
  by apply lookup_replicate in E as [-> _].
Qed.

Lemma validate_intro (g : Graph) :
  (forall u e, in_range g u -> e ∈ adj_at g u ->
               in_range g (destination e) /\ dle (Fin 0) (weight e)) ->
  validate g = true.
Proof.
  intros H. unfold validate. apply forallb_forall. intros i Hi.
  apply in_seq in Hi. apply forallb_forall. intros e He.
  apply list_elem_of_In in He.
  destruct (H (Z.of_nat i) e) as [H1 H2]; [unfold in_range; lia | done |].
  unfold edge_valid. apply andb_true_iff. split; apply negb_true_iff.
  - by apply invalid_vertex_false.
  - exact H2.
Qed.

Lemma Graph_new_wf (n : Z) (g : Graph) : Graph_new n = Ok g -> wf_graph g.
Proof.
  unfold Graph_new. destruct (n <? 0) eqn:E; [done|]. apply Z.ltb_ge in E.
  intros ?; simplify_eq. split_and!; simpl; [done | apply length_replicate | |].
  - apply validate_intro. intros u e _. unfold adj_at. simpl.
    rewrite adj_at_replicate. by intros ?%elem_of_nil.
  - intros id [? H]. by rewrite lookup_empty in H.
Qed.

Lemma adj_at_emplace (adj : list (list Edge)) (v u : Z) (e x : Edge) :
  0 <= v -> 0 <= u ->
  x ∈ default [] (emplace_edge v e adj !! Z.to_nat u) ->
  x ∈ default [] (adj !! Z.to_nat u) \/ (u = v /\ x = e).
Proof.
  intros Hv Hu. unfold emplace_edge.
  destruct (decide (Z.to_nat v = Z.to_nat u)) as [E|Hne].
  - rewrite <- E, list_lookup_alter_eq.
    destruct (adj !! Z.to_nat v) as [l|]; simpl; [|by left].
    rewrite elem_of_app, list_elem_of_singleton. intros [?|?]; [by left|].
    right. simpl. split; [lia | done].
  - rewrite list_lookup_alter_ne by done. by left.
Qed.

Lemma addDirectedEdge_wf (src dest : Z) (w : dist) (name : string) (g g' : Graph) :
  wf_graph g -> addDirectedEdge src dest w name g = Ok g' -> wf_graph g'.
Proof.
  intros Hwf. pose proof Hwf as (Hn & Hl & Hv & Hnodes). unfold addDirectedEdge.
  destruct (invalid_vertex g src || invalid_vertex g dest) eqn:E1; [done|].
  apply orb_false_iff in E1 as [Es Ed].
  apply invalid_vertex_false in Es, Ed.
  destruct (dlt w (Fin 0)) eqn:E2; [done|].
  intros ?; simplify_eq. split_and!; simpl; [done | | | done].
  - unfold emplace_edge. by rewrite length_alter.
  - apply validate_intro. unfold in_range, adj_at in *. simpl. intros u x Hu Hx.
    apply adj_at_emplace in Hx as [Hx|[-> ->]]; [| |lia|lia].
    + by apply (validate_edge g u x Hwf Hu).
    + simpl. split; [lia | done].
Qed.

Lemma addEdge_wf (src dest : Z) (w : dist) (name : string) (g g' : Graph) :
  wf_graph g -> addEdge src dest w name g = Ok g' -> wf_graph g'.
Proof.
  intros Hwf. pose proof Hwf as (Hn & Hl & Hv & Hnodes). unfold addEdge.
  destruct (invalid_vertex g src || invalid_vertex g dest) eqn:E1; [done|].
  apply orb_false_iff in E1 as [Es Ed].
  apply invalid_vertex_false in Es, Ed.
  destruct (dlt w (Fin 0)) eqn:E2; [done|].
  intros ?; simplify_eq. split_and!; simpl; [done | | | done].
  - unfold emplace_edge. by rewrite !length_alter.
  - apply validate_intro. unfold in_range, adj_at in *. simpl. intros u x Hu Hx.
    apply adj_at_emplace in Hx as [Hx|[-> ->]]; [| |lia|lia].
    + apply adj_at_emplace in Hx as [Hx|[-> ->]]; [| |lia|lia].
      * by apply (validate_edge g u x Hwf Hu).
      * simpl. split; [lia | done].
    + simpl. split; [lia | done].
Qed.

Lemma addNode_wf (id : Z) (name : string) (lat lon : Q) (g g' : Graph) :
  wf_graph g -> addNode id name lat lon g = Ok g' -> wf_graph g'.
Proof.
  intros Hwf. pose proof Hwf as (Hn & Hl & Hv & Hnodes). unfold addNode.
  destruct (invalid_vertex g id) eqn:E1; [done|].
  apply invalid_vertex_false in E1.
  intros ?; simplify_eq. split_and!; simpl; [done | done | | ].
  - apply validate_intro. intros u x Hu Hx.
    by apply (validate_edge g u x Hwf Hu).
  - intros id'. rewrite lookup_insert_is_Some.
    intros [<-|[_ H]]; [done | by apply Hnodes].
Qed.

(** ** The inner loop: relaxing one edge *)

Ltac destruct_inv H :=
  destruct H as [inv_len_d0 inv_len_p0 inv_heap0 inv_queue0 inv_nodup0
                 inv_settled0 inv_finite0 inv_order0 inv_last0 inv_relaxed0
                 inv_nonneg0 inv_source0 inv_walk0 inv_pred_source0
                 inv_pred_some0 inv_pred0].

Lemma last_elem_of {A} (l : list A) (x : A) : last l = Some x -> x ∈ l.
Proof.
  intros H. apply last_Some in H as [l' ->].
  apply elem_of_app. right. apply list_elem_of_here.
Qed.

Lemma dist_of_vset (st : DState) (v x : Z) (d : dist) (p : list Z) (q : MinHeap) :
  0 <= v < Z.of_nat (length (st_distances st)) ->
  dist_of (mkDState (vset (st_distances st) v d) p q) x =
    if decide (x = v) then d else dist_of st x.
Proof.
  intros Hv. unfold dist_of. simpl. case_decide as E.
  - subst x. by apply vget_vset_eq.
  - by apply vget_vset_ne.
Qed.

Lemma pred_of_vset (st : DState) (v x u : Z) (ds : list dist) (q : MinHeap) :
  0 <= v < Z.of_nat (length (st_predecessors st)) ->
  pred_of (mkDState ds (vset (st_predecessors st) v u) q) x =
    if decide (x = v) then u else pred_of st x.
Proof.
  intros Hv. unfold pred_of. simpl. case_decide as E.
  - subst x. by apply vget_vset_eq.
  - by apply vget_vset_ne.
Qed.

(** Every distance of the table is a double that is not negative. *)
Lemma inv_double (g : Graph) (source : Z) (settled : list Z)
    (pending : list Edge) (st : DState) (v : Z) :
  wf_graph g -> dijkstra_inv g source settled pending st -> in_range g v ->
  nonneg_double (dist_of st v).
Proof.
  intros Hwf Hinv Hv. destruct (dist_of st v) as [d|] eqn:Ed; [|done].
  destruct (inv_walk _ _ _ _ _ Hinv v d Hv Ed) as (es & Hes & <-).
  by eapply walk_len_double.
Qed.

Lemma relax_edge_inv (g : Graph) (source u : Z) (settled : list Z)
    (e : Edge) (rest : list Edge) (st : DState) :
  wf_graph g -> last settled = Some u -> e ∈ adj_at g u ->
  dijkstra_inv g source settled (e :: rest) st ->
  dijkstra_inv g source settled rest (relax_edge u st e).
Proof.
  intros Hwf Hlast He Hinv.
  pose proof (last_elem_of _ _ Hlast) as Hu.
  destruct (inv_settled _ _ _ _ _ Hinv u Hu) as [Hur Hufin].
  destruct (validate_edge g u e Hwf Hur He) as [Hvr Hw].
  unfold relax_edge. cbv zeta.
  change (vget Inf (st_distances st) u) with (dist_of st u).
  change (vget Inf (st_distances st) (destination e))
    with (dist_of st (destination e)).
  set (v := destination e) in *. set (w := weight e) in *.
  set (newDist := dplus (dist_of st u) w).
  assert (Hudbl : nonneg_double (dist_of st u)) by (by eapply inv_double).
  assert (Hunew : dle (dist_of st u) newDist) by (by apply dplus_nonneg).
  destruct (dlt newDist (dist_of st v)) eqn:Hlt.
  2:{ destruct_inv Hinv. constructor; try done.
      intros u' e' Hu' He'.
      destruct (inv_relaxed0 u' e' Hu' He') as [[Hl Hin]|Hr]; [|by right].
      apply elem_of_cons in Hin as [->|Hin]; [|by left].
      right. assert (u' = u) as -> by congruence. exact Hlt. }
  assert (Hvnot : v ∉ settled).
  { intros Hv. apply (dlt_not_dle _ _ Hlt).
    eapply dle_trans; [|exact Hunew].
    by apply (inv_last _ _ _ _ _ Hinv). }
  assert (Hvu : v <> u) by (intros ->; done).
  assert (Hvs : v <> source).
  { intros Hv. apply (dlt_not_dle _ _ Hlt). rewrite Hv.
    rewrite (inv_source _ _ _ _ _ Hinv).
    eapply dle_trans; [|exact Hunew]. apply (inv_nonneg _ _ _ _ _ Hinv). }
  assert (Hnewfin : newDist <> Inf).
  { destruct (dlt_Fin_l _ _ Hlt) as [x ->]. done. }
  assert (Hlend : 0 <= v < Z.of_nat (length (st_distances st))).
  { rewrite (inv_len_d _ _ _ _ _ Hinv). unfold in_range in Hvr. lia. }
  assert (Hlenp : 0 <= v < Z.of_nat (length (st_predecessors st))).
  { rewrite (inv_len_p _ _ _ _ _ Hinv). unfold in_range in Hvr. lia. }
  destruct (decreaseKey_elem v newDist (st_pq st) (inv_heap _ _ _ _ _ Hinv))
    as [Hheap' Helem].
  { intros old Hold.
    destruct (inv_queue _ _ _ _ _ Hinv _ Hold) as (_ & Hd & _). simpl in Hd.
    rewrite Hd in Hlt. by apply dlt_dle. }
  set (st' := mkDState _ _ _).
  assert (Hdist : forall x, dist_of st' x =
                            if decide (x = v) then newDist else dist_of st x).
  { intros x. by apply dist_of_vset. }
  assert (Hpred : forall x, pred_of st' x =
                            if decide (x = v) then u else pred_of st x).
  { intros x. by apply pred_of_vset. }
  assert (Hdset : forall x, x ∈ settled -> dist_of st' x = dist_of st x).
  { intros x Hx. rewrite Hdist. case_decide; [by subst|done]. }
  assert (Hdle : forall x, dle (dist_of st' x) (dist_of st x)).
  { intros x. rewrite Hdist. case_decide; [subst; by apply dlt_dle|apply dle_refl]. }
  destruct_inv Hinv. constructor.
  - subst st'. simpl. by rewrite length_vset.
  - subst st'. simpl. by rewrite length_vset.
  - exact Hheap'.
  - intros x Hx. apply Helem in Hx as [->|[Hx Hne]]; simpl.
    + rewrite Hdist, decide_True by done. done.
    + rewrite Hdist, decide_False by done. by apply inv_queue0.
  - done.
  - intros x Hx. rewrite (Hdset x Hx). by apply inv_settled0.
  - intros x Hx. rewrite Hdist. case_decide as E.
    + intros _. right. exists (mkHeapNode v newDist). split; [|by subst].
      apply Helem. by left.
    + intros Hfin. destruct (inv_finite0 x Hx Hfin) as [?|(y & Hy & Hvy)];
        [by left|right].
      exists y. split; [|done]. apply Helem. right. split; [done|congruence].
  - intros s x Hs Hx. rewrite (Hdset s Hs).
    apply Helem in Hx as [->|[Hx Hne]]; simpl; [|by apply inv_order0].
    eapply dle_trans; [|exact Hunew]. by apply inv_last0.
  - intros s u' Hs Hl. rewrite (Hdset s Hs).
    rewrite (Hdset u' (last_elem_of _ _ Hl)). by apply inv_last0.
  - intros u' e' Hu' He'. rewrite (Hdset u' Hu').
    destruct (inv_relaxed0 u' e' Hu' He') as [[Hl Hin]|Hr].
    + apply elem_of_cons in Hin as [->|Hin]; [|by left].
      right. assert (u' = u) as -> by congruence.
      fold v. rewrite Hdist, decide_True by done. apply dle_refl.
    + right. eapply dle_trans; [apply Hdle | exact Hr].
  - intros x. rewrite Hdist. case_decide; [|done].
    eapply dle_trans; [apply (inv_nonneg0 u) | exact Hunew].
  - rewrite Hdist, decide_False by done. done.
  - intros x d Hx. rewrite Hdist. case_decide as E.
    + subst x. intros Hd.
      destruct (dist_of st u) as [du|] eqn:Edu; [|done].
      destruct (inv_walk0 u du Hur Edu) as (es & Hes & Hlen).
      exists (es ++ [e]). split.
      * apply (is_walk_snoc g source u es e Hes). by apply has_edge_iff.
      * rewrite walk_len_snoc, Hlen. fold w. by rewrite <- Hd.
    + by apply inv_walk0.
  - rewrite Hpred, decide_False by done. done.
  - intros x Hx Hxs. rewrite Hdist, Hpred. case_decide as E.
    + intros _. unfold in_range in Hur. lia.
    + by apply inv_pred_some0.
  - intros x Hx. rewrite Hpred. case_decide as E.
    + subst x. intros _. apply list_elem_of_lookup in Hu as [i Hi].
      exists i, e. split_and!; [done| |done|done| |].
      * intros j Hj. exfalso. apply Hvnot. apply list_elem_of_lookup. eauto.
      * rewrite (Hdset u (last_elem_of _ _ Hlast)).
        rewrite Hdist, decide_True by done. done.
      * rewrite Hdist, decide_True by done. done.
    + intros Hp.
      destruct (inv_pred0 x Hx Hp) as (i & e' & H1 & H2 & H3 & H4 & H5 & H6).
      exists i, e'. split_and!; [done|done|done|done| |].
      * rewrite Hdist, decide_False by done.
        rewrite Hdset; [done|]. apply list_elem_of_lookup. eauto.
      * rewrite Hdist, decide_False by done. done.
Qed.

Lemma relax_edges_inv (g : Graph) (source u : Z) (settled : list Z)
    (edges : list Edge) (st : DState) :
  wf_graph g -> last settled = Some u ->
  (forall e, e ∈ edges -> e ∈ adj_at g u) ->
  dijkstra_inv g source settled edges st ->
  dijkstra_inv g source settled [] (fold_left (relax_edge u) edges st).
Proof.
  intros Hwf Hlast. revert st. induction edges as [|e edges IH]; intros st Hsub Hinv.
  - done.
  - simpl. apply IH.
    + intros e' He'. apply Hsub. by apply elem_of_cons; right.
    + apply relax_edge_inv; [done | done | | done].
      apply Hsub. apply list_elem_of_here.
Qed.

(** ** The outer loop: extracting the next vertex *)

Lemma settled_bound (g : Graph) (source : Z) (settled : list Z)
    (pending : list Edge) (st : DState) :
  dijkstra_inv g source settled pending st ->
  (length settled <= Z.to_nat (numVertices g))%nat.
Proof.
  intros Hinv.
  assert (Hsub : settled ⊆+ seqZ 0 (numVertices g)).
  { apply NoDup_submseteq; [apply (inv_nodup _ _ _ _ _ Hinv)|].
    intros x Hx. apply elem_of_seqZ.
    destruct (inv_settled _ _ _ _ _ Hinv x Hx) as [Hr _].
    unfold in_range in Hr. lia. }
  apply submseteq_length in Hsub. by rewrite length_seqZ in Hsub.
Qed.

Lemma extract_inv (g : Graph) (source : Z) (settled : list Z) (st : DState) :
  wf_graph g -> dijkstra_inv g source settled [] st ->
  isEmpty (st_pq st) = false ->
  let current := fst (extractMin (st_pq st)) in
  let pq1 := snd (extractMin (st_pq st)) in
  dgt (distance current) (dist_of st (vertex current)) = false /\
  in_range g (vertex current) /\
  dijkstra_inv g source (settled ++ [vertex current])
    (adj_at g (vertex current))
    (mkDState (st_distances st) (st_predecessors st) pq1).
Proof.
  intros Hwf Hinv He current pq1.
  destruct (extractMin_spec _ (inv_heap _ _ _ _ _ Hinv) He)
    as ([Hmin_in Hmin] & Hheap1 & Hperm).
  pose proof (extractMin_elem _ (inv_heap _ _ _ _ _ Hinv) He) as Helem.
  fold current in Hmin_in, Hmin, Hperm, Helem. fold pq1 in Hheap1, Hperm, Helem.
  destruct (inv_queue _ _ _ _ _ Hinv current Hmin_in) as (Hur & Hd & Hfin & Hnot).
  set (u := vertex current) in *.
  split_and!; [|done|].
  { rewrite Hd. unfold dgt. apply dlt_irrefl. }
  assert (Hdist : forall x, dist_of
            (mkDState (st_distances st) (st_predecessors st) pq1) x =
            dist_of st x) by done.
  assert (Hpred : forall x, pred_of
            (mkDState (st_distances st) (st_predecessors st) pq1) x =
            pred_of st x) by done.
  destruct_inv Hinv. constructor; simpl.
  - done.
  - done.
  - done.
  - intros x Hx. apply Helem in Hx as [Hx Hne].
    destruct (inv_queue0 x Hx) as (? & ? & ? & ?). split_and!; try done.
    rewrite not_elem_of_app, list_elem_of_singleton. done.
  - apply NoDup_app. split_and!; [done| |apply NoDup_singleton].
    intros x Hx ->%list_elem_of_singleton. done.
  - intros x [Hx| ->%list_elem_of_singleton]%elem_of_app.
    + by apply inv_settled0.
    + rewrite Hdist, Hd. done.
  - intros x Hx Hxfin. rewrite Hdist in Hxfin.
    destruct (inv_finite0 x Hx Hxfin) as [?|(y & Hy & Hvy)].
    + left. apply elem_of_app. by left.
    + destruct (decide (x = u)) as [->|Hne].
      * left. apply elem_of_app. right. apply list_elem_of_here.
      * right. exists y. split; [|done]. apply Helem. split; [done|].
        fold u. congruence.
  - intros s x [Hs| ->%list_elem_of_singleton]%elem_of_app Hx;
      apply Helem in Hx as [Hx Hne]; rewrite Hdist.
    + by apply inv_order0.
    + rewrite Hd. by apply Hmin.
  - intros s u'. rewrite last_snoc. intros Hs ?; simplify_eq.
    rewrite !Hdist.
    apply elem_of_app in Hs as [Hs| ->%list_elem_of_singleton].
    + rewrite Hd. by apply inv_order0.
    + apply dle_refl.
  - intros u' e [Hu'| ->%list_elem_of_singleton]%elem_of_app He'.
    + right. destruct (inv_relaxed0 u' e Hu' He') as [[_ Hin]|Hr]; [|done].
      by apply elem_of_nil in Hin.
    + left. by rewrite last_snoc.
  - done.
  - done.
  - done.
  - done.
  - done.
  - intros x Hx Hp. rewrite Hpred in Hp |- *.
    destruct (inv_pred0 x Hx Hp) as (i & e' & H1 & H2 & H3 & H4 & H5 & H6).
    exists i, e'. split_and!; [by apply lookup_app_l_Some| |done|done|done|done].
    intros j Hj. pose proof (lookup_lt_Some _ _ _ H1).
    apply lookup_app_Some in Hj as [Hj|[Hge Hj]]; [by apply H2 | lia].
Qed.

Lemma dijkstra_loop_empty (g : Graph) (fuel : nat) (st : DState) :
  isEmpty (st_pq st) = true -> dijkstra_loop g fuel st = (st, LoopDone).
Proof. intros H. destruct fuel; simpl; by rewrite H. Qed.

Lemma dijkstra_loop_step (g : Graph) (fuel : nat) (st : DState) :
  isEmpty (st_pq st) = false ->
  dijkstra_loop g (S fuel) st =
    let current := fst (extractMin (st_pq st)) in
    let pq1 := snd (extractMin (st_pq st)) in
    let st1 := mkDState (st_distances st) (st_predecessors st) pq1 in
    if dgt (distance current) (vget Inf (st_distances st) (vertex current))
    then dijkstra_loop g fuel st1
    else match getAdjacentNodes g (vertex current) with
         | Err e => (st1, LoopThrew e)
         | Ok neighbors =>
             dijkstra_loop g fuel
               (fold_left (relax_edge (vertex current)) neighbors st1)
         end.
Proof.
  intros H. simpl. rewrite H. by destruct (extractMin (st_pq st)).
Qed.

(** The loop leaves through its condition whenever the fuel covers the
    vertices not yet settled. *)
Lemma dijkstra_loop_done (g : Graph) (source : Z) (fuel : nat)
    (settled : list Z) (st : DState) :
  wf_graph g -> dijkstra_inv g source settled [] st ->
  (Z.to_nat (numVertices g) - length settled <= fuel)%nat ->
  exists settled' st',
    dijkstra_loop g fuel st = (st', LoopDone) /\
    dijkstra_inv g source settled' [] st' /\
    heap (st_pq st') = [].
Proof.
  intros Hwf. revert settled st.
  induction fuel as [|fuel IH]; intros settled st Hinv Hfuel.
  - destruct (isEmpty (st_pq st)) eqn:He.
    { exists settled, st. split_and!; [by apply dijkstra_loop_empty | done |].
      by apply isEmpty_true. }
    destruct (extract_inv g source settled st Hwf Hinv He) as (_ & _ & Hinv1).
    apply settled_bound in Hinv1. rewrite length_app in Hinv1. simpl in Hinv1.
    lia.
  - destruct (isEmpty (st_pq st)) eqn:He.
    { exists settled, st. split_and!; [by apply dijkstra_loop_empty | done |].
      by apply isEmpty_true. }
    destruct (extract_inv g source settled st Hwf Hinv He) as (Hstale & Hur & Hinv1).
    rewrite (dijkstra_loop_step g fuel st He). cbv zeta.
    change (vget Inf (st_distances st)) with (dist_of st).
    rewrite Hstale, (getAdjacentNodes_Ok g _ Hur).
    apply (IH (settled ++ [vertex (fst (extractMin (st_pq st)))])).
    + apply (relax_edges_inv g source (vertex (fst (extractMin (st_pq st)))));
        [done | by rewrite last_snoc | done | done].
    + rewrite length_app. simpl. lia.
Qed.

(** Once the loop has left through its condition or an exception, more
    fuel gives the same result. *)
Lemma dijkstra_loop_more_fuel (g : Graph) (f1 f2 : nat) (st st' : DState)
    (ex : LoopExit) :
  dijkstra_loop g f1 st = (st', ex) -> ex <> LoopFuel -> (f1 <= f2)%nat ->
  dijkstra_loop g f2 st = (st', ex).
Proof.
  revert f2 st. induction f1 as [|f1 IH]; intros f2 st Hrun Hex Hle.
  - destruct (isEmpty (st_pq st)) eqn:He.
    + rewrite dijkstra_loop_empty in Hrun |- * by done. done.
    + simpl in Hrun. rewrite He in Hrun. by simplify_eq.
  - destruct (isEmpty (st_pq st)) eqn:He.
    + rewrite dijkstra_loop_empty in Hrun |- * by done. done.
    + destruct f2 as [|f2]; [lia|].
      rewrite dijkstra_loop_step in Hrun |- * by done. cbv zeta in *.
      destruct (dgt _ _); [apply IH; [done | done | lia]|].
      destruct (getAdjacentNodes g _); [|done].
      apply IH; [done | done | lia].
Qed.

(** ** The initial state *)

Lemma insert_new (v : Z) (d : dist) :
  insert v d MinHeap_new = mkMinHeap [mkHeapNode v d] (<[v := 0%nat]> ∅).
Proof. reflexivity. Qed.

Lemma dijkstra_init_inv (g : Graph) (source : Z) :
  wf_graph g -> in_range g source ->
  dijkstra_inv g source [] [] (dijkstra_init g source).
Proof.
  intros Hwf Hs. unfold dijkstra_init, getNumVertices. rewrite insert_new.
  set (n := Z.to_nat (numVertices g)).
  assert (Hdist : forall x,
    dist_of (mkDState (vset (replicate n Inf) source (Fin 0))
                      (replicate n (-1))
                      (mkMinHeap [mkHeapNode source (Fin 0)]
                                 (<[source := 0%nat]> ∅))) x =
    if decide (x = source) then Fin 0 else Inf).
  { intros x. unfold dist_of. simpl. case_decide as E.
    - subst x. apply vget_vset_eq. rewrite length_replicate.
      unfold in_range in Hs. lia.
    - rewrite vget_vset_ne by done. apply vget_replicate. }
  assert (Hpred : forall x,
    pred_of (mkDState (vset (replicate n Inf) source (Fin 0))
                      (replicate n (-1))
                      (mkMinHeap [mkHeapNode source (Fin 0)]
                                 (<[source := 0%nat]> ∅))) x = -1).
  { intros x. unfold pred_of. simpl. apply vget_replicate. }
  constructor; simpl.
  - by rewrite length_vset, length_replicate.
  - by rewrite length_replicate.
  - rewrite <- insert_new.
    by destruct (insert_spec source (Fin 0) MinHeap_new MinHeap_new_inv).
  - intros x ->%list_elem_of_singleton. simpl.
    rewrite Hdist, decide_True by done. split_and!; [done|done|done|].
    apply not_elem_of_nil.
  - apply NoDup_nil_2.
  - by intros u ?%elem_of_nil.
  - intros v Hv. rewrite Hdist. case_decide as E; [|done].
    intros _. right. exists (mkHeapNode source (Fin 0)).
    split; [apply list_elem_of_here | by subst].
  - by intros u x ?%elem_of_nil.
  - by intros s u ?%elem_of_nil.
  - by intros u e ?%elem_of_nil.
  - intros v. rewrite Hdist. case_decide; [apply dle_refl | apply dle_Inf].
  - by rewrite Hdist, decide_True.
  - intros v d Hv. rewrite Hdist. case_decide as E; [|done].
    intros ?; simplify_eq. by exists [].
  - apply Hpred.
  - intros v _ Hne. rewrite Hdist, decide_False by done. done.
  - intros v _. by rewrite Hpred.
Qed.

(** ** The state in which the loop ends *)

Lemma dijkstra_final (g : Graph) (source : Z) :
  wf_graph g -> in_range g source ->
  exists settled st,
    (forall fuel, (dijkstra_fuel g <= fuel)%nat ->
       dijkstra_loop g fuel (dijkstra_init g source) = (st, LoopDone)) /\
    dijkstra_inv g source settled [] st /\
    heap (st_pq st) = [].
Proof.
  intros Hwf Hs.
  pose proof (dijkstra_init_inv g source Hwf Hs) as Hinit.
  destruct (dijkstra_loop_done g source (dijkstra_fuel g) [] _ Hwf Hinit)
    as (settled & st & Hrun & Hinv & Hempty).
  { unfold dijkstra_fuel. simpl. lia. }
  exists settled, st. split_and!; [|done|done].
  intros fuel Hfuel. by eapply dijkstra_loop_more_fuel.
Qed.

Lemma is_inf_false (d : dist) : is_inf d = false <-> d <> Inf.
Proof. destruct d; simpl; split; done. Qed.

Lemma is_inf_true (d : dist) : is_inf d = true <-> d = Inf.
Proof. destruct d; simpl; split; done. Qed.

(** With an empty heap every finite distance belongs to a settled vertex,
    and every edge out of a settled vertex is relaxed. *)
Lemma final_lower_bound (g : Graph) (source : Z) (settled : list Z)
    (st : DState) (es : list Edge) (v : Z) :
  wf_graph g -> in_range g source ->
  dijkstra_inv g source settled [] st -> heap (st_pq st) = [] ->
  is_walk g source es v -> dle (dist_of st v) (walk_len es).
Proof.
  intros Hwf Hs Hinv Hempty. revert v.
  induction es as [|e es IH] using rev_ind; intros v Hwalk.
  - simpl in Hwalk. subst v. rewrite (inv_source _ _ _ _ _ Hinv).
    apply dle_refl.
  - apply is_walk_snoc_inv in Hwalk as (u & Hwu & He & Hv).
    specialize (IH u Hwu). apply has_edge_iff in He as [Hur He].
    rewrite walk_len_snoc.
    destruct (is_inf (dist_of st u)) eqn:Hfin.
    { apply is_inf_true in Hfin. rewrite Hfin in IH.
      apply dle_Inf_l in IH. rewrite IH. apply dle_Inf. }
    apply is_inf_false in Hfin.
    destruct (inv_finite _ _ _ _ _ Hinv u Hur Hfin) as [Hset|(x & Hx & _)].
    2:{ rewrite Hempty in Hx. by apply elem_of_nil in Hx. }
    destruct (inv_relaxed _ _ _ _ _ Hinv u e Hset He) as [[_ Hin]|Hr].
    { by apply elem_of_nil in Hin. }
    rewrite Hv in Hr. eapply dle_trans; [exact Hr|].
    apply dplus_mono; [apply (inv_nonneg _ _ _ _ _ Hinv) | | done].
    by destruct (validate_edge g u e Hwf Hur He).
Qed.

Lemma final_shortest (g : Graph) (source : Z) (settled : list Z)
    (st : DState) (v : Z) :
  wf_graph g -> in_range g source ->
  dijkstra_inv g source settled [] st -> heap (st_pq st) = [] ->
  in_range g v -> shortest_dist g source v (dist_of st v).
Proof.
  intros Hwf Hs Hinv Hempty Hv. split.
  - intros es Hes.
    exact (final_lower_bound g source settled st es v Hwf Hs Hinv Hempty Hes).
  - destruct (dist_of st v) as [d|] eqn:Ed; [|done]. intros _.
    exact (inv_walk _ _ _ _ _ Hinv v d Hv Ed).
Qed.

(** ** Walking the predecessors back *)

Lemma reconstruct_loop_spec (g : Graph) (source : Z) (settled : list Z)
    (st : DState) :
  wf_graph g -> dijkstra_inv g source settled [] st ->
  forall k v fuel acc,
    settled !! k = Some v -> (k < fuel)%nat ->
    exists es,
      is_walk g source es v /\
      dist_of st v = walk_len es /\
      reconstruct_loop fuel source (st_predecessors st) v acc =
        acc ++ rev (walk_nodes source es).
Proof.
  intros Hwf Hinv k. induction k as [k IH] using lt_wf_ind.
  intros v fuel acc Hk Hfuel.
  destruct fuel as [|fuel]; [lia|].
  assert (Hv : v ∈ settled) by (apply list_elem_of_lookup; eauto).
  destruct (inv_settled _ _ _ _ _ Hinv v Hv) as [Hvr Hfin].
  cbn [reconstruct_loop].
  assert ((v =? -1) = false) as -> by (unfold in_range in Hvr; lia).
  destruct (v =? source) eqn:Evs.
  - apply Z.eqb_eq in Evs. subst v. exists []. split_and!; [done| |done].
    apply (inv_source _ _ _ _ _ Hinv).
  - apply Z.eqb_neq in Evs.
    change (vget (-1) (st_predecessors st) v) with (pred_of st v).
    pose proof (inv_pred_some _ _ _ _ _ Hinv v Hvr Evs Hfin) as Hp.
    destruct (inv_pred _ _ _ _ _ Hinv v Hvr Hp)
      as (i & e & Hi & Hlt & He & Hdest & Hdist & _).
    specialize (Hlt k Hk).
    destruct (IH i Hlt (pred_of st v) fuel (acc ++ [v]) Hi ltac:(lia))
      as (es & Hes & Hd & Hrun).
    assert (Hpr : in_range g (pred_of st v)).
    { apply (inv_settled _ _ _ _ _ Hinv). apply list_elem_of_lookup. eauto. }
    exists (es ++ [e]). split_and!.
    + rewrite <- Hdest.
      apply (is_walk_snoc g source (pred_of st v) es e Hes).
      by apply has_edge_iff.
    + rewrite Hdist, Hd. by rewrite (walk_len_snoc es e).
    + rewrite Hrun, walk_nodes_snoc, Hdest, rev_app_distr. simpl.
      by rewrite <- app_assoc.
Qed.

Lemma reconstructPath_spec (g : Graph) (source : Z) (settled : list Z)
    (st : DState) (v : Z) :
  wf_graph g -> dijkstra_inv g source settled [] st ->
  heap (st_pq st) = [] -> in_range g v -> dist_of st v <> Inf ->
  exists es,
    is_walk g source es v /\
    dist_of st v = walk_len es /\
    reconstructPath source v (st_predecessors st) = walk_nodes source es.
Proof.
  intros Hwf Hinv Hempty Hv Hfin.
  destruct (inv_finite _ _ _ _ _ Hinv v Hv Hfin) as [Hset|(x & Hx & _)].
  2:{ rewrite Hempty in Hx. by apply elem_of_nil in Hx. }
  apply list_elem_of_lookup in Hset as [k Hk].
  destruct (reconstruct_loop_spec g source settled st Hwf Hinv k v
              (length (st_predecessors st)) [] Hk) as (es & H1 & H2 & H3).
  { rewrite (inv_len_p _ _ _ _ _ Hinv).
    pose proof (settled_bound _ _ _ _ _ Hinv).
    apply lookup_lt_Some in Hk. lia. }
  exists es. split_and!; [done|done|].
  unfold reconstructPath. rewrite H3.
  rewrite app_nil_l. apply rev_involutive.
Qed.

(** ** [findShortestPaths] and [findShortestPath] *)

Lemma findShortestPaths_run (g : Graph) (source : Z) :
  wf_graph g -> nodeExists g source = true ->
  exists settled st,
    dijkstra_inv g source settled [] st /\
    heap (st_pq st) = [] /\
    forall fuel, (dijkstra_fuel g <= fuel)%nat ->
      dijkstra_loop g fuel (dijkstra_init g source) = (st, LoopDone) /\
      findShortestPaths_fuel fuel g source =
        mkDijkstraResult (st_distances st) (st_predecessors st) true
          EmptyString.
Proof.
  intros Hwf Hex. pose proof (nodeExists_in_range g source Hwf Hex) as Hs.
  destruct (dijkstra_final g source Hwf Hs) as (settled & st & Hrun & Hinv & He).
  exists settled, st. split_and!; [done|done|].
  intros fuel Hfuel. split; [by apply Hrun|].
  unfold findShortestPaths_fuel. rewrite Hex. simpl.
  by rewrite (Hrun fuel Hfuel).
Qed.

(** The distances returned are the lengths of the shortest walks. *)
Lemma findShortestPaths_correct (g : Graph) (source : Z) :
  wf_graph g -> nodeExists g source = true ->
  dr_success (findShortestPaths g source) = true /\
  length (distances (findShortestPaths g source)) = Z.to_nat (numVertices g) /\
  vget Inf (distances (findShortestPaths g source)) source = Fin 0 /\
  (forall v, in_range g v ->
     shortest_dist g source v
       (vget Inf (distances (findShortestPaths g source)) v)) /\
  (forall fuel, (dijkstra_fuel g <= fuel)%nat ->
     snd (dijkstra_loop g fuel (dijkstra_init g source)) = LoopDone /\
     findShortestPaths_fuel fuel g source = findShortestPaths g source).
Proof.
  intros Hwf Hex. pose proof (nodeExists_in_range g source Hwf Hex) as Hs.
  destruct (findShortestPaths_run g source Hwf Hex)
    as (settled & st & Hinv & Hempty & Hrun).
  unfold findShortestPaths.
  destruct (Hrun (dijkstra_fuel g) (le_n _)) as [_ ->]. simpl.
  split_and!.
  - done.
  - apply (inv_len_d _ _ _ _ _ Hinv).
  - apply (inv_source _ _ _ _ _ Hinv).
  - intros v Hv. by apply (final_shortest g source settled st v).
  - intros fuel Hfuel. destruct (Hrun fuel Hfuel) as [-> ->]. done.
Qed.

(** What [findShortestPath] returns between two registered locations. *)
Lemma findShortestPath_spec (g : Graph) (s d : Z) :
  wf_graph g -> nodeExists g s = true -> nodeExists g d = true ->
  (found (findShortestPath g s d) = false /\
   forall es, is_walk g s es d -> walk_len es = Inf) \/
  (found (findShortestPath g s d) = true /\
   shortest_dist g s d (totalDistance (findShortestPath g s d)) /\
   exists es,
     is_walk g s es d /\
     path (findShortestPath g s d) = walk_nodes s es /\
     totalDistance (findShortestPath g s d) = walk_len es).
Proof.
  intros Hwf Hs Hd.
  pose proof (nodeExists_in_range g s Hwf Hs) as Hsr.
  pose proof (nodeExists_in_range g d Hwf Hd) as Hdr.
  destruct (findShortestPaths_run g s Hwf Hs)
    as (settled & st & Hinv & Hempty & Hrun).
  destruct (Hrun (dijkstra_fuel g) (le_n _)) as [_ Hres].
  unfold findShortestPath. rewrite Hs, Hd. simpl.
  unfold findShortestPaths. rewrite Hres. simpl.
  change (vget Inf (st_distances st) d) with (dist_of st d).
  pose proof (final_shortest g s settled st d Hwf Hsr Hinv Hempty Hdr) as Hsh.
  destruct (is_inf (dist_of st d)) eqn:Einf.
  - left. simpl. split; [done|]. apply is_inf_true in Einf.
    rewrite Einf in Hsh. intros es Hes. apply dle_Inf_l. by apply Hsh.
  - right. simpl. split; [done|]. split; [done|].
    apply is_inf_false in Einf.
    destruct (reconstructPath_spec g s settled st d Hwf Hinv Hempty Hdr Einf)
      as (es & H1 & H2 & H3).
    exists es. done.
Qed.


(** From a location to itself: the one-vertex path of length zero. *)
Lemma findShortestPath_self (g : Graph) (s : Z) :
  wf_graph g -> nodeExists g s = true ->
  found (findShortestPath g s s) = true /\
  totalDistance (findShortestPath g s s) = Fin 0 /\
  path (findShortestPath g s s) = [s].
Proof.
  intros Hwf Hs.
  pose proof (nodeExists_in_range g s Hwf Hs) as Hsr.
  destruct (findShortestPaths_run g s Hwf Hs)
    as (settled & st & Hinv & Hempty & Hrun).
  destruct (Hrun (dijkstra_fuel g) (le_n _)) as [_ Hres].
  unfold findShortestPath. rewrite Hs. simpl.
  unfold findShortestPaths. rewrite Hres. simpl.
  change (vget Inf (st_distances st) s) with (dist_of st s).
  rewrite (inv_source _ _ _ _ _ Hinv). simpl. split_and!; [done|done|].
  unfold reconstructPath. rewrite (inv_len_p _ _ _ _ _ Hinv).
  destruct (Z.to_nat (numVertices g)) as [|n] eqn:En.
  { unfold in_range in Hsr. lia. }
  cbn [reconstruct_loop].
  assert ((s =? -1) = false) as -> by (unfold in_range in Hsr; lia).
  by rewrite Z.eqb_refl.
Qed.

Lemma found_finite (g : Graph) (s d : Z) :
  found (findShortestPath g s d) = true ->
  totalDistance (findShortestPath g s d) <> Inf.
Proof.
  unfold findShortestPath.
  destruct (nodeExists g s); simpl; [|done].
  destruct (nodeExists g d); simpl; [|done].
  destruct (dr_success _); simpl; [|done].
  destruct (is_inf _) eqn:E; simpl; [done|].
  intros _. by apply is_inf_false.
Qed.

Lemma found_nodeExists (g : Graph) (s d : Z) :
  found (findShortestPath g s d) = true ->
  nodeExists g s = true /\ nodeExists g d = true.
Proof.
  unfold findShortestPath.
  destruct (nodeExists g s); simpl; [|done].
  destruct (nodeExists g d); simpl; done.
Qed.

(** A route is found exactly between registered locations joined by a
    walk whose length is finite. *)
Lemma found_iff_finite_walk (g : Graph) (s d : Z) :
  wf_graph g ->
  found (findShortestPath g s d) = true <->
  nodeExists g s = true /\ nodeExists g d = true /\
  exists es, is_walk g s es d /\ walk_len es <> Inf.
Proof.
  intros Hwf. split.
  - intros Hf. destruct (found_nodeExists g s d Hf) as [Hs Hd].
    split_and!; [done|done|].
    destruct (findShortestPath_spec g s d Hwf Hs Hd)
      as [[Hn _]|(_ & _ & es & Hes & _ & Ht)]; [congruence|].
    exists es. split; [done|]. rewrite <- Ht. by apply found_finite.
  - intros (Hs & Hd & es & Hes & Hfin).
    destruct (findShortestPath_spec g s d Hwf Hs Hd)
      as [[_ Hall]|(Hf & _)]; [|done].
    by destruct (Hfin (Hall es Hes)).
Qed.

Lemma check_graph_wf (g : Graph) : check_graph g = true -> wf_graph g.
Proof.
  unfold check_graph. rewrite !andb_true_iff.
  intros [[[H1 H2] H3] H4]. apply Z.leb_le in H1. apply Nat.eqb_eq in H2.
  split_and!; [done|done|done|].
  intros id [n Hn]. rewrite forallb_forall in H4.
  specialize (H4 (id, n)). simpl in H4. apply invalid_vertex_false.
  apply negb_true_iff, H4. apply list_elem_of_In.
  by apply elem_of_map_to_list.
Qed.

Lemma scenario_graph_wf : wf_graph scenario_graph.
Proof. apply check_graph_wf. vm_compute. reflexivity. Qed.

Lemma is_walk_joins (g : Graph) (u v : Z) (es : list Edge) :
  is_walk g u es v -> joins g (walk_nodes u es) es.
Proof.
  intros Hw. split; [unfold walk_nodes; simpl; by rewrite length_fmap|].
  revert u Hw. induction es as [|e es IH]; intros u Hw i e' Hi; [done|].
  destruct Hw as [He Hw]. destruct i as [|i]; simpl in *.
  - simplify_eq. exists u. done.
  - destruct (IH _ Hw i e' Hi) as (u' & H1 & H2 & H3). exists u'. done.
Qed.

Lemma walk_nodes_last (g : Graph) (u v : Z) (es : list Edge) :
  is_walk g u es v -> last (walk_nodes u es) = Some v.
Proof.
  revert u. induction es as [|e es IH]; intros u Hw.
  - simpl in Hw. by subst.
  - destruct Hw as [_ Hw]. specialize (IH _ Hw). unfold walk_nodes in *.
    rewrite fmap_cons, last_cons_cons. exact IH.
Qed.

Lemma shortest_dist_unreachable (g : Graph) (u v : Z) (d : dist) :
  shortest_dist g u v d -> ~ reachable g u v -> d = Inf.
Proof.
  intros [_ H] Hn. destruct d as [q|]; [|done].
  destruct H as (es & Hes & _); [done|]. exfalso. apply Hn. by exists es.
Qed.

Lemma rounding_graph_wf : wf_graph rounding_graph.
Proof. apply check_graph_wf. vm_compute. reflexivity. Qed.

Lemma overflow_graph_wf : wf_graph overflow_graph.
Proof. apply check_graph_wf. vm_compute. reflexivity. Qed.

Lemma outpost_graph_wf : wf_graph outpost_graph.
Proof. apply check_graph_wf. vm_compute. reflexivity. Qed.

(** An edge stored in the adjacency list of [u] is an edge of the graph. *)
Lemma has_edge_adj (g : Graph) (u : Z) (e : Edge) :
  invalid_vertex g u = false -> e ∈ adj_at g u -> has_edge g u e.
Proof.
  intros Hu He. exists (adj_at g u). split; [|done].
  unfold getAdjacentNodes. by rewrite Hu.
Qed.

Lemma rounding_detour_walk : is_walk rounding_graph 0 rounding_detour 2.
Proof.
  simpl. split; [|split; [|done]];
    (apply has_edge_adj; [by vm_compute|]); vm_compute; set_solver.
Qed.

(** C1 (amended): on every graph and for every source registered as a
    location, [findShortestPaths] succeeds, its loop ends with an empty
    heap within the fuel of the model, and the distance it returns for each
    vertex [v] is the least length of a walk from the source to [v], where
    the length of a walk is the sum of its weights added in double
    arithmetic from the source on: no walk has a smaller sum, a walk with
    that sum exists when the distance is finite, the distance of the source
    is 0 and that of an unreachable vertex is [+infinity].  On the graph of
    four locations with the roads (0-1, 2), (1-2, 2), (2-3, 1), (0-2, 5),
    [findShortestPath(0, 3)] returns the path [0, 1, 2, 3] with total
    distance 5. *)
Theorem C1_dijkstra_shortest_distances :
  (forall g source,
     wf_graph g -> nodeExists g source = true ->
     dr_success (findShortestPaths g source) = true /\
     vget Inf (distances (findShortestPaths g source)) source = Fin 0 /\
     (forall v, in_range g v ->
        shortest_dist g source v
          (vget Inf (distances (findShortestPaths g source)) v) /\
        (~ reachable g source v ->
         vget Inf (distances (findShortestPaths g source)) v = Inf)) /\
     (forall fuel, (dijkstra_fuel g <= fuel)%nat ->
        snd (dijkstra_loop g fuel (dijkstra_init g source)) = LoopDone /\
        findShortestPaths_fuel fuel g source = findShortestPaths g source)) /\
  (found (findShortestPath scenario_graph 0 3) = true /\
   path (findShortestPath scenario_graph 0 3) = [0; 1; 2; 3] /\
   totalDistance (findShortestPath scenario_graph 0 3) = Fin 5).
Proof.
  split.
  - intros g source Hwf Hex.
    destruct (findShortestPaths_correct g source Hwf Hex)
      as (H1 & _ & H3 & H4 & H5).
    split_and!; [done|done| |done].
    intros v Hv. split; [by apply H4|].
    intros Hn. eapply shortest_dist_unreachable; [by apply H4 | done].
  - vm_compute. done.
Qed.

(** An instance of C1: the four-location graph from source 0. *)
Lemma C1_dijkstra_shortest_distances_witness :
  dr_success (findShortestPaths scenario_graph 0) = true /\
  vget Inf (distances (findShortestPaths scenario_graph 0)) 0 = Fin 0 /\
  (forall v, in_range scenario_graph v ->
     shortest_dist scenario_graph 0 v
       (vget Inf (distances (findShortestPaths scenario_graph 0)) v) /\
     (~ reachable scenario_graph 0 v ->
      vget Inf (distances (findShortestPaths scenario_graph 0)) v = Inf)) /\
  (forall fuel, (dijkstra_fuel scenario_graph <= fuel)%nat ->
     snd (dijkstra_loop scenario_graph fuel (dijkstra_init scenario_graph 0))
       = LoopDone /\
     findShortestPaths_fuel fuel scenario_graph 0 =
       findShortestPaths scenario_graph 0).
Proof.
  apply (proj1 C1_dijkstra_shortest_distances scenario_graph 0).
  - apply check_graph_wf. vm_compute. reflexivity.
  - vm_compute. reflexivity.
Defined.

(** C1, as stated, fails: with a road of 0.30000000000000004 from 0 to 2
    and roads of 0.1 and 0.2 from 0 over 1 to 2 (three doubles), the
    distance returned for vertex 2 is 0.30000000000000004, along the path
    [0, 2], although the weights of the walk over 1 add up to less: their
    double sum is rounded up to 0.30000000000000004, which is not smaller
    than the distance already found. *)
Lemma C1_exact_length_counterexample :
  wf_graph rounding_graph /\
  nodeExists rounding_graph 0 = true /\
  in_range rounding_graph 2 /\
  nonneg_double (Fin double_0_1) /\
  nonneg_double (Fin double_0_2) /\
  nonneg_double (Fin double_0_1_plus_0_2) /\
  vget Inf (distances (findShortestPaths rounding_graph 0)) 2 =
    Fin double_0_1_plus_0_2 /\
  path (findShortestPath rounding_graph 0 2) = [0; 2] /\
  is_walk rounding_graph 0 rounding_detour 2 /\
  dlt (exact_len rounding_detour) (Fin double_0_1_plus_0_2) = true /\
  walk_len rounding_detour = Fin double_0_1_plus_0_2 /\
  ~ exact_shortest_dist rounding_graph 0 2
      (vget Inf (distances (findShortestPaths rounding_graph 0)) 2).
Proof.
  assert (Hd : vget Inf (distances (findShortestPaths rounding_graph 0)) 2 =
               Fin double_0_1_plus_0_2) by (vm_compute; reflexivity).
  assert (Hlt : dlt (exact_len rounding_detour) (Fin double_0_1_plus_0_2)
                = true) by (vm_compute; reflexivity).
  split_and!.
  - apply rounding_graph_wf.
  - vm_compute; reflexivity.
  - unfold in_range.
    assert (numVertices rounding_graph = 3) as -> by (vm_compute; reflexivity).
    lia.
  - exists (3602879701896397 * 2 ^ 1019). split_and!; [split| |];
      by vm_compute.
  - exists (3602879701896397 * 2 ^ 1020). split_and!; [split| |];
      by vm_compute.
  - exists (1351079888211149 * 2 ^ 1022). split_and!; [split| |];
      by vm_compute.
  - exact Hd.
  - vm_compute; reflexivity.
  - apply rounding_detour_walk.
  - exact Hlt.
  - vm_compute; reflexivity.
  - rewrite Hd. intros [Hlow _].
    specialize (Hlow rounding_detour rounding_detour_walk).
    unfold dle in Hlow. congruence.
Qed.

(** C5 (amended): whenever [findShortestPath] finds a path, the path
    starts at the source and ends at the destination, and there are edges
    of the graph joining each vertex of the path to the next whose
    weights, added in double arithmetic from the source on, give exactly
    the reported total distance; a path is found exactly when source and
    destination are registered locations joined by a walk whose weights
    have a finite double sum. *)
Theorem C5_path_roundtrip (g : Graph) (s d : Z) :
  wf_graph g ->
  (found (findShortestPath g s d) = true ->
   head (path (findShortestPath g s d)) = Some s /\
   last (path (findShortestPath g s d)) = Some d /\
   exists es,
     joins g (path (findShortestPath g s d)) es /\
     totalDistance (findShortestPath g s d) = walk_len es) /\
  (found (findShortestPath g s d) = true <->
   nodeExists g s = true /\ nodeExists g d = true /\
   exists es, is_walk g s es d /\ walk_len es <> Inf).
Proof.
  intros Hwf. split; [|by apply found_iff_finite_walk].
  intros Hf. destruct (found_nodeExists g s d Hf) as [Hs Hd].
  destruct (findShortestPath_spec g s d Hwf Hs Hd)
    as [[Hn _] | (_ & _ & es & Hes & Hp & Ht)]; [congruence|].
  rewrite Hp. split_and!.
  - done.
  - by eapply walk_nodes_last.
  - exists es. split; [by eapply is_walk_joins | done].
Qed.

(** An instance of C5: from 0 to 3 in the four-location graph. *)
Lemma C5_path_roundtrip_witness :
  found (findShortestPath scenario_graph 0 3) = true /\
  head (path (findShortestPath scenario_graph 0 3)) = Some 0 /\
  last (path (findShortestPath scenario_graph 0 3)) = Some 3 /\
  exists es,
    joins scenario_graph (path (findShortestPath scenario_graph 0 3)) es /\
    totalDistance (findShortestPath scenario_graph 0 3) = walk_len es.
Proof.
  assert (Hf : found (findShortestPath scenario_graph 0 3) = true)
    by (vm_compute; reflexivity).
  destruct (C5_path_roundtrip scenario_graph 0 3) as [H _].
  - apply check_graph_wf. vm_compute. reflexivity.
  - exact (conj Hf (H Hf)).
Defined.

Lemma overflow_walk_is_walk : is_walk overflow_graph 0 overflow_walk 2.
Proof.
  simpl. split; [|split; [|done]];
    (apply has_edge_adj; [by vm_compute|]); vm_compute; set_solver.
Qed.

(** C5, as stated, fails for two kinds of reachable pairs.  Between the
    ends of two roads of [2^1023] in a row the double sum of the weights
    overflows: the distance of the far end stays [+infinity] and no path
    is returned.  And from a vertex that has roads but is not registered
    as a location no path is returned either. *)
Lemma C5_reachable_not_found_counterexample :
  (wf_graph overflow_graph /\
   nodeExists overflow_graph 0 = true /\
   nodeExists overflow_graph 2 = true /\
   nonneg_double (Fin double_huge) /\
   reachable overflow_graph 0 2 /\
   found (findShortestPath overflow_graph 0 2) = false /\
   path (findShortestPath overflow_graph 0 2) = []) /\
  (wf_graph outpost_graph /\
   nodeExists outpost_graph 2 = false /\
   reachable outpost_graph 2 0 /\
   found (findShortestPath outpost_graph 2 0) = false /\
   path (findShortestPath outpost_graph 2 0) = []).
Proof.
  split; split_and!.
  - apply overflow_graph_wf.
  - vm_compute; reflexivity.
  - vm_compute; reflexivity.
  - exists (2 ^ 2097). split_and!; [split| |]; by vm_compute.
  - exists overflow_walk. apply overflow_walk_is_walk.
  - vm_compute; reflexivity.
  - vm_compute; reflexivity.
  - apply outpost_graph_wf.
  - vm_compute; reflexivity.
  - exists [mkEdge 0 (Fin 1) "Track"]. split; [|done].
    apply has_edge_adj; [by vm_compute|]. vm_compute. set_solver.
  - vm_compute; reflexivity.
  - vm_compute; reflexivity.
Qed.

(** ** The driver registry *)

Lemma check_dm_wf (dm : DriverManager) : check_dm dm = true -> wf_dm dm.
Proof.
  unfold check_dm. rewrite forallb_forall. intros H k d Hk.
  specialize (H (k, d)). simpl in H.
  assert (Hin : In (k, d) (map_to_list (drivers dm))).
  { apply list_elem_of_In. by apply elem_of_map_to_list. }
  specialize (H Hin). by apply bool_decide_eq_true in H.
Qed.

Lemma available_fold (l : list (string * Driver)) (acc : list Driver) (x : Driver) :
  x ∈ fold_left (fun available pair =>
                   if isAvailable (snd pair) then available ++ [snd pair]
                   else available) l acc <->
  x ∈ acc \/ (exists k, (k, x) ∈ l /\ isAvailable x = true).
Proof.
  revert acc. induction l as [|[k d] l IH]; intros acc; simpl.
  - split; [by left|]. intros [?|(k & Hk & _)]; [done|].
    by apply elem_of_nil in Hk.
  - rewrite IH. split.
    + intros [Hx|(k' & Hk' & Ha)].
      * destruct (isAvailable d) eqn:Ed; [|by left].
        apply elem_of_app in Hx as [?|Hx%list_elem_of_singleton]; [by left|].
        subst x. right. exists k. split; [apply list_elem_of_here | done].
      * right. exists k'. split; [apply elem_of_cons; by right | done].
    + intros [Hx|(k' & Hk' & Ha)].
      * left. destruct (isAvailable d); [apply elem_of_app; by left | done].
      * apply elem_of_cons in Hk' as [Heq|Hin].
        -- injection Heq as -> ->. left. rewrite Ha.
           apply elem_of_app. right. apply list_elem_of_here.
        -- right. eauto.
Qed.

Lemma getAvailableDrivers_spec (dm : DriverManager) (d : Driver) :
  d ∈ getAvailableDrivers dm <-> available dm d.
Proof.
  unfold getAvailableDrivers, unordered_iter, available.
  rewrite available_fold. split.
  - intros [H|(k & Hk & Ha)]; [by apply elem_of_nil in H|].
    exists k. split; [by apply elem_of_map_to_list | done].
  - intros (k & Hk & Ha). right. exists k.
    split; [by apply elem_of_map_to_list | done].
Qed.

Lemma updateDriverAvailability_lookup (id : string) (b : bool)
    (dm : DriverManager) (d : Driver) :
  drivers dm !! id = Some d ->
  drivers (snd (updateDriverAvailability id b dm)) !! id =
    Some (mkDriver (driver_id d) (driver_name d) (currentLocation d) b
                   (vehicleType d) (rating d) (completedRides d)).
Proof.
  intros H. unfold updateDriverAvailability. rewrite H. simpl.
  by rewrite lookup_insert_eq.
Qed.

(** ** The nearest-driver search *)

Lemma found_dlt_Inf (g : Graph) (s d : Z) :
  found (findShortestPath g s d) = true ->
  dlt (totalDistance (findShortestPath g s d)) Inf = true.
Proof.
  intros H. apply found_finite in H.
  by destruct (totalDistance (findShortestPath g s d)).
Qed.

Lemma nearest_step_ok (g : Graph) (pickup : Z) (seen : list Driver)
    (acc : NearestAcc) (d : Driver) :
  nearest_ok g pickup seen acc ->
  nearest_ok g pickup (seen ++ [d]) (nearest_step g pickup acc d).
Proof.
  unfold nearest_ok, nearest_step. fold (path_to g pickup d).
  intros Hok.
  destruct (found (path_to g pickup d)) eqn:Ef; simpl.
  - destruct (dlt (totalDistance (path_to g pickup d)) (minDistance acc)) eqn:El;
      simpl.
    + split_and!; [apply elem_of_app; right; apply list_elem_of_here
                  |done|done|done|].
      intros d' [Hd'| ->%list_elem_of_singleton]%elem_of_app Hf';
        [|apply dle_refl].
      destruct (nearestDriver acc) as [best|].
      * destruct Hok as (_ & _ & _ & _ & Hmin).
        eapply dle_trans; [by apply dlt_dle | by apply Hmin].
      * destruct Hok as [_ Hnone]. rewrite (Hnone d' Hd') in Hf'. done.
    + destruct (nearestDriver acc) as [best|].
      * destruct Hok as (H1 & H2 & H3 & H4 & Hmin).
        split_and!; [apply elem_of_app; by left|done|done|done|].
        intros d' [Hd'| ->%list_elem_of_singleton]%elem_of_app Hf';
          [by apply Hmin | exact El].
      * destruct Hok as [Hinf _]. rewrite Hinf in El.
        unfold path_to in El, Ef. by rewrite (found_dlt_Inf _ _ _ Ef) in El.
  - destruct (nearestDriver acc) as [best|].
    + destruct Hok as (H1 & H2 & H3 & H4 & Hmin).
      split_and!; [apply elem_of_app; by left|done|done|done|].
      intros d' [Hd'| ->%list_elem_of_singleton]%elem_of_app Hf';
        [by apply Hmin | congruence].
    + destruct Hok as [Hinf Hnone]. split; [done|].
      intros d' [Hd'| ->%list_elem_of_singleton]%elem_of_app;
        [by apply Hnone | done].
Qed.

Lemma nearest_fold_ok (g : Graph) (pickup : Z) (l seen : list Driver)
    (acc : NearestAcc) :
  nearest_ok g pickup seen acc ->
  nearest_ok g pickup (seen ++ l) (fold_left (nearest_step g pickup) l acc).
Proof.
  revert seen acc. induction l as [|d l IH]; intros seen acc Hok; simpl.
  - by rewrite app_nil_r.
  - rewrite (cons_middle d seen l), app_assoc.
    apply IH. by apply nearest_step_ok.
Qed.

Lemma nearest_step_core (g : Graph) (pickup : Z) (a1 a2 : NearestAcc)
    (d : Driver) :
  acc_core a1 = acc_core a2 ->
  acc_core (nearest_step g pickup a1 d) = acc_core (nearest_step g pickup a2 d).
Proof.
  unfold acc_core, nearest_step. intros [= Hm Hn Hb]. rewrite Hm.
  destruct (found _ && dlt _ _); simpl; congruence.
Qed.

Lemma nearest_fold_core (g : Graph) (pickup : Z) (l : list Driver)
    (a1 a2 : NearestAcc) :
  acc_core a1 = acc_core a2 ->
  acc_core (fold_left (nearest_step g pickup) l a1) =
  acc_core (fold_left (nearest_step g pickup) l a2).
Proof.
  revert a1 a2. induction l as [|d l IH]; intros a1 a2 H; simpl; [done|].
  apply IH. by apply nearest_step_core.
Qed.



(** The result of the search depends on the graph and the registry only. *)
Lemma fst_findNearestDriver (pickup : Z) (m : RideMatcher) :
  fst (findNearestDriver pickup m) =
    let acc := nearest_search (graph m) (driverManager m) pickup in
    match nearestDriver acc with
    | Some d => mkNearestDriverResult d (minDistance acc) (bestPath acc) true
    | None => NearestDriverResult_default
    end.
Proof.
  unfold findNearestDriver, nearest_search.
  destruct (getAvailableDrivers (driverManager m)) as [|d l] eqn:Ea; [done|].
  cbv zeta.
  set (a1 := fold_left _ _ (mkNearestAcc Inf None [] (systemLogs _))).
  set (a2 := fold_left _ _ (mkNearestAcc Inf None [] [])).
  assert (Hcore : acc_core a1 = acc_core a2)
    by (by apply nearest_fold_core).
  injection Hcore as Hm Hn Hb. rewrite <- Hn.
  destruct (nearestDriver a1); simpl; [|done]. by rewrite Hm, Hb.
Qed.

Lemma findNearestDriver_result (pickup : Z) (m1 m2 : RideMatcher) :
  graph m1 = graph m2 -> driverManager m1 = driverManager m2 ->
  fst (findNearestDriver pickup m1) = fst (findNearestDriver pickup m2).
Proof. intros Hg Hd. by rewrite !fst_findNearestDriver, Hg, Hd. Qed.

Lemma nearest_init_ok (g : Graph) (pickup : Z) (logs : list SystemLog) :
  nearest_ok g pickup [] (mkNearestAcc Inf None [] logs).
Proof. split; [done|]. by intros d ?%elem_of_nil. Qed.

Lemma nearest_search_ok (g : Graph) (dm : DriverManager) (pickup : Z) :
  nearest_ok g pickup (getAvailableDrivers dm) (nearest_search g dm pickup).
Proof.
  unfold nearest_search.
  apply (nearest_fold_ok g pickup (getAvailableDrivers dm) []).
  apply nearest_init_ok.
Qed.

Lemma findNearestDriver_found (pickup : Z) (m : RideMatcher) :
  nd_found (fst (findNearestDriver pickup m)) = true ->
  available (driverManager m) (nd_driver (fst (findNearestDriver pickup m))) /\
  found (path_to (graph m) pickup
           (nd_driver (fst (findNearestDriver pickup m)))) = true /\
  nd_distance (fst (findNearestDriver pickup m)) =
    totalDistance (path_to (graph m) pickup
                     (nd_driver (fst (findNearestDriver pickup m)))) /\
  pathToPassenger (fst (findNearestDriver pickup m)) =
    path (path_to (graph m) pickup
            (nd_driver (fst (findNearestDriver pickup m)))) /\
  forall d, available (driverManager m) d ->
            found (path_to (graph m) pickup d) = true ->
            dle (nd_distance (fst (findNearestDriver pickup m)))
                (totalDistance (path_to (graph m) pickup d)).
Proof.
  rewrite fst_findNearestDriver. cbv zeta.
  pose proof (nearest_search_ok (graph m) (driverManager m) pickup) as Hok.
  unfold nearest_ok in Hok.
  destruct (nearestDriver (nearest_search (graph m) (driverManager m) pickup))
    as [best|]; simpl; [|done].
  intros _. destruct Hok as (H1 & H2 & H3 & H4 & H5).
  split_and!; [by apply getAvailableDrivers_spec|done|done|done|].
  intros d Hd. apply H5. by apply getAvailableDrivers_spec.
Qed.

Lemma findNearestDriver_not_found (pickup : Z) (m : RideMatcher) :
  nd_found (fst (findNearestDriver pickup m)) = false ->
  fst (findNearestDriver pickup m) = NearestDriverResult_default /\
  forall d, available (driverManager m) d ->
            found (path_to (graph m) pickup d) = false.
Proof.
  rewrite fst_findNearestDriver. cbv zeta.
  pose proof (nearest_search_ok (graph m) (driverManager m) pickup) as Hok.
  unfold nearest_ok in Hok.
  destruct (nearestDriver (nearest_search (graph m) (driverManager m) pickup))
    as [best|]; simpl; [done|].
  intros _. split; [done|]. destruct Hok as [_ Hnone].
  intros d Hd. apply Hnone. by apply getAvailableDrivers_spec.
Qed.

(** The search writes to the log and to nothing else. *)
Lemma findNearestDriver_state (pickup : Z) (m : RideMatcher) :
  graph (snd (findNearestDriver pickup m)) = graph m /\
  driverManager (snd (findNearestDriver pickup m)) = driverManager m /\
  rideRequestQueue (snd (findNearestDriver pickup m)) = rideRequestQueue m /\
  recentRequests (snd (findNearestDriver pickup m)) = recentRequests m.
Proof.
  unfold findNearestDriver.
  destruct (getAvailableDrivers (driverManager m)); [done|].
  cbv zeta. by destruct (nearestDriver _).
Qed.



(** C3 (amended): the driver that [findNearestDriver] selects is an
    available driver of the registry for whom [findShortestPath] found a
    route to the pickup, and the distance reported for that driver is not
    larger than the distance found for any other available driver with a
    route, whatever the order in which the drivers are visited.  On a
    well-formed graph that distance is the least length of a walk from the
    driver to the pickup, the weights added in double arithmetic, no walk
    from an available driver at a registered location to the pickup has a
    smaller length, and a route is found for a driver exactly when the
    driver's vertex and the pickup are registered locations joined by a
    walk of finite length.  The search finds a driver as soon as one
    available driver has a route, and [processRequest] assigns the driver
    selected. *)
Theorem C3_nearest_driver_global_minimum (m m' : RideMatcher) (pickup : Z)
    (r : NearestDriverResult) :
  findNearestDriver pickup m = (r, m') ->
  (nd_found r = true ->
   available (driverManager m) (nd_driver r) /\
   found (path_to (graph m) pickup (nd_driver r)) = true /\
   nd_distance r = totalDistance (path_to (graph m) pickup (nd_driver r)) /\
   nd_distance r <> Inf /\
   (forall d, available (driverManager m) d ->
      found (path_to (graph m) pickup d) = true ->
      dle (nd_distance r) (totalDistance (path_to (graph m) pickup d))) /\
   (wf_graph (graph m) ->
    shortest_dist (graph m) (currentLocation (nd_driver r)) pickup
      (nd_distance r) /\
    forall d es, available (driverManager m) d ->
      nodeExists (graph m) (currentLocation d) = true ->
      is_walk (graph m) (currentLocation d) es pickup ->
      dle (nd_distance r) (walk_len es))) /\
  (forall d, available (driverManager m) d ->
     found (path_to (graph m) pickup d) = true -> nd_found r = true) /\
  (wf_graph (graph m) ->
   forall d,
     found (path_to (graph m) pickup d) = true <->
     nodeExists (graph m) (currentLocation d) = true /\
     nodeExists (graph m) pickup = true /\
     exists es, is_walk (graph m) (currentLocation d) es pickup /\
                walk_len es <> Inf) /\
  (forall request,
     pickupLocation request = pickup ->
     success (fst (processRequest request m)) = true ->
     assignedDriver (fst (processRequest request m)) = nd_driver r).
Proof.
  intros Hrun.
  assert (r = fst (findNearestDriver pickup m)) as -> by (by rewrite Hrun).
  clear Hrun m'. split_and!.
  - intros Hf.
    destruct (findNearestDriver_found pickup m Hf) as (H1 & H2 & H3 & H4 & H5).
    set (r := fst (findNearestDriver pickup m)) in *.
    destruct (found_nodeExists _ _ _ H2) as [Hs Hp].
    split_and!; [done|done|done| |done|].
    + rewrite H3. by apply found_finite.
    + intros Hwf.
      destruct (findShortestPath_spec (graph m) _ _ Hwf Hs Hp)
        as [[Hn _]|(_ & Hsh & _)].
      { unfold path_to in H2. congruence. }
      split; [by rewrite H3|].
      intros d es Hd Hds Hes.
      destruct (findShortestPath_spec (graph m) _ _ Hwf Hds Hp)
        as [[_ Hnr]|(Hfd & [Hlow _] & _)].
      { rewrite (Hnr es Hes). apply dle_Inf. }
      eapply dle_trans; [by apply (H5 d Hd) | by apply Hlow].
  - intros d Hd Hfd.
    destruct (nd_found (fst (findNearestDriver pickup m))) eqn:E; [done|].
    destruct (findNearestDriver_not_found pickup m E) as [_ Hnone].
    by rewrite (Hnone d Hd) in Hfd.
  - intros Hwf d. by apply found_iff_finite_walk.
  - intros request <-. unfold processRequest.
    set (m0 := logOperation _ (clearLogs m)).
    destruct (negb (nodeExists _ _)); [done|].
    destruct (negb (nodeExists _ _)); [done|].
    destruct (_ =? _); [done|].
    rewrite (surjective_pairing (findNearestDriver _ m0)).
    rewrite (findNearestDriver_result _ m0 m eq_refl eq_refl).
    destruct (negb (nd_found _)); [done|].
    destruct (negb (found _)); [done|].
    by destruct (updateDriverAvailability _ _ _).
Qed.

(** An instance of C3: with a driver at location 1 and one at location 2,
    the search for a pickup at location 3 selects the driver at
    location 2, one unit away. *)
Lemma C3_nearest_driver_global_minimum_witness :
  driver_id (nd_driver (fst (findNearestDriver 3 scenario_matcher))) = "d2" /\
  nd_distance (fst (findNearestDriver 3 scenario_matcher)) = Fin 1 /\
  available (driverManager scenario_matcher)
    (nd_driver (fst (findNearestDriver 3 scenario_matcher))) /\
  forall d, available (driverManager scenario_matcher) d ->
    found (path_to (graph scenario_matcher) 3 d) = true ->
    dle (nd_distance (fst (findNearestDriver 3 scenario_matcher)))
        (totalDistance (path_to (graph scenario_matcher) 3 d)).
Proof.
  assert (Hrun : findNearestDriver 3 scenario_matcher =
                 (fst (findNearestDriver 3 scenario_matcher),
                  snd (findNearestDriver 3 scenario_matcher)))
    by (vm_compute; reflexivity).
  assert (Hf : nd_found (fst (findNearestDriver 3 scenario_matcher)) = true)
    by (vm_compute; reflexivity).
  destruct (C3_nearest_driver_global_minimum scenario_matcher _ 3 _ Hrun)
    as (Hsel & _ & _ & _).
  destruct (Hsel Hf) as (Ha & _ & _ & _ & Hmin & _).
  split; [vm_compute; reflexivity|].
  split; [vm_compute; reflexivity|].
  split; [exact Ha | exact Hmin].
Defined.

(** C3, as stated, fails: vertex 2 has a road of length 1 to the pickup
    at location 0 but was never registered as a location, which [addEdge]
    does not ask for.  [findShortestPath] finds no route from it, and the
    search selects the driver at location 1, at distance 5, although the
    available driver at vertex 2 has a path to the pickup that is
    shorter. *)
Lemma C3_unregistered_driver_counterexample :
  wf_graph (graph outpost_matcher) /\
  available (driverManager outpost_matcher) outpost_far /\
  available (driverManager outpost_matcher) outpost_near /\
  is_walk (graph outpost_matcher) (currentLocation outpost_near)
    [mkEdge 0 (Fin 1) "Track"] 0 /\
  walk_len [mkEdge 0 (Fin 1) "Track"] = Fin 1 /\
  found (path_to (graph outpost_matcher) 0 outpost_near) = false /\
  nd_found (fst (findNearestDriver 0 outpost_matcher)) = true /\
  nd_driver (fst (findNearestDriver 0 outpost_matcher)) = outpost_far /\
  nd_distance (fst (findNearestDriver 0 outpost_matcher)) = Fin 5 /\
  ~ (forall d es,
       available (driverManager outpost_matcher) d ->
       is_walk (graph outpost_matcher) (currentLocation d) es 0 ->
       dle (nd_distance (fst (findNearestDriver 0 outpost_matcher)))
           (walk_len es)).
Proof.
  assert (Hnear : available (driverManager outpost_matcher) outpost_near).
  { exists "d2". split; by vm_compute. }
  assert (Hwalk : is_walk (graph outpost_matcher)
                    (currentLocation outpost_near)
                    [mkEdge 0 (Fin 1) "Track"] 0).
  { split; [|done]. apply has_edge_adj; [by vm_compute|].
    vm_compute. set_solver. }
  assert (Hd : nd_distance (fst (findNearestDriver 0 outpost_matcher)) =
               Fin 5) by (vm_compute; reflexivity).
  split_and!.
  - apply outpost_graph_wf.
  - exists "d1". split; by vm_compute.
  - exact Hnear.
  - exact Hwalk.
  - vm_compute; reflexivity.
  - vm_compute; reflexivity.
  - vm_compute; reflexivity.
  - vm_compute; reflexivity.
  - exact Hd.
  - intros H. specialize (H outpost_near _ Hnear Hwalk).
    rewrite Hd in H. vm_compute in H. discriminate.
Qed.

(** ** [processRequest] *)

Lemma available_lookup (dm : DriverManager) (d : Driver) :
  wf_dm dm -> available dm d -> drivers dm !! driver_id d = Some d.
Proof. intros Hwf (k & Hk & _). by rewrite (Hwf k d Hk). Qed.

Lemma updateDriverAvailability_busy (dm : DriverManager) (d : Driver) :
  wf_dm dm -> available dm d ->
  isAvailable <$>
    drivers (snd (updateDriverAvailability (driver_id d) false dm))
      !! driver_id d = Some false.
Proof.
  intros Hwf Ha. pose proof (available_lookup dm d Hwf Ha) as Hl.
  by rewrite (updateDriverAvailability_lookup _ _ _ _ Hl).
Qed.

(** The five ways in which [processRequest] fails, and its success, in
    the order of the code. *)
Lemma processRequest_cases (request : RideRequest) (m : RideMatcher) :
  let g := graph m in
  let pickup := pickupLocation request in
  let dest := destinationLocation request in
  let near := fst (findNearestDriver pickup m) in
  let route := findShortestPath g pickup dest in
  let r := fst (processRequest request m) in
  let m' := snd (processRequest request m) in
  (nodeExists g pickup = false /\
   r = RideMatchResult_error "Invalid pickup location" /\
   driverManager m' = driverManager m) \/
  (nodeExists g pickup = true /\ nodeExists g dest = false /\
   r = RideMatchResult_error "Invalid destination location" /\
   driverManager m' = driverManager m) \/
  (nodeExists g pickup = true /\ nodeExists g dest = true /\ pickup = dest /\
   r = RideMatchResult_error "Pickup and destination cannot be the same" /\
   driverManager m' = driverManager m) \/
  (nodeExists g pickup = true /\ nodeExists g dest = true /\ pickup <> dest /\
   nd_found near = false /\
   r = RideMatchResult_error "No available drivers found" /\
   driverManager m' = driverManager m) \/
  (nodeExists g pickup = true /\ nodeExists g dest = true /\ pickup <> dest /\
   nd_found near = true /\ found route = false /\
   r = RideMatchResult_error "No route found from pickup to destination" /\
   driverManager m' = driverManager m) \/
  (nodeExists g pickup = true /\ nodeExists g dest = true /\ pickup <> dest /\
   nd_found near = true /\ found route = true /\
   success r = true /\ assignedDriver r = nd_driver near /\
   driverManager m' =
     snd (updateDriverAvailability (driver_id (nd_driver near)) false
            (driverManager m))).
Proof.
  cbv zeta. unfold processRequest.
  set (m0 := logOperation _ (clearLogs m)).
  change (graph m0) with (graph m).
  destruct (nodeExists (graph m) (pickupLocation request)) eqn:Ep; simpl.
  2:{ left. done. }
  right.
  destruct (nodeExists (graph m) (destinationLocation request)) eqn:Ed; simpl.
  2:{ left. done. }
  right.
  destruct (pickupLocation request =? destinationLocation request) eqn:Es.
  { left. apply Z.eqb_eq in Es. done. }
  right. apply Z.eqb_neq in Es.
  rewrite (surjective_pairing (findNearestDriver _ m0)).
  rewrite (findNearestDriver_result _ m0 m eq_refl eq_refl).
  destruct (findNearestDriver_state (pickupLocation request) m0)
    as (Hg & Hdm & _ & _).
  destruct (nd_found (fst (findNearestDriver (pickupLocation request) m)))
    eqn:Ef; simpl.
  2:{ left. done. }
  right. rewrite Hg. change (graph m0) with (graph m).
  destruct (found (findShortestPath (graph m) (pickupLocation request)
                     (destinationLocation request))) eqn:Er; simpl.
  2:{ left. done. }
  right. rewrite Hdm. change (driverManager m0) with (driverManager m).
  destruct (updateDriverAvailability _ _ _) eqn:Eu. simpl.
  split_and!; done.
Qed.

(** C4: [processRequest] marks a driver busy only when the whole match
    succeeds.  Whenever it returns [success = false] the result carries an
    error message and the driver registry is unchanged; this is what
    happens for an unknown pickup, an unknown destination, a pickup equal
    to the destination, a search that finds no driver, and a missing route
    from pickup to destination, also when a nearest driver had already
    been selected.  On success the registry is the old one with the
    availability of the assigned driver set to false. *)
Theorem C4_failure_keeps_registry (m m' : RideMatcher) (request : RideRequest)
    (r : RideMatchResult) :
  processRequest request m = (r, m') ->
  (success r = false ->
   errorMessage r <> EmptyString /\ driverManager m' = driverManager m) /\
  (success r = true ->
   driverManager m' =
     snd (updateDriverAvailability (driver_id (assignedDriver r)) false
            (driverManager m)) /\
   (wf_dm (driverManager m) ->
    available (driverManager m) (assignedDriver r) /\
    isAvailable <$>
      drivers (driverManager m') !! driver_id (assignedDriver r) =
      Some false)) /\
  (nodeExists (graph m) (pickupLocation request) = false ->
   success r = false) /\
  (nodeExists (graph m) (destinationLocation request) = false ->
   success r = false) /\
  (pickupLocation request = destinationLocation request ->
   success r = false) /\
  (nd_found (fst (findNearestDriver (pickupLocation request) m)) = false ->
   success r = false) /\
  (found (findShortestPath (graph m) (pickupLocation request)
            (destinationLocation request)) = false ->
   success r = false) /\
  (nodeExists (graph m) (pickupLocation request) = true ->
   nodeExists (graph m) (destinationLocation request) = true ->
   pickupLocation request <> destinationLocation request ->
   nd_found (fst (findNearestDriver (pickupLocation request) m)) = true ->
   found (findShortestPath (graph m) (pickupLocation request)
            (destinationLocation request)) = false ->
   success r = false /\
   errorMessage r = "No route found from pickup to destination" /\
   driverManager m' = driverManager m /\
   available (driverManager m')
     (nd_driver (fst (findNearestDriver (pickupLocation request) m)))).
Proof.
  intros Hrun.
  assert (r = fst (processRequest request m)) as -> by (by rewrite Hrun).
  assert (m' = snd (processRequest request m)) as -> by (by rewrite Hrun).
  clear Hrun.
  pose proof (processRequest_cases request m) as Hc. cbv zeta in Hc.
  destruct Hc as [(H1 & -> & Hdm) | [(H1 & H2 & -> & Hdm)
                 | [(H1 & H2 & H3 & -> & Hdm) | [(H1 & H2 & H3 & H4 & -> & Hdm)
                 | [(H1 & H2 & H3 & H4 & H5 & -> & Hdm)
                 | (H1 & H2 & H3 & H4 & H5 & H6 & H7 & Hdm)]]]]];
    simpl; try (split_and!; try done; congruence).
  - split_and!; try done; try congruence.
    intros _ _ _ _ _. rewrite Hdm. split_and!; try done.
    by destruct (findNearestDriver_found _ _ H4) as (? & _).
  - rewrite H6. split_and!; try done; try congruence.
    intros _. rewrite H7. split; [done|]. intros Hwf.
    destruct (findNearestDriver_found _ _ H4) as (Ha & _).
    split; [done|]. rewrite Hdm. by apply updateDriverAvailability_busy.
Qed.

(** An instance of C4: a request from location 3 to location 0 in the
    scenario of two drivers. *)
Lemma C4_failure_keeps_registry_witness :
  success (fst (processRequest scenario_request scenario_matcher)) = true /\
  driverManager (snd (processRequest scenario_request scenario_matcher)) =
    snd (updateDriverAvailability
           (driver_id (assignedDriver
              (fst (processRequest scenario_request scenario_matcher))))
           false (driverManager scenario_matcher)).
Proof.
  assert (Hrun : processRequest scenario_request scenario_matcher =
                 (fst (processRequest scenario_request scenario_matcher),
                  snd (processRequest scenario_request scenario_matcher)))
    by (vm_compute; reflexivity).
  assert (Hs : success (fst (processRequest scenario_request
                               scenario_matcher)) = true)
    by (vm_compute; reflexivity).
  destruct (C4_failure_keeps_registry _ _ _ _ Hrun) as (_ & Hok & _).
  destruct (Hok Hs) as [Hdm _].
  exact (conj Hs Hdm).
Defined.





(** ** [findRide] *)

(** C9: [findRide] does not validate the request.  When the pickup is a
    registered location, the destination is the same location and some
    available driver has a route to it, [findRide] succeeds with
    [distanceToDestination = 0] and the one-vertex path from pickup to
    destination, and the driver selected, who was available, is marked
    unavailable; [processRequest] rejects the same request with "Pickup and
    destination cannot be the same". *)
Theorem C9_findRide_same_location (m m' : RideMatcher) (request : RideRequest)
    (r : RideMatch) :
  wf_graph (graph m) -> wf_dm (driverManager m) ->
  nodeExists (graph m) (pickupLocation request) = true ->
  destinationLocation request = pickupLocation request ->
  (exists d, available (driverManager m) d /\
             found (path_to (graph m) (pickupLocation request) d) = true) ->
  findRide request m = (r, m') ->
  rm_success r = true /\
  distanceToDestination r = Fin 0 /\
  pathToDestination r = [pickupLocation request] /\
  available (driverManager m) (rm_driver r) /\
  isAvailable <$> drivers (driverManager m') !! driver_id (rm_driver r) =
    Some false /\
  success (fst (processRequest request m)) = false /\
  errorMessage (fst (processRequest request m)) =
    "Pickup and destination cannot be the same".
Proof.
  intros Hwf Hdm Hp Hsame (d & Hd & Hfd) Hrun.
  assert (Hf : nd_found (fst (findNearestDriver (pickupLocation request) m))
               = true).
  { destruct (nd_found _) eqn:E; [done|].
    destruct (findNearestDriver_not_found _ _ E) as [_ Hnone].
    by rewrite (Hnone d Hd) in Hfd. }
  destruct (findNearestDriver_found _ _ Hf) as (Ha & Hfa & _).
  destruct (findNearestDriver_state (pickupLocation request) m)
    as (Hg & Hdm' & _ & _).
  destruct (findShortestPath_self (graph m) _ Hwf Hp) as (Hs1 & Hs2 & Hs3).
  unfold findRide in Hrun.
  rewrite (surjective_pairing (findNearestDriver _ m)) in Hrun.
  rewrite Hf, Hg, Hdm', Hsame in Hrun. simpl in Hrun.
  unfold path_to in Hfa. rewrite Hfa, Hs1 in Hrun. simpl in Hrun.
  destruct (updateDriverAvailability _ _ _) as [b dm1] eqn:Eu.
  injection Hrun as <- <-. simpl.
  split_and!; [done|done|done|done| |  |].
  - replace dm1 with (snd (updateDriverAvailability
      (driver_id (nd_driver (fst (findNearestDriver (pickupLocation request) m))))
      false (driverManager m))) by (by rewrite Eu).
    by apply updateDriverAvailability_busy.
  - pose proof (processRequest_cases request m) as Hc. cbv zeta in Hc.
    destruct Hc as [(H1 & -> & _) | [(_ & _ & -> & _) | [(_ & _ & _ & -> & _)
      | [(_ & _ & H3 & _) | [(_ & _ & H3 & _) | (_ & _ & H3 & _)]]]]];
      try done; congruence.
  - pose proof (processRequest_cases request m) as Hc. cbv zeta in Hc.
    destruct Hc as [(H1 & _) | [(_ & H2 & _) | [(_ & _ & _ & -> & _)
      | [(_ & _ & H3 & _) | [(_ & _ & H3 & _) | (_ & _ & H3 & _)]]]]];
      try done; congruence.
Qed.

(** An instance of C9: pickup and destination at location 3 of the
    scenario of two drivers. *)
Lemma C9_findRide_same_location_witness :
  rm_success (fst (findRide same_place_request scenario_matcher)) = true /\
  distanceToDestination (fst (findRide same_place_request scenario_matcher))
    = Fin 0 /\
  pathToDestination (fst (findRide same_place_request scenario_matcher))
    = [3] /\
  isAvailable <$>
    drivers (driverManager (snd (findRide same_place_request scenario_matcher)))
      !! driver_id (rm_driver (fst (findRide same_place_request
                                      scenario_matcher))) = Some false.
Proof.
  destruct (C9_findRide_same_location scenario_matcher
              (snd (findRide same_place_request scenario_matcher))
              same_place_request
              (fst (findRide same_place_request scenario_matcher)))
    as (H1 & H2 & H3 & _ & H5 & _).
  - apply check_graph_wf. vm_compute. reflexivity.
  - apply check_dm_wf. vm_compute. reflexivity.
  - vm_compute. reflexivity.
  - reflexivity.
  - exists (Driver_new "d2" "Bo" 2 "Sedan" 5). split.
    + exists "d2"%string. split; vm_compute; reflexivity.
    + vm_compute. reflexivity.
  - vm_compute. reflexivity.
  - exact (conj H1 (conj H2 (conj H3 H5))).
Defined.


(** ** The sliding window *)

Lemma evict_oldest_last_n (l : list RideRequest) :
  evict_oldest l = last_n SLIDING_WINDOW_SIZE l.
Proof.
  unfold last_n. induction l as [|x l IH]; [done|].
  cbn [evict_oldest].
  destruct (SLIDING_WINDOW_SIZE <? length (x :: l))%nat eqn:E.
  - apply Nat.ltb_lt in E. rewrite IH. rewrite length_cons in E |- *.
    unfold SLIDING_WINDOW_SIZE in *.
    replace (S (length l) - 20)%nat with (S (length l - 20)) by lia. done.
  - apply Nat.ltb_ge in E.
    replace (length (x :: l) - SLIDING_WINDOW_SIZE)%nat with 0%nat by lia.
    done.
Qed.

Lemma length_last_n {A} (n : nat) (l : list A) :
  length (last_n n l) = Nat.min n (length l).
Proof. unfold last_n. rewrite length_drop. lia. Qed.

Lemma last_n_short {A} (n : nat) (l : list A) :
  (length l <= n)%nat -> last_n n l = l.
Proof.
  intros H. unfold last_n. by replace (length l - n)%nat with 0%nat by lia.
Qed.

Lemma last_n_snoc {A} (n : nat) (l : list A) (x : A) :
  (0 < n)%nat -> last_n n (last_n n l ++ [x]) = last_n n (l ++ [x]).
Proof.
  intros Hn. destruct (decide (length l <= n)%nat) as [Hle|Hgt].
  { by rewrite (last_n_short n l Hle). }
  unfold last_n at 1 3. rewrite !length_app, length_last_n. simpl.
  replace (Nat.min n (length l) + 1 - n)%nat with 1%nat by lia.
  unfold last_n.
  rewrite drop_app_le by (rewrite length_drop; lia).
  rewrite drop_drop.
  rewrite drop_app_le by lia.
  by replace (length l - n + 1)%nat with (length l + 1 - n)%nat by lia.
Qed.

Lemma last_n_app {A} (n : nat) (l k : list A) :
  (0 < n)%nat -> last_n n (last_n n l ++ k) = last_n n (l ++ k).
Proof.
  intros Hn. induction k as [|y k IH] using rev_ind.
  - rewrite !app_nil_r. apply last_n_short. rewrite length_last_n. lia.
  - rewrite !app_assoc. rewrite <- (last_n_snoc n (last_n n l ++ k)) by done.
    rewrite IH. by apply last_n_snoc.
Qed.

Lemma recentRequests_addRideRequest (request : RideRequest) (m : RideMatcher) :
  recentRequests (addRideRequest request m) =
    last_n SLIDING_WINDOW_SIZE (recentRequests m ++ [request]).
Proof. unfold addRideRequest. simpl. apply evict_oldest_last_n. Qed.

Lemma recentRequests_processRequest (request : RideRequest) (m : RideMatcher) :
  recentRequests (snd (processRequest request m)) = recentRequests m.
Proof.
  unfold processRequest.
  set (m0 := logOperation _ (clearLogs m)).
  destruct (negb (nodeExists _ _)); [done|].
  destruct (negb (nodeExists _ _)); [done|].
  destruct (_ =? _); [done|].
  rewrite (surjective_pairing (findNearestDriver _ m0)).
  destruct (findNearestDriver_state (pickupLocation request) m0)
    as (_ & _ & _ & Hw).
  destruct (negb (nd_found _)); [simpl; by rewrite Hw|].
  destruct (negb (found _)); [simpl; by rewrite Hw|].
  destruct (updateDriverAvailability _ _ _). simpl. by rewrite Hw.
Qed.

Lemma recentRequests_findRide (request : RideRequest) (m : RideMatcher) :
  recentRequests (snd (findRide request m)) = recentRequests m.
Proof.
  unfold findRide.
  rewrite (surjective_pairing (findNearestDriver _ m)).
  destruct (findNearestDriver_state (pickupLocation request) m)
    as (_ & _ & _ & Hw).
  destruct (negb (nd_found _)); [done|].
  destruct (negb (found _) || negb (found _)); [done|].
  destruct (updateDriverAvailability _ _ _). simpl. by rewrite Hw.
Qed.

Lemma recentRequests_apply (m : RideMatcher) (op : MatcherOp) :
  recentRequests (apply_matcher_op m op) =
    match op with
    | MAddRideRequest request =>
        last_n SLIDING_WINDOW_SIZE (recentRequests m ++ [request])
    | _ => recentRequests m
    end.
Proof.
  destruct op; simpl; try done.
  - apply recentRequests_addRideRequest.
  - unfold processNextRequest. destruct (rideRequestQueue m); [done|].
    by rewrite recentRequests_processRequest.
  - apply recentRequests_processRequest.
  - apply recentRequests_findRide.
Qed.

(** The window is always made of the last twenty requests enqueued. *)
Lemma recentRequests_run (ops : list MatcherOp) (m : RideMatcher) :
  (length (recentRequests m) <= SLIDING_WINDOW_SIZE)%nat ->
  recentRequests (run_matcher ops m) =
    last_n SLIDING_WINDOW_SIZE (recentRequests m ++ enqueued ops).
Proof.
  unfold run_matcher. revert m.
  induction ops as [|op ops IH]; intros m Hlen; simpl.
  - rewrite app_nil_r. by rewrite last_n_short.
  - rewrite IH.
    2:{ rewrite recentRequests_apply. destruct op; try done.
        rewrite length_last_n. lia. }
    rewrite recentRequests_apply. destruct op; try done.
    rewrite last_n_app by (unfold SLIDING_WINDOW_SIZE; lia).
    by rewrite <- app_assoc.
Qed.

Lemma enqueue_all_run (reqs : list RideRequest) (m : RideMatcher) :
  enqueue_all reqs m = run_matcher (MAddRideRequest <$> reqs) m /\
  enqueued (MAddRideRequest <$> reqs) = reqs.
Proof.
  unfold enqueue_all, run_matcher. split.
  - revert m. induction reqs as [|r reqs IH]; intros m; simpl; [done|].
    apply IH.
  - induction reqs as [|r reqs IH]; [done|].
    rewrite fmap_cons. cbn [enqueued]. by rewrite IH.
Qed.

Lemma totalRequests_analyzeDemand (m : RideMatcher) :
  totalRequests (analyzeDemand m) = Z.of_nat (length (recentRequests m)).
Proof. unfold analyzeDemand. by destruct (recentRequests m). Qed.

(** C6: whatever operations are applied to a new matcher, the window holds
    at most 20 requests, namely the last 20 requests enqueued in the order
    in which they were enqueued, so what leaves the window is always its
    oldest entry; other operations do not touch the window.  After 25
    requests enqueued one after the other, [analyzeDemand().totalRequests]
    is 20 and the window holds the 20 requests enqueued last. *)
Theorem C6_sliding_window_bound :
  (forall g ops,
     (length (recentRequests (run_matcher ops (RideMatcher_new g))) <= 20)%nat /\
     recentRequests (run_matcher ops (RideMatcher_new g)) =
       last_n 20 (enqueued ops) /\
     totalRequests (analyzeDemand (run_matcher ops (RideMatcher_new g))) =
       Z.of_nat (Nat.min 20 (length (enqueued ops)))) /\
  (forall m request,
     recentRequests (addRideRequest request m) =
       if (20 <=? length (recentRequests m))%nat
       then drop (length (recentRequests m) - 19) (recentRequests m)
            ++ [request]
       else recentRequests m ++ [request]) /\
  (forall g reqs,
     length reqs = 25%nat ->
     totalRequests (analyzeDemand (enqueue_all reqs (RideMatcher_new g))) = 20 /\
     recentRequests (enqueue_all reqs (RideMatcher_new g)) = drop 5 reqs).
Proof.
  assert (Hrun : forall g ops,
    recentRequests (run_matcher ops (RideMatcher_new g)) =
      last_n 20 (enqueued ops)).
  { intros g ops. rewrite recentRequests_run; [done|]. simpl.
    unfold SLIDING_WINDOW_SIZE. lia. }
  split_and!.
  - intros g ops. rewrite totalRequests_analyzeDemand, Hrun, length_last_n.
    split_and!; [lia | done | done].
  - intros m request. rewrite recentRequests_addRideRequest.
    destruct (20 <=? length (recentRequests m))%nat eqn:E.
    + apply Nat.leb_le in E. unfold last_n, SLIDING_WINDOW_SIZE.
      rewrite length_app. cbn [length]. rewrite drop_app_le by lia.
      do 2 f_equal. lia.
    + apply Nat.leb_gt in E. apply last_n_short.
      rewrite length_app. cbn [length]. unfold SLIDING_WINDOW_SIZE. lia.
  - intros g reqs Hlen.
    destruct (enqueue_all_run reqs (RideMatcher_new g)) as [-> Henq].
    rewrite totalRequests_analyzeDemand, Hrun, Henq, length_last_n, Hlen.
    split; [done|]. unfold last_n. by rewrite Hlen.
Qed.

(** An instance of C6: twenty-five requests enqueued on the scenario. *)
Lemma C6_sliding_window_bound_witness :
  totalRequests
    (analyzeDemand
       (enqueue_all (replicate 25 scenario_request)
                    (RideMatcher_new scenario_graph))) = 20.
Proof.
  destruct C6_sliding_window_bound as (_ & _ & H).
  destruct (H scenario_graph (replicate 25 scenario_request)) as [Ht _].
  - vm_compute. reflexivity.
  - exact Ht.
Defined.

(** ** Counting the pickups of the window *)

Lemma frequency_nil (loc : Z) : frequency [] loc = 0.
Proof. reflexivity. Qed.

Lemma frequency_cons (p : Z) (l : list Z) (loc : Z) :
  frequency (p :: l) loc =
    (if decide (p = loc) then 1 else 0) + frequency l loc.
Proof.
  unfold frequency. case_decide as E.
  - rewrite filter_cons_True by done. rewrite length_cons. lia.
  - rewrite filter_cons_False by done. lia.
Qed.

Lemma frequency_nonneg (l : list Z) (loc : Z) : 0 <= frequency l loc.
Proof. unfold frequency. lia. Qed.

Lemma count_pickup_fold (w : list RideRequest) (f : gmap Z Z) :
  fold_left count_pickup w f =
    fold_left count_location (pickupLocation <$> w) f.
Proof.
  revert f. induction w as [|r w IH]; intros f; simpl; [done|]. apply IH.
Qed.

Lemma count_location_fold (l : list Z) (f : gmap Z Z) (loc : Z) :
  fold_left count_location l f !! loc =
    if decide (frequency l loc = 0) then f !! loc
    else Some (default 0 (f !! loc) + frequency l loc).
Proof.
  revert f. induction l as [|p l IH]; intros f.
  - cbn [fold_left]. rewrite frequency_nil. by rewrite decide_True.
  - cbn [fold_left]. rewrite IH, frequency_cons.
    pose proof (frequency_nonneg l loc) as Hnn.
    unfold count_location. destruct (decide (p = loc)) as [->|Hne].
    + rewrite lookup_insert_eq. simpl.
      rewrite (decide_False (P := 1 + frequency l loc = 0)) by lia.
      case_decide as E; [rewrite E|]; f_equal; lia.
    + rewrite lookup_insert_ne by done. simpl. done.
Qed.

Lemma location_frequency_lookup (m : RideMatcher) (loc c : Z) :
  location_frequency m !! loc = Some c <->
  c = window_frequency m loc /\ 0 < c.
Proof.
  unfold location_frequency, window_frequency, window_pickups.
  rewrite count_pickup_fold, count_location_fold, lookup_empty. simpl.
  pose proof (frequency_nonneg (pickupLocation <$> recentRequests m) loc).
  case_decide as E; split.
  - done.
  - intros [-> ?]. lia.
  - intros [= <-]. lia.
  - intros [-> _]. done.
Qed.

(** ** [std::sort] *)

Lemma sort_insert_perm {A} (comp : A -> A -> bool) (x : A) (l : list A) :
  sort_insert comp x l ≡ₚ x :: l.
Proof.
  induction l as [|y l IH]; simpl; [done|].
  destruct (comp x y); [done|]. rewrite IH. apply perm_swap.
Qed.

Lemma std_sort_fold_perm {A} (comp : A -> A -> bool) (l acc : list A) :
  fold_left (fun sorted x => sort_insert comp x sorted) l acc ≡ₚ acc ++ l.
Proof.
  revert acc. induction l as [|x l IH]; intros acc; simpl.
  - by rewrite app_nil_r.
  - rewrite IH, sort_insert_perm. by rewrite (Permutation_middle acc l x).
Qed.

Lemma std_sort_perm {A} (comp : A -> A -> bool) (l : list A) :
  std_sort comp l ≡ₚ l.
Proof. unfold std_sort. by rewrite std_sort_fold_perm. Qed.

Lemma sort_insert_sorted (x : Z * Z) (l : list (Z * Z)) :
  StronglySorted by_count_desc l ->
  StronglySorted by_count_desc (sort_insert by_frequency_desc x l).
Proof.
  induction 1 as [|y l Hs IH Hy]; simpl.
  - repeat constructor.
  - unfold by_frequency_desc at 1. destruct (snd y <? snd x) eqn:E.
    + apply Z.ltb_lt in E. constructor; [by constructor|].
      constructor; [unfold by_count_desc; lia|].
      eapply Forall_impl; [exact Hy|]. unfold by_count_desc. intros z. lia.
    + apply Z.ltb_ge in E. constructor; [done|].
      rewrite sort_insert_perm. constructor; [exact E | done].
Qed.

Lemma std_sort_sorted (l : list (Z * Z)) :
  StronglySorted by_count_desc (std_sort by_frequency_desc l).
Proof.
  unfold std_sort.
  assert (H : StronglySorted by_count_desc []) by constructor.
  revert H. generalize (@nil (Z * Z)) as acc.
  induction l as [|x l IH]; intros acc Hacc; simpl; [done|].
  apply IH. by apply sort_insert_sorted.
Qed.

Lemma StronglySorted_lookup {A} (R : A -> A -> Prop) (l : list A)
    (i j : nat) (a b : A) :
  StronglySorted R l -> (i < j)%nat -> l !! i = Some a -> l !! j = Some b ->
  R a b.
Proof.
  intros Hs. revert i j. induction Hs as [|x l Hs IH Hx]; intros i j Hij Ha Hb.
  - done.
  - destruct j as [|j]; [lia|]. destruct i as [|i]; simpl in *.
    + simplify_eq. rewrite Forall_forall in Hx. apply Hx.
      apply list_elem_of_lookup. eauto.
    + apply (IH i j); [lia | done | done].
Qed.

(** ** [analyzeDemand] *)

Lemma hotspots_analyzeDemand (m : RideMatcher) :
  hotspots (analyzeDemand m) = fst <$> take 3 (sorted_locations m).
Proof.
  unfold analyzeDemand, sorted_locations, location_frequency.
  destruct (recentRequests m) eqn:E; [|done].
  simpl. unfold unordered_iter. by rewrite map_to_list_empty.
Qed.

Lemma sorted_locations_elem (m : RideMatcher) (loc c : Z) :
  (loc, c) ∈ sorted_locations m <->
  c = window_frequency m loc /\ 0 < c.
Proof.
  unfold sorted_locations, unordered_iter.
  rewrite std_sort_perm, elem_of_map_to_list.
  apply location_frequency_lookup.
Qed.

Lemma sorted_locations_NoDup (m : RideMatcher) :
  NoDup (fst <$> sorted_locations m).
Proof.
  unfold sorted_locations, unordered_iter. rewrite std_sort_perm.
  apply NoDup_fst_map_to_list.
Qed.

Lemma hotspots_lookup (m : RideMatcher) (i : nat) (loc : Z) :
  hotspots (analyzeDemand m) !! i = Some loc <->
  (i < 3)%nat /\
  sorted_locations m !! i = Some (loc, window_frequency m loc) /\
  0 < window_frequency m loc.
Proof.
  rewrite hotspots_analyzeDemand, list_lookup_fmap. split.
  - destruct (take 3 (sorted_locations m) !! i) as [[l c]|] eqn:E; [|done].
    simpl. intros [= ->]. apply lookup_take_Some in E as [E Hi].
    assert (Hin : (loc, c) ∈ sorted_locations m)
      by (apply list_elem_of_lookup; eauto).
    apply sorted_locations_elem in Hin as [-> Hc]. done.
  - intros (Hi & E & _). rewrite lookup_take_lt by done. by rewrite E.
Qed.

Lemma frequency_pos (l : list Z) (loc : Z) :
  0 < frequency l loc <-> loc ∈ l.
Proof.
  induction l as [|p l IH].
  - rewrite frequency_nil. split; [lia | by intros ?%elem_of_nil].
  - rewrite frequency_cons, elem_of_cons.
    pose proof (frequency_nonneg l loc). case_decide as E.
    + split; [by left | lia].
    + split; [intros H1; right; apply IH; lia|].
      intros [->|Hin]; [done|]. apply IH in Hin. lia.
Qed.

(** [sortedLocations] has one entry per pickup location of the window. *)
Lemma sorted_locations_length (m : RideMatcher) :
  length (sorted_locations m) = length (remove_dups (window_pickups m)).
Proof.
  rewrite <- (length_fmap fst). apply Permutation_length.
  apply NoDup_Permutation;
    [apply sorted_locations_NoDup | apply NoDup_remove_dups |].
  intros loc. rewrite elem_of_remove_dups, list_elem_of_fmap. split.
  - intros ([l c] & -> & Hin). apply sorted_locations_elem in Hin as [-> Hc].
    simpl. by apply frequency_pos.
  - intros Hin. exists (loc, window_frequency m loc). split; [done|].
    apply sorted_locations_elem. split; [done|]. by apply frequency_pos.
Qed.

(** C8: [analyzeDemand] returns the three most frequent pickup locations
    of the window, or all of them when the window has fewer than three
    different ones: the hotspots are all different, each is the pickup of
    a request of the window, their number is the smaller of 3 and the
    number of different pickup locations in the window, they are listed by
    frequency in the window, highest first, and a location of the window
    is left out only when three are listed, none of them less frequent
    than it.  The list is a function of the pickup locations of the
    window: two matchers whose windows hold the same pickups in the same
    order return the same hotspots in the same order. *)
Theorem C8_hotspots_ranked :
  (forall m,
     (length (hotspots (analyzeDemand m)) <= 3)%nat /\
     NoDup (hotspots (analyzeDemand m)) /\
     (forall loc, loc ∈ hotspots (analyzeDemand m) ->
        0 < window_frequency m loc) /\
     (forall i j a b, (i < j)%nat ->
        hotspots (analyzeDemand m) !! i = Some a ->
        hotspots (analyzeDemand m) !! j = Some b ->
        window_frequency m b <= window_frequency m a) /\
     length (hotspots (analyzeDemand m)) =
       (3 `min` length (remove_dups (window_pickups m)))%nat /\
     (forall loc, loc ∈ window_pickups m ->
        loc ∉ hotspots (analyzeDemand m) ->
        length (hotspots (analyzeDemand m)) = 3%nat /\
        forall h, h ∈ hotspots (analyzeDemand m) ->
          window_frequency m loc <= window_frequency m h)) /\
  (forall m1 m2,
     window_pickups m1 = window_pickups m2 ->
     hotspots (analyzeDemand m1) = hotspots (analyzeDemand m2)).
Proof.
  split.
  - intros m. split_and!.
    + rewrite hotspots_analyzeDemand, length_fmap, length_take.
      apply Nat.le_min_l.
    + rewrite hotspots_analyzeDemand, fmap_take.
      eapply sublist_NoDup; [apply sorted_locations_NoDup|apply sublist_take].
    + intros loc [i Hi]%list_elem_of_lookup.
      by apply hotspots_lookup in Hi as (_ & _ & ?).
    + intros i j a b Hij Ha Hb.
      apply hotspots_lookup in Ha as (_ & Ha & _).
      apply hotspots_lookup in Hb as (_ & Hb & _).
      exact (StronglySorted_lookup _ _ _ _ _ _
               (std_sort_sorted _) Hij Ha Hb).
    + rewrite hotspots_analyzeDemand, length_fmap, length_take.
      by rewrite sorted_locations_length.
    + intros loc Hloc Hout. apply frequency_pos in Hloc.
      assert (Hin : (loc, window_frequency m loc) ∈ sorted_locations m)
        by (by apply sorted_locations_elem).
      apply list_elem_of_lookup in Hin as [j Hj].
      assert (Hj3 : (3 <= j)%nat).
      { destruct (decide (j < 3)%nat) as [Hlt|]; [|lia].
        exfalso. apply Hout. apply list_elem_of_lookup. exists j.
        by apply hotspots_lookup. }
      split.
      * rewrite hotspots_analyzeDemand, length_fmap, length_take.
        pose proof (lookup_lt_Some _ _ _ Hj) as Hjl.
        apply Nat.min_l. lia.
      * intros h [i Hi]%list_elem_of_lookup.
        apply hotspots_lookup in Hi as (Hi3 & Hi & _).
        assert (Hij : (i < j)%nat) by lia.
        exact (StronglySorted_lookup _ _ _ _ _ _
                 (std_sort_sorted _) Hij Hi Hj).
  - intros m1 m2 Hw. rewrite !hotspots_analyzeDemand.
    unfold sorted_locations, location_frequency.
    rewrite !count_pickup_fold. unfold window_pickups in Hw. by rewrite Hw.
Qed.

(** An instance of C8: two windows with the pickups 1, 2, 1, 3, 2, 1, 0,
    built from different requests on matchers in different states, and a
    window of twenty requests at location 2. *)
Lemma C8_hotspots_ranked_witness :
  hotspots (analyzeDemand busy_matcher) =
    hotspots (analyzeDemand busy_matcher_again) /\
  take 2 (hotspots (analyzeDemand busy_matcher)) = [1; 2] /\
  length (hotspots (analyzeDemand busy_matcher)) = 3%nat /\
  hotspots (analyzeDemand crowded_matcher) = [2].
Proof.
  split.
  - apply (proj2 C8_hotspots_ranked busy_matcher busy_matcher_again).
    vm_compute. reflexivity.
  - split_and!; vm_compute; reflexivity.
Defined.

(** C10: whatever operations were applied to a matcher, the statistics
    that [analyzeDemand] returns have [successfulMatches = 0],
    [failedMatches = 0] and [avgWaitTime = 0]: the fields keep the values
    of the constructor of [DemandStats]. *)
Theorem C10_match_counters_stay_zero (ops : list MatcherOp) (m : RideMatcher) :
  successfulMatches (analyzeDemand (run_matcher ops m)) = 0 /\
  failedMatches (analyzeDemand (run_matcher ops m)) = 0 /\
  avgWaitTime (analyzeDemand (run_matcher ops m)) = Fin 0.
Proof.
  unfold analyzeDemand. by destruct (recentRequests (run_matcher ops m)).
Qed.

(** ** The well-formedness assumptions hold in every reachable state *)

Lemma graph_built_wf (g : Graph) : graph_built g -> wf_graph g.
Proof.
  induction 1.
  - by eapply Graph_new_wf.
  - by eapply addEdge_wf.
  - by eapply addDirectedEdge_wf.
  - by eapply addNode_wf.
Qed.

Lemma DriverManager_new_wf : wf_dm DriverManager_new.
Proof. intros k d H. simpl in H. by rewrite lookup_empty in H. Qed.

Lemma dm_addDriver_wf (driver : Driver) (dm : DriverManager) :
  wf_dm dm -> wf_dm (snd (dm_addDriver driver dm)).
Proof.
  intros Hwf. unfold dm_addDriver.
  destruct (drivers dm !! driver_id driver) as [d0|] eqn:E; simpl; [done|].
  intros k d. simpl. rewrite lookup_insert_Some.
  intros [[<- <-]|[_ H]]; [done | by apply Hwf].
Qed.

Lemma removeDriver_wf (driverId : string) (dm : DriverManager) :
  wf_dm dm -> wf_dm (snd (removeDriver driverId dm)).
Proof.
  intros Hwf. unfold removeDriver.
  destruct (drivers dm !! driverId) as [d0|] eqn:E; simpl; [|done].
  intros k d. simpl. rewrite lookup_delete_Some. intros [_ H]. by apply Hwf.
Qed.

Lemma dm_updateDriverLocation_wf (driverId : string) (loc : Z)
    (dm : DriverManager) :
  wf_dm dm -> wf_dm (snd (dm_updateDriverLocation driverId loc dm)).
Proof.
  intros Hwf. unfold dm_updateDriverLocation.
  destruct (drivers dm !! driverId) as [d0|] eqn:E; simpl; [|done].
  intros k d. simpl. rewrite lookup_insert_Some.
  intros [[<- <-]|[_ H]]; [simpl; by apply Hwf | by apply Hwf].
Qed.

Lemma updateDriverAvailability_wf (driverId : string) (b : bool)
    (dm : DriverManager) :
  wf_dm dm -> wf_dm (snd (updateDriverAvailability driverId b dm)).
Proof.
  intros Hwf. unfold updateDriverAvailability.
  destruct (drivers dm !! driverId) as [d0|] eqn:E; simpl; [|done].
  intros k d. simpl. rewrite lookup_insert_Some.
  intros [[<- <-]|[_ H]]; [simpl; by apply Hwf | by apply Hwf].
Qed.

Lemma processRequest_wf_dm (request : RideRequest) (m : RideMatcher) :
  wf_dm (driverManager m) ->
  wf_dm (driverManager (snd (processRequest request m))).
Proof.
  intros Hwf. pose proof (processRequest_cases request m) as Hc.
  cbv zeta in Hc.
  destruct Hc as [(_ & _ & ->) | [(_ & _ & _ & ->) | [(_ & _ & _ & _ & ->)
    | [(_ & _ & _ & _ & _ & ->) | [(_ & _ & _ & _ & _ & _ & ->)
    | (_ & _ & _ & _ & _ & _ & _ & ->)]]]]]; try done.
  by apply updateDriverAvailability_wf.
Qed.

Lemma findRide_wf_dm (request : RideRequest) (m : RideMatcher) :
  wf_dm (driverManager m) ->
  wf_dm (driverManager (snd (findRide request m))).
Proof.
  intros Hwf. unfold findRide.
  rewrite (surjective_pairing (findNearestDriver _ m)).
  destruct (findNearestDriver_state (pickupLocation request) m)
    as (_ & Hdm & _ & _).
  destruct (negb (nd_found _)); [simpl; by rewrite Hdm|].
  destruct (negb (found _) || negb (found _)); [simpl; by rewrite Hdm|].
  rewrite Hdm.
  pose proof (updateDriverAvailability_wf
    (driver_id (nd_driver (fst (findNearestDriver (pickupLocation request) m))))
    false (driverManager m) Hwf) as H.
  by destruct (updateDriverAvailability _ _ _).
Qed.

Lemma apply_matcher_op_wf_dm (m : RideMatcher) (op : MatcherOp) :
  wf_dm (driverManager m) -> wf_dm (driverManager (apply_matcher_op m op)).
Proof.
  intros Hwf. destruct op; simpl; try done.
  - unfold processNextRequest. destruct (rideRequestQueue m); [done|].
    by apply processRequest_wf_dm.
  - by apply processRequest_wf_dm.
  - by apply findRide_wf_dm.
  - by apply dm_addDriver_wf.
  - by apply dm_updateDriverLocation_wf.
  - by apply updateDriverAvailability_wf.
Qed.

Lemma run_matcher_wf_dm (ops : list MatcherOp) (g : Graph) :
  wf_dm (driverManager (run_matcher ops (RideMatcher_new g))).
Proof.
  unfold run_matcher.
  assert (H : wf_dm (driverManager (RideMatcher_new g)))
    by apply DriverManager_new_wf.
  revert H. generalize (RideMatcher_new g) as m.
  induction ops as [|op ops IH]; intros m Hm; simpl; [done|].
  apply IH. by apply apply_matcher_op_wf_dm.
Qed.

Lemma processRequest_graph (request : RideRequest) (m : RideMatcher) :
  graph (snd (processRequest request m)) = graph m.
Proof.
  unfold processRequest.
  set (m0 := logOperation _ (clearLogs m)).
  destruct (negb (nodeExists _ _)); [done|].
  destruct (negb (nodeExists _ _)); [done|].
  destruct (_ =? _); [done|].
  rewrite (surjective_pairing (findNearestDriver _ m0)).
  destruct (findNearestDriver_state (pickupLocation request) m0) as (Hg & _).
  destruct (negb (nd_found _)); [done|].
  destruct (negb (found _)); [done|].
  by destruct (updateDriverAvailability _ _ _).
Qed.

Lemma findRide_graph (request : RideRequest) (m : RideMatcher) :
  graph (snd (findRide request m)) = graph m.
Proof.
  unfold findRide.
  rewrite (surjective_pairing (findNearestDriver _ m)).
  destruct (findNearestDriver_state (pickupLocation request) m) as (Hg & _).
  destruct (negb (nd_found _)); [done|].
  destruct (negb (found _) || negb (found _)); [done|].
  by destruct (updateDriverAvailability _ _ _).
Qed.

Lemma apply_matcher_op_graph (m : RideMatcher) (op : MatcherOp) :
  graph (apply_matcher_op m op) = graph m.
Proof.
  destruct op; simpl; try done.
  - unfold processNextRequest. destruct (rideRequestQueue m); [done|].
    by rewrite processRequest_graph.
  - apply processRequest_graph.
  - apply findRide_graph.
Qed.

(** The graph of a matcher never changes. *)
Lemma run_matcher_graph (ops : list MatcherOp) (m : RideMatcher) :
  graph (run_matcher ops m) = graph m.
Proof.
  unfold run_matcher. revert m.
  induction ops as [|op ops IH]; intros m; simpl; [done|].
  by rewrite IH, apply_matcher_op_graph.
Qed.

(** ** The heap as a priority queue *)

Lemma drain_spec (fuel : nat) (h : MinHeap) :
  heap_inv h -> (length (heap h) <= fuel)%nat ->
  drain fuel h ≡ₚ heap h /\ StronglySorted by_distance (drain fuel h).
Proof.
  revert h. induction fuel as [|fuel IH]; intros h Hinv Hlen.
  - destruct (heap h) eqn:Hh; [|simpl in Hlen; lia].
    simpl. split; [done | constructor].
  - simpl. destruct (isEmpty h) eqn:He.
    + apply isEmpty_true in He. rewrite He. split; [done | constructor].
    + destruct (extractMin_spec h Hinv He) as (Hmin & Hinv' & Hperm).
      assert (Hl : length (heap h) =
                   S (length (heap (snd (extractMin h))))).
      { rewrite Hperm. done. }
      destruct (IH (snd (extractMin h)) Hinv' ltac:(lia)) as [Hp Hs].
      split.
      * rewrite Hperm. by constructor.
      * constructor; [done|].
        apply Forall_forall. intros x Hx.
        apply Hmin. rewrite Hperm. right. by rewrite <- Hp.
Qed.

(** X1.  Emptying a heap with [extractMin] returns every stored entry
    exactly once, in order of non-decreasing distance, for every heap
    reached from the empty one by [insert] calls for vertices not in the
    heap, [extractMin] calls and [decreaseKey] calls that do not raise a
    distance. *)
Theorem extract_all_sorted (ops : list HeapOp) :
  ops_all op_fresh ops MinHeap_new = true ->
  ops_all op_decreases ops MinHeap_new = true ->
  extract_all (run_ops ops MinHeap_new) ≡ₚ heap (run_ops ops MinHeap_new) /\
  StronglySorted by_distance (extract_all (run_ops ops MinHeap_new)) /\
  length (extract_all (run_ops ops MinHeap_new)) =
    Z.to_nat (size_heap (run_ops ops MinHeap_new)).
Proof.
  intros Hf Hd.
  pose proof (run_ops_inv ops MinHeap_new MinHeap_new_inv Hf Hd) as Hinv.
  destruct (drain_spec (length (heap (run_ops ops MinHeap_new)))
              (run_ops ops MinHeap_new) Hinv ltac:(lia)) as [Hp Hs].
  unfold extract_all. repeat split; [done | done |].
  rewrite Hp. unfold size_heap. lia.
Qed.

Lemma extract_all_sorted_witness :
  extract_all (run_ops sample_ops MinHeap_new)
    ≡ₚ heap (run_ops sample_ops MinHeap_new) /\
  StronglySorted by_distance (extract_all (run_ops sample_ops MinHeap_new)) /\
  length (extract_all (run_ops sample_ops MinHeap_new)) =
    Z.to_nat (size_heap (run_ops sample_ops MinHeap_new)).
Proof.
  apply (extract_all_sorted sample_ops); vm_compute; reflexivity.
Defined.

(** ** Membership and size *)

Lemma contains_eq (h1 h2 : MinHeap) (u : Z) :
  pos_ok h1 -> pos_ok h2 ->
  ((exists d, mkHeapNode u d ∈ heap h1) <->
   (exists d, mkHeapNode u d ∈ heap h2)) ->
  contains u h1 = contains u h2.
Proof.
  intros H1 H2 Hiff. apply eq_true_iff_eq.
  by rewrite !contains_true.
Qed.

Lemma contains_false (v : Z) (h : MinHeap) :
  pos_ok h ->
  contains v h = false <-> forall x, x ∈ heap h -> vertex x <> v.
Proof.
  intros Hp. split.
  - intros Hc. by apply not_contains.
  - intros Hall. apply not_true_is_false. intros Hc.
    apply (contains_true v h Hp) in Hc as [d Hd].
    by apply (Hall _ Hd).
Qed.

(** X2.  While the position index mirrors the array: [insert] of a
    vertex that is not in the heap makes [contains] true for it, grows
    [size] by one and changes [contains] for no other vertex;
    [extractMin] on a non-empty heap returns a vertex that was in the
    heap, removes exactly that vertex and shrinks [size] by one; on an
    empty heap it returns the node [(-1, infinity)] and changes
    nothing. *)
Theorem insert_extractMin_membership (h : MinHeap) :
  pos_ok h ->
  (forall v d, contains v h = false ->
     contains v (insert v d h) = true /\
     size_heap (insert v d h) = size_heap h + 1 /\
     forall u, u <> v -> contains u (insert v d h) = contains u h) /\
  (isEmpty h = false ->
     contains (vertex (fst (extractMin h))) h = true /\
     contains (vertex (fst (extractMin h))) (snd (extractMin h)) = false /\
     size_heap (snd (extractMin h)) = size_heap h - 1 /\
     forall u, u <> vertex (fst (extractMin h)) ->
       contains u (snd (extractMin h)) = contains u h) /\
  (isEmpty h = true ->
     extractMin h = (mkHeapNode (-1) Inf, h) /\ size_heap h = 0).
Proof.
  intros Hp. split; [|split].
  - intros v d Hc.
    destruct (not_contains v h Hp Hc) as [Hnone Hne].
    destruct (insert_pos_ok v d h Hp Hnone) as [Hp' Hperm].
    split; [|split].
    + apply (contains_true v _ Hp'). exists d. rewrite Hperm. by left.
    + unfold size_heap. rewrite Hperm. simpl length. lia.
    + intros u Hu. apply contains_eq; [done | done |].
      split; intros [d' Hd']; exists d'.
      * rewrite Hperm in Hd'. apply elem_of_cons in Hd' as [E|Hd']; [|done].
        congruence.
      * rewrite Hperm. by right.
  - intros He.
    destruct (extractMin_pos_ok h Hp He) as (Hroot & Hp' & Hperm).
    pose proof (pos_ok_NoDup h Hp) as Hnd.
    rewrite Hperm, fmap_cons in Hnd. apply NoDup_cons in Hnd as [Hnotin _].
    split; [|split; [|split]].
    + apply (contains_true _ h Hp). exists (distance (fst (extractMin h))).
      apply list_elem_of_lookup. exists 0%nat.
      by destruct (fst (extractMin h)).
    + apply (contains_false _ _ Hp'). intros x Hx E. apply Hnotin.
      rewrite <- E. apply list_elem_of_fmap. eauto.
    + unfold size_heap. pose proof (Permutation_length Hperm) as Hl.
      simpl in Hl. lia.
    + intros u Hu. apply contains_eq; [done | done |].
      split; intros [d' Hd']; exists d'.
      * rewrite Hperm. by right.
      * rewrite Hperm in Hd'. apply elem_of_cons in Hd' as [E|Hd']; [|done].
        rewrite <- E in Hu. done.
  - intros He. apply isEmpty_true in He. split.
    + by apply extractMin_empty.
    + unfold size_heap. by rewrite He.
Qed.

Lemma insert_extractMin_membership_witness :
  contains 5 (insert 5 (Fin 1) (run_ops sample_ops MinHeap_new)) = true /\
  size_heap (insert 5 (Fin 1) (run_ops sample_ops MinHeap_new)) =
    size_heap (run_ops sample_ops MinHeap_new) + 1 /\
  contains (vertex (fst (extractMin (run_ops sample_ops MinHeap_new))))
           (snd (extractMin (run_ops sample_ops MinHeap_new))) = false /\
  size_heap (snd (extractMin (run_ops sample_ops MinHeap_new))) =
    size_heap (run_ops sample_ops MinHeap_new) - 1.
Proof.
  destruct (insert_extractMin_membership (run_ops sample_ops MinHeap_new))
    as (Hins & Hext & _).
  { apply run_ops_pos_ok; [apply MinHeap_new_inv | vm_compute; reflexivity]. }
  destruct (Hins 5 (Fin 1)) as (H1 & H2 & _); [vm_compute; reflexivity|].
  destruct Hext as (_ & H3 & H4 & _); [vm_compute; reflexivity|].
  repeat split; assumption.
Defined.

(** ** [decreaseKey] as an update of one entry *)

(** X3.  While the position index mirrors the array, [decreaseKey v d]
    stores distance [d] for [v] whatever [d] is: afterwards the heap holds
    the entry [(v, d)], no other entry for [v], and every entry of another
    vertex as before; the index still mirrors the array; the size grows by
    one if [v] was absent and stays the same otherwise. *)
Theorem decreaseKey_upsert (v : Z) (d : dist) (h : MinHeap) :
  pos_ok h ->
  pos_ok (decreaseKey v d h) /\
  (forall x, x ∈ heap (decreaseKey v d h) <->
             x = mkHeapNode v d \/ (x ∈ heap h /\ vertex x <> v)) /\
  contains v (decreaseKey v d h) = true /\
  size_heap (decreaseKey v d h) =
    (if contains v h then size_heap h else size_heap h + 1).
Proof.
  intros Hp.
  destruct (decreaseKey_pos_ok v d h Hp) as [Hp' Hlen].
  assert (Hmem : forall x, x ∈ heap (decreaseKey v d h) <->
                   x = mkHeapNode v d \/ (x ∈ heap h /\ vertex x <> v)).
  { destruct (positions h !! v) as [index|] eqn:Hv.
    - destruct (pos_ok_elim _ _ _ Hp Hv) as ([v' old] & Hn & Hvn).
      simpl in Hvn. subst v'.
      rewrite (decreaseKey_present v d old index h Hp Hn).
      pose proof (decreaseKey_pre_pos_ok v d old index h Hp Hn) as Hpre.
      destruct (heapifyUp_loop_pos_ok index index
                  (mkMinHeap (<[index := mkHeapNode v d]> (heap h))
                             (positions h))) as [_ Hperm].
      { simpl. rewrite length_insert. by eapply lookup_lt_Some. }
      { done. }
      simpl in Hperm. unfold heapifyUp.
      destruct (insert_Permutation_split (heap h) index (mkHeapNode v old)
                  (mkHeapNode v d) Hn) as (rest & Hr1 & Hr2).
      pose proof (pos_ok_NoDup h Hp) as Hnd.
      rewrite Hr1, fmap_cons in Hnd. apply NoDup_cons in Hnd as [Hnotin _].
      simpl in Hnotin.
      intros x. rewrite Hperm, Hr2, Hr1, !elem_of_cons. split.
      + intros [->|Hx]; [by left|]. right. split; [by right|].
        intros E. apply Hnotin. rewrite <- E. apply list_elem_of_fmap. eauto.
      + intros [->|[[->|Hx] Hne]]; [by left | done | by right].
    - rewrite (decreaseKey_absent v d h Hv).
      destruct (insert_pos_ok v d h Hp Hv) as [_ Hperm].
      intros x. rewrite Hperm, elem_of_cons.
      assert (Hnone : forall y, y ∈ heap h -> vertex y <> v).
      { intros y [i Hy]%list_elem_of_lookup <-.
        by rewrite (pos_ok_lookup _ _ _ Hp Hy) in Hv. }
      split.
      + intros [->|Hx]; [by left | right; split; [done | by apply Hnone]].
      + intros [->|[Hx _]]; [by left | by right]. }
  split; [done|]. split; [done|]. split.
  - apply (contains_true v _ Hp'). exists d. apply Hmem. by left.
  - unfold size_heap. rewrite Hlen. destruct (contains v h); lia.
Qed.

Lemma decreaseKey_upsert_witness :
  pos_ok (decreaseKey 4 (Fin 9) (run_ops sample_ops MinHeap_new)) /\
  (forall x,
     x ∈ heap (decreaseKey 4 (Fin 9) (run_ops sample_ops MinHeap_new)) <->
     x = mkHeapNode 4 (Fin 9) \/
     (x ∈ heap (run_ops sample_ops MinHeap_new) /\ vertex x <> 4)) /\
  contains 4 (decreaseKey 4 (Fin 9) (run_ops sample_ops MinHeap_new)) = true /\
  size_heap (decreaseKey 4 (Fin 9) (run_ops sample_ops MinHeap_new)) =
    (if contains 4 (run_ops sample_ops MinHeap_new)
     then size_heap (run_ops sample_ops MinHeap_new)
     else size_heap (run_ops sample_ops MinHeap_new) + 1).
Proof.
  apply (decreaseKey_upsert 4 (Fin 9) (run_ops sample_ops MinHeap_new)).
  apply run_ops_pos_ok; [apply MinHeap_new_inv | vm_compute; reflexivity].
Defined.

(** ** [insert] does not look for the vertex *)

Lemma heapifyUp_loop_Permutation (fuel i : nat) (h : MinHeap) :
  (i < length (heap h))%nat ->
  heap (heapifyUp_loop fuel i h) ≡ₚ heap h.
Proof.
  revert i h. induction fuel as [|fuel IH]; intros i h Hi; [done|].
  simpl. destruct ((0 <? i)%nat && _) eqn:Hc; [|done].
  apply andb_true_iff in Hc as [Hpos _]. apply Nat.ltb_lt in Hpos.
  pose proof (parent_lt i Hpos) as Hpar.
  rewrite IH by (rewrite length_swap; lia).
  apply swap_Permutation; lia.
Qed.

Lemma insert_Permutation (v : Z) (d : dist) (h : MinHeap) :
  heap (insert v d h) ≡ₚ mkHeapNode v d :: heap h.
Proof.
  unfold insert, heapifyUp.
  rewrite heapifyUp_loop_Permutation.
  - simpl. by rewrite Permutation_app_comm.
  - simpl. rewrite length_app. simpl. lia.
Qed.

(** X4.  [insert] never checks whether the vertex is already stored: it
    always adds one entry, and when the vertex was in the heap the heap
    then holds two entries for it and the position index no longer
    mirrors the array. *)
Theorem insert_duplicate (v : Z) (d : dist) (h : MinHeap) :
  heap (insert v d h) ≡ₚ mkHeapNode v d :: heap h /\
  size_heap (insert v d h) = size_heap h + 1 /\
  (pos_ok h -> contains v h = true ->
   ~ NoDup (vertex <$> heap (insert v d h)) /\ ~ pos_ok (insert v d h)).
Proof.
  pose proof (insert_Permutation v d h) as Hperm.
  split; [done|]. split.
  - unfold size_heap. rewrite Hperm. simpl length. lia.
  - intros Hp Hc.
    assert (Hnd : ~ NoDup (vertex <$> heap (insert v d h))).
    { rewrite Hperm, fmap_cons. simpl. intros [Hnotin _]%NoDup_cons.
      apply Hnotin. apply (contains_true v h Hp) in Hc as [d' Hd'].
      apply list_elem_of_fmap. by exists (mkHeapNode v d'). }
    split; [done|]. intros Hp'. apply Hnd. by apply pos_ok_NoDup.
Qed.

Lemma insert_duplicate_witness :
  ~ NoDup (vertex <$> heap (insert 4 (Fin 1) (run_ops sample_ops MinHeap_new)))
  /\ ~ pos_ok (insert 4 (Fin 1) (run_ops sample_ops MinHeap_new)).
Proof.
  apply (insert_duplicate 4 (Fin 1) (run_ops sample_ops MinHeap_new)).
  - apply run_ops_pos_ok; [apply MinHeap_new_inv | vm_compute; reflexivity].
  - vm_compute; reflexivity.
Defined.

(** ** What the mutators of [Graph] do *)

Lemma addEdge_inv (src dest : Z) (w : dist) (name : string) (g g' : Graph) :
  addEdge src dest w name g = Ok g' ->
  in_range g src /\ in_range g dest /\ dle (Fin 0) w /\
  numVertices g' = numVertices g /\ nodes g' = nodes g.
Proof.
  unfold addEdge. intros Hadd.
  destruct (invalid_vertex g src) eqn:Hs; [done|].
  destruct (invalid_vertex g dest) eqn:Hd; [done|].
  apply invalid_vertex_false in Hs. apply invalid_vertex_false in Hd.
  simpl in Hadd. destruct (dlt w (Fin 0)) eqn:Hw; [done|].
  by injection Hadd as <-.
Qed.

(** X5.  [addEdge] checks the two endpoints first and the weight second:
    it throws [out_of_range] exactly when an endpoint is outside
    [0 .. numVertices-1], [invalid_argument] exactly when both are inside
    and the weight is below 0, and succeeds otherwise, leaving the number
    of vertices and the registered nodes as they were.  It is
    [addDirectedEdge] from [src] to [dest] followed by [addDirectedEdge]
    from [dest] to [src]. *)
Theorem addEdge_outcome (src dest : Z) (w : dist) (name : string) (g : Graph) :
  addEdge src dest w name g =
    and_then (addDirectedEdge src dest w name g)
             (addDirectedEdge dest src w name) /\
  match addEdge src dest w name g with
  | Err (out_of_range _) => ~ in_range g src \/ ~ in_range g dest
  | Err (invalid_argument _) =>
      in_range g src /\ in_range g dest /\ dlt w (Fin 0) = true
  | Err (length_error _) => False
  | Ok g' =>
      in_range g src /\ in_range g dest /\ dle (Fin 0) w /\
      numVertices g' = numVertices g /\ nodes g' = nodes g
  end.
Proof.
  unfold addEdge, addDirectedEdge.
  destruct (invalid_vertex g src) eqn:Hs.
  { simpl. split; [done|]. left. by apply invalid_vertex_true. }
  destruct (invalid_vertex g dest) eqn:Hd.
  { simpl. split; [done|]. right. by apply invalid_vertex_true. }
  apply invalid_vertex_false in Hs as Hs'.
  apply invalid_vertex_false in Hd as Hd'.
  simpl. destruct (dlt w (Fin 0)) eqn:Hw.
  { simpl. split; done. }
  simpl. unfold invalid_vertex in *. simpl. rewrite Hs, Hd. simpl.
  split; done.
Qed.

Lemma lookup_emplace_edge (adj : list (list Edge)) (v u : Z) (e : Edge) :
  0 <= v -> 0 <= u -> (Z.to_nat v < length adj)%nat ->
  default [] (emplace_edge v e adj !! Z.to_nat u) =
    default [] (adj !! Z.to_nat u) ++ (if decide (u = v) then [e] else []).
Proof.
  intros Hv Hu Hlen. unfold emplace_edge.
  destruct (decide (u = v)) as [->|Hne].
  - rewrite list_lookup_alter.
    destruct (lookup_lt_is_Some_2 adj (Z.to_nat v) Hlen) as [l Hl].
    rewrite Hl, decide_True by done. done.
  - rewrite list_lookup_alter_ne by lia. by rewrite app_nil_r.
Qed.

Lemma length_emplace_edge (adj : list (list Edge)) (v : Z) (e : Edge) :
  length (emplace_edge v e adj) = length adj.
Proof. unfold emplace_edge. by rewrite length_alter. Qed.

Lemma adj_at_addDirectedEdge (src dest : Z) (w : dist) (name : string)
    (g g' : Graph) (u : Z) :
  wf_graph g -> addDirectedEdge src dest w name g = Ok g' -> 0 <= u ->
  adj_at g' u =
    adj_at g u ++ (if decide (u = src) then [mkEdge dest w name] else []).
Proof.
  intros (Hn & Hlen & _) Hadd Hu. unfold addDirectedEdge in Hadd.
  destruct (invalid_vertex g src) eqn:Hs; [done|].
  destruct (invalid_vertex g dest) eqn:Hd; [done|].
  apply invalid_vertex_false in Hs. apply invalid_vertex_false in Hd.
  unfold in_range in *. simpl in Hadd.
  destruct (dlt w (Fin 0)); [done|]. injection Hadd as <-.
  unfold adj_at. simpl. apply lookup_emplace_edge; lia.
Qed.

Lemma adj_at_addEdge (src dest : Z) (w : dist) (name : string)
    (g g' : Graph) (u : Z) :
  wf_graph g -> addEdge src dest w name g = Ok g' -> 0 <= u ->
  adj_at g' u =
    adj_at g u ++ (if decide (u = src) then [mkEdge dest w name] else [])
               ++ (if decide (u = dest) then [mkEdge src w name] else []).
Proof.
  intros (Hn & Hlen & _) Hadd Hu. unfold addEdge in Hadd.
  destruct (invalid_vertex g src) eqn:Hs; [done|].
  destruct (invalid_vertex g dest) eqn:Hd; [done|].
  apply invalid_vertex_false in Hs. apply invalid_vertex_false in Hd.
  unfold in_range in *. simpl in Hadd.
  destruct (dlt w (Fin 0)); [done|]. injection Hadd as <-.
  unfold adj_at. simpl.
  rewrite lookup_emplace_edge by (rewrite ?length_emplace_edge; lia).
  rewrite lookup_emplace_edge by lia.
  by rewrite <- app_assoc.
Qed.

(** X6.  On a well-formed graph a successful [addEdge] appends the edge
    to [dest] at the end of the adjacency list of [src] and the edge back
    to [src] at the end of the adjacency list of [dest] (both to the same
    list when [src = dest]), with the same weight and road name, and
    changes no other adjacency list; [addDirectedEdge] appends the first
    of the two only. *)
Theorem addEdge_adjacency (src dest : Z) (w : dist) (name : string)
    (g : Graph) :
  wf_graph g ->
  (forall g', addEdge src dest w name g = Ok g' ->
     forall u, in_range g u ->
       getAdjacentNodes g' u =
         Ok (adj_at g u
             ++ (if decide (u = src) then [mkEdge dest w name] else [])
             ++ (if decide (u = dest) then [mkEdge src w name] else []))) /\
  (forall g', addDirectedEdge src dest w name g = Ok g' ->
     forall u, in_range g u ->
       getAdjacentNodes g' u =
         Ok (adj_at g u
             ++ (if decide (u = src) then [mkEdge dest w name] else []))).
Proof.
  intros Hwf. split; intros g' Hadd u Hu.
  - destruct (addEdge_inv _ _ _ _ _ _ Hadd) as (_ & _ & _ & Hnum & _).
    rewrite getAdjacentNodes_Ok by (unfold in_range in *; lia).
    f_equal. apply (adj_at_addEdge src dest w name g g' u Hwf Hadd).
    unfold in_range in Hu. lia.
  - assert (Hnum : numVertices g' = numVertices g).
    { unfold addDirectedEdge in Hadd.
      destruct (_ || _); [done|]. destruct (dlt w (Fin 0)); [done|].
      by injection Hadd as <-. }
    rewrite getAdjacentNodes_Ok by (unfold in_range in *; lia).
    f_equal. apply (adj_at_addDirectedEdge src dest w name g g' u Hwf Hadd).
    unfold in_range in Hu. lia.
Qed.

Lemma addEdge_adjacency_witness :
  getAdjacentNodes (graph_of one_road_built) 0 =
    Ok [mkEdge 1 (Fin 3) "Main Street"] /\
  getAdjacentNodes (graph_of one_road_built) 1 =
    Ok [mkEdge 0 (Fin 3) "Main Street"].
Proof.
  assert (Hwf : wf_graph (graph_of one_road_nodes)).
  { apply check_graph_wf. vm_compute. reflexivity. }
  pose proof (proj1 (addEdge_adjacency 0 1 (Fin 3) "Main Street"
                       (graph_of one_road_nodes) Hwf)) as Hadd.
  split.
  - apply (Hadd (graph_of one_road_built)).
    + vm_compute. reflexivity.
    + unfold in_range. simpl. lia.
  - apply (Hadd (graph_of one_road_built)).
    + vm_compute. reflexivity.
    + unfold in_range. simpl. lia.
Defined.

(** ** Two-way roads *)

Lemma two_way_graph_built (g : Graph) : two_way_built g -> graph_built g.
Proof.
  induction 1.
  - by eapply built_new.
  - by eapply built_addEdge.
  - by eapply built_addNode.
Qed.

Lemma two_way_wf (g : Graph) : two_way_built g -> wf_graph g.
Proof. intros H. by apply graph_built_wf, two_way_graph_built. Qed.

Lemma two_way_symmetric (g : Graph) :
  two_way_built g ->
  forall u e, has_edge g u e -> has_edge g (destination e) (reverse_edge u e).
Proof.
  induction 1 as [n g Hnew|src dest w name g g' Hb IH Hadd
                  |id name lat lon g g' Hb IH Hadd]; intros u e He.
  - unfold Graph_new in Hnew. destruct (n <? 0); [done|].
    injection Hnew as <-. apply has_edge_iff in He as [_ He].
    unfold adj_at in He. simpl in He. rewrite adj_at_replicate in He.
    by apply elem_of_nil in He.
  - pose proof (two_way_wf g Hb) as Hwf.
    pose proof (addEdge_wf _ _ _ _ _ _ Hwf Hadd) as Hwf'.
    destruct (addEdge_inv _ _ _ _ _ _ Hadd) as (Hs & Hd & _ & Hnum & _).
    apply has_edge_iff in He as [Hu He].
    assert (Hu0 : in_range g u) by (unfold in_range in *; lia).
    rewrite (adj_at_addEdge src dest w name g g' u Hwf Hadd) in He
      by (unfold in_range in Hu; lia).
    assert (Hmono : forall x y, has_edge g x y -> has_edge g' x y).
    { intros x y [Hx Hy]%has_edge_iff. apply has_edge_iff.
      split; [unfold in_range in *; lia|].
      rewrite (adj_at_addEdge src dest w name g g' x Hwf Hadd)
        by (unfold in_range in Hx; lia).
      apply elem_of_app. by left. }
    apply elem_of_app in He as [He|He].
    { apply Hmono, IH. apply has_edge_iff. done. }
    apply elem_of_app in He as [He|He].
    + destruct (decide (u = src)) as [->|]; [|by apply elem_of_nil in He].
      apply list_elem_of_singleton in He as ->. simpl.
      apply has_edge_iff. split; [unfold in_range in *; lia|].
      rewrite (adj_at_addEdge src dest w name g g' dest Hwf Hadd)
        by (unfold in_range in Hd; lia).
      rewrite !elem_of_app. right. right.
      rewrite decide_True by done. by apply list_elem_of_singleton.
    + destruct (decide (u = dest)) as [->|]; [|by apply elem_of_nil in He].
      apply list_elem_of_singleton in He as ->. simpl.
      apply has_edge_iff. split; [unfold in_range in *; lia|].
      rewrite (adj_at_addEdge src dest w name g g' src Hwf Hadd)
        by (unfold in_range in Hs; lia).
      rewrite !elem_of_app. right. left.
      rewrite decide_True by done. by apply list_elem_of_singleton.
  - unfold addNode in Hadd. destruct (invalid_vertex g id); [done|].
    injection Hadd as <-.
    apply has_edge_iff in He as [Hu He].
    assert (He0 : has_edge g u e) by (by apply has_edge_iff).
    apply IH, has_edge_iff in He0 as [Hd0 He0].
    apply has_edge_iff. done.
Qed.

Lemma reverse_walk_is_walk (g : Graph) (u v : Z) (es : list Edge) :
  (forall x e, has_edge g x e ->
               has_edge g (destination e) (reverse_edge x e)) ->
  is_walk g u es v -> is_walk g v (reverse_walk u es) u.
Proof.
  intros Hsym. revert u. induction es as [|e rest IH]; intros u Hw.
  - simpl in *. done.
  - destruct Hw as [He Hw]. simpl.
    apply (is_walk_snoc g v (destination e) (reverse_walk (destination e) rest)
             (reverse_edge u e) (IH _ Hw) (Hsym _ _ He)).
Qed.

Lemma not_found_default (g : Graph) (s d : Z) :
  found (findShortestPath g s d) = false ->
  findShortestPath g s d = PathResult_default.
Proof.
  unfold findShortestPath.
  repeat (match goal with
          | |- context [if ?c then _ else _] => destruct c; [done|]
          end).
  done.
Qed.

Lemma line_graph_two_way : two_way_built (graph_of line_graph_built).
Proof.
  apply (two_way_addEdge 2 3 (Fin double_0_3) "Third"
           (graph_of (and_then line_graph_nodes (fun g =>
              and_then (addEdge 0 1 (Fin double_0_1) "First" g)
                       (addEdge 1 2 (Fin double_0_2) "Second")))));
    [|vm_compute; reflexivity].
  apply (two_way_addEdge 1 2 (Fin double_0_2) "Second"
           (graph_of (and_then line_graph_nodes
                        (addEdge 0 1 (Fin double_0_1) "First"))));
    [|vm_compute; reflexivity].
  apply (two_way_addEdge 0 1 (Fin double_0_1) "First"
           (graph_of line_graph_nodes));
    [|vm_compute; reflexivity].
  apply (two_way_addNode 3 "D" 0 0
           (graph_of (and_then (Graph_new 4) (fun g =>
              and_then (addNode 0 "A" 0 0 g) (fun g =>
              and_then (addNode 1 "B" 0 0 g) (addNode 2 "C" 0 0))))));
    [|vm_compute; reflexivity].
  apply (two_way_addNode 2 "C" 0 0
           (graph_of (and_then (Graph_new 4) (fun g =>
              and_then (addNode 0 "A" 0 0 g) (addNode 1 "B" 0 0)))));
    [|vm_compute; reflexivity].
  apply (two_way_addNode 1 "B" 0 0
           (graph_of (and_then (Graph_new 4) (addNode 0 "A" 0 0))));
    [|vm_compute; reflexivity].
  apply (two_way_addNode 0 "A" 0 0 (graph_of (Graph_new 4)));
    [|vm_compute; reflexivity].
  apply (two_way_new 4). vm_compute. reflexivity.
Qed.

(** X7.  In a graph built with two-way roads only (the constructor,
    [addEdge] and [addNode], no [addDirectedEdge]) every road can be
    driven in both directions: each stored edge has its reverse stored at
    the other end with the same weight, a walk taken backwards is a walk,
    and a location can be reached from another exactly when the other can
    be reached from it.  Between registered locations the way back is
    found whenever the weights of some walk, added in the order of the way
    back, have a finite double sum, and the distance found is at most that
    sum.  The distances found in the two directions need not be equal,
    since each is a sum rounded in its own order of travel. *)
Theorem two_way_routes_symmetric (g : Graph) :
  two_way_built g ->
  (forall u e, has_edge g u e ->
     has_edge g (destination e) (reverse_edge u e) /\
     weight (reverse_edge u e) = weight e) /\
  (forall u v es, is_walk g u es v -> is_walk g v (reverse_walk u es) u) /\
  (forall u v, reachable g u v <-> reachable g v u) /\
  (forall u v es,
     nodeExists g u = true -> nodeExists g v = true ->
     is_walk g u es v -> walk_len (reverse_walk u es) <> Inf ->
     found (findShortestPath g v u) = true /\
     dle (totalDistance (findShortestPath g v u))
         (walk_len (reverse_walk u es))).
Proof.
  intros Hb. pose proof (two_way_symmetric g Hb) as Hsym.
  pose proof (two_way_wf g Hb) as Hwf.
  assert (Hrev : forall u v es, is_walk g u es v ->
                                is_walk g v (reverse_walk u es) u).
  { intros u v es Hw. by apply reverse_walk_is_walk. }
  assert (Hreach : forall u v, reachable g u v -> reachable g v u).
  { intros u v [es Hw]. exists (reverse_walk u es). by apply Hrev. }
  split_and!.
  - intros u e He. split; [by apply Hsym | done].
  - exact Hrev.
  - split; apply Hreach.
  - intros u v es Hu Hv Hw Hfin. specialize (Hrev _ _ _ Hw).
    destruct (findShortestPath_spec g v u Hwf Hv Hu)
      as [[_ Hall]|(Hf & [Hlow _] & _)].
    + by destruct (Hfin (Hall _ Hrev)).
    + split; [done | by apply Hlow].
Qed.

(** An instance of X7: on the line of the roads 0.1, 0.2 and 0.3 the
    distance from 0 to 3 is 0.6000000000000001 and the distance from 3
    to 0 is 0.6. *)
Lemma two_way_routes_symmetric_witness :
  (forall u v, reachable (graph_of line_graph_built) u v <->
               reachable (graph_of line_graph_built) v u) /\
  (forall u v es,
     nodeExists (graph_of line_graph_built) u = true ->
     nodeExists (graph_of line_graph_built) v = true ->
     is_walk (graph_of line_graph_built) u es v ->
     walk_len (reverse_walk u es) <> Inf ->
     found (findShortestPath (graph_of line_graph_built) v u) = true /\
     dle (totalDistance (findShortestPath (graph_of line_graph_built) v u))
         (walk_len (reverse_walk u es))) /\
  totalDistance (findShortestPath (graph_of line_graph_built) 0 3) =
    Fin (1351079888211149 # 2251799813685248) /\
  totalDistance (findShortestPath (graph_of line_graph_built) 3 0) =
    Fin (5404319552844595 # 9007199254740992).
Proof.
  destruct (two_way_routes_symmetric (graph_of line_graph_built)
              line_graph_two_way) as (_ & _ & H1 & H2).
  split; [exact H1|]. split; [exact H2|].
  split; vm_compute; reflexivity.
Defined.

(** ** The node registry *)

(** X8.  [addNode] throws [out_of_range] exactly when the id is outside
    [0 .. numVertices-1]; otherwise [getNode] returns the node just
    stored (replacing an older node with that id), [nodeExists] holds for
    it, every other id and every adjacency list is as before.  [getNode]
    throws [out_of_range] exactly for the ids for which [nodeExists] is
    false. *)
Theorem addNode_getNode (id : Z) (name : string) (lat lon : Q) (g : Graph) :
  match addNode id name lat lon g with
  | Ok g' =>
      in_range g id /\
      getNode g' id = Ok (mkNode id name lat lon) /\
      nodeExists g' id = true /\
      (forall j, j <> id ->
         getNode g' j = getNode g j /\ nodeExists g' j = nodeExists g j) /\
      adjacencyList g' = adjacencyList g /\
      numVertices g' = numVertices g
  | Err e => ~ in_range g id /\ e = out_of_range "Invalid node ID"
  end /\
  (forall j, nodeExists g j = false <->
             getNode g j = Err (out_of_range "Node not found")) /\
  (forall j, nodeExists g j = true <-> exists n, getNode g j = Ok n).
Proof.
  split; [|split].
  - unfold addNode. destruct (invalid_vertex g id) eqn:Hid.
    + split; [|done]. by apply invalid_vertex_true.
    + apply invalid_vertex_false in Hid.
      unfold getNode, nodeExists. simpl.
      rewrite lookup_insert_eq.
      split; [done|]. split; [done|]. split.
      { apply bool_decide_eq_true. eauto. }
      split; [|done]. intros j Hj.
      by rewrite lookup_insert_ne.
  - intros j. unfold nodeExists, getNode.
    destruct (nodes g !! j) as [n|] eqn:E.
    + split; [|done]. intros H. apply bool_decide_eq_false in H.
      exfalso. apply H. eauto.
    + split; [done|]. intros _. apply bool_decide_eq_false.
      by intros [? ?].
  - intros j. unfold nodeExists, getNode.
    destruct (nodes g !! j) as [n|] eqn:E.
    + split; [eauto|]. intros _. apply bool_decide_eq_true. eauto.
    + split; [|by intros [? ?]]. intros H. apply bool_decide_eq_true in H.
      by destruct H.
Qed.

(** ** Graphs built through the interface *)

(** X9.  Every graph obtained from the constructor by calls of
    [addEdge], [addDirectedEdge] and [addNode] that did not throw passes
    [validate]: it has one adjacency list per vertex, every stored edge
    leads to a vertex in range with a weight that is not negative, and
    every registered node id is in range. *)
Theorem graph_built_validate (g : Graph) :
  graph_built g ->
  validate g = true /\
  length (adjacencyList g) = Z.to_nat (numVertices g) /\
  (forall u edges e, getAdjacentNodes g u = Ok edges -> e ∈ edges ->
     in_range g (destination e) /\ dle (Fin 0) (weight e)) /\
  (forall id, nodeExists g id = true -> in_range g id).
Proof.
  intros Hb. pose proof (graph_built_wf g Hb) as Hwf.
  destruct Hwf as (Hn & Hlen & Hval & Hnodes) eqn:E. clear E.
  split; [done|]. split; [done|]. split.
  - intros u edges e Hadj He.
    apply getAdjacentNodes_inv in Hadj as [Hu ->].
    by apply (validate_edge g u e (graph_built_wf g Hb)).
  - intros id Hid. by apply (nodeExists_in_range g id (graph_built_wf g Hb)).
Qed.

Lemma graph_built_validate_witness :
  validate (graph_of one_road_built) = true /\
  length (adjacencyList (graph_of one_road_built)) =
    Z.to_nat (numVertices (graph_of one_road_built)) /\
  (forall u edges e,
     getAdjacentNodes (graph_of one_road_built) u = Ok edges -> e ∈ edges ->
     in_range (graph_of one_road_built) (destination e) /\ dle (Fin 0) (weight e)) /\
  (forall id, nodeExists (graph_of one_road_built) id = true ->
     in_range (graph_of one_road_built) id).
Proof.
  apply (graph_built_validate (graph_of one_road_built)).
  apply (built_addEdge 0 1 (Fin 3) "Main Street" (graph_of one_road_nodes));
    [|vm_compute; reflexivity].
  apply (built_addNode 1 "B" 0 0
           (graph_of (and_then (Graph_new 2) (addNode 0 "A" 0 0))));
    [|vm_compute; reflexivity].
  apply (built_addNode 0 "A" 0 0 (graph_of (Graph_new 2)));
    [|vm_compute; reflexivity].
  apply (built_new 2). vm_compute. reflexivity.
Defined.

(** ** The table of predecessors *)

(** X10.  On a well-formed graph and for a registered source, the
    predecessors returned by [findShortestPaths] form a tree of shortest
    routes: the table has one entry per vertex; the entry is [-1] exactly
    for the source and for the vertices whose distance is infinite; for
    every other vertex [v] the entry is a vertex [p] with a finite
    distance and an edge from [p] to [v] whose weight added to the
    distance of [p], in double arithmetic, gives the distance of [v]. *)
Theorem predecessors_tree (g : Graph) (source : Z) :
  wf_graph g -> nodeExists g source = true ->
  length (predecessors (findShortestPaths g source)) =
    Z.to_nat (numVertices g) /\
  forall v, in_range g v ->
    (vget (-1) (predecessors (findShortestPaths g source)) v = -1 <->
       v = source \/
       vget Inf (distances (findShortestPaths g source)) v = Inf) /\
    (vget (-1) (predecessors (findShortestPaths g source)) v <> -1 ->
     exists e,
       has_edge g (vget (-1) (predecessors (findShortestPaths g source)) v) e /\
       destination e = v /\
       vget Inf (distances (findShortestPaths g source))
            (vget (-1) (predecessors (findShortestPaths g source)) v) <> Inf /\
       vget Inf (distances (findShortestPaths g source)) v =
         dplus (vget Inf (distances (findShortestPaths g source))
                     (vget (-1) (predecessors (findShortestPaths g source)) v))
               (weight e)).
Proof.
  intros Hwf Hex.
  destruct (findShortestPaths_run g source Hwf Hex)
    as (settled & st & Hinv & Hempty & Hrun).
  unfold findShortestPaths.
  destruct (Hrun (dijkstra_fuel g) (le_n _)) as [_ ->]. simpl.
  split; [apply (inv_len_p _ _ _ _ _ Hinv)|].
  intros v Hv.
  change (vget (-1) (st_predecessors st) v) with (pred_of st v).
  change (vget Inf (st_distances st) v) with (dist_of st v).
  assert (Hstep : pred_of st v <> -1 ->
    exists e, has_edge g (pred_of st v) e /\ destination e = v /\
              dist_of st (pred_of st v) <> Inf /\
              dist_of st v = dplus (dist_of st (pred_of st v))
                                   (weight e) /\
              dist_of st v <> Inf).
  { intros Hp.
    destruct (inv_pred _ _ _ _ _ Hinv v Hv Hp)
      as (i & e & Hi & _ & He & Hdest & Hdist & Hvfin).
    assert (Hin : pred_of st v ∈ settled)
      by (apply list_elem_of_lookup; eauto).
    destruct (inv_settled _ _ _ _ _ Hinv _ Hin) as [Hpr Hfin].
    exists e. split_and!; [by apply has_edge_iff|done|done|done|done]. }
  split; [|intros Hp; destruct (Hstep Hp) as (e & ? & ? & ? & ? & _); eauto].
  split.
  - intros Hp. destruct (decide (v = source)) as [|Hne]; [by left|].
    right. destruct (dist_of st v) eqn:Ed; [|done]. exfalso.
    apply (inv_pred_some _ _ _ _ _ Hinv v Hv Hne); [|done].
    by rewrite Ed.
  - intros [->|Hinf].
    + apply (inv_pred_source _ _ _ _ _ Hinv).
    + destruct (decide (pred_of st v = -1)) as [|Hp]; [done|]. exfalso.
      by destruct (Hstep Hp) as (e & _ & _ & _ & _ & Hfin).
Qed.

Lemma predecessors_tree_witness :
  length (predecessors (findShortestPaths scenario_graph 0)) =
    Z.to_nat (numVertices scenario_graph) /\
  forall v, in_range scenario_graph v ->
    (vget (-1) (predecessors (findShortestPaths scenario_graph 0)) v = -1 <->
       v = 0 \/
       vget Inf (distances (findShortestPaths scenario_graph 0)) v = Inf) /\
    (vget (-1) (predecessors (findShortestPaths scenario_graph 0)) v <> -1 ->
     exists e,
       has_edge scenario_graph
         (vget (-1) (predecessors (findShortestPaths scenario_graph 0)) v) e /\
       destination e = v /\
       vget Inf (distances (findShortestPaths scenario_graph 0))
            (vget (-1) (predecessors (findShortestPaths scenario_graph 0)) v)
         <> Inf /\
       vget Inf (distances (findShortestPaths scenario_graph 0)) v =
         dplus (vget Inf (distances (findShortestPaths scenario_graph 0))
                  (vget (-1)
                     (predecessors (findShortestPaths scenario_graph 0)) v))
               (weight e)).
Proof.
  apply (predecessors_tree scenario_graph 0).
  - apply check_graph_wf. vm_compute. reflexivity.
  - vm_compute. reflexivity.
Defined.

(** ** The shape of a returned route *)

Lemma reconstruct_loop_simple (g : Graph) (source : Z) (settled : list Z)
    (st : DState) :
  wf_graph g -> in_range g source ->
  dijkstra_inv g source settled [] st -> heap (st_pq st) = [] ->
  forall k v fuel acc,
    settled !! k = Some v -> (k < fuel)%nat ->
    exists es,
      is_walk g source es v /\
      dist_of st v = walk_len es /\
      reconstruct_loop fuel source (st_predecessors st) v acc =
        acc ++ rev (walk_nodes source es) /\
      (forall x, x ∈ walk_nodes source es ->
         exists j, (j <= k)%nat /\ settled !! j = Some x) /\
      NoDup (walk_nodes source es) /\
      (forall es1 es2 x, es = es1 ++ es2 -> is_walk g source es1 x ->
         shortest_dist g source x (walk_len es1)).
Proof.
  intros Hwf Hsr Hinv Hempty k. induction k as [k IH] using lt_wf_ind.
  intros v fuel acc Hk Hfuel.
  destruct fuel as [|fuel]; [lia|].
  assert (Hv : v ∈ settled) by (apply list_elem_of_lookup; eauto).
  destruct (inv_settled _ _ _ _ _ Hinv v Hv) as [Hvr Hfin].
  cbn [reconstruct_loop].
  assert ((v =? -1) = false) as -> by (unfold in_range in Hvr; lia).
  destruct (v =? source) eqn:Evs.
  - apply Z.eqb_eq in Evs. subst v. exists [].
    split_and!; [done| |done| | |].
    + apply (inv_source _ _ _ _ _ Hinv).
    + intros x Hx. apply list_elem_of_singleton in Hx as ->. eauto.
    + apply NoDup_singleton.
    + intros es1 es2 x Hes Hw. symmetry in Hes.
      apply app_eq_nil in Hes as [-> _]. simpl in Hw. subst x.
      pose proof (final_shortest g source settled st source Hwf Hsr Hinv
                    Hempty Hsr) as Hsh.
      by rewrite (inv_source _ _ _ _ _ Hinv) in Hsh.
  - apply Z.eqb_neq in Evs.
    change (vget (-1) (st_predecessors st) v) with (pred_of st v).
    pose proof (inv_pred_some _ _ _ _ _ Hinv v Hvr Evs Hfin) as Hp.
    destruct (inv_pred _ _ _ _ _ Hinv v Hvr Hp)
      as (i & e & Hi & Hlt & He & Hdest & Hdist & _).
    specialize (Hlt k Hk).
    destruct (IH i Hlt (pred_of st v) fuel (acc ++ [v]) Hi ltac:(lia))
      as (es & Hes & Hd & Hrun & Hidx & Hnd & Hpre).
    assert (Hpr : in_range g (pred_of st v)).
    { apply (inv_settled _ _ _ _ _ Hinv). apply list_elem_of_lookup. eauto. }
    assert (Hwalk : is_walk g source (es ++ [e]) v).
    { rewrite <- Hdest.
      apply (is_walk_snoc g source (pred_of st v) es e Hes).
      by apply has_edge_iff. }
    assert (Hlen : dist_of st v = walk_len (es ++ [e])).
    { rewrite Hdist, Hd. by rewrite (walk_len_snoc es e). }
    exists (es ++ [e]). split_and!; [done|done| | | |].
    + rewrite Hrun, walk_nodes_snoc, Hdest, rev_app_distr. simpl.
      by rewrite <- app_assoc.
    + intros x. rewrite walk_nodes_snoc, Hdest, elem_of_app,
        list_elem_of_singleton.
      intros [Hx| ->]; [|eauto].
      destruct (Hidx x Hx) as (j & Hj & Hjx). exists j. split; [lia|done].
    + rewrite walk_nodes_snoc, Hdest.
      apply NoDup_app. split; [done|]. split; [|apply NoDup_singleton].
      intros x Hx Hxv. apply list_elem_of_singleton in Hxv as ->.
      destruct (Hidx v Hx) as (j & Hj & Hjv).
      pose proof (inv_nodup _ _ _ _ _ Hinv) as Hnds.
      pose proof (NoDup_lookup settled j k v Hnds Hjv Hk). lia.
    + intros es1 es2 x Hsplit Hw.
      destruct es2 as [|e2 es2 _] using rev_ind.
      * rewrite app_nil_r in Hsplit. subst es1.
        apply is_walk_snoc_inv in Hw as (y & _ & _ & Hx).
        rewrite Hdest in Hx. subst x. rewrite <- Hlen.
        by apply (final_shortest g source settled st v).
      * rewrite app_assoc in Hsplit. apply app_inj_tail in Hsplit as [Hs _].
        by apply (Hpre es1 es2 x).
Qed.

(** X11.  On a well-formed graph a route found by [findShortestPath]
    visits no location twice, has at most [numVertices] locations, all in
    range, and every initial part of it is itself a route of least
    length: the weights added in double arithmetic up to a location on
    the route give a sum that no walk from the source to that location
    undercuts. *)
Theorem shortest_path_simple (g : Graph) (s d : Z) :
  wf_graph g -> found (findShortestPath g s d) = true ->
  NoDup (path (findShortestPath g s d)) /\
  (length (path (findShortestPath g s d)) <= Z.to_nat (numVertices g))%nat /\
  (forall x, x ∈ path (findShortestPath g s d) -> in_range g x) /\
  exists es,
    is_walk g s es d /\
    path (findShortestPath g s d) = walk_nodes s es /\
    totalDistance (findShortestPath g s d) = walk_len es /\
    forall es1 es2 x, es = es1 ++ es2 -> is_walk g s es1 x ->
      shortest_dist g s x (walk_len es1).
Proof.
  intros Hwf Hfound.
  destruct (found_nodeExists g s d Hfound) as [Hs Hd].
  pose proof (nodeExists_in_range g s Hwf Hs) as Hsr.
  pose proof (nodeExists_in_range g d Hwf Hd) as Hdr.
  destruct (findShortestPaths_run g s Hwf Hs)
    as (settled & st & Hinv & Hempty & Hrun).
  destruct (Hrun (dijkstra_fuel g) (le_n _)) as [_ Hres].
  revert Hfound. unfold findShortestPath. rewrite Hs, Hd. simpl.
  unfold findShortestPaths. rewrite Hres. simpl.
  change (vget Inf (st_distances st) d) with (dist_of st d).
  destruct (is_inf (dist_of st d)) eqn:Einf; [done|]. intros _. simpl.
  apply is_inf_false in Einf.
  destruct (inv_finite _ _ _ _ _ Hinv d Hdr Einf) as [Hset|(x & Hx & _)].
  2:{ rewrite Hempty in Hx. by apply elem_of_nil in Hx. }
  apply list_elem_of_lookup in Hset as [k Hk].
  destruct (reconstruct_loop_simple g s settled st Hwf Hsr Hinv Hempty k d
              (length (st_predecessors st)) [] Hk)
    as (es & H1 & H2 & H3 & Hidx & Hnd & Hpre).
  { rewrite (inv_len_p _ _ _ _ _ Hinv).
    pose proof (settled_bound _ _ _ _ _ Hinv).
    apply lookup_lt_Some in Hk. lia. }
  assert (Hpath : reconstructPath s d (st_predecessors st) = walk_nodes s es).
  { unfold reconstructPath. rewrite H3, app_nil_l. apply rev_involutive. }
  rewrite Hpath.
  assert (Hsub : forall x, x ∈ walk_nodes s es -> x ∈ settled).
  { intros x Hx. destruct (Hidx x Hx) as (j & _ & Hj).
    apply list_elem_of_lookup. eauto. }
  split_and!.
  - done.
  - pose proof (settled_bound _ _ _ _ _ Hinv) as Hb.
    pose proof (submseteq_length _ _ (NoDup_submseteq _ _ Hnd Hsub)). lia.
  - intros x Hx. by apply (inv_settled _ _ _ _ _ Hinv), Hsub.
  - exists es. done.
Qed.

Lemma shortest_path_simple_witness :
  NoDup (path (findShortestPath scenario_graph 0 3)) /\
  (length (path (findShortestPath scenario_graph 0 3))
     <= Z.to_nat (numVertices scenario_graph))%nat /\
  (forall x, x ∈ path (findShortestPath scenario_graph 0 3) ->
             in_range scenario_graph x) /\
  exists es,
    is_walk scenario_graph 0 es 3 /\
    path (findShortestPath scenario_graph 0 3) = walk_nodes 0 es /\
    totalDistance (findShortestPath scenario_graph 0 3) = walk_len es /\
    forall es1 es2 x, es = es1 ++ es2 -> is_walk scenario_graph 0 es1 x ->
      shortest_dist scenario_graph 0 x (walk_len es1).
Proof.
  apply (shortest_path_simple scenario_graph 0 3).
  - apply check_graph_wf. vm_compute. reflexivity.
  - vm_compute. reflexivity.
Defined.

(** ** Routes through an intermediate location *)

Lemma walk_len_app (es1 es2 : list Edge) :
  walk_len (es1 ++ es2) = walk_len_from (walk_len es1) es2.
Proof. unfold walk_len, walk_len_from. by rewrite fold_left_app. Qed.

(** X12.  On a well-formed graph, when [findShortestPath] finds a route
    from [a] to [b] and one from [b] to [c], the distance computed from
    [a] to [c] is at most the distance from [a] to [b] continued along the
    route from [b] to [c], the weights added in double arithmetic in the
    order of travel; when that sum is finite a route from [a] to [c] is
    found.  (The bound is not the sum of the two total distances, which
    is rounded in another order.) *)
Theorem shortest_path_triangle (g : Graph) (a b c : Z) :
  wf_graph g ->
  found (findShortestPath g a b) = true ->
  found (findShortestPath g b c) = true ->
  exists es,
    is_walk g b es c /\
    path (findShortestPath g b c) = walk_nodes b es /\
    dle (vget Inf (distances (findShortestPaths g a)) c)
        (walk_len_from (totalDistance (findShortestPath g a b)) es) /\
    (walk_len_from (totalDistance (findShortestPath g a b)) es <> Inf ->
     found (findShortestPath g a c) = true /\
     dle (totalDistance (findShortestPath g a c))
         (walk_len_from (totalDistance (findShortestPath g a b)) es)).
Proof.
  intros Hwf Hab Hbc.
  destruct (found_nodeExists g a b Hab) as [Ha Hb].
  destruct (found_nodeExists g b c Hbc) as [_ Hc].
  destruct (findShortestPath_spec g a b Hwf Ha Hb)
    as [[Hf _]|(_ & _ & es1 & Hw1 & _ & Ht1)]; [congruence|].
  destruct (findShortestPath_spec g b c Hwf Hb Hc)
    as [[Hf _]|(_ & _ & es2 & Hw2 & Hp2 & _)]; [congruence|].
  pose proof (is_walk_app g a b c es1 es2 Hw1 Hw2) as Hw.
  exists es2. rewrite Ht1, <- walk_len_app. split_and!; [done|done| |].
  - destruct (findShortestPaths_correct g a Hwf Ha) as (_ & _ & _ & Hsh & _).
    apply (Hsh c); [by apply nodeExists_in_range | done].
  - intros Hfin.
    destruct (findShortestPath_spec g a c Hwf Ha Hc)
      as [[_ Hall]|(Hf & [Hlow _] & _)].
    + by destruct (Hfin (Hall _ Hw)).
    + split; [done | by apply Hlow].
Qed.

Lemma shortest_path_triangle_witness :
  exists es,
    is_walk scenario_graph 2 es 3 /\
    path (findShortestPath scenario_graph 2 3) = walk_nodes 2 es /\
    dle (vget Inf (distances (findShortestPaths scenario_graph 0)) 3)
        (walk_len_from (totalDistance (findShortestPath scenario_graph 0 2))
           es) /\
    (walk_len_from (totalDistance (findShortestPath scenario_graph 0 2)) es
       <> Inf ->
     found (findShortestPath scenario_graph 0 3) = true /\
     dle (totalDistance (findShortestPath scenario_graph 0 3))
         (walk_len_from (totalDistance (findShortestPath scenario_graph 0 2))
            es)).
Proof.
  apply (shortest_path_triangle scenario_graph 0 2 3).
  - apply check_graph_wf. vm_compute. reflexivity.
  - vm_compute. reflexivity.
  - vm_compute. reflexivity.
Defined.

(** ** When a route is found *)

Lemma long_road_wf : wf_graph (graph_of long_road_built).
Proof. apply check_graph_wf. vm_compute. reflexivity. Qed.

(** X13.  On a well-formed graph [findShortestPath] finds a route
    exactly when both locations are registered and joined by a walk whose
    weights, added in double arithmetic, have a finite sum.  When it finds
    none it returns the default result (empty path, distance and time 0,
    no road names); when it finds one the total distance is a finite
    double that is not negative and the estimated time is that distance
    divided by 40 and then multiplied by 60, each operation rounded. *)
Theorem findShortestPath_found_iff (g : Graph) (s d : Z) :
  wf_graph g ->
  (found (findShortestPath g s d) = true <->
     nodeExists g s = true /\ nodeExists g d = true /\
     exists es, is_walk g s es d /\ walk_len es <> Inf) /\
  (found (findShortestPath g s d) = false ->
     findShortestPath g s d = mkPathResult [] (Fin 0) (Fin 0) [] false) /\
  (found (findShortestPath g s d) = true ->
     totalDistance (findShortestPath g s d) <> Inf /\
     nonneg_double (totalDistance (findShortestPath g s d)) /\
     estimatedTime (findShortestPath g s d) =
       dmul (ddiv (totalDistance (findShortestPath g s d)) 40) 60).
Proof.
  intros Hwf. split_and!.
  - by apply found_iff_finite_walk.
  - apply not_found_default.
  - intros Hf. destruct (found_nodeExists g s d Hf) as [Hs Hd].
    destruct (findShortestPath_spec g s d Hwf Hs Hd)
      as [[Hf' _]|(_ & _ & es & Hw & _ & Ht)]; [congruence|].
    split_and!.
    + by apply found_finite.
    + rewrite Ht. by eapply walk_len_double.
    + revert Hf. unfold findShortestPath.
      repeat (match goal with
              | |- context [if ?c then _ else _] => destruct c; [done|]
              end).
      done.
Qed.

(** An instance of X13: a road of 82 km takes 122.99999999999999
    minutes. *)
Lemma findShortestPath_found_iff_witness :
  (found (findShortestPath (graph_of long_road_built) 0 1) = true <->
     nodeExists (graph_of long_road_built) 0 = true /\
     nodeExists (graph_of long_road_built) 1 = true /\
     exists es, is_walk (graph_of long_road_built) 0 es 1 /\
                walk_len es <> Inf) /\
  totalDistance (findShortestPath (graph_of long_road_built) 0 1) = Fin 82 /\
  estimatedTime (findShortestPath (graph_of long_road_built) 0 1) =
    Fin (8655355533852671 # 70368744177664).
Proof.
  destruct (findShortestPath_found_iff (graph_of long_road_built) 0 1
              long_road_wf) as (H1 & _ & _).
  split; [exact H1|]. split; vm_compute; reflexivity.
Defined.

(** ** Road names *)

Lemma first_road_spec (to : Z) (edges : list Edge) (e : Edge) :
  e ∈ edges -> destination e = to ->
  exists l1 e' l2,
    edges = l1 ++ e' :: l2 /\ destination e' = to /\
    (forall x, x ∈ l1 -> destination x <> to) /\
    first_road to edges = [roadName e'].
Proof.
  induction edges as [|a rest IH]; intros He Hd.
  - by apply elem_of_nil in He.
  - simpl. destruct (destination a =? to) eqn:Ea.
    + apply Z.eqb_eq in Ea. exists [], a, rest. split_and!; try done.
      intros x Hx. by apply elem_of_nil in Hx.
    + apply Z.eqb_neq in Ea.
      apply elem_of_cons in He as [->|He]; [done|].
      destruct (IH He Hd) as (l1 & e' & l2 & -> & H2 & H3 & H4).
      exists (a :: l1), e', l2. split_and!; try done.
      intros x [->|Hx]%elem_of_cons; [done|by apply H3].
Qed.

Lemma road_names_walk (g : Graph) (u v : Z) (es : list Edge) :
  is_walk g u es v ->
  length (road_names g (walk_nodes u es)) = length es /\
  forall i a b,
    walk_nodes u es !! i = Some a -> walk_nodes u es !! S i = Some b ->
    exists l1 e l2,
      getAdjacentNodes g a = Ok (l1 ++ e :: l2) /\ destination e = b /\
      (forall x, x ∈ l1 -> destination x <> b) /\
      road_names g (walk_nodes u es) !! i = Some (roadName e).
Proof.
  revert u. induction es as [|e rest IH]; intros u Hw.
  - split; [done|]. intros i a b _ Hb. by destruct i.
  - destruct Hw as [He Hw].
    destruct (IH _ Hw) as [IHlen IHidx].
    destruct He as (edges & Hadj & Hin).
    destruct (first_road_spec (destination e) edges e Hin eq_refl)
      as (l1 & e' & l2 & -> & Hd' & Hl1 & Hfirst).
    assert (Hrn : road_names g (walk_nodes u (e :: rest)) =
                  roadName e'
                  :: road_names g (walk_nodes (destination e) rest)).
    { unfold walk_nodes. simpl. rewrite Hadj, Hfirst. done. }
    rewrite Hrn. split; [by rewrite !length_cons, IHlen|].
    intros i a b Ha Hb. destruct i as [|i].
    + simpl in Ha, Hb. injection Ha as <-.
      unfold walk_nodes in Hb. simpl in Hb. injection Hb as <-.
      exists l1, e', l2. done.
    + change (walk_nodes u (e :: rest))
        with (u :: walk_nodes (destination e) rest) in Ha, Hb.
      simpl in Ha, Hb. destruct (IHidx i a b Ha Hb)
        as (k1 & x & k2 & H1 & H2 & H3 & H4).
      exists k1, x, k2. done.
Qed.

(** X14.  A route found by [findShortestPath] comes with one road name
    per hop: the name of the first edge stored for the hop's start that
    leads to the hop's end.  (With several roads between two locations
    this is the road added first, whichever of them is the shorter.) *)
Theorem road_names_per_hop (g : Graph) (s d : Z) :
  wf_graph g -> found (findShortestPath g s d) = true ->
  S (length (roadNames (findShortestPath g s d))) =
    length (path (findShortestPath g s d)) /\
  forall i a b,
    path (findShortestPath g s d) !! i = Some a ->
    path (findShortestPath g s d) !! S i = Some b ->
    exists l1 e l2,
      getAdjacentNodes g a = Ok (l1 ++ e :: l2) /\ destination e = b /\
      (forall x, x ∈ l1 -> destination x <> b) /\
      roadNames (findShortestPath g s d) !! i = Some (roadName e).
Proof.
  intros Hwf Hf. destruct (found_nodeExists g s d Hf) as [Hs Hd].
  destruct (findShortestPath_spec g s d Hwf Hs Hd)
    as [[Hf' _]|(_ & _ & es & Hw & Hp & _)]; [congruence|].
  assert (Hr : roadNames (findShortestPath g s d) =
               road_names g (path (findShortestPath g s d))).
  { revert Hf. unfold findShortestPath.
    repeat (match goal with
            | |- context [if ?c then _ else _] => destruct c; [done|]
            end).
    done. }
  rewrite Hr, Hp. destruct (road_names_walk g s d es Hw) as [Hlen Hidx].
  split; [|done].
  rewrite Hlen. unfold walk_nodes. simpl. by rewrite length_fmap.
Qed.

Lemma road_names_per_hop_witness :
  (S (length (roadNames (findShortestPath parallel_roads 0 1))) =
     length (path (findShortestPath parallel_roads 0 1)) /\
   forall i a b,
     path (findShortestPath parallel_roads 0 1) !! i = Some a ->
     path (findShortestPath parallel_roads 0 1) !! S i = Some b ->
     exists l1 e l2,
       getAdjacentNodes parallel_roads a = Ok (l1 ++ e :: l2) /\
       destination e = b /\
       (forall x, x ∈ l1 -> destination x <> b) /\
       roadNames (findShortestPath parallel_roads 0 1) !! i =
         Some (roadName e)) /\
  totalDistance (findShortestPath parallel_roads 0 1) = Fin 2 /\
  roadNames (findShortestPath parallel_roads 0 1) = ["Slow Road"].
Proof.
  split.
  - apply (road_names_per_hop parallel_roads 0 1).
    + apply check_graph_wf. vm_compute. reflexivity.
    + vm_compute. reflexivity.
  - vm_compute. split; reflexivity.
Defined.

(** ** Counting drivers *)

Lemma count_fold (l : list (string * Driver)) (acc : Z) :
  fold_left (fun count pair =>
               if isAvailable (snd pair) then count + 1 else count) l acc =
  acc + Z.of_nat (length (filter (fun kv => isAvailable (snd kv) = true) l)).
Proof.
  revert acc. induction l as [|[k d] l IH]; intros acc; simpl; [lia|].
  rewrite IH. rewrite filter_cons. simpl.
  destruct (isAvailable d).
  - rewrite decide_True by done. simpl length. lia.
  - rewrite decide_False by done. lia.
Qed.

Lemma available_list_fold (l : list (string * Driver)) (acc : list Driver) :
  fold_left (fun available pair =>
               if isAvailable (snd pair) then available ++ [snd pair]
               else available) l acc =
  acc ++ (snd <$> filter (fun kv => isAvailable (snd kv) = true) l).
Proof.
  revert acc. induction l as [|[k d] l IH]; intros acc; simpl.
  - by rewrite app_nil_r.
  - rewrite IH, filter_cons. simpl. destruct (isAvailable d).
    + rewrite decide_True by done. simpl. by rewrite <- app_assoc.
    + by rewrite decide_False by done.
Qed.

Lemma all_list_fold (l : list (string * Driver)) (acc : list Driver) :
  fold_left (fun allDrivers pair => allDrivers ++ [snd pair]) l acc =
  acc ++ (snd <$> l).
Proof.
  revert acc. induction l as [|[k d] l IH]; intros acc; simpl.
  - by rewrite app_nil_r.
  - rewrite IH. by rewrite <- app_assoc.
Qed.

(** The number of entries of the map whose availability flag is set. *)
Lemma getAvailableDriverCount_filter (dm : DriverManager) :
  getAvailableDriverCount dm =
    Z.of_nat (length (filter (fun kv => isAvailable (snd kv) = true)
                             (map_to_list (drivers dm)))).
Proof.
  unfold getAvailableDriverCount, unordered_iter. rewrite count_fold. lia.
Qed.

Lemma count_insert_None (ds : gmap string Driver) (logs1 logs2 : list DriverLog)
    (k : string) (d : Driver) :
  ds !! k = None ->
  getAvailableDriverCount (mkDriverManager (<[k := d]> ds) logs1) =
    getAvailableDriverCount (mkDriverManager ds logs2) +
    (if isAvailable d then 1 else 0).
Proof.
  intros Hk. rewrite !getAvailableDriverCount_filter. simpl.
  rewrite (map_to_list_insert ds k d Hk), filter_cons. simpl.
  destruct (isAvailable d).
  - rewrite decide_True by done. simpl length. lia.
  - rewrite decide_False by done. lia.
Qed.

Lemma count_replace (ds : gmap string Driver) (logs1 logs2 : list DriverLog)
    (k : string) (d d1 : Driver) :
  ds !! k = Some d ->
  getAvailableDriverCount (mkDriverManager (<[k := d1]> ds) logs1) =
    getAvailableDriverCount (mkDriverManager ds logs2)
    - (if isAvailable d then 1 else 0) + (if isAvailable d1 then 1 else 0).
Proof.
  intros Hk.
  rewrite <- (insert_delete_eq ds k d1).
  rewrite (count_insert_None (delete k ds) logs1 logs2 k d1)
    by apply lookup_delete_eq.
  assert (ds = <[k := d]> (delete k ds)) as Hds.
  { by rewrite insert_delete_eq, insert_id. }
  rewrite Hds at 2.
  rewrite (count_insert_None (delete k ds) logs2 logs2 k d)
    by apply lookup_delete_eq.
  lia.
Qed.

(** X15.  The lists and counters of [DriverManager] agree with the
    registry: [getAllDrivers] lists exactly the registered records and
    [getDriverCount] is its length; [getAvailableDrivers] lists exactly
    the registered records whose availability flag is set and
    [getAvailableDriverCount] is its length, between 0 and
    [getDriverCount]. *)
Theorem driver_counts (dm : DriverManager) :
  getDriverCount dm = Z.of_nat (length (dm_getAllDrivers dm)) /\
  getAvailableDriverCount dm = Z.of_nat (length (getAvailableDrivers dm)) /\
  0 <= getAvailableDriverCount dm <= getDriverCount dm /\
  (forall d, d ∈ dm_getAllDrivers dm <->
             exists k, dm_getDriver k dm = Some d) /\
  (forall d, d ∈ getAvailableDrivers dm <->
             d ∈ dm_getAllDrivers dm /\ isAvailable d = true).
Proof.
  assert (Hall : dm_getAllDrivers dm = snd <$> map_to_list (drivers dm)).
  { unfold dm_getAllDrivers, unordered_iter. by rewrite all_list_fold. }
  assert (Hav : getAvailableDrivers dm =
                snd <$> filter (fun kv => isAvailable (snd kv) = true)
                               (map_to_list (drivers dm))).
  { unfold getAvailableDrivers, unordered_iter.
    by rewrite available_list_fold. }
  assert (Hmem : forall d, d ∈ dm_getAllDrivers dm <->
                           exists k, dm_getDriver k dm = Some d).
  { intros d. rewrite Hall, list_elem_of_fmap. unfold dm_getDriver. split.
    - intros ([k d'] & -> & Hin). apply elem_of_map_to_list in Hin. eauto.
    - intros [k Hk]. exists (k, d). split; [done|].
      by apply elem_of_map_to_list. }
  split_and!.
  - unfold getDriverCount. by rewrite Hall, length_fmap, length_map_to_list.
  - by rewrite getAvailableDriverCount_filter, Hav, length_fmap.
  - rewrite getAvailableDriverCount_filter. lia.
  - rewrite getAvailableDriverCount_filter. unfold getDriverCount.
    rewrite <- length_map_to_list.
    pose proof (length_filter (fun kv : string * Driver =>
                                 isAvailable (snd kv) = true)
                              (map_to_list (drivers dm))). lia.
  - done.
  - intros d. rewrite getAvailableDrivers_spec, Hmem.
    unfold available, dm_getDriver. split.
    + intros (k & Hk & Ha). eauto.
    + intros [[k Hk] Ha]. eauto.
Qed.

(** ** Registering and removing drivers *)

(** X16.  [addDriver] succeeds exactly when no driver is registered
    under the id: then [getDriver] returns the new record, every other id
    is as before, [getDriverCount] grows by one, and removing the driver
    again restores the registry.  When the id is taken the registry keeps
    the older record unchanged.  [removeDriver] succeeds exactly when the
    id is registered, afterwards [getDriver] finds nothing under it,
    every other id is as before, and a failed call changes no record. *)
Theorem driver_registry_roundtrip (d : Driver) (dm : DriverManager) :
  (fst (dm_addDriver d dm) = true <-> dm_getDriver (driver_id d) dm = None) /\
  (fst (dm_addDriver d dm) = true ->
     dm_getDriver (driver_id d) (snd (dm_addDriver d dm)) = Some d /\
     (forall k, k <> driver_id d ->
        dm_getDriver k (snd (dm_addDriver d dm)) = dm_getDriver k dm) /\
     getDriverCount (snd (dm_addDriver d dm)) = getDriverCount dm + 1 /\
     fst (removeDriver (driver_id d) (snd (dm_addDriver d dm))) = true /\
     drivers (snd (removeDriver (driver_id d) (snd (dm_addDriver d dm)))) =
       drivers dm) /\
  (fst (dm_addDriver d dm) = false ->
     drivers (snd (dm_addDriver d dm)) = drivers dm) /\
  (forall id,
     (fst (removeDriver id dm) = true <-> is_Some (dm_getDriver id dm)) /\
     dm_getDriver id (snd (removeDriver id dm)) = None /\
     (forall k, k <> id ->
        dm_getDriver k (snd (removeDriver id dm)) = dm_getDriver k dm) /\
     (fst (removeDriver id dm) = false ->
        drivers (snd (removeDriver id dm)) = drivers dm) /\
     (fst (removeDriver id dm) = true ->
        getDriverCount (snd (removeDriver id dm)) = getDriverCount dm - 1)).
Proof.
  unfold dm_getDriver. split_and!.
  - unfold dm_addDriver. destruct (drivers dm !! driver_id d); simpl; split;
      done.
  - unfold dm_addDriver. destruct (drivers dm !! driver_id d) eqn:E; simpl;
      [done|]. intros _. split_and!.
    + by rewrite lookup_insert_eq.
    + intros k Hk. by rewrite lookup_insert_ne.
    + unfold getDriverCount. simpl. rewrite map_size_insert_None by done. lia.
    + unfold removeDriver. simpl. by rewrite lookup_insert_eq.
    + unfold removeDriver. simpl. rewrite lookup_insert_eq. simpl.
      rewrite delete_insert_eq. by apply delete_id.
  - unfold dm_addDriver. by destruct (drivers dm !! driver_id d).
  - intros id. unfold removeDriver.
    destruct (drivers dm !! id) as [x|] eqn:E; simpl; split_and!.
    + split; [eauto|done].
    + apply lookup_delete_eq.
    + intros k Hk. by apply lookup_delete_ne.
    + done.
    + intros _. unfold getDriverCount. simpl.
      rewrite map_size_delete_Some by eauto.
      assert (size (drivers dm) <> 0%nat).
      { apply map_size_ne_0_lookup_2 with id. eauto. }
      lia.
    + split; [done|by intros [? ?]].
    + done.
    + done.
    + done.
    + done.
Qed.

Lemma driver_registry_roundtrip_witness :
  dm_getDriver "d9"
    (snd (dm_addDriver (Driver_new "d9" "Eve" 1 "SUV" 4)
            DriverManager_new)) =
    Some (Driver_new "d9" "Eve" 1 "SUV" 4) /\
  getDriverCount (snd (dm_addDriver (Driver_new "d9" "Eve" 1 "SUV" 4)
                         DriverManager_new)) =
    getDriverCount DriverManager_new + 1 /\
  drivers (snd (removeDriver "d9"
                  (snd (dm_addDriver (Driver_new "d9" "Eve" 1 "SUV" 4)
                          DriverManager_new)))) =
    drivers DriverManager_new.
Proof.
  destruct (driver_registry_roundtrip (Driver_new "d9" "Eve" 1 "SUV" 4)
              DriverManager_new) as (_ & Hadd & _).
  destruct Hadd as (H1 & _ & H3 & _ & H5); [vm_compute; reflexivity|].
  exact (conj H1 (conj H3 H5)).
Defined.

(** ** Moving a driver and setting the availability flag *)

(** X17.  [updateDriverLocation] and [updateDriverAvailability] fail
    exactly for an id that is not registered and then change no record.
    Otherwise they change the one field of the one record and nothing
    else: the ids, the number of drivers and every other record stay;
    moving a driver leaves the number of available drivers as it was, and
    setting the flag changes that number by the difference between the
    new and the old flag.  The new location is not checked against any
    graph. *)
Theorem driver_update_effect (id : string) (dm : DriverManager) :
  (forall loc,
     match dm_getDriver id dm with
     | None =>
         fst (dm_updateDriverLocation id loc dm) = false /\
         drivers (snd (dm_updateDriverLocation id loc dm)) = drivers dm
     | Some d =>
         fst (dm_updateDriverLocation id loc dm) = true /\
         dm_getDriver id (snd (dm_updateDriverLocation id loc dm)) =
           Some (mkDriver (driver_id d) (driver_name d) loc (isAvailable d)
                          (vehicleType d) (rating d) (completedRides d)) /\
         (forall k, k <> id ->
            dm_getDriver k (snd (dm_updateDriverLocation id loc dm)) =
              dm_getDriver k dm) /\
         getDriverCount (snd (dm_updateDriverLocation id loc dm)) =
           getDriverCount dm /\
         getAvailableDriverCount (snd (dm_updateDriverLocation id loc dm)) =
           getAvailableDriverCount dm
     end) /\
  (forall b,
     match dm_getDriver id dm with
     | None =>
         fst (updateDriverAvailability id b dm) = false /\
         drivers (snd (updateDriverAvailability id b dm)) = drivers dm
     | Some d =>
         fst (updateDriverAvailability id b dm) = true /\
         dm_getDriver id (snd (updateDriverAvailability id b dm)) =
           Some (mkDriver (driver_id d) (driver_name d) (currentLocation d) b
                          (vehicleType d) (rating d) (completedRides d)) /\
         (forall k, k <> id ->
            dm_getDriver k (snd (updateDriverAvailability id b dm)) =
              dm_getDriver k dm) /\
         getDriverCount (snd (updateDriverAvailability id b dm)) =
           getDriverCount dm /\
         getAvailableDriverCount (snd (updateDriverAvailability id b dm)) =
           getAvailableDriverCount dm
           - (if isAvailable d then 1 else 0) + (if b then 1 else 0)
     end).
Proof.
  unfold dm_getDriver. split.
  - intros loc. unfold dm_updateDriverLocation.
    destruct (drivers dm !! id) as [d|] eqn:E; simpl; [|done].
    split_and!.
    + done.
    + by rewrite lookup_insert_eq.
    + intros k Hk. by rewrite lookup_insert_ne.
    + unfold getDriverCount. simpl. rewrite map_size_insert_Some; eauto.
    + unfold dm_log. simpl.
      rewrite (count_replace (drivers dm) _ (operationLogs dm) id d _ E).
      simpl. destruct dm. simpl. lia.
  - intros b. unfold updateDriverAvailability.
    destruct (drivers dm !! id) as [d|] eqn:E; simpl; [|done].
    split_and!.
    + done.
    + by rewrite lookup_insert_eq.
    + intros k Hk. by rewrite lookup_insert_ne.
    + unfold getDriverCount. simpl. rewrite map_size_insert_Some; eauto.
    + unfold dm_log. simpl.
      rewrite (count_replace (drivers dm) _ (operationLogs dm) id d _ E).
      simpl. destruct dm. simpl. lia.
Qed.

(** ** The availability flag of one driver *)

Lemma updateDriverAvailability_other (id k : string) (b : bool)
    (dm : DriverManager) :
  k <> id ->
  drivers (snd (updateDriverAvailability id b dm)) !! k = drivers dm !! k.
Proof.
  intros Hk. unfold updateDriverAvailability.
  destruct (drivers dm !! id); simpl; [|done]. by rewrite lookup_insert_ne.
Qed.

Lemma updateDriverAvailability_count (id : string) (b : bool)
    (dm : DriverManager) (d : Driver) :
  drivers dm !! id = Some d ->
  getAvailableDriverCount (snd (updateDriverAvailability id b dm)) =
    getAvailableDriverCount dm
    - (if isAvailable d then 1 else 0) + (if b then 1 else 0).
Proof.
  intros E. unfold updateDriverAvailability. rewrite E. simpl.
  unfold dm_log. simpl.
  rewrite (count_replace (drivers dm) _ (operationLogs dm) id d _ E).
  simpl. destruct dm. simpl. lia.
Qed.

Lemma updateDriverAvailability_size (id : string) (b : bool)
    (dm : DriverManager) :
  getDriverCount (snd (updateDriverAvailability id b dm)) = getDriverCount dm.
Proof.
  unfold updateDriverAvailability, getDriverCount.
  destruct (drivers dm !! id) eqn:E; simpl; [|done].
  rewrite map_size_insert_Some; eauto.
Qed.

(** ** The two ways of matching a request *)

Lemma processRequest_success (request : RideRequest) (m : RideMatcher) :
  let g := graph m in
  let pickup := pickupLocation request in
  let dest := destinationLocation request in
  let near := fst (findNearestDriver pickup m) in
  let route := findShortestPath g pickup dest in
  let r := fst (processRequest request m) in
  let m' := snd (processRequest request m) in
  success r = true ->
  nodeExists g pickup = true /\ nodeExists g dest = true /\ pickup <> dest /\
  nd_found near = true /\ found route = true /\
  assignedDriver r = nd_driver near /\
  driverToPickupDistance r = nd_distance near /\
  driverToPickupPath r = pathToPassenger near /\
  driverToPickupETA r = calculateETA (nd_distance near) /\
  pickupToDestinationPath r = path route /\
  pickupToDestinationDistance r = totalDistance route /\
  pickupToDestinationETA r = estimatedTime route /\
  rmr_totalDistance r = dplus (nd_distance near) (totalDistance route) /\
  totalETA r = dplus (calculateETA (nd_distance near)) (estimatedTime route) /\
  errorMessage r = EmptyString /\
  driverManager m' =
    snd (updateDriverAvailability (driver_id (nd_driver near)) false
           (driverManager m)).
Proof.
  cbv zeta. unfold processRequest.
  set (m0 := logOperation _ (clearLogs m)).
  change (graph m0) with (graph m).
  destruct (nodeExists (graph m) (pickupLocation request)) eqn:Ep; simpl;
    [|done].
  destruct (nodeExists (graph m) (destinationLocation request)) eqn:Ed; simpl;
    [|done].
  destruct (pickupLocation request =? destinationLocation request) eqn:Es;
    [done|].
  apply Z.eqb_neq in Es.
  rewrite (surjective_pairing (findNearestDriver _ m0)).
  rewrite (findNearestDriver_result _ m0 m eq_refl eq_refl).
  destruct (findNearestDriver_state (pickupLocation request) m0)
    as (Hg & Hdm & _ & _).
  destruct (nd_found (fst (findNearestDriver (pickupLocation request) m)))
    eqn:Ef; simpl; [|done].
  rewrite Hg. change (graph m0) with (graph m).
  destruct (found (findShortestPath (graph m) (pickupLocation request)
                     (destinationLocation request))) eqn:Er; simpl; [|done].
  rewrite Hdm. change (driverManager m0) with (driverManager m).
  destruct (updateDriverAvailability _ _ _) eqn:Eu. simpl.
  intros _. split_and!; done.
Qed.

Lemma findRide_cases (request : RideRequest) (m : RideMatcher) :
  let g := graph m in
  let pickup := pickupLocation request in
  let dest := destinationLocation request in
  let near := fst (findNearestDriver pickup m) in
  let route := findShortestPath g pickup dest in
  let r := fst (findRide request m) in
  let m' := snd (findRide request m) in
  (nd_found near = false /\
   r = RideMatch_error "No available drivers found" /\
   driverManager m' = driverManager m) \/
  (nd_found near = true /\ found route = false /\
   r = RideMatch_error "No valid path found" /\
   driverManager m' = driverManager m) \/
  (nd_found near = true /\ found route = true /\
   r = mkRideMatch true "Ride matched successfully" (nd_driver near)
         (nd_distance near) (totalDistance route)
         (dplus (nd_distance near) (totalDistance route))
         (cast_int (dmul (ddiv (dplus (nd_distance near)
                                      (totalDistance route)) 40) 60))
         (pathToPassenger near) (path route) /\
   driverManager m' =
     snd (updateDriverAvailability (driver_id (nd_driver near)) false
            (driverManager m))).
Proof.
  cbv zeta. unfold findRide.
  rewrite (surjective_pairing (findNearestDriver _ m)).
  destruct (findNearestDriver_state (pickupLocation request) m)
    as (Hg & Hdm & _ & _).
  destruct (nd_found (fst (findNearestDriver (pickupLocation request) m)))
    eqn:Ef; simpl.
  2:{ left. done. }
  right. rewrite Hg, Hdm.
  destruct (findNearestDriver_found _ _ Ef) as (_ & Hfa & Hdist & Hpath & _).
  unfold path_to in Hfa, Hdist, Hpath. rewrite Hfa. simpl.
  destruct (found (findShortestPath (graph m) (pickupLocation request)
                     (destinationLocation request))) eqn:Er; simpl.
  2:{ left. done. }
  right. destruct (updateDriverAvailability _ _ _) eqn:Eu. simpl.
  rewrite <- Hdist, <- Hpath. done.
Qed.





(** ** What a match does to the registry *)

Lemma processRequest_step (request : RideRequest) (m : RideMatcher) :
  wf_dm (driverManager m) ->
  let r := fst (processRequest request m) in
  let dm := driverManager m in
  let dm' := driverManager (snd (processRequest request m)) in
  (success r = false /\ dm' = dm) \/
  (success r = true /\
   drivers dm !! driver_id (assignedDriver r) = Some (assignedDriver r) /\
   isAvailable (assignedDriver r) = true /\
   found (findShortestPath (graph m) (currentLocation (assignedDriver r))
            (pickupLocation request)) = true /\
   drivers dm' !! driver_id (assignedDriver r) =
     Some (mkDriver (driver_id (assignedDriver r))
                    (driver_name (assignedDriver r))
                    (currentLocation (assignedDriver r)) false
                    (vehicleType (assignedDriver r))
                    (rating (assignedDriver r))
                    (completedRides (assignedDriver r))) /\
   (forall k, k <> driver_id (assignedDriver r) ->
      drivers dm' !! k = drivers dm !! k) /\
   getDriverCount dm' = getDriverCount dm /\
   getAvailableDriverCount dm' = getAvailableDriverCount dm - 1).
Proof.
  intros Hwf. cbv zeta.
  destruct (success (fst (processRequest request m))) eqn:Es.
  - right. split; [done|].
    pose proof (processRequest_success request m) as Hs. cbv zeta in Hs.
    destruct (Hs Es) as (_ & _ & _ & Hf & _ & Ha & _ & _ & _ & _ & _ & _ & _
                         & _ & _ & Hdm).
    destruct (findNearestDriver_found _ _ Hf) as (Hav & Hfd & _).
    rewrite <- Ha in Hav, Hfd, Hdm.
    pose proof (available_lookup _ _ Hwf Hav) as Hl.
    destruct Hav as (k & _ & Hflag).
    rewrite Hdm. split_and!.
    + done.
    + done.
    + done.
    + by apply updateDriverAvailability_lookup.
    + intros k' Hk'. by apply updateDriverAvailability_other.
    + apply updateDriverAvailability_size.
    + rewrite (updateDriverAvailability_count _ _ _ _ Hl), Hflag. lia.
  - left. split; [done|].
    pose proof (processRequest_cases request m) as Hc. cbv zeta in Hc.
    destruct Hc as [(_ & _ & ->) | [(_ & _ & _ & ->) | [(_ & _ & _ & _ & ->)
      | [(_ & _ & _ & _ & _ & ->) | [(_ & _ & _ & _ & _ & _ & ->)
      | (_ & _ & _ & _ & _ & H & _)]]]]]; try done. congruence.
Qed.

(** X19.  A successful [processRequest] changes the registry in one
    place only: the assigned driver, who was registered, available and
    had a route to the pickup, keeps the id, the name, the location, the
    vehicle type, the rating and the number of completed rides and gets
    the availability flag false; every other driver is as
    before, [getDriverCount] is unchanged and [getAvailableDriverCount]
    drops by exactly one.  The record returned in the result is the copy
    taken before the flag was cleared, so it still says available. *)
Theorem successful_match_accounting (request : RideRequest) (m : RideMatcher) :
  wf_dm (driverManager m) ->
  success (fst (processRequest request m)) = true ->
  dm_getDriver (driver_id (assignedDriver (fst (processRequest request m))))
               (driverManager m) =
    Some (assignedDriver (fst (processRequest request m))) /\
  isAvailable (assignedDriver (fst (processRequest request m))) = true /\
  found (findShortestPath (graph m)
           (currentLocation (assignedDriver (fst (processRequest request m))))
           (pickupLocation request)) = true /\
  (forall d',
     dm_getDriver (driver_id (assignedDriver (fst (processRequest request m))))
                  (driverManager (snd (processRequest request m))) = Some d' ->
     isAvailable d' = false /\
     driver_id d' =
       driver_id (assignedDriver (fst (processRequest request m))) /\
     driver_name d' =
       driver_name (assignedDriver (fst (processRequest request m))) /\
     currentLocation d' =
       currentLocation (assignedDriver (fst (processRequest request m))) /\
     vehicleType d' =
       vehicleType (assignedDriver (fst (processRequest request m))) /\
     rating d' = rating (assignedDriver (fst (processRequest request m))) /\
     completedRides d' =
       completedRides (assignedDriver (fst (processRequest request m)))) /\
  is_Some
    (dm_getDriver (driver_id (assignedDriver (fst (processRequest request m))))
                  (driverManager (snd (processRequest request m)))) /\
  (forall k, k <> driver_id (assignedDriver (fst (processRequest request m))) ->
     dm_getDriver k (driverManager (snd (processRequest request m))) =
       dm_getDriver k (driverManager m)) /\
  getDriverCount (driverManager (snd (processRequest request m))) =
    getDriverCount (driverManager m) /\
  getAvailableDriverCount (driverManager (snd (processRequest request m))) =
    getAvailableDriverCount (driverManager m) - 1.
Proof.
  intros Hwf Hs. unfold dm_getDriver.
  destruct (processRequest_step request m Hwf)
    as [[Hf _]|(_ & H1 & H2 & H3 & H4 & H5 & H6 & H7)]; [congruence|].
  split_and!; try done.
  intros d' Hd'. rewrite H4 in Hd'. by injection Hd' as <-.
Qed.

Lemma successful_match_accounting_witness :
  isAvailable (assignedDriver
                 (fst (processRequest scenario_request scenario_matcher)))
    = true /\
  getDriverCount
    (driverManager (snd (processRequest scenario_request scenario_matcher))) =
    getDriverCount (driverManager scenario_matcher) /\
  getAvailableDriverCount
    (driverManager (snd (processRequest scenario_request scenario_matcher))) =
    getAvailableDriverCount (driverManager scenario_matcher) - 1.
Proof.
  destruct (successful_match_accounting scenario_request scenario_matcher)
    as (_ & H2 & _ & _ & _ & _ & H7 & H8).
  - apply check_dm_wf. vm_compute. reflexivity.
  - vm_compute. reflexivity.
  - exact (conj H2 (conj H7 H8)).
Defined.

(** ** Requests processed in a row *)

Lemma flag_of_step (request : RideRequest) (m : RideMatcher) (k : string) :
  wf_dm (driverManager m) ->
  flag_of (driverManager m) k = Some false ->
  flag_of (driverManager (snd (processRequest request m))) k = Some false /\
  (success (fst (processRequest request m)) = true ->
   driver_id (assignedDriver (fst (processRequest request m))) <> k).
Proof.
  intros Hwf Hk. unfold flag_of in *.
  destruct (processRequest_step request m Hwf)
    as [[Hf ->]|(Hs & H1 & H2 & _ & _ & H5 & _)].
  - split; [done|]. congruence.
  - assert (Hne : driver_id (assignedDriver (fst (processRequest request m)))
                  <> k).
    { intros E. rewrite <- E, H1 in Hk. simpl in Hk. congruence. }
    split; [|done]. rewrite H5; done.
Qed.

Lemma process_all_wf_dm (reqs : list RideRequest) (m : RideMatcher) :
  wf_dm (driverManager m) ->
  wf_dm (driverManager (snd (process_all reqs m))).
Proof.
  revert m. induction reqs as [|r rest IH]; intros m Hwf; simpl; [done|].
  by apply IH, processRequest_wf_dm.
Qed.

Lemma process_all_busy (reqs : list RideRequest) (m : RideMatcher)
    (k : string) :
  wf_dm (driverManager m) ->
  flag_of (driverManager m) k = Some false ->
  flag_of (driverManager (snd (process_all reqs m))) k = Some false /\
  k ∉ assigned_ids (fst (process_all reqs m)).
Proof.
  revert m. induction reqs as [|r rest IH]; intros m Hwf Hk.
  - simpl. split; [done|]. apply not_elem_of_nil.
  - destruct (flag_of_step r m k Hwf Hk) as [Hk1 Hne].
    destruct (IH _ (processRequest_wf_dm r m Hwf) Hk1) as [Hk2 Hnotin].
    simpl. split; [done|].
    unfold assigned_ids in *. rewrite filter_cons.
    destruct (decide (success (fst (processRequest r m)) = true)) as [Hs|Hs];
      [|done].
    rewrite fmap_cons. apply not_elem_of_cons. split; [|done].
    intros E. by apply (Hne Hs).
Qed.

(** X20.  When requests are processed one after the other, no driver is
    assigned twice, every assigned driver was available before the first
    request and is unavailable after the last, the number of successful
    matches is the number by which [getAvailableDriverCount] has dropped,
    and so never exceeds the number of drivers available at the start. *)
Theorem matches_bounded_by_drivers (reqs : list RideRequest)
    (m : RideMatcher) :
  wf_dm (driverManager m) ->
  NoDup (assigned_ids (fst (process_all reqs m))) /\
  (forall k, k ∈ assigned_ids (fst (process_all reqs m)) ->
     flag_of (driverManager m) k = Some true /\
     flag_of (driverManager (snd (process_all reqs m))) k = Some false) /\
  Z.of_nat (length (assigned_ids (fst (process_all reqs m)))) =
    getAvailableDriverCount (driverManager m) -
    getAvailableDriverCount (driverManager (snd (process_all reqs m))) /\
  Z.of_nat (length (assigned_ids (fst (process_all reqs m)))) <=
    getAvailableDriverCount (driverManager m).
Proof.
  assert (Hmain : forall reqs m, wf_dm (driverManager m) ->
    NoDup (assigned_ids (fst (process_all reqs m))) /\
    (forall k, k ∈ assigned_ids (fst (process_all reqs m)) ->
       flag_of (driverManager m) k = Some true /\
       flag_of (driverManager (snd (process_all reqs m))) k = Some false) /\
    Z.of_nat (length (assigned_ids (fst (process_all reqs m)))) =
      getAvailableDriverCount (driverManager m) -
      getAvailableDriverCount (driverManager (snd (process_all reqs m)))).
  { clear reqs m. induction reqs as [|r rest IH]; intros m Hwf.
    - simpl. split_and!; [apply NoDup_nil_2| |unfold assigned_ids; simpl; lia].
      intros k Hk. by apply elem_of_nil in Hk.
    - pose proof (processRequest_wf_dm r m Hwf) as Hwf1.
      destruct (IH _ Hwf1) as (Hnd & Hflags & Hcount).
      cbn [process_all fst snd]. unfold assigned_ids in *.
      rewrite filter_cons.
      destruct (processRequest_step r m Hwf)
        as [[Hf Hdm]|(Hs & H1 & H2 & _ & H4 & H5 & _ & H7)].
      + rewrite decide_False by congruence.
        rewrite Hdm in Hflags, Hcount. done.
      + rewrite decide_True by done. rewrite fmap_cons.
        set (id := driver_id (assignedDriver (fst (processRequest r m)))) in *.
        assert (Hbusy : flag_of (driverManager (snd (processRequest r m))) id
                        = Some false).
        { unfold flag_of. by rewrite H4. }
        destruct (process_all_busy rest _ id Hwf1 Hbusy) as [Hend Hnotin].
        split_and!.
        * apply NoDup_cons. done.
        * intros k [->|Hk]%elem_of_cons.
          -- split; [|done]. unfold flag_of. rewrite H1. simpl.
             by rewrite H2.
          -- destruct (Hflags k Hk) as [Hk1 Hk2]. split; [|done].
             assert (k <> id) by congruence.
             unfold flag_of in *. by rewrite <- H5.
        * rewrite length_cons, Nat2Z.inj_succ, Hcount, H7. lia. }
  intros Hwf. destruct (Hmain reqs m Hwf) as (H1 & H2 & H3).
  split_and!; [done|done|done|].
  rewrite H3.
  pose proof (getAvailableDriverCount_filter
                (driverManager (snd (process_all reqs m)))).
  lia.
Qed.

Lemma matches_bounded_by_drivers_witness :
  NoDup (assigned_ids (fst (process_all three_requests scenario_matcher))) /\
  success <$> fst (process_all three_requests scenario_matcher) =
    [true; true; false] /\
  Z.of_nat (length (assigned_ids
                      (fst (process_all three_requests scenario_matcher)))) =
    getAvailableDriverCount (driverManager scenario_matcher).
Proof.
  destruct (matches_bounded_by_drivers three_requests scenario_matcher)
    as (H1 & _).
  { apply check_dm_wf. vm_compute. reflexivity. }
  split; [exact H1|]. split; vm_compute; reflexivity.
Defined.

(** ** The queue of requests *)

Lemma rideRequestQueue_processRequest (request : RideRequest)
    (m : RideMatcher) :
  rideRequestQueue (snd (processRequest request m)) = rideRequestQueue m.
Proof.
  unfold processRequest.
  set (m0 := logOperation _ (clearLogs m)).
  destruct (negb (nodeExists _ _)); [done|].
  destruct (negb (nodeExists _ _)); [done|].
  destruct (_ =? _); [done|].
  rewrite (surjective_pairing (findNearestDriver _ m0)).
  destruct (findNearestDriver_state (pickupLocation request) m0)
    as (_ & _ & Hq & _).
  destruct (negb (nd_found _)); [simpl; by rewrite Hq|].
  destruct (negb (found _)); [simpl; by rewrite Hq|].
  destruct (updateDriverAvailability _ _ _). simpl. by rewrite Hq.
Qed.

Lemma rideRequestQueue_findRide (request : RideRequest) (m : RideMatcher) :
  rideRequestQueue (snd (findRide request m)) = rideRequestQueue m.
Proof.
  unfold findRide.
  rewrite (surjective_pairing (findNearestDriver _ m)).
  destruct (findNearestDriver_state (pickupLocation request) m)
    as (_ & _ & Hq & _).
  destruct (negb (nd_found _)); [done|].
  destruct (negb (found _) || negb (found _)); [done|].
  destruct (updateDriverAvailability _ _ _). simpl. by rewrite Hq.
Qed.

Lemma rideRequestQueue_processNextRequest (m : RideMatcher) :
  rideRequestQueue (snd (processNextRequest m)) = tail (rideRequestQueue m).
Proof.
  unfold processNextRequest. destruct (rideRequestQueue m) as [|r rest] eqn:E.
  - simpl. by rewrite E.
  - by rewrite rideRequestQueue_processRequest.
Qed.

Lemma rideRequestQueue_apply (m : RideMatcher) (op : MatcherOp) :
  rideRequestQueue (apply_matcher_op m op) =
    match op with
    | MAddRideRequest request => rideRequestQueue m ++ [request]
    | MProcessNextRequest => tail (rideRequestQueue m)
    | _ => rideRequestQueue m
    end.
Proof.
  destruct op; simpl; try done.
  - apply rideRequestQueue_processNextRequest.
  - apply rideRequestQueue_processRequest.
  - apply rideRequestQueue_findRide.
Qed.

Lemma rideRequestQueue_run (ops : list MatcherOp) (m : RideMatcher) :
  rideRequestQueue (run_matcher ops m)
    `suffix_of` (rideRequestQueue m ++ enqueued ops).
Proof.
  revert m. induction ops as [|op ops IH]; intros m.
  - simpl. by rewrite app_nil_r.
  - unfold run_matcher in *. cbn [fold_left].
    specialize (IH (apply_matcher_op m op)).
    rewrite rideRequestQueue_apply in IH.
    destruct op; cbn [enqueued]; try done.
    + by rewrite <- app_assoc in IH.
    + etrans; [exact IH|].
      destruct (rideRequestQueue m) as [|r rest]; [done|].
      simpl. by apply suffix_cons_r.
Qed.

Lemma findNearestDriver_congr (pickup : Z) (g : Graph) (dm : DriverManager)
    (q1 q2 w1 w2 : list RideRequest) (logs : list SystemLog) :
  fst (findNearestDriver pickup (mkRideMatcher g dm q1 w1 logs)) =
    fst (findNearestDriver pickup (mkRideMatcher g dm q2 w2 logs)) /\
  systemLogs (snd (findNearestDriver pickup (mkRideMatcher g dm q1 w1 logs))) =
    systemLogs (snd (findNearestDriver pickup (mkRideMatcher g dm q2 w2 logs))).
Proof.
  unfold findNearestDriver. simpl.
  destruct (getAvailableDrivers dm) as [|d l]; [done|]. cbv zeta.
  destruct (nearestDriver _); done.
Qed.

(** The outcome of [processRequest] depends on the graph and the
    registry only. *)
Lemma processRequest_congr (request : RideRequest) (g : Graph)
    (dm : DriverManager) (q1 q2 w1 w2 : list RideRequest)
    (l1 l2 : list SystemLog) :
  fst (processRequest request (mkRideMatcher g dm q1 w1 l1)) =
    fst (processRequest request (mkRideMatcher g dm q2 w2 l2)) /\
  driverManager (snd (processRequest request (mkRideMatcher g dm q1 w1 l1))) =
    driverManager (snd (processRequest request (mkRideMatcher g dm q2 w2 l2)))
  /\
  systemLogs (snd (processRequest request (mkRideMatcher g dm q1 w1 l1))) =
    systemLogs (snd (processRequest request (mkRideMatcher g dm q2 w2 l2))).
Proof.
  unfold processRequest, logOperation, clearLogs. simpl.
  destruct (negb (nodeExists g _)); [done|].
  destruct (negb (nodeExists g _)); [done|].
  destruct (_ =? _); [done|].
  set (ma := mkRideMatcher g dm q1 w1 _).
  set (mb := mkRideMatcher g dm q2 w2 _).
  rewrite (surjective_pairing (findNearestDriver _ ma)).
  rewrite (surjective_pairing (findNearestDriver _ mb)).
  destruct (findNearestDriver_congr (pickupLocation request) g dm q1 q2 w1 w2
              [LogProcessing (requestId request)]) as [Hres Hlogs].
  fold ma mb in Hres, Hlogs. rewrite Hres.
  destruct (findNearestDriver_state (pickupLocation request) ma)
    as (Hga & Hda & _ & _).
  destruct (findNearestDriver_state (pickupLocation request) mb)
    as (Hgb & Hdb & _ & _).
  destruct (negb (nd_found _)); [simpl; by rewrite Hda, Hdb, Hlogs|].
  rewrite Hga, Hgb. simpl.
  destruct (negb (found _)); [simpl; by rewrite Hda, Hdb, Hlogs|].
  rewrite Hda, Hdb, Hlogs. simpl.
  destruct (updateDriverAvailability _ _ _). simpl. done.
Qed.

(** X21.  The request queue is first in, first out.  [addRideRequest]
    puts the request at the back.  [processNextRequest] on an empty queue
    returns the failure "No pending ride requests" and changes nothing;
    otherwise it removes the request at the front and processes it, and
    the request is gone from the queue whether or not it was matched.
    [processRequest] and [findRide] never touch the queue.  After any
    sequence of operations on a new matcher the queue is a final part of
    the list of the requests enqueued, in the order in which they were
    enqueued. *)
Theorem request_queue_fifo :
  (forall m request,
     rideRequestQueue (addRideRequest request m) =
       rideRequestQueue m ++ [request] /\
     getQueueSize (addRideRequest request m) = getQueueSize m + 1) /\
  (forall m,
     getQueueSize m = 0 ->
     processNextRequest m =
       (RideMatchResult_error "No pending ride requests", m)) /\
  (forall m request rest,
     rideRequestQueue m = request :: rest ->
     fst (processNextRequest m) = fst (processRequest request m) /\
     driverManager (snd (processNextRequest m)) =
       driverManager (snd (processRequest request m)) /\
     rideRequestQueue (snd (processNextRequest m)) = rest /\
     getQueueSize (snd (processNextRequest m)) = getQueueSize m - 1) /\
  (forall m request,
     rideRequestQueue (snd (processRequest request m)) = rideRequestQueue m /\
     rideRequestQueue (snd (findRide request m)) = rideRequestQueue m) /\
  (forall g ops,
     rideRequestQueue (run_matcher ops (RideMatcher_new g))
       `suffix_of` enqueued ops).
Proof.
  split_and!.
  - intros m request. split; [done|].
    unfold getQueueSize. simpl. rewrite length_app. simpl. lia.
  - intros m Hz. unfold getQueueSize in Hz. unfold processNextRequest.
    destruct (rideRequestQueue m); [done|]. simpl in Hz. lia.
  - intros m request rest Hq.
    pose proof (rideRequestQueue_processNextRequest m) as Htail.
    rewrite Hq in Htail. simpl in Htail.
    unfold getQueueSize. rewrite Htail, Hq.
    unfold processNextRequest. rewrite Hq.
    destruct m as [g dm q w l]. simpl in Hq. subst q. simpl.
    destruct (processRequest_congr request g dm rest (request :: rest) w w
                l l) as (H1 & H2 & _).
    split_and!; [done|done|done|lia].
  - intros m request. split.
    + apply rideRequestQueue_processRequest.
    + apply rideRequestQueue_findRide.
  - intros g ops. apply (rideRequestQueue_run ops (RideMatcher_new g)).
Qed.

Lemma request_queue_fifo_witness :
  fst (processNextRequest (addRideRequest scenario_request scenario_matcher)) =
    fst (processRequest scenario_request
           (addRideRequest scenario_request scenario_matcher)) /\
  rideRequestQueue
    (snd (processNextRequest
            (addRideRequest scenario_request scenario_matcher))) = [] /\
  getQueueSize
    (snd (processNextRequest
            (addRideRequest scenario_request scenario_matcher))) =
    getQueueSize (addRideRequest scenario_request scenario_matcher) - 1.
Proof.
  destruct request_queue_fifo as (_ & _ & Hnext & _).
  destruct (Hnext (addRideRequest scenario_request scenario_matcher)
              scenario_request []) as (H1 & _ & H3 & H4).
  { vm_compute. reflexivity. }
  exact (conj H1 (conj H3 H4)).
Defined.

(** ** What the operations never do to a driver *)

Lemma updateDriverAvailability_false_keeps (id k : string)
    (dm : DriverManager) (d : Driver) :
  drivers dm !! k = Some d ->
  exists d',
    drivers (snd (updateDriverAvailability id false dm)) !! k = Some d' /\
    same_driver d d' /\ currentLocation d' = currentLocation d /\
    (isAvailable d = false -> isAvailable d' = false).
Proof.
  intros Hk. destruct (decide (k = id)) as [->|Hne].
  - rewrite (updateDriverAvailability_lookup _ _ _ _ Hk).
    eexists. split; [done|]. unfold same_driver. simpl. done.
  - rewrite (updateDriverAvailability_other id k false dm Hne).
    exists d. unfold same_driver. done.
Qed.

Lemma apply_matcher_op_keeps (m : RideMatcher) (op : MatcherOp) (k : string)
    (d : Driver) :
  drivers (driverManager m) !! k = Some d ->
  exists d',
    drivers (driverManager (apply_matcher_op m op)) !! k = Some d' /\
    same_driver d d' /\
    (moves k op = false -> currentLocation d' = currentLocation d) /\
    (releases k op = false -> isAvailable d = false ->
     isAvailable d' = false).
Proof.
  intros Hk.
  assert (Hsame : exists d', drivers (driverManager m) !! k = Some d' /\
            same_driver d d' /\
            (moves k op = false -> currentLocation d' = currentLocation d) /\
            (releases k op = false -> isAvailable d = false ->
             isAvailable d' = false)).
  { exists d. unfold same_driver. done. }
  assert (Hupd : forall id,
            exists d',
              drivers (snd (updateDriverAvailability id false
                              (driverManager m))) !! k = Some d' /\
              same_driver d d' /\
              (moves k op = false -> currentLocation d' = currentLocation d) /\
              (releases k op = false -> isAvailable d = false ->
               isAvailable d' = false)).
  { intros id.
    destruct (updateDriverAvailability_false_keeps id k _ d Hk)
      as (d' & H1 & H2 & H3 & H4).
    exists d'. done. }
  destruct op as [request| |request|request|driver|id loc|id b|]; simpl.
  - done.
  - unfold processNextRequest.
    destruct (rideRequestQueue m) as [|request rest] eqn:Eq; [done|].
    destruct m as [g dm q w l]. simpl in *.
    destruct (processRequest_congr request g dm rest q w w l l)
      as (_ & -> & _).
    pose proof (processRequest_cases request (mkRideMatcher g dm q w l))
      as Hc. cbv zeta in Hc. simpl in Hc.
    destruct Hc as [(_ & _ & ->) | [(_ & _ & _ & ->) | [(_ & _ & _ & _ & ->)
      | [(_ & _ & _ & _ & _ & ->) | [(_ & _ & _ & _ & _ & _ & ->)
      | (_ & _ & _ & _ & _ & _ & _ & ->)]]]]]; try done; try apply Hupd.
  - pose proof (processRequest_cases request m) as Hc. cbv zeta in Hc.
    destruct Hc as [(_ & _ & ->) | [(_ & _ & _ & ->) | [(_ & _ & _ & _ & ->)
      | [(_ & _ & _ & _ & _ & ->) | [(_ & _ & _ & _ & _ & _ & ->)
      | (_ & _ & _ & _ & _ & _ & _ & ->)]]]]]; try done; try apply Hupd.
  - pose proof (findRide_cases request m) as Hc. cbv zeta in Hc.
    destruct Hc as [(_ & _ & ->) | [(_ & _ & _ & ->) | (_ & _ & _ & ->)]];
      try done; try apply Hupd.
  - unfold dm_addDriver.
    destruct (drivers (driverManager m) !! driver_id driver) eqn:E; simpl;
      [done|].
    rewrite lookup_insert_ne by congruence. done.
  - unfold dm_updateDriverLocation.
    destruct (drivers (driverManager m) !! id) as [d0|] eqn:E; simpl;
      [|done].
    destruct (decide (id = k)) as [->|Hne].
    + rewrite lookup_insert_eq. rewrite Hk in E. injection E as <-.
      eexists. split; [done|]. unfold same_driver. simpl.
      split; [done|]. split; [|done].
      rewrite bool_decide_eq_true_2 by done. done.
    + rewrite lookup_insert_ne by done. done.
  - unfold updateDriverAvailability.
    destruct (drivers (driverManager m) !! id) as [d0|] eqn:E; simpl;
      [|done].
    destruct (decide (id = k)) as [->|Hne].
    + rewrite lookup_insert_eq. rewrite Hk in E. injection E as <-.
      eexists. split; [done|]. unfold same_driver. simpl.
      split; [done|]. split; [done|].
      destruct b; [|done]. rewrite bool_decide_eq_true_2 by done. done.
    + rewrite lookup_insert_ne by done. done.
  - done.
Qed.

(** X22.  No sequence of matcher operations removes a registered driver
    or changes the id, name, vehicle type, rating or number of completed
    rides of one: in particular a second [addDriver] under a registered
    id is ignored and [completedRides] is not counted up by a match.  The
    location of a driver changes only through [updateDriverLocation] for
    that driver (a match does not move the driver), and a driver who is
    unavailable stays unavailable until [setDriverAvailability] sets the
    flag for that driver: no operation releases a driver by itself. *)
Theorem driver_record_persistence (ops : list MatcherOp) (m : RideMatcher)
    (k : string) (d : Driver) :
  dm_getDriver k (driverManager m) = Some d ->
  exists d',
    dm_getDriver k (driverManager (run_matcher ops m)) = Some d' /\
    driver_id d' = driver_id d /\ driver_name d' = driver_name d /\
    vehicleType d' = vehicleType d /\ rating d' = rating d /\
    completedRides d' = completedRides d /\
    (forallb (fun op => negb (moves k op)) ops = true ->
     currentLocation d' = currentLocation d) /\
    (forallb (fun op => negb (releases k op)) ops = true ->
     isAvailable d = false -> isAvailable d' = false).
Proof.
  unfold dm_getDriver. revert m d.
  induction ops as [|op ops IH]; intros m d Hk.
  - exists d. done.
  - destruct (apply_matcher_op_keeps m op k d Hk)
      as (d1 & Hk1 & (S1 & S2 & S3 & S4 & S5) & Hloc1 & Hav1).
    destruct (IH _ d1 Hk1) as (d' & Hk' & T1 & T2 & T3 & T4 & T5 & Hloc & Hav).
    exists d'. unfold run_matcher in *. cbn [fold_left].
    split; [done|]. split_and!; try congruence.
    + intros [Hm Hrest]%andb_true_iff. apply negb_true_iff in Hm.
      rewrite (Hloc Hrest). by apply Hloc1.
    + intros [Hr Hrest]%andb_true_iff Hd. apply negb_true_iff in Hr.
      apply (Hav Hrest). by apply Hav1.
Qed.

Lemma driver_record_persistence_witness :
  exists d',
    dm_getDriver "d2" (driverManager (run_matcher busy_day scenario_matcher))
      = Some d' /\
    driver_id d' = "d2"%string /\ driver_name d' = "Bo"%string /\
    vehicleType d' = "Sedan"%string /\ rating d' = 5%Q /\
    completedRides d' = 0 /\
    currentLocation d' = 2 /\
    isAvailable d' = false.
Proof.
  destruct (driver_record_persistence busy_day scenario_matcher "d2"
              (Driver_new "d2" "Bo" 2 "Sedan" 5))
    as (d' & H1 & H2 & H3 & H4 & H5 & H6 & H7 & _).
  { vm_compute. reflexivity. }
  exists d'. split; [exact H1|].
  split; [exact H2|]. split; [exact H3|]. split; [exact H4|].
  split; [exact H5|]. split; [exact H6|].
  split; [apply H7; vm_compute; reflexivity|].
  revert H1. vm_compute. intros [= <-]. reflexivity.
Defined.

(** ** The system log *)

Lemma nearest_fold_logs (g : Graph) (pickup : Z) (l : list Driver)
    (acc : NearestAcc) :
  acc_logs acc `prefix_of`
    acc_logs (fold_left (nearest_step g pickup) l acc).
Proof.
  revert acc. induction l as [|d l IH]; intros acc; simpl; [done|].
  etrans; [|apply IH]. unfold nearest_step.
  destruct (found _ && dlt _ _); simpl; [|done].
  by apply prefix_app_r.
Qed.

Lemma findNearestDriver_logs_prefix (pickup : Z) (m : RideMatcher) :
  systemLogs m `prefix_of` systemLogs (snd (findNearestDriver pickup m)).
Proof.
  unfold findNearestDriver.
  destruct (getAvailableDrivers (driverManager m)) as [|d l] eqn:Ea.
  - simpl. by apply prefix_app_r.
  - cbv zeta.
    set (acc := fold_left _ _ _).
    assert (Hp : systemLogs m `prefix_of` acc_logs acc).
    { etrans; [|apply nearest_fold_logs]. simpl. by apply prefix_app_r. }
    destruct (nearestDriver acc); simpl; by apply prefix_app_r.
Qed.

(** X23.  [processRequest] starts by clearing the system log: what
    [getLogs] returns afterwards begins with the entry "Processing ride
    request" of this request and depends on the request, the graph and
    the driver registry only, not on what was logged before; on success
    the log is the [matchingLogs] of the result followed by the entry
    "Ride matched successfully".  [findRide] clears nothing: it only adds
    entries at the end of the log. *)
Theorem system_log_of_a_request (request : RideRequest) (m : RideMatcher) :
  head (systemLogs (snd (processRequest request m))) =
    Some (LogProcessing (requestId request)) /\
  (forall m2, graph m2 = graph m -> driverManager m2 = driverManager m ->
     systemLogs (snd (processRequest request m2)) =
       systemLogs (snd (processRequest request m)) /\
     fst (processRequest request m2) = fst (processRequest request m)) /\
  (success (fst (processRequest request m)) = true ->
   systemLogs (snd (processRequest request m)) =
     matchingLogs (fst (processRequest request m)) ++
     [LogMatched (rmr_totalDistance (fst (processRequest request m)))
                 (totalETA (fst (processRequest request m)))]) /\
  systemLogs m `prefix_of` systemLogs (snd (findRide request m)).
Proof.
  split_and!.
  - unfold processRequest.
    set (m0 := logOperation _ (clearLogs m)).
    assert (Hhead : forall l, systemLogs m0 `prefix_of` l ->
                      head l = Some (LogProcessing (requestId request))).
    { intros l [k ->]. done. }
    destruct (negb (nodeExists _ _)); [done|].
    destruct (negb (nodeExists _ _)); [done|].
    destruct (_ =? _); [done|].
    rewrite (surjective_pairing (findNearestDriver _ m0)).
    pose proof (findNearestDriver_logs_prefix (pickupLocation request) m0)
      as Hp.
    destruct (negb (nd_found _)).
    { simpl. apply Hhead. etrans; [exact Hp|]. by apply prefix_app_r. }
    destruct (negb (found _)).
    { simpl. apply Hhead. etrans; [exact Hp|]. by apply prefix_app_r. }
    destruct (updateDriverAvailability _ _ _). simpl.
    apply Hhead. etrans; [exact Hp|]. by apply prefix_app_r.
  - intros m2 Hg Hd. destruct m as [g dm q w l], m2 as [g2 dm2 q2 w2 l2].
    simpl in Hg, Hd. subst g2 dm2.
    destruct (processRequest_congr request g dm q2 q w2 w l2 l)
      as (H1 & _ & H3).
    done.
  - unfold processRequest.
    set (m0 := logOperation _ (clearLogs m)).
    destruct (negb (nodeExists _ _)); [done|].
    destruct (negb (nodeExists _ _)); [done|].
    destruct (_ =? _); [done|].
    rewrite (surjective_pairing (findNearestDriver _ m0)).
    destruct (negb (nd_found _)); [done|].
    destruct (negb (found _)); [done|].
    destruct (updateDriverAvailability _ _ _). simpl. done.
  - unfold findRide.
    rewrite (surjective_pairing (findNearestDriver _ m)).
    pose proof (findNearestDriver_logs_prefix (pickupLocation request) m)
      as Hp.
    destruct (negb (nd_found _)); [done|].
    destruct (negb (found _) || negb (found _)); [done|].
    destruct (updateDriverAvailability _ _ _). simpl. done.
Qed.

Lemma system_log_of_a_request_witness :
  head (systemLogs (snd (processRequest scenario_request scenario_matcher))) =
    Some (LogProcessing "r1") /\
  systemLogs (snd (processRequest scenario_request scenario_matcher)) =
    matchingLogs (fst (processRequest scenario_request scenario_matcher)) ++
    [LogMatched
       (rmr_totalDistance
          (fst (processRequest scenario_request scenario_matcher)))
       (totalETA (fst (processRequest scenario_request scenario_matcher)))].
Proof.
  destruct (system_log_of_a_request scenario_request scenario_matcher)
    as (H1 & _ & H3 & _).
  split; [exact H1|]. apply H3. vm_compute. reflexivity.
Defined.

(** ** Connected vertices *)

Lemma conn_refl (g : Graph) (x : Z) : conn g x x.
Proof. split; by exists []. Qed.

Lemma conn_sym (g : Graph) (x y : Z) : conn g x y -> conn g y x.
Proof. intros [H1 H2]. by split. Qed.

Lemma reachable_trans (g : Graph) (x y z : Z) :
  reachable g x y -> reachable g y z -> reachable g x z.
Proof.
  intros [es1 H1] [es2 H2]. exists (es1 ++ es2). by eapply is_walk_app.
Qed.

Lemma conn_trans (g : Graph) (x y z : Z) :
  conn g x y -> conn g y z -> conn g x z.
Proof.
  intros [H1 H2] [H3 H4]. split; by eapply reachable_trans.
Qed.

Lemma reachable_edge (g : Graph) (u : Z) (e : Edge) :
  has_edge g u e -> reachable g u (destination e).
Proof. intros He. exists [e]. simpl. done. Qed.

Lemma reachable_mono (g g' : Graph) (x y : Z) :
  (forall u e, has_edge g u e -> has_edge g' u e) ->
  reachable g x y -> reachable g' x y.
Proof.
  intros Hmono [es Hw]. exists es. revert x Hw.
  induction es as [|e es IH]; intros x Hw; [done|].
  destruct Hw as [He Hw]. split; [by apply Hmono | by apply IH].
Qed.

Lemma conn_mono (g g' : Graph) (x y : Z) :
  (forall u e, has_edge g u e -> has_edge g' u e) ->
  conn g x y -> conn g' x y.
Proof. intros Hmono [H1 H2]. split; by eapply reachable_mono. Qed.

(** ** The forest of parents *)

Lemma filter_length_lt {A} (P Q : A -> Prop) `{!forall x, Decision (P x)}
    `{!forall x, Decision (Q x)} (l : list A) (a : A) :
  (forall x, P x -> Q x) -> a ∈ l -> Q a -> ~ P a ->
  (length (filter P l) < length (filter Q l))%nat.
Proof.
  intros HPQ Ha HQa HPa.
  assert (Hle : forall k : list A,
            (length (filter P k) <= length (filter Q k))%nat).
  { induction k as [|x k IH]; [done|]. rewrite !filter_cons.
    destruct (decide (P x)) as [HP|HP].
    - rewrite decide_True by auto. simpl. lia.
    - destruct (decide (Q x)); simpl; lia. }
  induction l as [|x l IH]; [by apply elem_of_nil in Ha|].
  rewrite !filter_cons. apply elem_of_cons in Ha as [<-|Ha].
  - rewrite decide_False, decide_True by done. simpl.
    specialize (Hle l). lia.
  - specialize (IH Ha). destruct (decide (P x)) as [HP|HP].
    + rewrite decide_True by auto. simpl. lia.
    + destruct (decide (Q x)); simpl; lia.
Qed.

Lemma elem_of_vertices (n x : Z) :
  x ∈ (Z.of_nat <$> seq 0 (Z.to_nat n)) <-> 0 <= x < n.
Proof.
  rewrite list_elem_of_fmap. split.
  - intros (k & -> & Hk). apply elem_of_seq in Hk. lia.
  - intros Hx. exists (Z.to_nat x). split; [lia|]. apply elem_of_seq. lia.
Qed.

Lemma above_lt (n : Z) (rank : Z -> nat) (x p : Z) :
  0 <= p < n -> (rank x < rank p)%nat ->
  (above n rank p < above n rank x)%nat.
Proof.
  intros Hp Hr. unfold above.
  apply (filter_length_lt _ _ _ p); [intros y; lia| |done|lia].
  by apply elem_of_vertices.
Qed.

Lemma above_bound (n : Z) (rank : Z -> nat) (x : Z) :
  0 <= x < n -> (above n rank x < Z.to_nat n)%nat.
Proof.
  intros Hx. unfold above.
  pose proof (filter_length_lt (fun y => (rank x < rank y)%nat)
                (fun _ => True) (Z.of_nat <$> seq 0 (Z.to_nat n)) x) as H.
  assert (Hall : forall k : list Z,
            length (filter (fun _ : Z => True) k) = length k).
  { induction k as [|y k IH]; [done|].
    rewrite filter_cons, decide_True by done. simpl. by rewrite IH. }
  rewrite Hall, length_fmap, length_seq in H. apply H; [done| |done|lia].
  by apply elem_of_vertices.
Qed.

Lemma vget_in (parent : list Z) (x d1 d2 : Z) :
  0 <= x < Z.of_nat (length parent) -> vget d1 parent x = vget d2 parent x.
Proof.
  intros Hx. unfold vget.
  assert ((x <? 0) = false) as -> by lia.
  destruct (lookup_lt_is_Some_2 parent (Z.to_nat x)) as [y Hy]; [lia|].
  by rewrite Hy.
Qed.

Lemma vget_parent_init (n x : Z) :
  0 <= x < n -> vget x (parent_init n) x = x.
Proof.
  intros Hx. unfold vget, parent_init.
  assert ((x <? 0) = false) as -> by lia.
  rewrite list_lookup_fmap, lookup_seq_lt by lia. simpl. lia.
Qed.

Lemma parent_init_inv (g : Graph) : uf_inv g (parent_init (numVertices g)).
Proof.
  exists (fun _ => 0%nat). split.
  - split.
    + unfold parent_init. by rewrite length_fmap, length_seq.
    + intros x Hx. rewrite vget_parent_init by done. split; [done|]. done.
  - intros x Hx. rewrite vget_parent_init by done. apply conn_refl.
Qed.

Lemma uf_find_spec (g : Graph) (rank : Z -> nat) (fuel : nat) :
  forall x parent,
    uf_ok (numVertices g) rank parent -> linked g parent ->
    in_range g x -> (above (numVertices g) rank x < fuel)%nat ->
    exists r parent',
      uf_find fuel x parent = (r, parent') /\
      uf_ok (numVertices g) rank parent' /\ linked g parent' /\
      in_range g r /\ vget r parent' r = r /\ conn g x r /\
      (rank x <= rank r)%nat /\
      (forall z, in_range g z -> vget z parent z = z -> vget z parent' z = z).
Proof.
  induction fuel as [|fuel IH]; intros x parent Hok Hlink Hx Hfuel; [lia|].
  cbn [uf_find]. destruct (vget x parent x =? x) eqn:E; simpl.
  - apply Z.eqb_eq in E. exists (vget x parent x), parent. rewrite E.
    split_and!; try done. apply conn_refl.
  - apply Z.eqb_neq in E.
    destruct Hok as [Hlen Hpar]. destruct (Hpar x Hx) as [Hp Hrank].
    specialize (Hrank E).
    destruct (IH (vget x parent x) parent (conj Hlen Hpar) Hlink Hp)
      as (r & parent1 & Hrun & [Hlen1 Hpar1] & Hlink1 & Hr & Hroot & Hconn
          & Hrk & Hkeep).
    { pose proof (above_lt (numVertices g) rank x _ Hp Hrank). lia. }
    rewrite Hrun.
    assert (Hxl : 0 <= x < Z.of_nat (length parent1)).
    { rewrite Hlen1. unfold in_range in Hx. lia. }
    assert (Hne : r <> x) by (intros ->; lia).
    exists r, (vset parent1 x r).
    rewrite (vget_vset_eq x parent1 x r Hxl).
    split_and!; try done.
    + split; [by rewrite length_vset|]. intros z Hz.
      destruct (decide (z = x)) as [->|Hzx].
      * rewrite (vget_vset_eq x parent1 x r Hxl). split; [done|].
        intros _. lia.
      * rewrite vget_vset_ne by done. by apply Hpar1.
    + intros z Hz. destruct (decide (z = x)) as [->|Hzx].
      * rewrite (vget_vset_eq x parent1 x r Hxl).
        eapply conn_trans; [apply (Hlink x Hx)|done].
      * rewrite vget_vset_ne by done. by apply Hlink1.
    + by rewrite vget_vset_ne.
    + eapply conn_trans; [apply (Hlink x Hx)|done].
    + lia.
    + intros z Hz Hzroot. assert (z <> x) by congruence.
      rewrite vget_vset_ne by done. by apply Hkeep.
Qed.

Lemma find_spec (g : Graph) (rank : Z -> nat) (x : Z) (parent : list Z) :
  uf_ok (numVertices g) rank parent -> linked g parent -> in_range g x ->
  exists r parent',
    find x parent = (r, parent') /\
    uf_ok (numVertices g) rank parent' /\ linked g parent' /\
    in_range g r /\ vget r parent' r = r /\ conn g x r /\
    (rank x <= rank r)%nat /\
    (forall z, in_range g z -> vget z parent z = z -> vget z parent' z = z).
Proof.
  intros Hok Hlink Hx. unfold find.
  apply uf_find_spec; try done.
  destruct Hok as [-> _]. by apply above_bound.
Qed.

Lemma unionSets_inv (g : Graph) (x y : Z) (parent : list Z) :
  uf_inv g parent -> in_range g x -> in_range g y -> conn g x y ->
  uf_inv g (unionSets x y parent).
Proof.
  intros (rank & Hok & Hlink) Hx Hy Hxy. unfold unionSets.
  destruct (find_spec g rank x parent Hok Hlink Hx)
    as (px & parent1 & -> & Hok1 & Hlink1 & Hpx & Hrx & Hcx & _ & _).
  destruct (find_spec g rank y parent1 Hok1 Hlink1 Hy)
    as (py & parent2 & -> & Hok2 & Hlink2 & Hpy & Hry & Hcy & _ & Hkeep).
  destruct (px =? py) eqn:E; simpl; [by exists rank|].
  apply Z.eqb_neq in E.
  pose proof (Hkeep px Hpx Hrx) as Hrx2.
  destruct Hok2 as [Hlen2 Hpar2].
  assert (Hpxl : 0 <= px < Z.of_nat (length parent2)).
  { rewrite Hlen2. unfold in_range in Hpx. lia. }
  exists (fun z => if decide (z = py) then Nat.max (rank py) (S (rank px))
                   else rank z).
  split.
  - split; [by rewrite length_vset|]. intros z Hz.
    destruct (decide (z = px)) as [->|Hzpx].
    + rewrite (vget_vset_eq px parent2 px py Hpxl). split; [done|].
      intros _. rewrite decide_False, decide_True by done. lia.
    + rewrite vget_vset_ne by done.
      destruct (Hpar2 z Hz) as [Hq Hrank]. split; [done|]. intros Hqz.
      specialize (Hrank Hqz).
      destruct (decide (z = py)) as [->|Hzpy]; [congruence|].
      destruct (decide (vget z parent2 z = py)) as [Heq|];
        [rewrite Heq in Hrank|]; lia.
  - intros z Hz. destruct (decide (z = px)) as [->|Hzpx].
    + rewrite (vget_vset_eq px parent2 px py Hpxl).
      eapply conn_trans; [apply conn_sym, Hcx|].
      eapply conn_trans; [apply Hxy|done].
    + rewrite vget_vset_ne by done. by apply Hlink2.
Qed.

(** ** The loops of [ensureConnectivity] *)

Lemma fold_left_inv {A B} (P : A -> Prop) (f : A -> B -> A) (l : list B)
    (a : A) :
  P a -> (forall a b, b ∈ l -> P a -> P (f a b)) -> P (fold_left f l a).
Proof.
  revert a. induction l as [|b l IH]; intros a Ha Hstep; [done|].
  simpl. apply IH.
  - apply Hstep; [by left|done].
  - intros a' b' Hb'. apply Hstep. by right.
Qed.

Lemma fold_left_inv_prefix {A B} (P : list B -> A -> Prop) (f : A -> B -> A)
    (l : list B) (a : A) :
  P [] a ->
  (forall pre a b, b ∈ l -> P pre a -> P (pre ++ [b]) (f a b)) ->
  P l (fold_left f l a).
Proof.
  intros Ha Hstep.
  assert (Hgen : forall k pre a, (forall b, b ∈ k -> b ∈ l) -> P pre a ->
                   P (pre ++ k) (fold_left f k a)).
  { induction k as [|b k IH]; intros pre a' Hsub Hp.
    - by rewrite app_nil_r.
    - simpl. rewrite (cons_middle b pre k), app_assoc. apply IH.
      + intros b' Hb'. apply Hsub. by right.
      + apply Hstep; [apply Hsub; by left|done]. }
  apply (Hgen l [] a); done.
Qed.

Lemma union_edges_inv (g : Graph) (parent : list Z) :
  wf_graph g ->
  (forall u e, has_edge g u e -> reachable g (destination e) u) ->
  uf_inv g parent -> uf_inv g (union_edges g parent).
Proof.
  intros Hwf Hsym Hinv. unfold union_edges.
  apply fold_left_inv; [done|].
  intros p i Hi Hp. apply elem_of_vertices in Hi.
  apply fold_left_inv; [done|].
  intros p' e He Hp'.
  destruct (validate_edge g i e Hwf Hi He) as [Hd _].
  assert (Hedge : has_edge g i e) by (by apply has_edge_iff).
  apply unionSets_inv; try done.
  split; [by apply reachable_edge | by apply Hsym].
Qed.

Lemma push_component_spec (g : Graph) (pre : list Z)
    (st : list Z * gmap Z (list Z)) (i : Z) :
  in_range g i ->
  uf_inv g (fst st) /\ comps_ok g (snd st) /\
  (forall x, x ∈ pre -> exists r c, snd st !! r = Some c /\ x ∈ c) ->
  uf_inv g (fst (push_component st i)) /\
  comps_ok g (snd (push_component st i)) /\
  (forall x, x ∈ pre ++ [i] ->
     exists r c, snd (push_component st i) !! r = Some c /\ x ∈ c).
Proof.
  intros Hi ((rank & Hok & Hlink) & Hcomps & Hcov).
  unfold push_component.
  destruct (find_spec g rank i (fst st) Hok Hlink Hi)
    as (root & parent1 & -> & Hok1 & Hlink1 & Hroot & _ & Hconn & _ & _).
  simpl. split_and!.
  - by exists rank.
  - intros r c Hr. destruct (decide (r = root)) as [->|Hne].
    + rewrite lookup_insert_eq in Hr. injection Hr as <-. split.
      * by destruct (default [] (snd st !! root)).
      * intros x [Hx| ->%list_elem_of_singleton]%elem_of_app; [|done].
        destruct (snd st !! root) as [c0|] eqn:E; simpl in Hx.
        -- by apply (Hcomps root c0 E).
        -- by apply elem_of_nil in Hx.
    + rewrite lookup_insert_ne in Hr by done. by apply Hcomps.
  - intros x [Hx| ->%list_elem_of_singleton]%elem_of_app.
    + destruct (Hcov x Hx) as (r & c & Hr & Hxc).
      destruct (decide (r = root)) as [->|Hne].
      * exists root, (c ++ [i]). rewrite lookup_insert_eq, Hr. simpl.
        split; [done|]. apply elem_of_app. by left.
      * exists r, c. by rewrite lookup_insert_ne.
    + exists root, (default [] (snd st !! root) ++ [i]).
      rewrite lookup_insert_eq. split; [done|].
      apply elem_of_app. right. by apply list_elem_of_singleton.
Qed.

Lemma collect_components_spec (g : Graph) (parent : list Z) :
  uf_inv g parent ->
  comps_ok g (collect_components (numVertices g) parent) /\
  forall x, in_range g x ->
    exists r c, collect_components (numVertices g) parent !! r = Some c /\
                x ∈ c.
Proof.
  intros Hinv. unfold collect_components.
  pose proof (fold_left_inv_prefix
    (fun pre st =>
       uf_inv g (fst st) /\ comps_ok g (snd st) /\
       (forall x, x ∈ pre -> exists r c, snd st !! r = Some c /\ x ∈ c))
    push_component (Z.of_nat <$> seq 0 (Z.to_nat (numVertices g)))
    (parent, ∅)) as H.
  destruct H as (_ & Hc & Hcov).
  - simpl. split; [done|]. split.
    + intros r c Hr. by rewrite lookup_empty in Hr.
    + intros x Hx. by apply elem_of_nil in Hx.
  - intros pre st i Hi Hp. apply elem_of_vertices in Hi.
    by apply push_component_spec.
  - split; [done|]. intros x Hx. apply Hcov. by apply elem_of_vertices.
Qed.

Lemma elem_of_component_list (components : gmap Z (list Z)) (c : list Z) :
  c ∈ component_list components <-> exists r, components !! r = Some c.
Proof.
  unfold component_list, unordered_iter. rewrite list_elem_of_fmap. split.
  - intros ([r c'] & -> & Hin). apply elem_of_map_to_list in Hin. eauto.
  - intros [r Hr]. exists (r, c). split; [done|].
    by apply elem_of_map_to_list.
Qed.

Lemma elem_of_heads (cl : list (list Z)) (f : Z) :
  f ∈ heads cl <-> exists rest, (f :: rest) ∈ cl.
Proof.
  unfold heads. rewrite list_elem_of_omap. split.
  - intros (c & Hc & Hh). destruct c as [|f' rest]; [done|].
    injection Hh as ->. eauto.
  - intros [rest Hr]. exists (f :: rest). done.
Qed.

Lemma addEdge_Ok (src dest : Z) (w : dist) (name : string) (g : Graph) :
  in_range g src -> in_range g dest -> dle (Fin 0) w ->
  exists g', addEdge src dest w name g = Ok g' /\
             numVertices g' = numVertices g /\ nodes g' = nodes g.
Proof.
  intros Hs Hd Hw. unfold addEdge.
  rewrite (proj2 (invalid_vertex_false g src) Hs).
  rewrite (proj2 (invalid_vertex_false g dest) Hd). simpl.
  unfold dle in Hw. rewrite Hw. eauto.
Qed.

Lemma addEdge_has_edge (src dest : Z) (w : dist) (name : string)
    (g g' : Graph) :
  wf_graph g -> addEdge src dest w name g = Ok g' ->
  (forall u e, has_edge g u e -> has_edge g' u e) /\
  has_edge g' src (mkEdge dest w name) /\
  has_edge g' dest (mkEdge src w name).
Proof.
  intros Hwf Hadd.
  destruct (addEdge_inv _ _ _ _ _ _ Hadd) as (Hs & Hd & _ & Hnum & _).
  assert (Hadj : forall u, in_range g u ->
            adj_at g' u = adj_at g u
              ++ (if decide (u = src) then [mkEdge dest w name] else [])
              ++ (if decide (u = dest) then [mkEdge src w name] else [])).
  { intros u Hu. apply (adj_at_addEdge src dest w name g g' u Hwf Hadd).
    unfold in_range in Hu. lia. }
  split_and!.
  - intros u e [Hu He]%has_edge_iff. apply has_edge_iff.
    split; [unfold in_range in *; lia|].
    rewrite (Hadj u Hu). apply elem_of_app. by left.
  - apply has_edge_iff. split; [unfold in_range in *; lia|].
    rewrite (Hadj src Hs), !elem_of_app. right. left.
    rewrite decide_True by done. by apply list_elem_of_singleton.
  - apply has_edge_iff. split; [unfold in_range in *; lia|].
    rewrite (Hadj dest Hd), !elem_of_app. right. right.
    rewrite decide_True by done. by apply list_elem_of_singleton.
Qed.

Lemma connect_components_spec (calculateDistance : Q -> Q -> Q -> Q -> dist)
    (cl : list (list Z)) :
  (forall a b c d, dle (Fin 0) (calculateDistance a b c d)) ->
  forall i g0,
    two_way_built g0 -> cl <> [] ->
    (forall c, c ∈ cl ->
       exists f rest, c = f :: rest /\ nodeExists g0 f = true) ->
    exists g',
      connect_components calculateDistance i cl g0 = Returned g' /\
      two_way_built g' /\ numVertices g' = numVertices g0 /\
      nodes g' = nodes g0 /\
      (forall u e, has_edge g0 u e -> has_edge g' u e) /\
      (forall a b, a ∈ heads cl -> b ∈ heads cl -> conn g' a b).
Proof.
  intros Hpos. induction cl as [|c1 cl IH]; intros i g0 Hb Hne Hcl; [done|].
  destruct cl as [|c2 rest].
  - exists g0. cbn [connect_components]. split_and!; try done.
    intros a b Ha Hb'. apply elem_of_heads in Ha as [ra Ha].
    apply elem_of_heads in Hb' as [rb Hb'].
    apply list_elem_of_singleton in Ha. apply list_elem_of_singleton in Hb'.
    assert (a = b) as -> by congruence. apply conn_refl.
  - destruct (Hcl c1) as (f1 & r1 & -> & Hf1); [by left|].
    destruct (Hcl c2) as (f2 & r2 & -> & Hf2); [right; by left|].
    pose proof (two_way_wf g0 Hb) as Hwf.
    pose proof (nodeExists_in_range g0 f1 Hwf Hf1) as Hr1.
    pose proof (nodeExists_in_range g0 f2 Hwf Hf2) as Hr2.
    cbn [connect_components].
    apply bool_decide_eq_true in Hf1 as [n1 Hn1].
    apply bool_decide_eq_true in Hf2 as [n2 Hn2].
    unfold getNode. rewrite Hn1, Hn2.
    set (w := dmul (calculateDistance (latitude n1) (longitude n1)
                      (latitude n2) (longitude n2)) 100).
    assert (Hw : dle (Fin 0) w).
    { unfold w. apply dmul_nonneg; [apply Hpos | lra]. }
    destruct (addEdge_Ok f1 f2 w ("Connector Highway " +:+ pretty (i + 1))
                g0 Hr1 Hr2 Hw) as (g1 & Hadd & Hnum1 & Hnodes1).
    rewrite Hadd.
    destruct (addEdge_has_edge _ _ _ _ _ _ Hwf Hadd) as (Hmono1 & He12 & He21).
    destruct (IH (i + 1) g1)
      as (g' & Hrun & Hb' & Hnum & Hnodes & Hmono & Hconn).
    { by eapply two_way_addEdge. }
    { done. }
    { intros c Hc. destruct (Hcl c) as (f & r & -> & Hf); [by right|].
      exists f, r. split; [done|]. unfold nodeExists in *.
      by rewrite Hnodes1. }
    exists g'. split; [exact Hrun|]. split_and!.
    + done.
    + congruence.
    + congruence.
    + intros u e He. by apply Hmono, Hmono1.
    + assert (H12 : conn g' f1 f2).
      { apply (conn_mono g1 g'); [done|]. split.
        - apply (reachable_edge g1 f1 _ He12).
        - apply (reachable_edge g1 f2 _ He21). }
      assert (Hf2h : f2 ∈ heads ((f2 :: r2) :: rest)).
      { apply elem_of_heads. exists r2. by left. }
      assert (Hall : forall a, a ∈ heads ((f1 :: r1) :: (f2 :: r2) :: rest) ->
                       conn g' f1 a).
      { intros a [ra Ha]%elem_of_heads.
        apply elem_of_cons in Ha as [Ha|Ha].
        - injection Ha as -> _. apply conn_refl.
        - eapply conn_trans; [exact H12|]. apply Hconn; [done|].
          apply elem_of_heads. eauto. }
      intros a b Ha Hb0.
      eapply conn_trans; [apply conn_sym, Hall, Ha | apply Hall, Hb0].
Qed.

(** ** [ensureConnectivity] *)

Lemma ensureConnectivity_run
    (calculateDistance : Q -> Q -> Q -> Q -> dist) (g : Graph) :
  (forall a b c d, dle (Fin 0) (calculateDistance a b c d)) ->
  two_way_built g -> 0 < numVertices g ->
  (forall v, in_range g v -> nodeExists g v = true) ->
  exists g',
    ensureConnectivity calculateDistance g = Returned g' /\
    two_way_built g' /\ numVertices g' = numVertices g /\
    nodes g' = nodes g /\
    (forall u e, has_edge g u e -> has_edge g' u e) /\
    (forall u v, in_range g u -> in_range g v -> conn g' u v).
Proof.
  intros Hpos Hb Hn Hreg.
  pose proof (two_way_wf g Hb) as Hwf.
  assert (Hsym : forall u e, has_edge g u e -> reachable g (destination e) u).
  { intros u e He.
    apply (reachable_edge g (destination e) (reverse_edge u e)).
    by apply two_way_symmetric. }
  pose proof (union_edges_inv g _ Hwf Hsym (parent_init_inv g)) as Hinv.
  destruct (collect_components_spec g _ Hinv) as [Hcomps Hcov].
  unfold ensureConnectivity, getNumVertices.
  set (comps := collect_components (numVertices g) _) in *.
  assert (Hcl : forall c, c ∈ component_list comps ->
            exists f rest, c = f :: rest /\ nodeExists g f = true).
  { intros c [r Hr]%elem_of_component_list.
    destruct (Hcomps r c Hr) as [Hne Hmem].
    destruct c as [|f rest]; [done|]. exists f, rest. split; [done|].
    apply Hreg. apply Hmem. by left. }
  assert (Hne : component_list comps <> []).
  { destruct (Hcov 0) as (r & c & Hr & _); [unfold in_range; lia|].
    intros E. assert (Hc : c ∈ component_list comps).
    { apply elem_of_component_list. eauto. }
    rewrite E in Hc. by apply elem_of_nil in Hc. }
  destruct (connect_components_spec calculateDistance (component_list comps)
              Hpos 0 g Hb Hne Hcl)
    as (g' & Hrun & Hb' & Hnum & Hnodes & Hmono & Hconn).
  exists g'. split; [exact Hrun|]. split_and!; try done.
  intros u v Hu Hv.
  assert (Hhead : forall x, in_range g x ->
            exists f, f ∈ heads (component_list comps) /\ conn g' x f).
  { intros x Hx. destruct (Hcov x Hx) as (r & c & Hr & Hxc).
    destruct (Hcomps r c Hr) as [Hcne Hmem].
    destruct c as [|f rest]; [done|]. exists f. split.
    - apply elem_of_heads. exists rest. apply elem_of_component_list. eauto.
    - apply (conn_mono g g'); [done|].
      eapply conn_trans; [apply (Hmem x Hxc)|].
      apply conn_sym, Hmem. by left. }
  destruct (Hhead u Hu) as (fu & Hfu & Hcu).
  destruct (Hhead v Hv) as (fv & Hfv & Hcv).
  eapply conn_trans; [exact Hcu|].
  eapply conn_trans; [apply (Hconn fu fv Hfu Hfv)|]. by apply conn_sym.
Qed.

(** ** The sets of the forest *)

Lemma reaches_root (parent : list Z) (r y : Z) :
  vget r parent r = r -> reaches parent r y -> y = r.
Proof.
  intros Hr Hy. induction Hy as [x|x y Hy IH]; [done|].
  rewrite Hr in Hy, IH. by apply IH.
Qed.

Lemma root_of_unique (parent : list Z) (x r1 r2 : Z) :
  root_of parent x r1 -> root_of parent x r2 -> r1 = r2.
Proof.
  intros [H1 Hr1] [H2 Hr2]. induction H1 as [x|x r1 H1 IH].
  - symmetry. by apply (reaches_root parent x r2).
  - inversion H2 as [|? ? H2']; subst.
    + assert (Hx : reaches parent r2 r1) by (by apply reaches_step).
      by apply (reaches_root parent r2 r1).
    + by apply IH.
Qed.

Lemma reaches_in_range (g : Graph) (rank : Z -> nat) (parent : list Z)
    (x r : Z) :
  uf_ok (numVertices g) rank parent -> in_range g x ->
  reaches parent x r -> in_range g r.
Proof.
  intros [_ Hpar] Hx Hr. induction Hr as [x|x r Hr IH]; [done|].
  apply IH. by apply Hpar.
Qed.

Lemma uf_find_roots (g : Graph) (rank : Z -> nat) (fuel : nat) :
  forall x parent,
    uf_ok (numVertices g) rank parent -> in_range g x ->
    (above (numVertices g) rank x < fuel)%nat ->
    length (snd (uf_find fuel x parent)) = length parent /\
    root_of parent x (fst (uf_find fuel x parent)) /\
    forall z, in_range g z ->
      vget z (snd (uf_find fuel x parent)) z = vget z parent z \/
      root_of parent z (vget z (snd (uf_find fuel x parent)) z).
Proof.
  induction fuel as [|fuel IH]; intros x parent Hok Hx Hfuel; [lia|].
  cbn [uf_find]. destruct (vget x parent x =? x) eqn:E; simpl.
  - apply Z.eqb_eq in E. rewrite E. split_and!; try done; [|by left].
    split; [apply reaches_refl|done].
  - apply Z.eqb_neq in E.
    destruct Hok as [Hlen Hpar]. destruct (Hpar x Hx) as [Hp Hrank].
    specialize (Hrank E).
    destruct (IH (vget x parent x) parent (conj Hlen Hpar) Hp)
      as (Hlen1 & [Hreach Hroot] & Hchar).
    { pose proof (above_lt (numVertices g) rank x _ Hp Hrank). lia. }
    destruct (uf_find fuel (vget x parent x) parent) as [r parent1] eqn:Hrun.
    simpl in *.
    assert (Hxl : 0 <= x < Z.of_nat (length parent1)).
    { rewrite Hlen1, Hlen. unfold in_range in Hx. lia. }
    rewrite (vget_vset_eq x parent1 x r Hxl).
    assert (Hxr : root_of parent x r).
    { split; [by apply reaches_step|done]. }
    split_and!.
    + by rewrite length_vset.
    + done.
    + intros z Hz. destruct (decide (z = x)) as [->|Hzx].
      * rewrite (vget_vset_eq x parent1 x r Hxl). by right.
      * rewrite vget_vset_ne by done. by apply Hchar.
Qed.

Lemma find_roots (g : Graph) (rank : Z -> nat) (x : Z) (parent : list Z) :
  uf_ok (numVertices g) rank parent -> in_range g x ->
  root_of parent x (fst (find x parent)) /\
  (forall z r, in_range g z -> root_of parent z r ->
     root_of (snd (find x parent)) z r).
Proof.
  intros Hok Hx. unfold find.
  destruct (uf_find_roots g rank (length parent) x parent Hok Hx)
    as (Hlen & Hroot & Hchar).
  { destruct Hok as [-> _]. by apply above_bound. }
  split; [done|].
  set (parent' := snd (uf_find (length parent) x parent)) in *.
  assert (Hkeep : forall r, in_range g r -> vget r parent r = r ->
                    vget r parent' r = r).
  { intros r Hr Hrr. destruct (Hchar r Hr) as [->|[Hre _]]; [done|].
    by apply (reaches_root parent r). }
  intros z r Hz [Hreach Hr].
  pose proof (reaches_in_range g rank parent z r Hok Hz Hreach) as Hrr.
  split; [|by apply Hkeep].
  assert (Hroot_r : vget r parent r = r) by done.
  clear Hrr. induction Hreach as [z|z r Hreach IH]; [apply reaches_refl|].
  destruct (Hchar z Hz) as [Heq|Hcomp].
  - apply reaches_step. rewrite Heq. apply IH; try done.
    destruct Hok as [_ Hpar]. by apply Hpar.
  - assert (Hzr : root_of parent z r).
    { split; [by apply reaches_step|done]. }
    apply reaches_step. rewrite (root_of_unique parent z _ _ Hcomp Hzr).
    apply reaches_refl.
Qed.

Lemma root_of_total (g : Graph) (rank : Z -> nat) (parent : list Z) (x : Z) :
  uf_ok (numVertices g) rank parent -> in_range g x ->
  exists r, root_of parent x r.
Proof.
  intros Hok Hx. exists (fst (find x parent)).
  by apply (find_roots g rank).
Qed.

Lemma same_set_refl (g : Graph) (rank : Z -> nat) (parent : list Z) (x : Z) :
  uf_ok (numVertices g) rank parent -> in_range g x -> same_set parent x x.
Proof.
  intros Hok Hx. destruct (root_of_total g rank parent x Hok Hx) as [r Hr].
  by exists r.
Qed.

Lemma same_set_sym (parent : list Z) (x y : Z) :
  same_set parent x y -> same_set parent y x.
Proof. intros (r & H1 & H2). by exists r. Qed.

Lemma same_set_trans (parent : list Z) (x y z : Z) :
  same_set parent x y -> same_set parent y z -> same_set parent x z.
Proof.
  intros (r & H1 & H2) (r' & H3 & H4).
  rewrite (root_of_unique parent y r r' H2 H3) in H1. by exists r'.
Qed.

Lemma reaches_vset_root (parent : list Z) (px py x r : Z) :
  vget px parent px = px -> reaches parent x r ->
  reaches (vset parent px py) x r.
Proof.
  intros Hpx Hr. induction Hr as [x|x r Hr IH]; [apply reaches_refl|].
  destruct (decide (x = px)) as [->|Hne].
  - rewrite Hpx in Hr. rewrite (reaches_root parent px r Hpx Hr).
    apply reaches_refl.
  - apply reaches_step. by rewrite vget_vset_ne.
Qed.

Lemma reaches_trans (parent : list Z) (x y z : Z) :
  reaches parent x y -> reaches parent y z -> reaches parent x z.
Proof.
  intros Hxy Hyz. induction Hxy as [x|x y Hxy IH]; [done|].
  apply reaches_step. by apply IH.
Qed.

Lemma unionSets_same_set (g : Graph) (rank : Z -> nat) (x y : Z)
    (parent : list Z) :
  uf_ok (numVertices g) rank parent -> linked g parent ->
  in_range g x -> in_range g y ->
  same_set (unionSets x y parent) x y /\
  forall a b, in_range g a -> in_range g b ->
    same_set parent a b -> same_set (unionSets x y parent) a b.
Proof.
  intros Hok Hlink Hx Hy.
  destruct (find_spec g rank x parent Hok Hlink Hx)
    as (px & parent1 & Hf1 & Hok1 & Hlink1 & Hpx & Hrx & _ & _ & _).
  destruct (find_roots g rank x parent Hok Hx) as [Hx1 Hkeep1].
  rewrite Hf1 in Hx1, Hkeep1. simpl in Hx1, Hkeep1.
  destruct (find_spec g rank y parent1 Hok1 Hlink1 Hy)
    as (py & parent2 & Hf2 & Hok2 & Hlink2 & Hpy & Hry & _ & _ & Hroots).
  destruct (find_roots g rank y parent1 Hok1 Hy) as [Hy2 Hkeep2].
  rewrite Hf2 in Hy2, Hkeep2. simpl in Hy2, Hkeep2.
  assert (Hx2 : root_of parent2 x px).
  { apply Hkeep2; [done|]. apply Hkeep1; [done|]. done. }
  assert (Hy3 : root_of parent2 y py) by (apply Hkeep2; done).
  assert (Hpres : forall a r, in_range g a -> root_of parent a r ->
                    root_of parent2 a r).
  { intros a r Ha Hr. apply Hkeep2; [done|]. by apply Hkeep1. }
  unfold unionSets. rewrite Hf1, Hf2.
  destruct (px =? py) eqn:E; simpl.
  - apply Z.eqb_eq in E. subst py. split; [by exists px|].
    intros a b Ha Hb (r & H1 & H2). exists r. split; by apply Hpres.
  - apply Z.eqb_neq in E.
    destruct Hok2 as [Hlen2 Hpar2].
    assert (Hpxl : 0 <= px < Z.of_nat (length parent2)).
    { rewrite Hlen2. unfold in_range in Hpx. lia. }
    assert (Hpx2 : vget px parent2 px = px) by apply Hx2.
    assert (Hmove : forall a r, root_of parent2 a r ->
              root_of (vset parent2 px py) a
                      (if decide (r = px) then py else r)).
    { intros a r [Hreach Hr].
      pose proof (reaches_vset_root parent2 px py a r Hpx2 Hreach) as Hre.
      destruct (decide (r = px)) as [->|Hne].
      - split.
        + apply (reaches_trans _ a px py); [done|].
          apply reaches_step.
          rewrite (vget_vset_eq px parent2 px py Hpxl). apply reaches_refl.
        + rewrite vget_vset_ne by done. apply Hy3.
      - split; [done|]. by rewrite vget_vset_ne. }
    split.
    + exists py. split.
      * pose proof (Hmove x px Hx2) as H. by rewrite decide_True in H.
      * pose proof (Hmove y py Hy3) as H. by rewrite decide_False in H.
    + intros a b Ha Hb (r & H1 & H2).
      exists (if decide (r = px) then py else r).
      split; apply Hmove; by apply Hpres.
Qed.

(** ** Every road joins two vertices of the same set *)

Lemma joined_step (g : Graph) (S : Z -> Z -> Prop) (parent : list Z)
    (a b : Z) :
  joined g S parent -> in_range g a -> in_range g b -> conn g a b ->
  joined g (fun u v => S u v \/ (u = a /\ v = b)) (unionSets a b parent).
Proof.
  intros [Hinv HS] Ha Hb Hab. split; [by apply unionSets_inv|].
  destruct Hinv as (rank & Hok & Hlink).
  destruct (unionSets_same_set g rank a b parent Hok Hlink Ha Hb)
    as [Hnew Hold].
  intros u v [Huv|[-> ->]]; [|done].
  destruct (HS u v Huv) as (Hu & Hv & Hsame). split_and!; try done.
  by apply Hold.
Qed.

Lemma joined_weaken (g : Graph) (S S' : Z -> Z -> Prop) (parent : list Z) :
  (forall u v, S' u v -> S u v) -> joined g S parent -> joined g S' parent.
Proof. intros Hsub [Hinv HS]. split; [done|]. intros a b Hab. auto. Qed.

Lemma union_edges_joined (g : Graph) :
  wf_graph g ->
  (forall u e, has_edge g u e -> reachable g (destination e) u) ->
  joined g (fun u v => exists e, has_edge g u e /\ v = destination e)
         (union_edges g (parent_init (numVertices g))).
Proof.
  intros Hwf Hsym. unfold union_edges, getNumVertices.
  pose proof (fold_left_inv_prefix
    (fun pre p =>
       joined g (fun u v => u ∈ pre /\
                   exists e, e ∈ adj_at g u /\ v = destination e) p)
    (fun parent i =>
       fold_left (fun parent edge => unionSets i (destination edge) parent)
                 (adj_at g i) parent)
    (Z.of_nat <$> seq 0 (Z.to_nat (numVertices g)))
    (parent_init (numVertices g))) as H.
  eapply joined_weaken; [|apply H].
  - intros u v (e & [Hu He]%has_edge_iff & ->).
    split; [by apply elem_of_vertices|]. eauto.
  - split; [apply parent_init_inv|]. intros a b [Ha _].
    by apply elem_of_nil in Ha.
  - intros pre p i Hi Hp. apply elem_of_vertices in Hi.
    pose proof (fold_left_inv_prefix
      (fun epre p' =>
         joined g (fun u v =>
                     (u ∈ pre /\ exists e, e ∈ adj_at g u /\
                                           v = destination e) \/
                     (u = i /\ exists e, e ∈ epre /\ v = destination e)) p')
      (fun parent edge => unionSets i (destination edge) parent)
      (adj_at g i) p) as Hin.
    eapply joined_weaken; [|apply Hin].
    + intros u v [[Hu|Hu%list_elem_of_singleton]%elem_of_app He].
      * left. done.
      * right. subst u. done.
    + eapply joined_weaken; [|exact Hp].
      intros u v [Huv|[_ (e & He & _)]]; [done|].
      by apply elem_of_nil in He.
    + intros epre p' e He Hp'.
      destruct (validate_edge g i e Hwf Hi He) as [Hd _].
      assert (Hedge : has_edge g i e) by (by apply has_edge_iff).
      eapply joined_weaken; [|apply (joined_step g _ p' i (destination e) Hp')];
        try done.
      * intros u v [Huv|[-> (e' & He' & ->)]].
        -- left. by left.
        -- apply elem_of_app in He' as [He'|He'%list_elem_of_singleton].
           ++ left. right. eauto.
           ++ right. by subst e'.
      * split; [by apply reachable_edge | by apply Hsym].
Qed.

Lemma walk_same_set (g : Graph) (parent : list Z) (es : list Edge) :
  joined g (fun u v => exists e, has_edge g u e /\ v = destination e)
         parent ->
  forall x y, in_range g x -> is_walk g x es y -> same_set parent x y.
Proof.
  intros [(rank & Hok & _) HS].
  induction es as [|e es IH]; intros x y Hx Hw.
  - simpl in Hw. subst y. by apply (same_set_refl g rank).
  - destruct Hw as [He Hw].
    destruct (HS x (destination e)) as (_ & Hd & Hsame); [eauto|].
    eapply same_set_trans; [exact Hsame|]. by apply IH.
Qed.

(** ** One set, one component *)

Lemma map_to_list_single {V} (m : gmap Z V) (k0 : Z) (v0 : V) :
  (forall k v, m !! k = Some v -> k = k0) -> m !! k0 = Some v0 ->
  map_to_list m = [(k0, v0)].
Proof.
  intros Hall Hk0. assert (m = {[k0 := v0]}) as ->.
  { apply map_eq. intros k. destruct (decide (k = k0)) as [->|Hne].
    - by rewrite lookup_singleton_eq.
    - rewrite lookup_singleton_ne by done.
      destruct (m !! k) as [v|] eqn:E; [|done]. by apply Hall in E. }
  apply map_to_list_singleton.
Qed.

Lemma collect_components_single (g : Graph) (parent : list Z) :
  uf_inv g parent -> 0 < numVertices g ->
  (forall x, in_range g x -> same_set parent x 0) ->
  exists c, component_list (collect_components (numVertices g) parent) = [c].
Proof.
  intros Hinv Hn Hall.
  assert (H0 : in_range g 0) by (unfold in_range; lia).
  destruct (collect_components_spec g parent Hinv) as [_ Hcov].
  destruct (Hcov 0 H0) as (r0 & c0 & Hr0 & _).
  unfold collect_components in *.
  pose proof (fold_left_inv
    (fun st : list Z * gmap Z (list Z) =>
       uf_inv g (fst st) /\
       (forall x, in_range g x -> same_set (fst st) x 0) /\
       (forall r c, snd st !! r = Some c -> root_of (fst st) 0 r))
    push_component (Z.of_nat <$> seq 0 (Z.to_nat (numVertices g)))
    (parent, ∅)) as H.
  destruct H as (_ & _ & Hkeys).
  - simpl. split_and!; done.
  - intros st i Hi ((rank & Hok & Hlink) & Hsame & Hkeys).
    apply elem_of_vertices in Hi. unfold push_component.
    destruct (find_spec g rank i (fst st) Hok Hlink Hi)
      as (root & parent1 & Hf & Hok1 & Hlink1 & _).
    destruct (find_roots g rank i (fst st) Hok Hi) as [Hroot Hkeep].
    rewrite Hf in Hroot, Hkeep |- *. simpl in Hroot, Hkeep |- *.
    split_and!.
    + by exists rank.
    + intros x Hx. destruct (Hsame x Hx) as (r & H1 & H2).
      exists r. split; by apply Hkeep.
    + intros r c Hr. destruct (decide (r = root)) as [->|Hne].
      * destruct (Hsame i Hi) as (r' & H1 & H2).
        rewrite (root_of_unique _ i root r' Hroot H1). by apply Hkeep.
      * rewrite lookup_insert_ne in Hr by done.
        apply Hkeep; [done|]. by apply (Hkeys r c).
  - exists c0. unfold component_list, unordered_iter.
    erewrite (map_to_list_single _ r0 c0); [done| |exact Hr0].
    intros k v Hk.
    eapply (root_of_unique _ 0 k r0); [by apply (Hkeys k v)|].
    by apply (Hkeys r0 c0).
Qed.

Lemma ensureConnectivity_connected
    (calculateDistance : Q -> Q -> Q -> Q -> dist) (g : Graph) :
  two_way_built g -> 0 < numVertices g ->
  (forall v, in_range g v -> reachable g 0 v) ->
  ensureConnectivity calculateDistance g = Returned g.
Proof.
  intros Hb Hn Hconn.
  pose proof (two_way_wf g Hb) as Hwf.
  assert (Hsym : forall u e, has_edge g u e -> reachable g (destination e) u).
  { intros u e He.
    apply (reachable_edge g (destination e) (reverse_edge u e)).
    by apply two_way_symmetric. }
  pose proof (union_edges_joined g Hwf Hsym) as Hj.
  pose proof (union_edges_inv g _ Hwf Hsym (parent_init_inv g)) as Hinv.
  assert (H0 : in_range g 0) by (unfold in_range; lia).
  destruct (collect_components_single g _ Hinv Hn) as [c Hc].
  { intros x Hx. apply same_set_sym.
    destruct (Hconn x Hx) as [es Hw].
    by apply (walk_same_set g _ es Hj 0 x). }
  unfold ensureConnectivity, getNumVertices. by rewrite Hc.
Qed.

(** ** What [ensureConnectivity] guarantees *)



(** X25.  On a graph without vertices [ensureConnectivity] reads outside
    a vector: the list of components is empty, the bound
    [componentList.size() - 1] of the last loop is computed without sign
    and is not below zero, and the first iteration reads
    [componentList[0]]. *)
Theorem ensureConnectivity_no_vertices
    (calculateDistance : Q -> Q -> Q -> Q -> dist) (g : Graph) :
  numVertices g = 0 ->
  component_list
    (collect_components (getNumVertices g)
       (union_edges g (parent_init (getNumVertices g)))) = [] /\
  ensureConnectivity calculateDistance g = OutOfRange.
Proof.
  intros Hn. unfold ensureConnectivity, union_edges, collect_components,
    parent_init, getNumVertices.
  rewrite Hn. simpl.
  unfold component_list, unordered_iter. rewrite map_to_list_empty. done.
Qed.

Lemma ensureConnectivity_no_vertices_witness :
  component_list
    (collect_components (getNumVertices empty_graph)
       (union_edges empty_graph (parent_init (getNumVertices empty_graph))))
    = [] /\
  ensureConnectivity unit_distance empty_graph = OutOfRange.
Proof.
  apply (ensureConnectivity_no_vertices unit_distance empty_graph).
  vm_compute. reflexivity.
Defined.

(** X26.  [ensureConnectivity] adds a road only where one is needed: on
    a graph built with two-way roads only in which every location can be
    reached from every other one it returns the graph as it is; hence a
    second call after a first one that returned changes nothing. *)
Theorem ensureConnectivity_idempotent
    (calculateDistance : Q -> Q -> Q -> Q -> dist) (g : Graph) :
  two_way_built g -> 0 < numVertices g ->
  ((forall u v, in_range g u -> in_range g v -> reachable g u v) ->
   ensureConnectivity calculateDistance g = Returned g) /\
  ((forall a b c d, dle (Fin 0) (calculateDistance a b c d)) ->
   (forall v, in_range g v -> nodeExists g v = true) ->
   exists g',
     ensureConnectivity calculateDistance g = Returned g' /\
     ensureConnectivity calculateDistance g' = Returned g').
Proof.
  intros Hb Hn.
  assert (H0 : in_range g 0) by (unfold in_range; lia).
  split.
  - intros Hconn. apply ensureConnectivity_connected; try done.
    intros v Hv. by apply Hconn.
  - intros Hpos Hreg.
    destruct (ensureConnectivity_run calculateDistance g Hpos Hb Hn Hreg)
      as (g' & Hrun & Hb' & Hnum & _ & _ & Hconn).
    exists g'. split; [exact Hrun|].
    apply ensureConnectivity_connected; [done|lia|].
    intros v Hv. destruct (Hconn 0 v) as [Hr _]; [done| |exact Hr].
    unfold in_range in *. lia.
Qed.

Lemma ensureConnectivity_idempotent_witness :
  exists g',
    ensureConnectivity unit_distance island_graph = Returned g' /\
    ensureConnectivity unit_distance g' = Returned g'.
Proof.
  destruct (ensureConnectivity_idempotent unit_distance island_graph)
    as [_ Hsecond].
  - apply (two_way_addEdge 0 1 (Fin 4) EmptyString
             (graph_of (and_then (Graph_new 3) (fun g =>
                        and_then (addNode 0 "A" 0 0 g) (fun g =>
                        and_then (addNode 1 "B" 0 0 g)
                                 (addNode 2 "C" 0 0))))));
      [|vm_compute; reflexivity].
    apply (two_way_addNode 2 "C" 0 0
             (graph_of (and_then (Graph_new 3) (fun g =>
                        and_then (addNode 0 "A" 0 0 g)
                                 (addNode 1 "B" 0 0)))));
      [|vm_compute; reflexivity].
    apply (two_way_addNode 1 "B" 0 0
             (graph_of (and_then (Graph_new 3) (addNode 0 "A" 0 0))));
      [|vm_compute; reflexivity].
    apply (two_way_addNode 0 "A" 0 0 (graph_of (Graph_new 3)));
      [|vm_compute; reflexivity].
    apply (two_way_new 3). vm_compute. reflexivity.
  - vm_compute. reflexivity.
  - apply Hsecond.
    + intros a b c d. unfold unit_distance. apply dle_Fin. lra.
    + intros v Hv.
      assert (Hc : v = 0 \/ v = 1 \/ v = 2).
      { unfold in_range in Hv. simpl in Hv. lia. }
      destruct Hc as [->|[->| ->]]; vm_compute; reflexivity.
Defined.

(** ** The order in which the vertices are processed *)

Lemma dijkstra_loop_stats_fst (g : Graph) (fuel : nat) (st : DState)
    (stats : LoopStats) :
  fst (dijkstra_loop_stats g fuel st stats) = dijkstra_loop g fuel st.
Proof.
  revert st stats. induction fuel as [|fuel IH]; intros st stats.
  - simpl. by destruct (isEmpty (st_pq st)).
  - cbn [dijkstra_loop_stats dijkstra_loop].
    destruct (isEmpty (st_pq st)); [done|].
    destruct (extractMin (st_pq st)) as [current pq1].
    destruct (dgt _ _); [apply IH|].
    destruct (getAdjacentNodes g (vertex current)); [apply IH|done].
Qed.

(** A settled vertex keeps its distance when an edge is relaxed. *)
Lemma relax_edge_settled (g : Graph) (source u : Z) (settled : list Z)
    (e : Edge) (rest : list Edge) (st : DState) (s : Z) :
  wf_graph g -> last settled = Some u -> e ∈ adj_at g u ->
  dijkstra_inv g source settled (e :: rest) st -> s ∈ settled ->
  dist_of (relax_edge u st e) s = dist_of st s.
Proof.
  intros Hwf Hlast He Hinv Hs.
  pose proof (last_elem_of _ _ Hlast) as Hu.
  destruct (inv_settled _ _ _ _ _ Hinv u Hu) as [Hur Hufin].
  destruct (validate_edge g u e Hwf Hur He) as [Hvr Hw].
  unfold relax_edge. cbv zeta.
  change (vget Inf (st_distances st) u) with (dist_of st u).
  change (vget Inf (st_distances st) (destination e))
    with (dist_of st (destination e)).
  destruct (dlt (dplus (dist_of st u) (weight e))
                (dist_of st (destination e))) eqn:Hlt; [|done].
  assert (Hne : s <> destination e).
  { intros ->. apply (dlt_not_dle _ _ Hlt).
    eapply dle_trans; [|apply dplus_nonneg; [by eapply inv_double | done]].
    by apply (inv_last _ _ _ _ _ Hinv). }
  rewrite dist_of_vset.
  - by rewrite decide_False.
  - rewrite (inv_len_d _ _ _ _ _ Hinv). unfold in_range in Hvr. lia.
Qed.

Lemma relax_edges_settled (g : Graph) (source u : Z) (settled : list Z)
    (edges : list Edge) (st : DState) (s : Z) :
  wf_graph g -> last settled = Some u ->
  (forall e, e ∈ edges -> e ∈ adj_at g u) ->
  dijkstra_inv g source settled edges st -> s ∈ settled ->
  dist_of (fold_left (relax_edge u) edges st) s = dist_of st s.
Proof.
  intros Hwf Hlast. revert st.
  induction edges as [|e edges IH]; intros st Hsub Hinv Hs; [done|].
  simpl. rewrite IH.
  - apply (relax_edge_settled g source u settled e edges); try done.
    apply Hsub. by left.
  - intros e' He'. apply Hsub. by right.
  - apply relax_edge_inv; try done. apply Hsub. by left.
  - done.
Qed.

Lemma StronglySorted_snoc {A} (R : A -> A -> Prop) (l : list A) (a : A) :
  StronglySorted R l -> (forall x, x ∈ l -> R x a) ->
  StronglySorted R (l ++ [a]).
Proof.
  induction 1 as [|x l Hl IH Hx]; intros Ha; simpl.
  - repeat constructor.
  - constructor.
    + apply IH. intros y Hy. apply Ha. by right.
    + apply Forall_app. split; [done|]. constructor; [|done].
      apply Ha. by left.
Qed.

Lemma dijkstra_loop_stats_done (g : Graph) (source : Z) (fuel : nat)
    (settled : list Z) (st : DState) (procs : list HeapNode) :
  wf_graph g -> dijkstra_inv g source settled [] st ->
  (Z.to_nat (numVertices g) - length settled <= fuel)%nat ->
  vertex <$> procs = settled ->
  (forall x, x ∈ procs -> distance x = dist_of st (vertex x)) ->
  StronglySorted by_distance procs ->
  exists settled' st' procs',
    dijkstra_loop_stats g fuel st
      (mkLoopStats (Z.of_nat (length procs)) procs 0) =
      (st', LoopDone, mkLoopStats (Z.of_nat (length procs')) procs' 0) /\
    dijkstra_inv g source settled' [] st' /\
    heap (st_pq st') = [] /\
    vertex <$> procs' = settled' /\
    (forall x, x ∈ procs' -> distance x = dist_of st' (vertex x)) /\
    StronglySorted by_distance procs'.
Proof.
  intros Hwf. revert settled st procs.
  induction fuel as [|fuel IH];
    intros settled st procs Hinv Hfuel Hprocs Hdist Hsorted.
  - destruct (isEmpty (st_pq st)) eqn:He.
    { exists settled, st, procs. simpl. rewrite He.
      split_and!; try done. by apply isEmpty_true. }
    destruct (extract_inv g source settled st Hwf Hinv He) as (_ & _ & Hinv1).
    apply settled_bound in Hinv1. rewrite length_app in Hinv1. simpl in Hinv1.
    lia.
  - destruct (isEmpty (st_pq st)) eqn:He.
    { exists settled, st, procs. simpl. rewrite He.
      split_and!; try done. by apply isEmpty_true. }
    destruct (extract_inv g source settled st Hwf Hinv He)
      as (Hstale & Hur & Hinv1).
    destruct (extractMin_spec _ (inv_heap _ _ _ _ _ Hinv) He)
      as ([Hmin_in _] & _ & _).
    destruct (inv_queue _ _ _ _ _ Hinv _ Hmin_in) as (_ & Hd & _ & _).
    cbn [dijkstra_loop_stats]. rewrite He.
    rewrite (surjective_pairing (extractMin (st_pq st))).
    set (current := fst (extractMin (st_pq st))) in *.
    set (pq1 := snd (extractMin (st_pq st))) in *.
    change (vget Inf (st_distances st)) with (dist_of st).
    rewrite Hstale, (getAdjacentNodes_Ok g _ Hur). simpl.
    set (st1 := mkDState (st_distances st) (st_predecessors st) pq1) in *.
    assert (Hlast : last (settled ++ [vertex current]) = Some (vertex current))
      by (by rewrite last_snoc).
    pose proof (relax_edges_inv g source (vertex current)
                  (settled ++ [vertex current]) (adj_at g (vertex current))
                  st1 Hwf Hlast (fun e He => He) Hinv1) as Hinv2.
    assert (Hkeep : forall s, s ∈ settled ++ [vertex current] ->
              dist_of (fold_left (relax_edge (vertex current))
                         (adj_at g (vertex current)) st1) s = dist_of st s).
    { intros s Hs.
      by rewrite (relax_edges_settled g source (vertex current)
                    (settled ++ [vertex current]) _ st1 s Hwf Hlast
                    (fun e He => He) Hinv1 Hs). }
    destruct (IH (settled ++ [vertex current]) _ (procs ++ [current]) Hinv2)
      as (settled' & st' & procs' & Hrun & Hinv' & Hempty & Hp' & Hd' & Hs').
    { rewrite length_app. simpl. lia. }
    { by rewrite fmap_app, Hprocs. }
    { intros x [Hx| ->%list_elem_of_singleton]%elem_of_app.
      - rewrite Hkeep; [by apply Hdist|].
        apply elem_of_app. left. rewrite <- Hprocs.
        apply list_elem_of_fmap. eauto.
      - rewrite Hkeep; [done|]. apply elem_of_app. right.
        by apply list_elem_of_singleton. }
    { apply StronglySorted_snoc; [done|]. intros x Hx. unfold by_distance.
      rewrite (Hdist x Hx), <- Hd.
      apply (inv_last _ _ _ _ _ Hinv1 (vertex x) (vertex current));
        [|done].
      apply elem_of_app. left. rewrite <- Hprocs.
      apply list_elem_of_fmap. eauto. }
    exists settled', st', procs'. split_and!; try done.
    rewrite <- Hrun. f_equal. f_equal.
    rewrite length_app. simpl. lia.
Qed.

(** X27.  On a well-formed graph and for a registered source the main
    loop of [findShortestPaths] processes exactly the vertices that a walk
    of finite length joins to the source (the weights added in double
    arithmetic), which are the vertices with a finite distance, each of
    them once, in order of non-decreasing distance, and the distance
    logged for a vertex is the distance returned for it; [nodesProcessed]
    is their number; the [continue] for an entry of the heap that is out
    of date is never reached. *)
Theorem dijkstra_processing_order (g : Graph) (source : Z) :
  wf_graph g -> nodeExists g source = true ->
  skipped (findShortestPaths_stats g source) = 0 /\
  nodesProcessed (findShortestPaths_stats g source) =
    Z.of_nat (length (processing (findShortestPaths_stats g source))) /\
  NoDup (vertex <$> processing (findShortestPaths_stats g source)) /\
  (forall v, v ∈ vertex <$> processing (findShortestPaths_stats g source) <->
             in_range g v /\
             exists es, is_walk g source es v /\ walk_len es <> Inf) /\
  (forall v, v ∈ vertex <$> processing (findShortestPaths_stats g source) <->
             in_range g v /\
             vget Inf (distances (findShortestPaths g source)) v <> Inf) /\
  (forall x, x ∈ processing (findShortestPaths_stats g source) ->
     distance x =
       vget Inf (distances (findShortestPaths g source)) (vertex x)) /\
  StronglySorted by_distance (processing (findShortestPaths_stats g source)) /\
  fst (dijkstra_loop_stats g (dijkstra_fuel g) (dijkstra_init g source)
         (mkLoopStats 0 [] 0)) =
    dijkstra_loop g (dijkstra_fuel g) (dijkstra_init g source).
Proof.
  intros Hwf Hex. pose proof (nodeExists_in_range g source Hwf Hex) as Hs.
  pose proof (dijkstra_init_inv g source Hwf Hs) as Hinit.
  destruct (dijkstra_loop_stats_done g source (dijkstra_fuel g) [] _ []
              Hwf Hinit)
    as (settled & st & procs & Hrun & Hinv & Hempty & Hp & Hd & Hsorted).
  { unfold dijkstra_fuel. simpl. lia. }
  { done. }
  { intros x Hx. by apply elem_of_nil in Hx. }
  { constructor. }
  change (Z.of_nat (length (@nil HeapNode))) with 0 in Hrun.
  pose proof (dijkstra_loop_stats_fst g (dijkstra_fuel g)
                (dijkstra_init g source) (mkLoopStats 0 [] 0)) as Hfst.
  unfold findShortestPaths_stats. rewrite Hrun in Hfst |- *. simpl in Hfst.
  simpl. rewrite Hp.
  assert (Hres : findShortestPaths g source =
                 mkDijkstraResult (st_distances st) (st_predecessors st) true
                   EmptyString).
  { unfold findShortestPaths, findShortestPaths_fuel.
    rewrite Hex, <- Hfst. done. }
  split_and!; try done.
  - apply (inv_nodup _ _ _ _ _ Hinv).
  - intros v. split.
    + intros Hv. destruct (inv_settled _ _ _ _ _ Hinv v Hv) as [Hvr Hfin].
      split; [done|].
      destruct (dist_of st v) as [d|] eqn:Ed; [|done].
      destruct (inv_walk _ _ _ _ _ Hinv v d Hvr Ed) as (es & Hw & Hlen).
      exists es. by rewrite Hlen.
    + intros [Hvr (es & Hw & Hlen)].
      pose proof (final_lower_bound g source settled st es v Hwf Hs Hinv
                    Hempty Hw) as Hle.
      assert (Hfin : dist_of st v <> Inf).
      { intros E. rewrite E in Hle. by apply dle_Inf_l in Hle. }
      destruct (inv_finite _ _ _ _ _ Hinv v Hvr Hfin) as [Hset|(x & Hx & _)];
        [done|].
      rewrite Hempty in Hx. by apply elem_of_nil in Hx.
  - intros v. rewrite Hres. simpl. split.
    + intros Hv. by apply (inv_settled _ _ _ _ _ Hinv v Hv).
    + intros [Hvr Hfin].
      destruct (inv_finite _ _ _ _ _ Hinv v Hvr Hfin) as [Hset|(x & Hx & _)];
        [done|].
      rewrite Hempty in Hx. by apply elem_of_nil in Hx.
  - intros x Hx. rewrite Hres. simpl. by apply Hd.
Qed.

(** An instance of X27: behind two roads of [2^1023] the third location
    can be reached, but its distance overflows and it is not processed. *)
Lemma dijkstra_processing_order_witness :
  skipped (findShortestPaths_stats overflow_graph 0) = 0 /\
  nodesProcessed (findShortestPaths_stats overflow_graph 0) = 2 /\
  vertex <$> processing (findShortestPaths_stats overflow_graph 0) = [0; 1] /\
  StronglySorted by_distance
    (processing (findShortestPaths_stats overflow_graph 0)) /\
  reachable overflow_graph 0 2 /\
  vget Inf (distances (findShortestPaths overflow_graph 0)) 2 = Inf.
Proof.
  destruct (dijkstra_processing_order overflow_graph 0)
    as (H1 & _ & _ & _ & _ & _ & H6 & _).
  - apply overflow_graph_wf.
  - vm_compute. reflexivity.
  - split; [exact H1|]. split; [vm_compute; reflexivity|].
    split; [vm_compute; reflexivity|]. split; [exact H6|].
    split; [exists overflow_walk; apply overflow_walk_is_walk|].
    vm_compute; reflexivity.
Defined.

(** ** Drivers at the same distance *)

Lemma nearest_step_first (g : Graph) (pickup : Z) (seen : list Driver)
    (acc : NearestAcc) (d : Driver) :
  nearest_ok g pickup seen acc -> nearest_first g pickup seen acc ->
  nearest_first g pickup (seen ++ [d]) (nearest_step g pickup acc d).
Proof.
  unfold nearest_first, nearest_step. fold (path_to g pickup d).
  intros Hok Hfirst.
  destruct (found (path_to g pickup d) &&
            dlt (totalDistance (path_to g pickup d)) (minDistance acc))
    eqn:Ec; simpl.
  - apply andb_true_iff in Ec as [Ef El].
    exists (length seen). split.
    + by rewrite lookup_app_r, Nat.sub_diag by lia.
    + intros j d' Hj Hd' Hf'. rewrite lookup_app_l in Hd' by done.
      assert (Hin : d' ∈ seen) by (apply list_elem_of_lookup; eauto).
      unfold nearest_ok in Hok.
      destruct (nearestDriver acc) as [best|].
      * destruct Hok as (_ & _ & _ & _ & Hmin).
        eapply dlt_dle_trans; [exact El|]. by apply Hmin.
      * destruct Hok as [_ Hnone]. rewrite (Hnone d' Hin) in Hf'. done.
  - destruct (nearestDriver acc) as [best|]; [|done].
    destruct Hfirst as (i & Hi & Hbefore).
    exists i. split.
    + rewrite lookup_app_l; [done|]. by eapply lookup_lt_Some.
    + intros j d' Hj Hd' Hf'. apply (Hbefore j d' Hj); [|done].
      rewrite lookup_app_l in Hd'; [done|].
      apply lookup_lt_Some in Hi. lia.
Qed.

Lemma nearest_fold_first (g : Graph) (pickup : Z) (l seen : list Driver)
    (acc : NearestAcc) :
  nearest_ok g pickup seen acc -> nearest_first g pickup seen acc ->
  nearest_first g pickup (seen ++ l) (fold_left (nearest_step g pickup) l acc).
Proof.
  revert seen acc. induction l as [|d l IH]; intros seen acc Hok Hfirst; simpl.
  - by rewrite app_nil_r.
  - rewrite (cons_middle d seen l), app_assoc.
    apply IH; [by apply nearest_step_ok | by apply nearest_step_first].
Qed.

(** X28.  Among drivers at the same smallest distance the search keeps
    the first one it meets: the driver selected by [findNearestDriver]
    stands at some position of the vector returned by
    [getAvailableDrivers], every driver before that position with a route
    to the pickup is strictly farther away, and no driver after it is
    nearer.  (The order of that vector is the iteration order of the hash
    map of drivers.) *)
Theorem nearest_driver_first_among_equals (pickup : Z) (m : RideMatcher) :
  nd_found (fst (findNearestDriver pickup m)) = true ->
  exists i,
    getAvailableDrivers (driverManager m) !! i =
      Some (nd_driver (fst (findNearestDriver pickup m))) /\
    (forall j d, (j < i)%nat ->
       getAvailableDrivers (driverManager m) !! j = Some d ->
       found (path_to (graph m) pickup d) = true ->
       dlt (nd_distance (fst (findNearestDriver pickup m)))
           (totalDistance (path_to (graph m) pickup d)) = true) /\
    (forall j d, (i < j)%nat ->
       getAvailableDrivers (driverManager m) !! j = Some d ->
       found (path_to (graph m) pickup d) = true ->
       dle (nd_distance (fst (findNearestDriver pickup m)))
           (totalDistance (path_to (graph m) pickup d))).
Proof.
  rewrite fst_findNearestDriver. cbv zeta.
  pose proof (nearest_search_ok (graph m) (driverManager m) pickup) as Hok.
  pose proof (nearest_fold_first (graph m) pickup
                (getAvailableDrivers (driverManager m)) []
                (mkNearestAcc Inf None [] [])
                (nearest_init_ok _ _ _) I) as Hfirst.
  rewrite app_nil_l in Hfirst. fold (nearest_search (graph m) (driverManager m)
                                       pickup) in Hfirst.
  unfold nearest_ok in Hok. unfold nearest_first in Hfirst.
  destruct (nearestDriver (nearest_search (graph m) (driverManager m) pickup))
    as [best|]; simpl; [|done].
  intros _. destruct Hfirst as (i & Hi & Hbefore).
  destruct Hok as (_ & _ & _ & _ & Hmin).
  exists i. split_and!; try done.
  intros j d _ Hd Hf. apply Hmin; [|done].
  apply list_elem_of_lookup. eauto.
Qed.

Lemma nearest_driver_first_among_equals_witness :
  exists i,
    getAvailableDrivers (driverManager twin_matcher) !! i =
      Some (nd_driver (fst (findNearestDriver 3 twin_matcher))) /\
    (forall j d, (j < i)%nat ->
       getAvailableDrivers (driverManager twin_matcher) !! j = Some d ->
       found (path_to (graph twin_matcher) 3 d) = true ->
       dlt (nd_distance (fst (findNearestDriver 3 twin_matcher)))
           (totalDistance (path_to (graph twin_matcher) 3 d)) = true) /\
    (forall j d, (i < j)%nat ->
       getAvailableDrivers (driverManager twin_matcher) !! j = Some d ->
       found (path_to (graph twin_matcher) 3 d) = true ->
       dle (nd_distance (fst (findNearestDriver 3 twin_matcher)))
           (totalDistance (path_to (graph twin_matcher) 3 d))).
Proof.
  apply (nearest_driver_first_among_equals 3 twin_matcher).
  vm_compute. reflexivity.
Defined.
